(* ===== verification/_CoqProject ===== *)
-Q . S2P
Prelude.v
Clauses.v
NarrowAnd.v
NarrowOr.v
Network.v
Ranking.v
PyStr.v
Driver.v
Generator.v
AddFx.v
Merge.v
Graph.v
Hnd.v
Auc.v
Json.v
Ground.v
TransNode.v
TransMain.v
Plot.v
