(* ===== verification/Prelude.v ===== *)
(** * A verification development of BINGO (petablox/pldi19-artifact)

    BINGO ranks the alarms of a static analysis by the probability that
    they are real bugs, and refines the ranking with one piece of user
    feedback per round.  The Python sources under [src/] form a pipeline:

    - [src/bingo/generate-named-cons.py] turns the derivation rows of the
      Datalog analysis into ground Horn clauses ("named constraints");
      [add-fx.py] adds an [FX] hypothesis to every alarm clause; [mb.py]
      and [mb-eps.py] merge the clauses of an old and a new version of the
      analysed program into one clause file with old and new tuple copies;
    - [src/bingo/cons_all2bnet.py] reads the clauses, bounds the number of
      antecedents of every clause ("narrowand") and the number of clauses
      deriving every tuple ("narrowor") by splitting with fresh auxiliary
      tuples, numbers the clauses and derived tuples, and prints a
      dictionary and a Bayesian network description;
    - [src/bingo/driver.py] talks to an external belief-propagation engine
      (LibDAI's [wrapper.cpp], not part of the sources) over a
      one-line-request, one-line-response pipe, and runs the "alarm
      carousel": rank the unlabelled alarms by belief, reveal the ground
      truth of the best one, feed it back as evidence, mask its dependents,
      and record statistics;
    - [src/bingo/hnd.py] builds the derivation graphs of two versions
      ([graph.py]) and prints the new alarms without a new derivation;
      [translate-cons.py] renames the nodes of the old version's clauses
      to the new version's, from the analyser's node tables and a line
      matching; [generate-ground-truth.py] extracts the labelled alarms;
      [src/script/auc.py] scores a ranking.

    ** Layout of the library (in dependency order)

    - [Prelude] (this file): Python exceptions as the error type [exc] and
      the result type [res] with stdpp's monad notation and [assert!];
      Python's set-iteration order as an arbitrary enumeration [Enum]
      (every theorem holds for every iteration order, as the code runs
      under hash randomisation), with [set_pop] for [set.pop()];
      [dict_get] for [d[k]] ([KeyError]) and [py_index] for [l[i]]
      ([IndexError]); [wsum], a sum over a finite set used by the
      termination measures; the names of fresh auxiliary tuples; the
      evaluation tactics of the witnesses; the hint database [bingo].
    - [Clauses]: the Clause Store of [cons_all2bnet.py] (lines 24-65):
      literals and clauses as the script's strings and tuples of strings,
      the line parser ([re.split(':|, ', line)], [str.strip]) and the
      loading loop into the record [CState] of the four globals; the
      meaning of a clause set, [derivable]; the invariant [wf_state].
    - [NarrowAnd], [NarrowOr]: the two narrowing loops (lines 70-212), one
      [while] iteration per definition ([narrow_and_body],
      [narrow_or_split]), the loops with fuel, the consequent index
      [build_index] of lines 131-134 and its reference [ref_index].
    - [Network]: node numbering, dictionary and network lines (214-252);
      [cons_all2bnet] composes the whole script with its two flags.
    - [Ranking]: [getRankedAlarms]' sort key and [getInversionCount].
    - [PyStr]: [str.split], [re.split(' |\t', s)] and the strip facts the
      driver's line handling needs.
    - [Driver]: [driver.py]: setup into [DEnv], the session state
      [DState] (labels, engine state, stdout, written files), [observe],
      the carousel ([carousel_round], [carousel_loop]) and every command
      handler of the command loop.  The engine is the type class
      [Wrapper] and Python's number conversions the class [PyNum]: the
      client's theorems are proved for every instance, and the file
      evaluates its witnesses with a table engine.
    - [Generator]: [generate-named-cons.py], every rule template.
    - [AddFx]: [add-fx.py].
    - [Merge]: [mb.py] and [mb-eps.py]: marking, [makeCombinations], the
      clause split and the output files.
    - [Graph]: [graph.py]'s [build_graph] and [get_vertex], and
      [util.read_alarm]; the graph_tool graph as a list of vertex
      properties and an edge list.  [graph.py] never binds [Graph]:
      [build_graph] takes that binding as a flag, [false] as shipped,
      and then raises [NameError].
    - [Hnd]: [hnd.py]: tuple and consequent sets, field statistics, the
      successor maps, the [while waitingClauses] closure and its meaning
      [reach], and the script [hnd_main].
    - [Auc]: [auc.py], with floats as exact rationals.
    - [Json]: the values [json.load] returns and the Python operations
      the scripts apply to them, each raising what Python raises.
    - [Ground]: [generate-ground-truth.py].
    - [TransNode]: [translate-cons.py] lines 30-351: the globals as the
      record [TState], [trans_location] and its cache, the matching and
      the filters of [select_node], [trans_node], the tuple and clause
      rewriting; [normalize_exp]'s [re.sub] as exact scanners.
    - [TransMain]: the rest of [translate-cons.py]: unchanged functions,
      [location_map], the pairing by [compare_node] through the sort
      interface [PySort] (a type class with its permutation law), and the
      three output files.
    - [Plot]: [plot_sensitivity.py]: the points of its two scatter
      figures and the bars of the third, with exact division; drawing
      is not modelled.

    ** What is proved (claims are numbered in PROJECT.json)

    - Narrowing and compilation: each narrowing pass and their composition
      keep exactly the derivable input tuples for every EDB assignment;
      afterwards no clause has 15 antecedents or more and no tuple is
      derived by 10 clauses or more; both loops preserve a
      well-formedness invariant, terminate and are idempotent; the
      consequent index equals its reference; the network printed has
      one dictionary line per node, parents below the node count and
      the parent lists of the clause structure.
    - Driver: the carousel terminates (one round per unlabelled alarm),
      stops only when every base query is labelled or every oracle query
      is found, and raises only [AssertionError], [KeyError] or
      [ValueError]; labels only grow over any session of commands and are
      never overwritten; the ranking is the unique sort by the key, its
      tiers are ordered and the carousel picks an unlabelled alarm of
      maximal belief; the inversion count equals its pairwise definition;
      the dictionary file reads back to the map the compiler wrote.
    - Generation and merging: every line [generate-named-cons.py] writes
      loads as a Horn clause; [add-fx.py] rewrites [DUPath(f) => Alarm(f)]
      into [DUPath(f), FX(f) => Alarm(f)]; [mb.py] always finishes and
      prints exactly the split clauses; the checks of [mb-eps.py] pass on
      inputs whose new EDB tuples are old EDB tuples if they occur in the
      old clauses, and fail on an old IDB tuple used as a new EDB tuple.
    - New derivations: the closure loop of [hnd.py] computes exactly the
      tuples reachable from the truly new EDB tuples, in every pop order,
      and always finishes when the successor maps are closed.  No theorem
      is stated about the graphs of [graph.py] or the alarms [hnd.py]
      prints: as shipped, [build_graph] raises [NameError] on its first
      line and [hnd.py] stops there ([Hnd.hnd_main_name_error]).
    - [auc.py]'s area is exactly [1 - inversions / (F * T)], and so lies
      between 0 and 1.
    - Ground truth and translation: the ground-truth file holds exactly
      the alarms whose locations are labelled; the location cache of
      [translate-cons.py] never changes an answer; node translation is
      memoised and, through [node_taken], one to one; the clause file has
      one line per clause under the same rule name.
    - Divergences from the specification and bugs are theorems too: the
      loader accepts every line [r, l1, ..., ln] without colon, with [r]
      as the rule name; [add-fx.py] prints every fact clause [r: t] as
      [r: , t], read back with an empty antecedent; the carousel runs one
      round with no oracle query; masking an overlapping cluster aborts
      the session; [compare_node] of [translate-cons.py] is not an order;
      the first two figures of [plot_sensitivity.py] can draw no point
      for any benchmark: they read an unbound [ax] and, with it bound,
      the missing [marker['0.05']].  Other findings (the always-true
      predicate test of [trans_tuple], a new node given to two old nodes
      through the unchanged-function pairing, a script that calls no
      figure) are recorded in PROJECT.json with the definitions that show
      them.

    ** Fuel

    Loops that are [while] loops in Python, and recursion, are
    [Fixpoint]s with a [fuel] argument; running out of fuel is the result
    [Err OutOfFuel], which is not a Python exception.  Each loop is
    started with fuel that a theorem shows always enough: for narrowand,
    [wsum] of [2n - 1] over the wide clauses with [n] antecedents, since
    a split replaces a clause of weight [2n - 1] by halves of total weight
    at most [2n - 2]; for narrowor the same weight of the tuples' clause
    counts ([or_measure]); one more round than there are base queries for
    the carousel (a round labels one); [size + 1] for the recursion of
    [makeCombinations]; [totalAlarm + 2] for the padding loop of
    [auc.py]; one more round than there are successor clauses for the
    closure of [hnd.py] (a round processes a new clause); the length of
    the string for the [re.sub] and [str.replace] scanners of
    [translate-cons.py] (each step consumes a character, and
    [sub_lit_digits_fuel] and its siblings show more fuel changes
    nothing).

    ** Not modelled

    Reading files and standard input (lines are given as a list of
    strings, a written file as the list of its lines), logging, wall-clock
    time, the graph drawing of [graph.py] ([prepare_visualization]) and
    [print_bnet.py] (graph_tool calls only), the drawing calls of
    [plot_sensitivity.py] (matplotlib; what they are given is modelled),
    JSON parsing itself (the parsed
    values are inputs; non-integer numbers and escapes in [str] are not
    modelled), the order TimSort gives with the inconsistent comparator
    [compare_node] (the sort is an interface), the belief-propagation
    engine itself, Python floats bit for bit (rationals instead) and
    non-ASCII whitespace in [str.strip]. *)

From stdpp Require Export base gmap sets list strings pretty sorting.
From Stdlib Require Export Ascii.

(** ** Python exceptions and results *)

(** The exceptions the modelled code can raise, and the model's own
    [OutOfFuel] for a loop that did not finish within its fuel. *)
Inductive exc :=
  | AssertionError
  | KeyError
  | IndexError
  | ValueError
  | OSError
  | NameError
  | TypeError
  | AttributeError
  | ZeroDivisionError
  | OutOfFuel.

#[export] Instance exc_eq_dec : EqDecision exc.
Proof. solve_decision. Defined.

Inductive res (A : Type) :=
  | Ok (a : A)
  | Err (e : exc).
Arguments Ok {A} a.
Arguments Err {A} e.

#[export] Instance res_ret : MRet res := λ A a, Ok a.
#[export] Instance res_bind : MBind res := λ A B f m,
  match m with Ok a => f a | Err e => Err e end.

(** [assert b] of Python. *)
Definition py_assert (b : bool) : res unit :=
  if b then Ok () else Err AssertionError.

Declare Scope py_scope.
Delimit Scope py_scope with py.
Notation "'assert!' b ;; k" := (mbind (λ _ : unit, k) (py_assert b))
  (at level 100, b at level 99, k at level 200, right associativity) : py_scope.
Open Scope py_scope.

(** [a and c], [a or c] on conditions that may raise: [c] is evaluated,
    and its exception raised, only when [a] does not decide. *)
Definition py_andr (a c : res bool) : res bool := x ← a; if (x : bool) then c else Ok false.
Definition py_orr (a c : res bool) : res bool := x ← a; if (x : bool) then Ok true else c.
Infix "&&?" := py_andr (at level 40, left associativity) : py_scope.
Infix "||?" := py_orr (at level 50, left associativity) : py_scope.

Lemma Ok_bind {A B} (a : A) (f : A → res B) : mbind f (Ok a) = f a.
Proof. done. Qed.

Lemma bind_Ok {A B} (m : res A) (f : A → res B) (b : B) :
  mbind f m = Ok b ↔ ∃ a, m = Ok a ∧ f a = Ok b.
Proof. destruct m; simpl; split; naive_solver. Qed.

Lemma bind_Err {A B} (m : res A) (f : A → res B) (e : exc) :
  mbind f m = Err e ↔ m = Err e ∨ ∃ a, m = Ok a ∧ f a = Err e.
Proof. destruct m; simpl; split; naive_solver. Qed.

Lemma py_assert_Ok b (u : unit) : py_assert b = Ok u ↔ b = true.
Proof. destruct b, u; simpl; split; congruence. Qed.

(** A [for x in l] loop whose body may raise. *)
Fixpoint res_fold {A B} (f : B → A → res B) (b : B) (l : list A) : res B :=
  match l with
  | [] => Ok b
  | x :: l' => b' ← f b x; res_fold f b' l'
  end.

(** An invariant of the accumulator of a loop that finishes. *)
Lemma res_fold_inv {A B} (P : B → Prop) (f : B → A → res B) b l b' :
  P b → (∀ b x b', x ∈ l → P b → f b x = Ok b' → P b') → res_fold f b l = Ok b' → P b'.
Proof.
  revert b. induction l as [|x l IH]; intros b Hb Hf; simpl; [congruence|].
  destruct (f b x) as [b1|e] eqn:E; simpl; [|done].
  apply IH; [eapply Hf; eauto; by apply elem_of_cons; left|].
  intros ??? Hx. apply Hf. by apply elem_of_cons; right.
Qed.

(** A loop that only adds to a set: when every step adds exactly the
    elements [Q x] describes, the loop adds those of every element. *)
Lemma res_fold_collect {A K} `{Countable K} (Q : A → K → Prop) (f : gset K → A → res (gset K)) acc l r :
  (∀ acc x r, x ∈ l → f acc x = Ok r → ∀ k, k ∈ r ↔ k ∈ acc ∨ Q x k) →
  res_fold f acc l = Ok r → ∀ k, k ∈ r ↔ k ∈ acc ∨ ∃ x, x ∈ l ∧ Q x k.
Proof.
  revert acc. induction l as [|x l IH]; intros acc Hf; simpl.
  - intros [= ->] k. set_solver.
  - destruct (f acc x) as [a1|e] eqn:E; simpl; [|done]. intros Hr k.
    rewrite (IH a1); [|intros ??? Hy; apply Hf; by apply elem_of_cons; right|done].
    rewrite (Hf acc x a1 ltac:(by apply elem_of_cons; left) E k).
    setoid_rewrite elem_of_cons. naive_solver.
Qed.

(** The exceptions a loop raises are those its body raises. *)
Lemma res_fold_Err {A B} (P : exc → Prop) (f : B → A → res B) b l e :
  (∀ b x e, x ∈ l → f b x = Err e → P e) → res_fold f b l = Err e → P e.
Proof.
  revert b. induction l as [|x l IH]; intros b Hf; simpl; [done|].
  destruct (f b x) as [b1|e1] eqn:E; simpl.
  - apply IH. intros ??? Hx. apply Hf. by apply elem_of_cons; right.
  - intros [= <-]. eapply Hf; [by apply elem_of_cons; left|done].
Qed.

(** [[f(x) for x in l]] whose body may raise. *)
Fixpoint res_map {A B} (f : A → res B) (l : list A) : res (list B) :=
  match l with
  | [] => Ok []
  | x :: l' => y ← f x; ys ← res_map f l'; Ok (y :: ys)
  end.

Lemma res_map_Ok {A B} (f : A → res B) (P : A → B → Prop) (l : list A) :
  (∀ x, x ∈ l → ∃ y, f x = Ok y ∧ P x y) → ∃ ys, res_map f l = Ok ys ∧ Forall2 P l ys.
Proof.
  induction l as [|x l IH]; intros Hl; simpl; [by exists []|].
  destruct (Hl x ltac:(by apply elem_of_cons; left)) as (y & Hy & HP).
  destruct IH as (ys & Hys & HF); [intros z Hz; apply Hl; by apply elem_of_cons; right|].
  exists (y :: ys). rewrite Hy, Hys. split; [done|by constructor].
Qed.

Lemma res_map_Forall {A B} (f : A → res B) (P : B → Prop) (l : list A) ys :
  (∀ x y, x ∈ l → f x = Ok y → P y) → res_map f l = Ok ys → Forall P ys.
Proof.
  revert ys. induction l as [|x l IH]; intros ys Hf; simpl; [by intros [= <-]|].
  destruct (f x) as [y|e] eqn:E; [|done]. simpl.
  destruct (res_map f l) as [ys'|e] eqn:E'; [|done]. simpl. intros [= <-].
  constructor; [eapply Hf; [by apply elem_of_cons; left|done]|].
  apply IH; [|done]. intros ?? Hx. apply Hf. by apply elem_of_cons; right.
Qed.

(** A loop whose body raises only [e] raises [e] when one element does. *)
Lemma res_map_Err {A B} (f : A → res B) (l : list A) e :
  (∀ x, x ∈ l → (∃ y, f x = Ok y) ∨ f x = Err e) → (∃ x, x ∈ l ∧ f x = Err e) → res_map f l = Err e.
Proof.
  induction l as [|x l IH]; intros Hf (z & Hz & Hze); [set_solver|]. cbn [res_map].
  apply elem_of_cons in Hz as [->|Hz].
  - by rewrite Hze.
  - destruct (Hf x) as [[y ->]| ->]; [set_solver| |done]. rewrite Ok_bind, IH; [done| |eauto].
    intros. apply Hf. set_solver.
Qed.

Lemma Forall2_elem_l {A B} (P : A → B → Prop) l1 l2 x :
  Forall2 P l1 l2 → x ∈ l1 → ∃ y, y ∈ l2 ∧ P x y.
Proof.
  induction 1 as [|a b l1 l2 Hab _ IH]; [by intros ?%elem_of_nil|].
  intros [->|Hx]%elem_of_cons; [exists b; split; [by apply elem_of_cons; left|done]|].
  destruct (IH Hx) as (y & Hy & HP). exists y. split; [by apply elem_of_cons; right|done].
Qed.

Lemma Forall2_elem_r {A B} (P : A → B → Prop) l1 l2 y :
  Forall2 P l1 l2 → y ∈ l2 → ∃ x, x ∈ l1 ∧ P x y.
Proof.
  induction 1 as [|a b l1 l2 Hab _ IH]; [by intros ?%elem_of_nil|].
  intros [->|Hy]%elem_of_cons; [exists a; split; [by apply elem_of_cons; left|done]|].
  destruct (IH Hy) as (x & Hx & HP). exists x. split; [by apply elem_of_cons; right|done].
Qed.

Lemma fmap_inv {A B} (f : A → B) (Q : A → Prop) (l : list B) :
  (∀ y, y ∈ l → ∃ x, y = f x ∧ Q x) → ∃ xs, l = f <$> xs ∧ Forall Q xs.
Proof.
  induction l as [|y l IH]; intros Hl; [by exists []|].
  destruct (Hl y ltac:(by apply elem_of_cons; left)) as (x & -> & Hx).
  destruct IH as (xs & -> & HQ); [intros z Hz; apply Hl; by apply elem_of_cons; right|].
  exists (x :: xs). split; [done|by constructor].
Qed.

Lemma size_list_to_set_le {A} `{Countable A} (l : list A) : size (list_to_set l : gset A) ≤ length l.
Proof.
  induction l as [|x l IH].
  - rewrite list_to_set_nil, size_empty. done.
  - rewrite list_to_set_cons, size_union_alt, size_singleton.
    pose proof (subseteq_size (list_to_set l ∖ {[x]} : gset A) (list_to_set l) ltac:(set_solver)).
    cbn [length]. lia.
Qed.

Lemma length_omap_le {A B} (f : A → option B) (l : list A) : length (omap f l) ≤ length l.
Proof.
  induction l as [|x l IH]; [done|].
  change (omap f (x :: l)) with (match f x with Some y => y :: omap f l | None => omap f l end).
  destruct (f x); cbn [length]; lia.
Qed.

Lemma string_app_assoc (a b c : string) : (a +:+ b) +:+ c = a +:+ (b +:+ c).
Proof.
  induction a as [|ch a IH]; [reflexivity|].
  change (String ch ((a +:+ b) +:+ c) = String ch (a +:+ (b +:+ c))). by rewrite IH.
Qed.

Section sorted.
Context {A} (R : relation A).

Lemma StronglySorted_lookup l i j x y :
  StronglySorted R l → i < j → l !! i = Some x → l !! j = Some y → R x y.
Proof.
  intros Hs. revert i j. induction Hs as [|z l _ IH Hz]; intros i j Hij Hi Hj; [done|].
  destruct i as [|i], j as [|j]; simpl in *; [lia| |lia|apply (IH i j); [lia|done..]].
  simplify_eq. eapply Forall_lookup_1; eauto.
Qed.

Lemma StronglySorted_filter (P : A → Prop) `{∀ x, Decision (P x)} l :
  StronglySorted R l → StronglySorted R (filter P l).
Proof.
  induction 1 as [|z l _ IH Hz]; [constructor|]. rewrite filter_cons.
  case_decide; [|done]. constructor; [done|]. rewrite Forall_forall in Hz |- *.
  intros x [_ Hx]%list_elem_of_filter. by apply Hz.
Qed.

End sorted.

(** ** Python containers

    [set.remove(x)] and [dict[k]] raise [KeyError] on a missing element;
    [set.add], [dict[k] = v] are stdpp's union and insert. *)
Definition set_remove {A} `{Countable A} (x : A) (X : gset A) : res (gset A) :=
  if bool_decide (x ∈ X) then Ok (X ∖ {[x]}) else Err KeyError.

Definition dict_get {K V} `{Countable K} (m : gmap K V) (k : K) : res V :=
  match m !! k with Some v => Ok v | None => Err KeyError end.

Definition dict_del {K V} `{Countable K} (k : K) (m : gmap K V) : res (gmap K V) :=
  match m !! k with Some _ => Ok (delete k m) | None => Err KeyError end.

(** [l[i]] for [i ≥ 0]. *)
Definition py_index {A} (l : list A) (i : nat) : res A :=
  match l !! i with Some x => Ok x | None => Err IndexError end.

(** [b and c]: [c] is evaluated, and may raise, only when [b] holds. *)
Definition py_and (b : bool) (c : res bool) : res bool := if b then c else Ok false.

(** [[m[k] for k in l]]: each value is the one of its key. *)
Lemma res_map_dict_get {K V} `{Countable K} (m : gmap K V) l vs :
  res_map (dict_get m) l = Ok vs → Forall2 (λ k v, m !! k = Some v) l vs.
Proof.
  revert vs. induction l as [|k l IH]; intros vs; cbn [res_map]; [by intros [= <-]|].
  destruct (dict_get m k) as [v|] eqn:E; [rewrite Ok_bind|done].
  destruct (res_map (dict_get m) l) eqn:E'; [rewrite Ok_bind|done]. intros [= <-]. constructor; auto.
  unfold dict_get in E. by case_match; simplify_eq.
Qed.

Lemma set_remove_Ok {A} `{Countable A} (x : A) X : x ∈ X → set_remove x X = Ok (X ∖ {[x]}).
Proof. intros Hx. unfold set_remove. by rewrite bool_decide_true. Qed.

Lemma set_remove_Err {A} `{Countable A} (x : A) X : x ∉ X → set_remove x X = Err KeyError.
Proof. intros Hx. unfold set_remove. by rewrite bool_decide_false. Qed.

Lemma dict_get_Ok {K V} `{Countable K} (m : gmap K V) k v : m !! k = Some v → dict_get m k = Ok v.
Proof. intros Hk. unfold dict_get. by rewrite Hk. Qed.

Lemma dict_del_Ok {K V} `{Countable K} (m : gmap K V) k : k ∈ dom m → dict_del k m = Ok (delete k m).
Proof. rewrite elem_of_dom. intros [v Hv]. unfold dict_del. by rewrite Hv. Qed.

Lemma set_remove_inv {A} `{Countable A} (x : A) X Y :
  set_remove x X = Ok Y → x ∈ X ∧ Y = X ∖ {[x]}.
Proof. unfold set_remove. case_bool_decide; intros; by simplify_eq. Qed.

Lemma dict_get_inv {K V} `{Countable K} (m : gmap K V) k v : dict_get m k = Ok v → m !! k = Some v.
Proof. unfold dict_get. destruct (m !! k); intros; by simplify_eq. Qed.

Lemma dict_del_inv {K V} `{Countable K} (m m' : gmap K V) k :
  dict_del k m = Ok m' → k ∈ dom m ∧ m' = delete k m.
Proof.
  unfold dict_del. rewrite elem_of_dom. destruct (m !! k) eqn:E; intros; simplify_eq; eauto.
Qed.

(** Peel one [x ← m; k] off a hypothesis [H : (x ← m; k) = Ok r]. *)
Tactic Notation "inv_bind" hyp(H) "as" simple_intropattern(x) ident(Hx) :=
  apply bind_Ok in H as [x [Hx H]].

(** Peel every [x ← m; k] and [let '(a, b) := p in k] off a hypothesis
    [H : ... = Ok r], naming the equation of each intermediate result. *)
Ltac res_inv H :=
  repeat (match type of H with
          | mbind _ (Ok _) = _ => rewrite Ok_bind in H
          | mbind _ ?m = Ok _ =>
              let E := fresh "E" in destruct m eqn:E; [rewrite Ok_bind in H|discriminate H]
          | (let '(_, _) := ?p in _) = Ok _ => let E := fresh "E" in destruct p eqn:E
          end; cbv beta in H).

(** ** Python's iteration order over a set

    CPython iterates a set in the order of its hash table, which for
    strings changes from run to run (hash randomisation).  The model takes
    the order as a parameter: an enumeration that lists every element once,
    in any order.  [set.pop()] removes the first element of that order. *)
Record Enum (A : Type) `{Countable A} := {
  enum_of : gset A → list A;
  enum_perm : ∀ X, enum_of X ≡ₚ elements X
}.
Arguments enum_of {A _ _} _ _.
Arguments enum_perm {A _ _} _ _.

(** The enumeration stdpp computes, one admissible iteration order. *)
Definition elements_enum {A} `{Countable A} : Enum A :=
  {| enum_of := elements; enum_perm := λ X, reflexivity _ |}.

(** The reverse of stdpp's order, another admissible iteration order. *)
Definition rev_enum {A} `{Countable A} : Enum A :=
  {| enum_of := λ X, rev (elements X); enum_perm := λ X, symmetry (Permutation_rev (elements X)) |}.

Section enum.
Context {A : Type} `{Countable A} (en : Enum A).

Lemma elem_of_enum x X : x ∈ enum_of en X ↔ x ∈ X.
Proof. rewrite (enum_perm en X). apply elem_of_elements. Qed.

Lemma NoDup_enum X : NoDup (enum_of en X).
Proof. rewrite (enum_perm en X). apply NoDup_elements. Qed.

Lemma length_enum X : length (enum_of en X) = size X.
Proof. by rewrite (enum_perm en X). Qed.

(** [X.pop()] returns some element, or raises on an empty set. *)
Definition set_pop (X : gset A) : option A :=
    head (enum_of en X).

Lemma set_pop_Some X x : set_pop X = Some x → x ∈ X.
Proof.
  unfold set_pop. intros Hx. apply elem_of_enum.
  destruct (enum_of en X); simplify_eq/=. set_solver.
Qed.

Lemma enum_empty : enum_of en ∅ = [].
Proof.
  pose proof (enum_perm en ∅) as Hp.
  rewrite elements_empty in Hp. by apply Permutation_nil_r in Hp.
Qed.

Lemma enum_singleton x : enum_of en {[x]} = [x].
Proof.
  pose proof (enum_perm en {[x]}) as Hp.
  rewrite elements_singleton in Hp. symmetry in Hp. by apply Permutation_length_1_inv in Hp.
Qed.

Lemma enum_pair x y : x ≠ y → enum_of en {[x; y]} = [x; y] ∨ enum_of en {[x; y]} = [y; x].
Proof.
  intros Hxy. pose proof (NoDup_enum {[x; y]}) as Hnd.
  pose proof (length_enum {[x; y]}) as Hl.
  rewrite size_union, !size_singleton in Hl by set_solver.
  assert (x ∈ enum_of en {[x; y]}) as Hx by (apply elem_of_enum; set_solver).
  assert (y ∈ enum_of en {[x; y]}) as Hy by (apply elem_of_enum; set_solver).
  destruct (enum_of en {[x; y]}) as [|a [|b [|]]]; simpl in Hl; try lia.
  apply NoDup_cons in Hnd as [Hab _].
  rewrite !elem_of_cons, elem_of_nil in Hx, Hy. rewrite list_elem_of_singleton in Hab.
  destruct Hx as [->|[->|[]]], Hy as [->|[->|[]]]; auto; congruence.
Qed.

Lemma set_pop_empty : set_pop ∅ = None.
Proof. unfold set_pop. by rewrite enum_empty. Qed.

Lemma set_pop_singleton x : set_pop {[x]} = Some x.
Proof. unfold set_pop. by rewrite enum_singleton. Qed.

Lemma set_pop_None X : set_pop X = None → X = ∅.
Proof.
  unfold set_pop. intros Hx. apply set_eq. intros x. split; [|set_solver].
  rewrite <-(elem_of_enum x X). destruct (enum_of en X); set_solver.
Qed.
End enum.

(** ** Sums over finite sets, for termination measures *)

Definition wsum {A} `{Countable A} (f : A → nat) (X : gset A) : nat :=
  sum_list_with f (elements X).

Section wsum.
Context {A : Type} `{Countable A}.

Lemma sum_list_with_ext (f g : A → nat) (l : list A) :
    (∀ x, x ∈ l → f x = g x) → sum_list_with f l = sum_list_with g l.
Proof.
  induction l as [|y l IH]; intros Hfg; simpl; [done|].
  f_equal; [apply Hfg | apply IH]; set_solver.
Qed.

Lemma wsum_empty f : wsum f (∅ : gset A) = 0.
Proof. unfold wsum. by rewrite elements_empty. Qed.

Lemma wsum_insert f (x : A) X : x ∉ X → wsum f ({[x]} ∪ X) = f x + wsum f X.
Proof. intros Hx. unfold wsum. by rewrite elements_union_singleton. Qed.

Lemma wsum_delete f (x : A) X : x ∈ X → wsum f X = f x + wsum f (X ∖ {[x]}).
Proof.
  intros Hx. rewrite <-wsum_insert by set_solver.
  by rewrite <-union_difference_singleton_L.
Qed.

Lemma wsum_ext f g (X : gset A) : (∀ x, x ∈ X → f x = g x) → wsum f X = wsum g X.
Proof.
  intros Hfg. apply sum_list_with_ext. intros x Hx. apply Hfg.
  by apply elem_of_elements.
Qed.

Lemma wsum_zero f (X : gset A) : (∀ x, x ∈ X → f x = 0) → wsum f X = 0.
Proof.
  intros Hf. rewrite (wsum_ext f (λ _, 0)) by done. unfold wsum.
  induction (elements X); simpl; auto.
Qed.
End wsum.

(** ** Names of auxiliary tuples

    [cons_all2bnet.py] names the tuples it introduces ['C{0}'.format(k)]
    (conjunctions) and ['D{0}'.format(k)] (disjunctions), where [k] is the
    current number of clauses. *)
Definition aux_name (p : string) (k : nat) : string := p +:+ pretty k.

Lemma aux_name_inj p k1 k2 : aux_name p k1 = aux_name p k2 → k1 = k2.
Proof.
  unfold aux_name. intros Heq. apply (inj pretty).
  by apply (inj (String.append p)) in Heq.
Qed.

Definition is_digit (c : ascii) : bool :=
  (48 <=? Ascii.nat_of_ascii c) && (Ascii.nat_of_ascii c <=? 57).

Definition digit_head (s : string) : bool :=
  match s with String c _ => is_digit c | EmptyString => false end.

Lemma digit_head_pretty_N_go (x : N) s :
  digit_head s = true ∨ (0 < x)%N → digit_head (pretty_N_go x s) = true.
Proof.
  revert s. induction (N.lt_wf_0 x) as [x _ IH]; intros s Hs.
  destruct (decide (x = 0)%N) as [->|Hx].
  - rewrite pretty_N_go_0. destruct Hs; [done|lia].
  - rewrite pretty_N_go_step by lia. apply IH; [apply N.div_lt; lia|].
    left. unfold pretty_N_char. simpl. by repeat case_match.
Qed.

Lemma digit_head_pretty (k : nat) : digit_head (pretty k) = true.
Proof.
  unfold pretty, pretty_nat, pretty, pretty_N. case_decide; [done|].
  apply digit_head_pretty_N_go. right. lia.
Qed.

(** A string that cannot be an auxiliary name: it does not start with
    ['C'] or ['D'] followed by a digit. *)
Definition looks_aux (t : string) : bool :=
  match t with
  | String c r => ((c =? "C")%char || (c =? "D")%char) && digit_head r
  | EmptyString => false
  end.

Lemma looks_aux_name p k : p ∈ ["C"; "D"] → looks_aux (aux_name p k) = true.
Proof.
  intros Hp. assert (p = "C" ∨ p = "D") as [-> | ->] by set_solver; unfold aux_name.
  - change ("C" +:+ pretty k) with (String "C" (pretty k)).
    unfold looks_aux. by rewrite digit_head_pretty.
  - change ("D" +:+ pretty k) with (String "D" (pretty k)).
    unfold looks_aux. by rewrite digit_head_pretty.
Qed.

Lemma aux_name_not_in (T : gset string) p k :
  (∀ t, t ∈ T → looks_aux t = false) → p ∈ ["C"; "D"] → aux_name p k ∉ T.
Proof. intros HT Hp Hin. pose proof (looks_aux_name p k Hp). by rewrite HT in H. Qed.

Lemma aux_name_CD k j : aux_name "C" k ≠ aux_name "D" j.
Proof. unfold aux_name. intros H. injection H. intros. congruence. Qed.

Lemma is_aux_C_D p : p ∈ ["C"; "D"] → p = "C" ∨ p = "D".
Proof. set_solver. Qed.

Lemma aux_name_ne p p0 k j : p ∈ ["C"; "D"] → p0 ∈ ["C"; "D"] → j < k →
  aux_name p k ≠ aux_name p0 j.
Proof.
  intros [-> | ->]%is_aux_C_D [-> | ->]%is_aux_C_D Hjk Heq;
    first [apply aux_name_inj in Heq; lia
          |by apply aux_name_CD in Heq|symmetry in Heq; by apply aux_name_CD in Heq].
Qed.

Lemma size_insert_fresh {A} `{Countable A} (x : A) (X : gset A) :
  x ∉ X → size ({[x]} ∪ X) = S (size X).
Proof. intros Hx. rewrite size_union, size_singleton; set_solver. Qed.

Lemma size_remove {A} `{Countable A} (x : A) (X : gset A) :
  x ∈ X → size X = S (size (X ∖ {[x]})).
Proof.
  intros Hx. rewrite <-(size_insert_fresh x (X ∖ {[x]})) by set_solver.
  by rewrite <-union_difference_singleton_L.
Qed.

(** Two sets separated by the value of [f] are disjoint. *)
Lemma disjoint_by {A B} `{Countable A} (f : A → B) (b : B) (X Y : gset A) :
  (∀ x, x ∈ X → f x = b) → (∀ y, y ∈ Y → f y ≠ b) → X ## Y.
Proof. intros HX HY x Hx Hy. by apply (HY x Hy), HX. Qed.

Lemma size_pair {A} `{Countable A} (x y : A) : size ({[x; y]} : gset A) ≤ 2.
Proof.
  rewrite size_union_alt, size_singleton.
  pose proof (subseteq_size ({[y]} ∖ {[x]} : gset A) {[y]} ltac:(set_solver)).
  rewrite size_singleton in *. lia.
Qed.

Lemma difference_union3 {A} `{Countable A} (a b c x : A) (X D : gset A) :
  x ≠ a → x ≠ b → x ≠ c → X ⊆ D →
  {[a]} ∪ ({[b]} ∪ ({[c]} ∪ X ∖ {[x]})) ⊆ ({[a]} ∪ ({[b]} ∪ ({[c]} ∪ D))) ∖ {[x]}.
Proof. intros. set_solver. Qed.

(** [lia] does not interpret [Nat.div] here: it uses these facts, with
    [n / 2] and [n mod 2] as atoms. *)
Lemma div2_spec (n : nat) : n = 2 * (n / 2) + n `mod` 2 ∧ n `mod` 2 < 2.
Proof. split; [apply Nat.div_mod_eq | apply Nat.mod_upper_bound; lia]. Qed.

Ltac div2_facts n := pose proof (div2_spec n).

(** A decidable proposition on closed data, by evaluation. *)
Ltac vm_decide := apply (bool_decide_unpack _); vm_compute; reflexivity.

(** Close [a = b] between closed terms by evaluation in the kernel's
    virtual machine, without reading the normal forms back (sets of
    clauses have large normal forms). *)
Ltac vm_eq :=
  match goal with |- ?a = ?b => exact (@eq_refl _ b <: a = b) end.

(** Name the value of a closed computation [m] that returns [Ok]; the
    [Err] case is refuted by evaluating only the constructor. *)
Ltac ok_destruct m x E :=
  destruct m as [x|?] eqn:E;
  [|exfalso;
    let Hok := fresh "Hok" in
    assert (match m with Ok _ => true | Err _ => false end = true) as Hok by (vm_compute; reflexivity);
    rewrite E in Hok; discriminate Hok].

(** A boolean test of the value [a] a closed computation returned, decided
    by evaluating the computation rather than [a] (see [ok_destruct]). *)
Lemma ok_test {A} (m : res A) (p : A → bool) (a : A) :
  m = Ok a → match m with Ok x => p x | Err _ => false end = true → p a = true.
Proof. by intros ->. Qed.

(** [set_solver] on the goal alone: the hypotheses of a loop invariant
    (universally quantified facts about every list element) make its
    search blow up, so they are cleared first. *)
Ltac clear_props :=
  repeat match goal with H : ?P |- _ => lazymatch type of P with Prop => clear H end end.
Ltac sets :=
  clear_props; repeat match goal with x := _ |- _ => clearbody x end; set_solver.

Create HintDb bingo discriminated.
#[export] Hint Resolve set_pop_Some set_pop_None : bingo.
#[export] Hint Resolve aux_name_inj : bingo.
