(* ===== verification/Clauses.v ===== *)
(** * The Clause Store of [cons_all2bnet.py]

    Literals, tuples and clauses exactly as [src/bingo/cons_all2bnet.py]
    (and the identical helpers of [src/bingo/util.py]) represents them:
    a literal is a string, negated when it starts with ["NOT "]; a clause
    is a Python tuple of literals whose last element is the consequent.
    The line parser ([re.split(':|, ', line)] with [str.strip]) and the
    loading loop fill the four globals of the script, gathered in the
    record [CState].  [derivable] is the meaning of a clause set: the
    tuples provable from a set of EDB facts. *)

From S2P Require Import Prelude.

#[warnings="-notation-for-abbreviation"]
Notation clause := (list string).

(** ** Literals and clauses (lines 24-33) *)

(** [literal.startswith('NOT ')] *)
Definition is_neg (l : string) : bool :=
  match l with
  | String "N"%char (String "O"%char (String "T"%char (String " "%char _))) => true
  | _ => false
  end.

(** [lit2Tuple]: drop one ["NOT "] prefix. *)
Definition lit2Tuple (literal : string) : string :=
  match literal with
  | String "N"%char (String "O"%char (String "T"%char (String " "%char rest))) => rest
  | _ => literal
  end.

(** [clause2Antecedents]: the tuples of [clause[:-1]]. *)
Definition clause2Antecedents (c : clause) : list string :=
  map lit2Tuple (removelast c).

(** [clause2Consequent]: [clause[-1]] (an [IndexError] on the empty
    tuple) and the assertion that it is not negated. *)
Definition clause2Consequent (c : clause) : res string :=
  match last c with
  | None => Err IndexError
  | Some consequent =>
      assert! negb (is_neg consequent) ;;
      Ok consequent
  end.

Definition MAX_ANTECEDENTS : nat := 15.
Definition MAX_DISJUNCTS : nat := 10.

(** ** The line parser (lines 46-50) *)

(** [re.split(':|, ', s)]: cut at every [':'] and at every [', '],
    scanning from the left. *)
Fixpoint split_cons (s : string) : list string :=
  match s with
  | EmptyString => [""]
  | String ":"%char rest => "" :: split_cons rest
  | String ","%char (String " "%char rest) => "" :: split_cons rest
  | String c rest =>
      match split_cons rest with
      | p :: ps => String c p :: ps
      | [] => [String c ""]
      end
  end.

(** Python's [str.isspace] on ASCII: [\t \n \x0b \x0c \r],
    [\x1c]-[\x1f] and the space. *)
Definition is_space (c : Ascii.ascii) : bool :=
  let n := Ascii.nat_of_ascii c in
  ((9 <=? n) && (n <=? 13)) || ((28 <=? n) && (n <=? 32)).

Fixpoint lstrip (s : string) : string :=
  match s with
  | EmptyString => EmptyString
  | String c r => if is_space c then lstrip r else s
  end.

Fixpoint rstrip (s : string) : string :=
  match s with
  | EmptyString => EmptyString
  | String c r =>
      let r' := rstrip r in
      if String.eqb r' "" && is_space c then "" else String c r'
  end.

(** [str.strip()] *)
Definition strip (s : string) : string := rstrip (lstrip s).

(** Lines 47-51: the rule name and the clause of one input line. *)
Definition parse_line (line : string) : option (string * clause) :=
  match map strip (split_cons (strip line)) with
  | ruleName :: lits => Some (ruleName, lits)
  | [] => None
  end.

(** ** The state of the script and the loading loop (lines 41-60) *)

Record CState := mkCState {
  allClauses : gset clause;
  allRuleNames : gmap clause string;
  allTuples : gset string;
  allConsequents : gset string
}.

Definition empty_cstate : CState := mkCState ∅ ∅ ∅ ∅.

(** One iteration of the [for line in sys.stdin] loop. *)
Definition load_line (s : CState) (line : string) : res CState :=
  match parse_line line with
  | None => Err IndexError
  | Some (ruleName, c) =>
      let clauses := {[c]} ∪ allClauses s in
      let names := <[c := ruleName]> (allRuleNames s) in
      let tuples := list_to_set (map lit2Tuple c) ∪ allTuples s in
      consequent ← clause2Consequent c;
      Ok (mkCState clauses names tuples ({[consequent]} ∪ allConsequents s))
  end.

Fixpoint load_lines (s : CState) (lines : list string) : res CState :=
  match lines with
  | [] => Ok s
  | line :: rest => s' ← load_line s line; load_lines s' rest
  end.

Definition load (lines : list string) : res CState := load_lines empty_cstate lines.

(** [allInputTuples = allTuples - allConsequents] (line 60). *)
Definition allInputTuples (s : CState) : gset string :=
  allTuples s ∖ allConsequents s.

(** The text format of a clause line, [ruleName: lit, lit, ..., lit]. *)
Definition render_clause (ruleName : string) (lits : clause) : string :=
  ruleName +:+ ": " +:+ String.concat ", " lits.

(** ** Meaning of a clause set

    A tuple is derivable from the EDB facts [E] when it is one of them or
    the consequent of a clause all of whose antecedents are derivable.
    Negation marks in antecedents are syntax only ([lit2Tuple] drops
    them), as the Bayesian network treats every clause as a conjunction. *)
Inductive derivable (cls : gset clause) (E : gset string) : string → Prop :=
  | der_edb t : t ∈ E → derivable cls E t
  | der_rule c t :
      c ∈ cls → last c = Some t →
      (∀ a, a ∈ clause2Antecedents c → derivable cls E a) →
      derivable cls E t.

(** ** Well-formed states

    What the loaded clause set satisfies and the narrowing passes keep:
    every clause ends in a positive consequent recorded in
    [allConsequents]; every antecedent and consequent is a known tuple;
    every clause has a rule name (the disjunction pass leaves the names of
    the clauses it rewrites behind, so there may be more names); no tuple looks negated; and the names
    ['C{k}'], ['D{k}'] the passes will invent (for [k] at least the
    number of clauses) are not yet tuples. *)
Record wf_shape (s : CState) : Prop := {
  wf_last : ∀ c, c ∈ allClauses s →
    ∃ t, last c = Some t ∧ is_neg t = false ∧ t ∈ allConsequents s;
  wf_ants : ∀ c a, c ∈ allClauses s → a ∈ clause2Antecedents c → a ∈ allTuples s;
  wf_cons : allConsequents s ⊆ allTuples s;
  wf_names : allClauses s ⊆ dom (allRuleNames s)
}.

Record wf_state (s : CState) : Prop := {
  wf_sh :> wf_shape s;
  wf_pos : ∀ t, t ∈ allTuples s → is_neg t = false;
  wf_fresh : ∀ p k, p ∈ ["C"; "D"] → size (allClauses s) ≤ k → aux_name p k ∉ allTuples s
}.

(** ** Lemmas on literals *)

Lemma lit2Tuple_NOT t : lit2Tuple ("NOT " +:+ t) = t.
Proof. done. Qed.

Lemma is_neg_NOT t : is_neg ("NOT " +:+ t) = true.
Proof. done. Qed.

Lemma lit2Tuple_pos t : is_neg t = false → lit2Tuple t = t.
Proof.
  unfold is_neg, lit2Tuple. intros H.
  repeat (case_match; simplify_eq; try done).
Qed.

Lemma clause2Antecedents_snoc l x : clause2Antecedents (l ++ [x]) = map lit2Tuple l.
Proof. unfold clause2Antecedents. by rewrite removelast_last. Qed.

Lemma clause2Consequent_Ok c t :
  last c = Some t → is_neg t = false → clause2Consequent c = Ok t.
Proof. intros Hl Hn. unfold clause2Consequent. by rewrite Hl, Hn. Qed.

Lemma clause2Consequent_inv c t :
  clause2Consequent c = Ok t → last c = Some t ∧ is_neg t = false.
Proof.
  unfold clause2Consequent, py_assert. destruct (last c); [|done].
  destruct (is_neg _) eqn:E; simpl; intros; by simplify_eq.
Qed.

Lemma map_lit2Tuple_pos (l : list string) :
  (∀ t, t ∈ l → is_neg t = false) → map lit2Tuple l = l.
Proof.
  induction l as [|t l IH]; intros Hl; simpl; [done|].
  rewrite lit2Tuple_pos, IH; set_solver.
Qed.

(** ** Lemmas on derivability *)

Lemma derivable_mono cls cls' E t :
  cls ⊆ cls' → derivable cls E t → derivable cls' E t.
Proof.
  intros Hsub. induction 1 as [t Ht|c t Hc Hl _ IH].
  - by apply der_edb.
  - eapply der_rule; eauto.
Qed.

(** ** The loaded state is well formed *)

Lemma last_removelast (c : clause) t : last c = Some t → c = removelast c ++ [t].
Proof. intros [l ->]%last_Some. by rewrite removelast_last. Qed.

Lemma load_line_shape s line s' :
  wf_shape s → load_line s line = Ok s' → wf_shape s' ∧ allTuples s ⊆ allTuples s'.
Proof.
  intros Hs. unfold load_line. destruct (parse_line line) as [[rn c]|]; [|done].
  intros H. inv_bind H as t Ht. injection H as <-.
  apply clause2Consequent_inv in Ht as [Hl Hn].
  pose proof (last_removelast c t Hl) as Hc.
  assert (∀ a, a ∈ clause2Antecedents c → a ∈ (list_to_set (map lit2Tuple c) : gset string)).
  { intros a Ha. apply elem_of_list_to_set. unfold clause2Antecedents in Ha.
    rewrite Hc, map_app. set_solver. }
  assert (t ∈ (list_to_set (map lit2Tuple c) : gset string)).
  { apply elem_of_list_to_set. rewrite Hc, map_app. simpl. rewrite lit2Tuple_pos by done. set_solver. }
  split; [|set_solver]. constructor; simpl.
  - intros c' [Hc'|Hc']%elem_of_union.
    + apply elem_of_singleton in Hc' as ->. exists t. set_solver.
    + destruct (wf_last _ Hs c' Hc') as (u & ? & ? & ?). exists u. set_solver.
  - intros c' a [Hc'|Hc']%elem_of_union Ha; [apply elem_of_singleton in Hc' as ->; set_solver|].
    pose proof (wf_ants _ Hs c' a Hc' Ha). set_solver.
  - pose proof (wf_cons _ Hs). set_solver.
  - rewrite dom_insert_L. pose proof (wf_names _ Hs). set_solver.
Qed.

Lemma load_lines_shape lines s s' :
  wf_shape s → load_lines s lines = Ok s' → wf_shape s' ∧ allTuples s ⊆ allTuples s'.
Proof.
  revert s. induction lines as [|line lines IH]; intros s Hs H; simpl in H.
  - injection H as <-. done.
  - inv_bind H as s1 H1. apply load_line_shape in H1 as [Hs1 Hsub]; [|done].
    destruct (IH s1 Hs1 H) as [? ?]. split; [done|set_solver].
Qed.

(** What the narrowing passes assume of the input, checked on the loaded
    state: no tuple looks negated or like an auxiliary name. *)
Definition input_ok (s : CState) : Prop :=
  set_Forall (λ t, is_neg t = false ∧ looks_aux t = false) (allTuples s).

Lemma load_wf_state lines s : load lines = Ok s → input_ok s → wf_state s.
Proof.
  intros Hl Hok. destruct (load_lines_shape lines empty_cstate s) as [Hs _]; [|done|].
  { constructor; simpl; set_solver. }
  constructor; [done| |].
  - intros t Ht. by apply Hok.
  - intros p k Hp _. apply aux_name_not_in; [|done]. intros t Ht. by apply Hok.
Qed.

(** ** Consequences of well-formedness *)

Section wf.
Context (s : CState) (Hwf : wf_state s).

Lemma wf_fresh_tuple p k : p ∈ ["C"; "D"] → size (allClauses s) ≤ k →
    aux_name p k ∉ allTuples s.
Proof. apply (wf_fresh _ Hwf). Qed.

Lemma wf_last_tuple c t : c ∈ allClauses s → last c = Some t → t ∈ allTuples s.
Proof.
  intros Hc Hl. destruct (wf_last _ Hwf c Hc) as (t' & Hl' & _ & Ht').
  rewrite Hl in Hl'. simplify_eq. by apply (wf_cons _ Hwf).
Qed.

(** A clause of a well-formed state mentions no fresh name. *)
Lemma wf_clause_not_fresh c p k : c ∈ allClauses s → p ∈ ["C"; "D"] →
    size (allClauses s) ≤ k →
    last c ≠ Some (aux_name p k) ∧ aux_name p k ∉ clause2Antecedents c.
Proof.
  intros Hc Hp Hk. pose proof (wf_fresh_tuple p k Hp Hk). split.
  - intros Hl. eauto using wf_last_tuple.
  - intros Ha. pose proof (wf_ants _ Hwf c _ Hc Ha). done.
Qed.

Lemma wf_ants_pos c : c ∈ allClauses s → ∀ a, a ∈ clause2Antecedents c → is_neg a = false.
Proof. intros Hc a Ha. apply (wf_pos _ Hwf). by apply (wf_ants _ Hwf c). Qed.

(** A narrowing step adds two fresh tuples [p0{n}] and [p0{n+1}] and two
    clauses; the names from [n + 2] on stay fresh. *)
Lemma wf_fresh_two p0 p k : p0 ∈ ["C"; "D"] → p ∈ ["C"; "D"] →
    S (S (size (allClauses s))) ≤ k →
    aux_name p k ∉ {[aux_name p0 (S (size (allClauses s)))]} ∪
                   ({[aux_name p0 (size (allClauses s))]} ∪ allTuples s).
Proof.
  intros Hp0 Hp Hk. pose proof (wf_fresh_tuple p k Hp ltac:(lia)).
  pose proof (aux_name_ne p p0 k (size (allClauses s)) Hp Hp0 ltac:(lia)).
  pose proof (aux_name_ne p p0 k (S (size (allClauses s))) Hp Hp0 ltac:(lia)).
  set_solver.
Qed.
End wf.

#[export] Hint Resolve der_edb lit2Tuple_pos : bingo.

(** ** Behaviour of the loader on malformed lines *)

Lemma parse_line_blank line : strip line = "" → parse_line line = Some ("", []).
Proof. intros H. unfold parse_line. by rewrite H. Qed.

(** a line that is blank after [strip] (a trailing empty line of the
    input, say) makes the script raise [IndexError]: [clause[-1]] of the
    empty clause. *)
Theorem load_line_blank s line : strip line = "" → load_line s line = Err IndexError.
Proof. intros H. unfold load_line. by rewrite parse_line_blank. Qed.

(** A line whose last literal is negated is rejected by the assertion
    of [clause2Consequent], whatever the state. *)
Theorem load_line_negated_consequent s line ruleName c t :
  parse_line line = Some (ruleName, c) → last c = Some t → is_neg t = true →
  load_line s line = Err AssertionError.
Proof.
  intros Hp Hl Hn. unfold load_line. rewrite Hp.
  unfold clause2Consequent. rewrite Hl, Hn. done.
Qed.

Lemma load_line_blank_witness :
  strip "   " = "" ∧ load_line empty_cstate "   " = Err IndexError.
Proof. split; [reflexivity|]. apply load_line_blank. reflexivity. Defined.

Lemma load_line_negated_consequent_witness :
  (parse_line "R: A(1), NOT B(1)" = Some ("R", ["A(1)"; "NOT B(1)"]) ∧
   last ["A(1)"; "NOT B(1)"] = Some "NOT B(1)" ∧ is_neg "NOT B(1)" = true) ∧
  load_line empty_cstate "R: A(1), NOT B(1)" = Err AssertionError.
Proof.
  split; [split_and!; reflexivity|].
  apply (load_line_negated_consequent _ _ "R" ["A(1)"; "NOT B(1)"] "NOT B(1)"); reflexivity.
Defined.
