(* ===== verification/NarrowAnd.v ===== *)
(** * Conjunction narrowing ([narrowand], [cons_all2bnet.py] lines 70-125)

    While some clause has [MAX_ANTECEDENTS] (15) antecedents or more, the
    script pops it from the worklist [wideClauses], splits its antecedent
    list in two halves that derive fresh tuples ['C{n}'] and ['C{n+1}']
    (rule ["Rnarrow"]), and replaces it by a clause with the same rule name
    and consequent whose two antecedents are the fresh tuples.  The
    worklist order is Python's set order, a parameter [en] here. *)

From S2P Require Import Prelude Clauses.

Section narrow_and.
Context (en : Enum clause).

(** [len(clause2Antecedents(clause)) >= MAX_ANTECEDENTS] *)
Definition is_wide (c : clause) : bool :=
  MAX_ANTECEDENTS <=? length (clause2Antecedents c).

(** Line 73: the initial worklist. *)
Definition wide_clauses (s : CState) : gset clause :=
  filter (λ c, is_wide c = true) (allClauses s).

(** Lines 94-97: the two forwarding clauses and the combining clause. *)
Definition split_conj (oldClause : clause) (t1 t2 consequent : string)
    : clause * clause * clause :=
  let antecedents := clause2Antecedents oldClause in
  let ac2 := length antecedents / 2 in
  (take ac2 antecedents ++ [t1],
   drop ac2 antecedents ++ [t2],
   ["NOT " +:+ t1; "NOT " +:+ t2; consequent]).

(** Lines 79-125: one iteration of the [while wideClauses] loop, after
    [oldClause = wideClauses.pop()]; [wide] is the worklist without it. *)
Definition narrow_and_body (s : CState) (wide : gset clause) (oldClause : clause)
    : res (CState * gset clause) :=
  let antecedentCount := length (clause2Antecedents oldClause) in
  assert! (MAX_ANTECEDENTS <=? antecedentCount) ;;
  let t1 := aux_name "C" (size (allClauses s)) in
  let t2 := aux_name "C" (S (size (allClauses s))) in
  consequent ← clause2Consequent oldClause;
  let '(newClause1, newClause2, newClause3) := split_conj oldClause t1 t2 consequent in
  clauses0 ← set_remove oldClause (allClauses s);
  let clauses := {[newClause3]} ∪ ({[newClause2]} ∪ ({[newClause1]} ∪ clauses0)) in
  oldName ← dict_get (allRuleNames s) oldClause;
  names ← dict_del oldClause
            (<[newClause3 := oldName]> (<[newClause2 := "Rnarrow"]>
              (<[newClause1 := "Rnarrow"]> (allRuleNames s))));
  let tuples := {[t2]} ∪ ({[t1]} ∪ allTuples s) in
  let conseqs := {[t2]} ∪ ({[t1]} ∪ allConsequents s) in
  let wide1 := if is_wide newClause1 then {[newClause1]} ∪ wide else wide in
  let wide2 := if is_wide newClause2 then {[newClause2]} ∪ wide1 else wide1 in
  assert! negb (is_wide newClause3) ;;
  Ok (mkCState clauses names tuples conseqs, wide2).

(** Lines 76-77: the loop, with fuel. *)
Fixpoint narrow_and_loop (fuel : nat) (s : CState) (wide : gset clause) : res CState :=
  match fuel with
  | O => Err OutOfFuel
  | S fuel' =>
      match set_pop en wide with
      | None => Ok s
      | Some oldClause =>
          '(s', wide') ← narrow_and_body s (wide ∖ {[oldClause]}) oldClause;
          narrow_and_loop fuel' s' wide'
      end
  end.

(** The weight of a wide clause with [n] antecedents is [2n - 1]: a split
    leaves halves of total weight at most [2n - 2]. *)
Definition and_measure (s : CState) : nat :=
  wsum (λ c, 2 * length (clause2Antecedents c) - 1) (wide_clauses s).

(** Lines 70-125 as the script runs them, with fuel that is always
    enough ([narrow_and_terminates]). *)
Definition narrow_and (s : CState) : res CState :=
  narrow_and_loop (S (and_measure s)) s (wide_clauses s).

(** ** One split *)

Lemma narrow_and_body_inv s W old s' W' :
  narrow_and_body s W old = Ok (s', W') →
  ∃ t n nc1 nc2 nc3,
    is_wide old = true ∧ last old = Some t ∧ is_neg t = false ∧
    old ∈ allClauses s ∧ allRuleNames s !! old = Some n ∧
    split_conj old (aux_name "C" (size (allClauses s)))
      (aux_name "C" (S (size (allClauses s)))) t = (nc1, nc2, nc3) ∧
    is_wide nc3 = false ∧ old ∈ dom (<[nc3 := n]> (<[nc2 := "Rnarrow"]> (<[nc1 := "Rnarrow"]> (allRuleNames s)))) ∧
    s' = mkCState ({[nc3]} ∪ ({[nc2]} ∪ ({[nc1]} ∪ (allClauses s ∖ {[old]}))))
           (delete old (<[nc3 := n]> (<[nc2 := "Rnarrow"]> (<[nc1 := "Rnarrow"]> (allRuleNames s)))))
           ({[aux_name "C" (S (size (allClauses s)))]} ∪ ({[aux_name "C" (size (allClauses s))]} ∪ allTuples s))
           ({[aux_name "C" (S (size (allClauses s)))]} ∪ ({[aux_name "C" (size (allClauses s))]} ∪ allConsequents s)) ∧
    W' = (if is_wide nc2 then {[nc2]} ∪ (if is_wide nc1 then {[nc1]} ∪ W else W)
          else (if is_wide nc1 then {[nc1]} ∪ W else W)).
Proof.
  unfold narrow_and_body. intros H.
  inv_bind H as u Hwide. apply py_assert_Ok, Nat.leb_le in Hwide.
  inv_bind H as t Ht. apply clause2Consequent_inv in Ht as [Hl Hn].
  destruct (split_conj _ _ _ _) as [[nc1 nc2] nc3] eqn:Hsplit.
  inv_bind H as cls0 Hrem. apply set_remove_inv in Hrem as [Hold ->].
  inv_bind H as n Hn'. apply dict_get_inv in Hn'.
  inv_bind H as names Hdel. apply dict_del_inv in Hdel as [Hdom ->].
  inv_bind H as u' Hw3. apply py_assert_Ok, negb_true_iff in Hw3.
  injection H as <- <-.
  exists t, n, nc1, nc2, nc3. unfold is_wide at 1. rewrite (proj2 (Nat.leb_le _ _) Hwide).
  split_and!; try done.
Qed.

Lemma elem_of_wide_clauses s c : c ∈ wide_clauses s ↔ c ∈ allClauses s ∧ is_wide c = true.
Proof. unfold wide_clauses. set_solver. Qed.

Lemma is_wide_combiner t1 t2 t : is_wide ["NOT " +:+ t1; "NOT " +:+ t2; t] = false.
Proof. done. Qed.

(** A split never raises on a wide clause of a well-formed state. *)
Lemma narrow_and_body_total s W old :
  wf_state s → old ∈ wide_clauses s → ∃ r, narrow_and_body s W old = Ok r.
Proof.
  intros Hwf [Hold Hw]%elem_of_wide_clauses.
  destruct (wf_last _ Hwf old Hold) as (t & Hl & Hn & _).
  assert (is_Some (allRuleNames s !! old)) as [n Hname]
    by (apply elem_of_dom, (wf_names _ Hwf), Hold).
  unfold narrow_and_body. unfold is_wide in Hw. rewrite Hw.
  rewrite (clause2Consequent_Ok old t Hl Hn). cbn [mbind res_bind py_assert].
  unfold split_conj. cbn zeta.
  rewrite (set_remove_Ok old) by done. rewrite (dict_get_Ok _ _ n Hname).
  cbn [mbind res_bind]. rewrite dict_del_Ok; cycle 1.
  { rewrite !dom_insert_L. apply elem_of_union_r, elem_of_union_r, elem_of_union_r, elem_of_dom. by eexists. }
  cbn [mbind res_bind]. rewrite is_wide_combiner. by eexists.
Qed.

(** ** Facts about one split

    For a wide clause [old] of a well-formed state [s] with consequent
    [t], the split builds [nc1], [nc2], [nc3] from the halves [take h A]
    and [drop h A] of its antecedents [A]. *)
Section split_facts.
Context (s : CState) (Hwf : wf_state s) (old : clause) (t : string).
Context (Hold : old ∈ allClauses s) (Hl : last old = Some t).

Let A := clause2Antecedents old.
Let h := length A / 2.
Let t1 := aux_name "C" (size (allClauses s)).
Let t2 := aux_name "C" (S (size (allClauses s))).
Let nc1 := take h A ++ [t1].
Let nc2 := drop h A ++ [t2].
Let nc3 := ["NOT " +:+ t1; "NOT " +:+ t2; t].
Let cls' := {[nc3]} ∪ ({[nc2]} ∪ ({[nc1]} ∪ (allClauses s ∖ {[old]}))).

Lemma split_fresh : t1 ∉ allTuples s ∧ t2 ∉ allTuples s ∧ t1 ≠ t2.
Proof.
  split_and!; [apply wf_fresh_tuple; auto; set_solver ..|].
  intros Heq. apply aux_name_inj in Heq. lia.
Qed.

Lemma split_A_tuples a : a ∈ A → a ∈ allTuples s.
Proof. intros Ha. by apply (wf_ants _ Hwf old). Qed.

Lemma split_halves a : a ∈ A ↔ a ∈ take h A ∨ a ∈ drop h A.
Proof. rewrite <-elem_of_app, take_drop. done. Qed.

Lemma split_ants :
    clause2Antecedents nc1 = take h A ∧ clause2Antecedents nc2 = drop h A ∧
    clause2Antecedents nc3 = [t1; t2].
Proof.
  pose proof (wf_ants_pos s Hwf old Hold) as Hpos.
  unfold nc1, nc2. rewrite !clause2Antecedents_snoc, !map_lit2Tuple_pos; [done|..];
    intros a Ha; apply Hpos, split_halves; auto.
Qed.

Lemma split_t_tuple : t ∈ allTuples s.
Proof. eauto using wf_last_tuple. Qed.

Lemma split_new_fresh :
    nc1 ∉ allClauses s ∧ nc2 ∉ allClauses s ∧ nc3 ∉ allClauses s ∧
    nc1 ≠ nc2 ∧ nc1 ≠ nc3 ∧ nc2 ≠ nc3.
Proof.
  destruct split_fresh as (Ht1 & Ht2 & Ht12). pose proof split_t_tuple.
  destruct split_ants as (_ & _ & H3).
  split_and!.
  - intros Hc. apply Ht1. apply (wf_last_tuple s Hwf nc1); [done|apply last_snoc].
  - intros Hc. apply Ht2. apply (wf_last_tuple s Hwf nc2); [done|apply last_snoc].
  - intros Hc. apply Ht1. apply (wf_ants _ Hwf nc3); [done|rewrite H3; set_solver].
  - intros Heq. apply Ht12. unfold nc1, nc2 in Heq.
    apply (f_equal last) in Heq. rewrite !last_snoc in Heq. by simplify_eq.
  - intros Heq. apply (f_equal last) in Heq. unfold nc1 in Heq.
    rewrite last_snoc in Heq. simpl in Heq. simplify_eq; set_solver.
  - intros Heq. apply (f_equal last) in Heq. unfold nc2 in Heq.
    rewrite last_snoc in Heq. simpl in Heq. simplify_eq; set_solver.
Qed.

(** Every derivation in the old clause set is one in the new set. *)
Lemma split_derivable_fwd E u :
    derivable (allClauses s) E u → derivable cls' E u.
Proof.
  destruct split_ants as (H1 & H2 & H3).
  induction 1 as [u Hu|c u Hc Hlc _ IH]; [by apply der_edb|].
  destruct (decide (c = old)) as [->|Hne].
  - rewrite Hl in Hlc. simplify_eq.
    apply (der_rule _ _ nc3); [set_solver|done|].
    rewrite H3. intros a Ha. apply elem_of_cons in Ha as [->|Ha].
    + apply (der_rule _ _ nc1); [set_solver|apply last_snoc|].
      rewrite H1. intros a Ha. apply IH, split_halves. auto.
    + apply list_elem_of_singleton in Ha as ->.
      apply (der_rule _ _ nc2); [set_solver|apply last_snoc|].
      rewrite H2. intros a Ha. apply IH, split_halves. auto.
  - apply (der_rule _ _ c); [set_solver|done|done].
Qed.

(** A derivation in the new set of a fresh tuple derives the half it
      stands for; of any other tuple, it is one in the old set. *)
Lemma split_derivable_bwd E u :
    E ⊆ allTuples s → derivable cls' E u →
    (u = t1 → ∀ a, a ∈ take h A → derivable (allClauses s) E a) ∧
    (u = t2 → ∀ a, a ∈ drop h A → derivable (allClauses s) E a) ∧
    (u ≠ t1 → u ≠ t2 → derivable (allClauses s) E u).
Proof.
  intros HE. destruct split_fresh as (Ht1 & Ht2 & Ht12).
  destruct split_ants as (H1 & H2 & H3). pose proof split_t_tuple as Ht.
  assert (∀ a, a ∈ A → a ≠ t1 ∧ a ≠ t2) as HA
    by (intros a Ha%split_A_tuples; split; intros ->; done).
  induction 1 as [u Hu|c u Hc Hlc _ IH].
  { assert (u ≠ t1 ∧ u ≠ t2) as [] by (split; intros ->; set_solver).
    split_and!; intros; simplify_eq; by apply der_edb. }
  unfold cls' in Hc. rewrite !elem_of_union, elem_of_difference, !elem_of_singleton in Hc.
  destruct Hc as [->|[->|[->|[Hc Hne]]]].
  - simpl in Hlc. simplify_eq. assert (u ≠ t1 ∧ u ≠ t2) as [] by (split; intros ->; done).
    split_and!; intros; simplify_eq.
    apply (der_rule _ _ old); [done|done|]. intros a [Ha|Ha]%split_halves.
    + apply (proj1 (IH t1 ltac:(rewrite H3; set_solver))); done.
    + apply (proj1 (proj2 (IH t2 ltac:(rewrite H3; set_solver)))); done.
  - unfold nc2 in Hlc. rewrite last_snoc in Hlc. simplify_eq. split_and!; intros; simplify_eq.
    apply (proj2 (proj2 (IH a ltac:(by rewrite H2)))); apply HA, split_halves; auto.
  - unfold nc1 in Hlc. rewrite last_snoc in Hlc. simplify_eq. split_and!; intros; simplify_eq.
    apply (proj2 (proj2 (IH a ltac:(by rewrite H1)))); apply HA, split_halves; auto.
  - assert (u ∈ allTuples s) by eauto using wf_last_tuple.
    assert (u ≠ t1 ∧ u ≠ t2) as [] by (split; intros ->; done).
    split_and!; intros; simplify_eq.
    apply (der_rule _ _ c); [done|done|]. intros a Ha.
    assert (a ∈ allTuples s) by (by apply (wf_ants _ Hwf c)).
    apply IH; [done|intros ->; done ..].
Qed.
Lemma split_size : size cls' = S (S (size (allClauses s))).
Proof.
  destruct split_new_fresh as (H1 & H2 & H3 & H12 & H13 & H23).
  unfold cls'. rewrite !size_insert_fresh by set_solver.
  by rewrite (size_remove old (allClauses s)).
Qed.

Lemma is_neg_aux_C k : is_neg (aux_name "C" k) = false.
Proof. done. Qed.

Context (Hn : is_neg t = false) (n : string).

Lemma split_wf :
    wf_state (mkCState cls'
      (delete old (<[nc3 := n]> (<[nc2 := "Rnarrow"]> (<[nc1 := "Rnarrow"]> (allRuleNames s)))))
      ({[t2]} ∪ ({[t1]} ∪ allTuples s)) ({[t2]} ∪ ({[t1]} ∪ allConsequents s))).
Proof.
  destruct split_fresh as (Ht1 & Ht2 & Ht12).
  destruct split_ants as (H1 & H2 & H3). pose proof split_t_tuple as Ht.
  destruct split_new_fresh as (Hf1 & Hf2 & Hf3 & H12 & H13 & H23).
  constructor; [constructor|..]; simpl.
  - unfold cls'. intros c Hc. rewrite !elem_of_union, elem_of_difference, !elem_of_singleton in Hc.
    destruct Hc as [->|[->|[->|[Hc _]]]].
    + exists t. split_and!; [done|done|]. pose proof (wf_last _ Hwf old Hold). set_solver.
    + exists t2. split_and!; [apply last_snoc|apply is_neg_aux_C|set_solver].
    + exists t1. split_and!; [apply last_snoc|apply is_neg_aux_C|set_solver].
    + destruct (wf_last _ Hwf c Hc) as (u & ? & ? & ?). exists u. set_solver.
  - unfold cls'. intros c a Hc Ha. rewrite !elem_of_union, elem_of_difference, !elem_of_singleton in Hc.
    destruct Hc as [->|[->|[->|[Hc _]]]].
    + rewrite H3 in Ha. set_solver.
    + rewrite H2 in Ha. pose proof (split_A_tuples a). pose proof (split_halves a). set_solver.
    + rewrite H1 in Ha. pose proof (split_A_tuples a). pose proof (split_halves a). set_solver.
    + pose proof (wf_ants _ Hwf c a Hc Ha). set_solver.
  - pose proof (wf_cons _ Hwf). set_solver.
  - rewrite dom_delete_L, !dom_insert_L. unfold cls'.
    apply difference_union3; [intros Heq; apply Hf3; by rewrite <-Heq
      |intros Heq; apply Hf2; by rewrite <-Heq|intros Heq; apply Hf1; by rewrite <-Heq
      |apply (wf_names _ Hwf)].
  - intros u Hu. rewrite !elem_of_union, !elem_of_singleton in Hu.
    destruct Hu as [->|[->|Hu]]; [apply is_neg_aux_C ..|by apply (wf_pos _ Hwf)].
  - rewrite split_size. intros p k Hp Hk. apply wf_fresh_two; [done|set_solver|done|done].
Qed.

Context (Hw : is_wide old = true).
Let W0 := wide_clauses s ∖ {[old]}.

Lemma split_wide N T C :
    wide_clauses (mkCState cls' N T C) =
      (if is_wide nc2 then {[nc2]} ∪ (if is_wide nc1 then {[nc1]} ∪ W0 else W0)
       else if is_wide nc1 then {[nc1]} ∪ W0 else W0).
Proof.
  apply set_eq. intros c. rewrite elem_of_wide_clauses. simpl.
  assert (is_wide nc3 = false) by apply is_wide_combiner. unfold W0, cls'.
  destruct (is_wide nc2) eqn:E2, (is_wide nc1) eqn:E1;
    rewrite ?elem_of_union, ?elem_of_difference, ?elem_of_singleton, ?elem_of_wide_clauses;
    split; intros; destruct_and?; destruct_or?; destruct_and?; subst; intuition congruence.
Qed.

Lemma split_measure N T C : and_measure (mkCState cls' N T C) < and_measure s.
Proof.
  destruct split_ants as (H1 & H2 & _).
  destruct split_new_fresh as (Hf1 & Hf2 & _ & H12 & _).
  assert (15 ≤ length A) by (by apply Nat.leb_le).
  div2_facts (length A).
  assert (length (clause2Antecedents nc1) = h) as L1
    by (rewrite H1, length_take; unfold h; lia).
  assert (length (clause2Antecedents nc2) = length A - h) as L2
    by (rewrite H2, length_drop; lia).
  assert (nc1 ∉ W0 ∧ nc2 ∉ W0) as [] by (unfold W0; rewrite !elem_of_difference, !elem_of_wide_clauses; tauto).
  unfold and_measure. rewrite split_wide.
  rewrite (wsum_delete _ old (wide_clauses s)) by (by apply elem_of_wide_clauses).
  fold W0. unfold h in *.
  destruct (is_wide nc2), (is_wide nc1);
    rewrite ?wsum_insert by set_solver; rewrite ?L1, ?L2; unfold h, A in *; lia.
Qed.
End split_facts.


(** ** The loop *)

Lemma narrow_and_body_step s old :
  wf_state s → old ∈ wide_clauses s →
  ∃ s', narrow_and_body s (wide_clauses s ∖ {[old]}) old = Ok (s', wide_clauses s') ∧
    wf_state s' ∧ and_measure s' < and_measure s ∧ allTuples s ⊆ allTuples s' ∧
    size (allClauses s') = S (S (size (allClauses s))) ∧
    (∀ E u, E ⊆ allTuples s → u ∈ allTuples s →
       derivable (allClauses s) E u ↔ derivable (allClauses s') E u).
Proof.
  intros Hwf Hwide.
  destruct (narrow_and_body_total s (wide_clauses s ∖ {[old]}) old Hwf Hwide) as [[s' W'] Hb].
  pose proof Hb as Hinv.
  apply narrow_and_body_inv in Hinv
    as (t & n & nc1 & nc2 & nc3 & Hw & Hl & Hn & Hold & Hname & Hsplit & Hw3 & Hdom & -> & ->).
  unfold split_conj in Hsplit. injection Hsplit as <- <- <-.
  eexists. split_and!.
  - rewrite Hb. do 2 f_equal. symmetry. by eapply split_wide.
  - by eapply split_wf.
  - by eapply split_measure.
  - simpl. set_solver.
  - by eapply split_size.
  - intros E u HE Hu. simpl. split; [by eapply split_derivable_fwd|].
    intros Hd. destruct (split_fresh s Hwf old t Hold Hl) as (Ht1 & Ht2 & _).
    eapply split_derivable_bwd; eauto; intros ->; done.
Qed.

Lemma narrow_and_loop_spec fuel s :
  wf_state s → and_measure s < fuel →
  ∃ s', narrow_and_loop fuel s (wide_clauses s) = Ok s' ∧
    wf_state s' ∧ wide_clauses s' = ∅ ∧ allTuples s ⊆ allTuples s' ∧
    (∀ E u, E ⊆ allTuples s → u ∈ allTuples s →
       derivable (allClauses s) E u ↔ derivable (allClauses s') E u).
Proof.
  revert s. induction fuel as [|fuel IH]; intros s Hwf Hm; [lia|].
  simpl. destruct (set_pop en (wide_clauses s)) as [old|] eqn:Hpop.
  - apply set_pop_Some in Hpop.
    destruct (narrow_and_body_step s old Hwf Hpop) as (s1 & Hb & Hwf1 & Hm1 & Ht1 & _ & Hd1).
    rewrite Hb. simpl.
    destruct (IH s1 Hwf1 ltac:(lia)) as (s2 & Hl & Hwf2 & Hw2 & Ht2 & Hd2).
    exists s2. split_and!; [done..|set_solver|].
    intros E u HE Hu. rewrite (Hd1 E u HE Hu). apply Hd2; set_solver.
  - apply set_pop_None in Hpop. exists s. split_and!; done.
Qed.

(** A state without wide clauses has the antecedent bound. *)
Lemma wide_empty_bound s : wide_clauses s = ∅ →
  ∀ c, c ∈ allClauses s → length (clause2Antecedents c) < MAX_ANTECEDENTS.
Proof.
  intros Hw c Hc.
  destruct (decide (length (clause2Antecedents c) < MAX_ANTECEDENTS)) as [|Hge]; [done|].
  assert (c ∈ wide_clauses s) by (apply elem_of_wide_clauses; split; [done|apply Nat.leb_le; lia]).
  set_solver.
Qed.

(** ** Properties of conjunction narrowing *)

(** C7: narrowand terminates: on every well-formed state and for every
    iteration order the loop, run with the fuel of [narrow_and], ends
    without an exception in a well-formed state. *)
Theorem narrow_and_terminates s :
  wf_state s → ∃ s', narrow_and s = Ok s' ∧ wf_state s'.
Proof.
  intros Hwf. destruct (narrow_and_loop_spec (S (and_measure s)) s Hwf ltac:(lia))
    as (s' & Hl & Hwf' & _). by exists s'.
Qed.

(** C4: after narrowand no clause has [MAX_ANTECEDENTS] (15) antecedents or
    more. *)
Theorem narrow_and_degree_bound s :
  wf_state s → ∃ s', narrow_and s = Ok s' ∧
    ∀ c, c ∈ allClauses s' → length (clause2Antecedents c) < MAX_ANTECEDENTS.
Proof.
  intros Hwf. destruct (narrow_and_loop_spec (S (and_measure s)) s Hwf ltac:(lia))
    as (s' & Hl & _ & Hw & _).
  exists s'. split; [done|]. by apply wide_empty_bound.
Qed.

(** C1: narrowand preserves provability: for every set [E] of true EDB
    facts among the known tuples, a tuple of the input is derivable from
    [E] by the input clauses iff it is derivable by the narrowed clauses. *)
Theorem narrow_and_preserves_derivable s E :
  wf_state s → E ⊆ allTuples s →
  ∃ s', narrow_and s = Ok s' ∧
    ∀ u, u ∈ allTuples s → derivable (allClauses s) E u ↔ derivable (allClauses s') E u.
Proof.
  intros Hwf HE. destruct (narrow_and_loop_spec (S (and_measure s)) s Hwf ltac:(lia))
    as (s' & Hl & _ & _ & _ & Hd).
  exists s'. split; [done|]. intros u Hu. by apply Hd.
Qed.

(** narrowand is idempotent: running it on its own output performs no
    split and returns the same state. *)
Theorem narrow_and_idempotent s :
  wf_state s → ∃ s', narrow_and s = Ok s' ∧ narrow_and s' = Ok s'.
Proof.
  intros Hwf. destruct (narrow_and_loop_spec (S (and_measure s)) s Hwf ltac:(lia))
    as (s' & Hl & _ & Hw & _).
  exists s'. split; [done|]. unfold narrow_and, and_measure. rewrite Hw, wsum_empty.
  simpl. by rewrite set_pop_empty.
Qed.

(** one split of a wide clause with [n] antecedents replaces it by
    exactly three clauses: forwarding clauses with [n / 2] and [n - n / 2]
    antecedents named ["Rnarrow"], and a combiner whose two antecedents
    are their consequents, with the rule name and consequent of the
    original clause; the clause count grows by two. *)
Theorem narrow_and_split_shape s old :
  wf_state s → old ∈ wide_clauses s →
  ∃ s' nc1 nc2 nc3,
    narrow_and_body s (wide_clauses s ∖ {[old]}) old = Ok (s', wide_clauses s') ∧
    allClauses s' = {[nc3]} ∪ ({[nc2]} ∪ ({[nc1]} ∪ allClauses s ∖ {[old]})) ∧
    size (allClauses s') = S (S (size (allClauses s))) ∧
    length (clause2Antecedents nc1) = length (clause2Antecedents old) / 2 ∧
    length (clause2Antecedents nc2) =
      length (clause2Antecedents old) - length (clause2Antecedents old) / 2 ∧
    map Some (clause2Antecedents nc3) = [last nc1; last nc2] ∧ last nc3 = last old ∧
    allRuleNames s' !! nc1 = Some "Rnarrow" ∧ allRuleNames s' !! nc2 = Some "Rnarrow" ∧
    allRuleNames s' !! nc3 = allRuleNames s !! old.
Proof.
  intros Hwf Hwide.
  destruct (narrow_and_body_step s old Hwf Hwide) as (s' & Hb & _ & _ & _ & Hsize & _).
  pose proof Hb as Hinv.
  apply narrow_and_body_inv in Hinv
    as (t & n & nc1 & nc2 & nc3 & Hw & Hl & Hn & Hold & Hname & Hsplit & Hw3 & Hdom & Hs' & _).
  unfold split_conj in Hsplit. injection Hsplit as <- <- <-.
  destruct (split_ants s Hwf old t Hold) as (H1 & H2 & H3).
  destruct (split_new_fresh s Hwf old t Hold Hl) as (Hf1 & Hf2 & Hf3 & H12 & H13 & H23).
  div2_facts (length (clause2Antecedents old)).
  assert (Hne : ∀ x, x ∉ allClauses s → old ≠ x) by (intros x Hx ->; done).
  subst s'. do 4 eexists. split; [exact Hb|].
  change (fst (Nat.divmod ?x 1 0 1)) with (x / 2). split; [reflexivity|].
  split_and!; [exact Hsize| | | | | | |].
  - rewrite H1, length_take. lia.
  - by rewrite H2, length_drop.
  - by rewrite H3, !last_snoc.
  - done.
  - cbn [allRuleNames]. rewrite lookup_delete_ne by (apply Hne; done). by simplify_map_eq.
  - cbn [allRuleNames]. rewrite lookup_delete_ne by (apply Hne; done). by simplify_map_eq.
  - cbn [allRuleNames]. rewrite lookup_delete_ne by (apply Hne; done). by simplify_map_eq.
Qed.

End narrow_and.

(** ** The specification's scenario: a clause with 16 antecedents *)

Definition sixteen_line : string :=
  render_clause "R16"
    ["NOT A(0)"; "NOT A(1)"; "NOT A(2)"; "NOT A(3)"; "NOT A(4)"; "NOT A(5)";
     "NOT A(6)"; "NOT A(7)"; "NOT A(8)"; "NOT A(9)"; "NOT A(10)"; "NOT A(11)";
     "NOT A(12)"; "NOT A(13)"; "NOT A(14)"; "NOT A(15)"; "B(0)"].

Definition S16 : CState :=
  match load [sixteen_line] with Ok s => s | Err _ => empty_cstate end.

Lemma S16_wf : wf_state S16.
Proof.
  apply (load_wf_state [sixteen_line]); [vm_eq|].
  unfold input_ok. apply (bool_decide_unpack _). vm_compute. reflexivity.
Qed.

Definition c16 : clause :=
  ["NOT A(0)"; "NOT A(1)"; "NOT A(2)"; "NOT A(3)"; "NOT A(4)"; "NOT A(5)";
   "NOT A(6)"; "NOT A(7)"; "NOT A(8)"; "NOT A(9)"; "NOT A(10)"; "NOT A(11)";
   "NOT A(12)"; "NOT A(13)"; "NOT A(14)"; "NOT A(15)"; "B(0)"].

(** The three clauses the split produces (the script names the fresh
    tuples after the clause count, here 1). *)
Definition c16_half1 : clause :=
  ["A(0)"; "A(1)"; "A(2)"; "A(3)"; "A(4)"; "A(5)"; "A(6)"; "A(7)"; "C1"].
Definition c16_half2 : clause :=
  ["A(8)"; "A(9)"; "A(10)"; "A(11)"; "A(12)"; "A(13)"; "A(14)"; "A(15)"; "C2"].
Definition c16_comb : clause := ["NOT C1"; "NOT C2"; "B(0)"].

Definition S16_split : CState :=
  match narrow_and_body S16 ({[c16]} ∖ {[c16]}) c16 with
  | Ok (s, _) => s | Err _ => S16
  end.

Lemma S16_wide : wide_clauses S16 = {[c16]}.
Proof. vm_eq. Qed.

Lemma S16_body : narrow_and_body S16 ({[c16]} ∖ {[c16]}) c16 = Ok (S16_split, ∅).
Proof. vm_eq. Qed.

(** the specification's scenario.  Whatever the iteration order, a
    clause with 16 antecedents narrows into exactly three clauses: two
    forwarding clauses with 8 antecedents and one combiner with 2. *)
Theorem narrow_and_sixteen (en : Enum clause) :
  ∃ s', narrow_and en S16 = Ok s' ∧
    allClauses s' = {[c16_comb; c16_half2; c16_half1]} ∧
    map (λ c, length (clause2Antecedents c)) [c16_half1; c16_half2; c16_comb] = [8; 8; 2].
Proof.
  exists S16_split. split_and!; [|vm_eq|reflexivity].
  unfold narrow_and. rewrite S16_wide.
  assert (and_measure S16 = 31) as -> by vm_eq.
  simpl. rewrite set_pop_singleton, S16_body. simpl. by rewrite set_pop_empty.
Qed.

(** ** Witnesses *)

Definition E16 : gset string := {[ "A(0)"; "A(1)"; "B(0)" ]}.

Lemma narrow_and_preserves_derivable_witness :
  (wf_state S16 ∧ E16 ⊆ allTuples S16) ∧
  ∃ s', narrow_and elements_enum S16 = Ok s' ∧
    ∀ u, u ∈ allTuples S16 → derivable (allClauses S16) E16 u ↔ derivable (allClauses s') E16 u.
Proof.
  assert (E16 ⊆ allTuples S16) as HE by (apply (bool_decide_unpack _); vm_compute; reflexivity).
  split; [split; [apply S16_wf|exact HE]|].
  apply narrow_and_preserves_derivable; [apply S16_wf|exact HE].
Defined.

Lemma narrow_and_terminates_witness :
  wf_state S16 ∧ ∃ s', narrow_and elements_enum S16 = Ok s' ∧ wf_state s'.
Proof. split; [apply S16_wf|]. apply narrow_and_terminates, S16_wf. Defined.

Lemma narrow_and_degree_bound_witness :
  wf_state S16 ∧ ∃ s', narrow_and elements_enum S16 = Ok s' ∧
    ∀ c, c ∈ allClauses s' → length (clause2Antecedents c) < MAX_ANTECEDENTS.
Proof. split; [apply S16_wf|]. apply narrow_and_degree_bound, S16_wf. Defined.

Lemma narrow_and_idempotent_witness :
  wf_state S16 ∧ ∃ s', narrow_and elements_enum S16 = Ok s' ∧ narrow_and elements_enum s' = Ok s'.
Proof. split; [apply S16_wf|]. apply narrow_and_idempotent, S16_wf. Defined.

Lemma c16_wide : c16 ∈ wide_clauses S16.
Proof. rewrite S16_wide. set_solver. Qed.

Lemma narrow_and_split_shape_witness :
  (wf_state S16 ∧ c16 ∈ wide_clauses S16) ∧
  ∃ s' nc1 nc2 nc3,
    narrow_and_body S16 (wide_clauses S16 ∖ {[c16]}) c16 = Ok (s', wide_clauses s') ∧
    allClauses s' = {[nc3]} ∪ ({[nc2]} ∪ ({[nc1]} ∪ allClauses S16 ∖ {[c16]})) ∧
    size (allClauses s') = S (S (size (allClauses S16))) ∧
    length (clause2Antecedents nc1) = length (clause2Antecedents c16) / 2 ∧
    length (clause2Antecedents nc2) =
      length (clause2Antecedents c16) - length (clause2Antecedents c16) / 2 ∧
    map Some (clause2Antecedents nc3) = [last nc1; last nc2] ∧ last nc3 = last c16 ∧
    allRuleNames s' !! nc1 = Some "Rnarrow" ∧ allRuleNames s' !! nc2 = Some "Rnarrow" ∧
    allRuleNames s' !! nc3 = allRuleNames S16 !! c16.
Proof.
  split; [split; [apply S16_wf|apply c16_wide]|].
  apply narrow_and_split_shape; [apply S16_wf|apply c16_wide].
Defined.
