(* ===== verification/NarrowOr.v ===== *)
(** * Disjunction narrowing ([narrowor], [cons_all2bnet.py] lines 128-212)

    The script first indexes every clause under its consequent
    ([tuple2ConsequentClauses], lines 131-134).  Then, while some tuple [t]
    is derived by [MAX_DISJUNCTS] (10) clauses or more, it creates fresh
    tuples ['D{n}'] and ['D{n+1}'], rewrites the first half of [t]'s
    clauses (in set order) to derive the first and the rest to derive the
    second, and adds the bridging clauses [NOT D{n}, t] and [NOT D{n+1}, t].
    Set iteration orders are the parameters [enc] (clauses) and [ent]
    (tuples). *)

From S2P Require Import Prelude Clauses.

#[warnings="-notation-for-abbreviation"]
Notation index := (gmap string (gset clause)).

(** The clauses of [cls] that derive [u], and the index the script means
    to build: every known tuple mapped to the clauses deriving it. *)
Definition consequent_clauses (cls : gset clause) (u : string) : gset clause :=
  filter (λ c, last c = Some u) cls.

Definition ref_index (cls : gset clause) (T : gset string) : index :=
  map_imap (λ u (_ : unit), Some (consequent_clauses cls u)) (gset_to_gmap () T).

Section narrow_or.
Context (enc : Enum clause) (ent : Enum string).

(** Lines 132-134: one clause filed under its consequent. *)
Definition add_to_index (m : index) (c : clause) : res index :=
  consequent ← clause2Consequent c;
  cs ← dict_get m consequent;
  Ok (<[consequent := {[c]} ∪ cs]> m).

(** Lines 131-134: [tuple2ConsequentClauses]. *)
Definition build_index (s : CState) : res index :=
  res_fold add_to_index (gset_to_gmap ∅ (allTuples s)) (enum_of enc (allClauses s)).

(** A clause with its last literal replaced by [x]. *)
Definition retarget (x : string) (c : clause) : clause := removelast c ++ [x].

(** [newClause = list(c); newClause[-1] = x; tuple(newClause)] *)
Definition set_last (c : clause) (x : string) : res clause :=
  match c with
  | [] => Err IndexError
  | _ => Ok (retarget x c)
  end.

(** Lines 187-200: one clause of [originalProvingClauses] moved to the
    first fresh tuple while it has fewer than half of them, else to the
    second. *)
Definition or_rewrite (t1 t2 : string) (consequentCount : nat)
    (acc : index * gset clause * gmap clause string) (originalClause : clause)
    : res (index * gset clause * gmap clause string) :=
  let '(m, cls, names) := acc in
  cs1 ← dict_get m t1;
  '(m', newClause) ←
    (if 2 * size cs1 <? consequentCount then
       nc ← set_last originalClause t1; Ok (<[t1 := {[nc]} ∪ cs1]> m, nc)
     else
       cs2 ← dict_get m t2;
       nc ← set_last originalClause t2; Ok (<[t2 := {[nc]} ∪ cs2]> m, nc));
  cls0 ← set_remove originalClause cls;
  name ← dict_get names originalClause;
  Ok (m', {[newClause]} ∪ cls0, <[newClause := name]> names).

(** Lines 146-211: the split of the wide tuple [t] found by the [for]
    loop, up to its [break]. *)
Definition narrow_or_split (s : CState) (m : index) (wide : gset string) (t : string)
    : res (CState * index * gset string) :=
  originalProvingClauses ← dict_get m t;
  let consequentCount := size originalProvingClauses in
  let t1 := aux_name "D" (size (allClauses s)) in
  let t2 := aux_name "D" (S (size (allClauses s))) in
  let c1 := ["NOT " +:+ t1; t] in
  let c2 := ["NOT " +:+ t2; t] in
  let clauses := {[c2]} ∪ ({[c1]} ∪ allClauses s) in
  let names := <[c2 := "Rnarrow"]> (<[c1 := "Rnarrow"]> (allRuleNames s)) in
  let tuples := {[t2]} ∪ ({[t1]} ∪ allTuples s) in
  let conseqs := {[t2]} ∪ ({[t1]} ∪ allConsequents s) in
  let m0 := <[t2 := ∅]> (<[t1 := ∅]> (<[t := {[c1; c2]}]> m)) in
  '(m1, clauses1, names1) ←
    res_fold (or_rewrite t1 t2 consequentCount) (m0, clauses, names)
      (enum_of enc originalProvingClauses);
  cs1 ← dict_get m1 t1;
  cs2 ← dict_get m1 t2;
  assert! (size cs1 <? consequentCount) ;;
  assert! (size cs2 <? consequentCount) ;;
  assert! (size cs1 + size cs2 =? consequentCount) ;;
  wide0 ← set_remove t wide;
  let wide1 := if MAX_DISJUNCTS <=? size cs1 then {[t1]} ∪ wide0 else wide0 in
  let wide2 := if MAX_DISJUNCTS <=? size cs2 then {[t2]} ∪ wide1 else wide1 in
  Ok (mkCState clauses1 names1 tuples conseqs, m1, wide2).

(** Lines 145-148: the first tuple of the worklist, in set order, with
    at least [MAX_DISJUNCTS] deriving clauses ([continue] skips others). *)
Fixpoint first_wide (m : index) (ts : list string) : res (option string) :=
  match ts with
  | [] => Ok None
  | t :: ts' =>
      cs ← dict_get m t;
      if MAX_DISJUNCTS <=? size cs then Ok (Some t) else first_wide m ts'
  end.

(** Lines 142-212: [while changed], with fuel. *)
Fixpoint narrow_or_loop (fuel : nat) (s : CState) (m : index) (wide : gset string)
    : res (CState * index) :=
  match fuel with
  | O => Err OutOfFuel
  | S fuel' =>
      found ← first_wide m (enum_of ent wide);
      match found with
      | None => Ok (s, m)
      | Some t =>
          '(s', m', wide') ← narrow_or_split s m wide t;
          narrow_or_loop fuel' s' m' wide'
      end
  end.

(** Line 139: the members of [wideConsequents], the consequents with at
    least [MAX_DISJUNCTS] clauses in the index. *)
Definition wide_filter (s : CState) (m : index) : gset string :=
  filter (λ t, MAX_DISJUNCTS <= size (m !!! t)) (allConsequents s).

(** Line 139: [wideConsequents]; [tuple2ConsequentClauses[t]] raises
    [KeyError] when a consequent is not a key of the index. *)
Definition wide_consequents (s : CState) (m : index) : res (gset string) :=
  if bool_decide (allConsequents s ⊆ dom m) then Ok (wide_filter s m) else Err KeyError.

Definition or_measure (m : index) (wide : gset string) : nat :=
  wsum (λ t, 2 * size (m !!! t) - 1) wide.

(** Lines 136-212 with fuel that is always enough. *)
Definition narrow_or (s : CState) (m : index) : res (CState * index) :=
  wide ← wide_consequents s m;
  narrow_or_loop (S (or_measure m wide)) s m wide.

End narrow_or.

(** ** Retargeting a clause *)

Lemma set_last_Ok c t x : last c = Some t → set_last c x = Ok (retarget x c).
Proof. by destruct c. Qed.

Lemma last_retarget x c : last (retarget x c) = Some x.
Proof. apply last_snoc. Qed.

Lemma retarget_ants x c : clause2Antecedents (retarget x c) = clause2Antecedents c.
Proof.
  unfold retarget, clause2Antecedents. by rewrite removelast_last.
Qed.

Lemma retarget_inj x y c c' t :
  last c = Some t → last c' = Some t → retarget x c = retarget y c' → x = y ∧ c = c'.
Proof.
  intros Hc Hc' Heq. unfold retarget in Heq. apply app_inj_tail in Heq as [Hr Hx].
  simplify_eq. split; [done|].
  by rewrite (last_removelast c t Hc), (last_removelast c' t Hc'), Hr.
Qed.

(** ** The rewriting loop of one split (lines 187-200)

    Starting from [A1] clauses under [t1] and [A2] under [t2], the loop
    sends the first [(n + 1) / 2 - size A1] clauses of its list to [t1] and
    the others to [t2]. *)

Section or_fold.
Context (t t1 t2 : string) (n : nat) (Ht1 : t1 ≠ t) (Ht2 : t2 ≠ t) (Ht12 : t1 ≠ t2).

Lemma retarget_not_orig x c c' : x ≠ t → last c' = Some t → retarget x c ≠ c'.
Proof. intros Hx Hc' <-. rewrite last_retarget in Hc'. congruence. Qed.

Lemma retarget_not_in (l : list clause) k c x y z :
  (∀ c', c' ∈ l → last c' = Some t) → last c = Some t → c ∉ l →
  retarget x c ∉ (list_to_set (retarget y <$> take k l) ∪
                  list_to_set (retarget z <$> drop k l) : gset clause).
Proof.
  intros Hl Hc Hn Hin.
  apply elem_of_union in Hin as [Hin|Hin];
    apply elem_of_list_to_set, list_elem_of_fmap in Hin as (c' & Heq & Hc');
    (assert (c' ∈ l) by (rewrite <-(take_drop k l); apply elem_of_app; auto));
    destruct (retarget_inj _ _ c c' t Hc (Hl c' ltac:(done)) Heq) as [_ ->]; done.
Qed.

Lemma or_rewrite_fold l : ∀ m cls names A1 A2,
  NoDup l → (∀ c, c ∈ l → last c = Some t ∧ c ∈ cls ∧ c ∈ dom names) →
  m !! t1 = Some A1 → m !! t2 = Some A2 →
  (∀ c, c ∈ l → retarget t1 c ∉ A1 ∧ retarget t2 c ∉ A2) →
  let k := (n + 1) / 2 - size A1 in
  let N1 : gset clause := list_to_set (retarget t1 <$> take k l) in
  let N2 : gset clause := list_to_set (retarget t2 <$> drop k l) in
  ∃ m' cls' names',
    res_fold (or_rewrite t1 t2 n) (m, cls, names) l = Ok (m', cls', names') ∧
    m' !! t1 = Some (N1 ∪ A1) ∧ m' !! t2 = Some (N2 ∪ A2) ∧
    (∀ u, u ≠ t1 → u ≠ t2 → m' !! u = m !! u) ∧
    cls' = N1 ∪ N2 ∪ cls ∖ list_to_set l ∧
    dom names' = N1 ∪ N2 ∪ dom names ∧
    (∀ d, d ∉ N1 ∪ N2 → names' !! d = names !! d) ∧
    (∀ c x, c ∈ l → retarget x c ∈ N1 ∪ N2 → names' !! retarget x c = names !! c).
Proof.
  induction l as [|c l IH]; intros m cls names A1 A2 Hnd Hl H1 H2 HA k N1 N2.
  { exists m, cls, names. unfold N1, N2. rewrite take_nil, drop_nil. simpl.
    split_and!; [done|by rewrite union_empty_l_L..|done|set_solver|set_solver|done|set_solver]. }
  apply NoDup_cons in Hnd as [Hc Hnd].
  destruct (Hl c ltac:(by apply elem_of_cons; left)) as (Hlc & Hcc & Hcn).
  destruct (HA c ltac:(by apply elem_of_cons; left)) as [HA1 HA2].
  apply elem_of_dom in Hcn as [name Hname].
  assert (Hl' : ∀ c', c' ∈ l → last c' = Some t ∧ c' ∈ cls ∖ {[c]} ∧ c' ∈ dom names).
  { intros c' Hc'. destruct (Hl c' ltac:(by apply elem_of_cons; right)) as (? & ? & ?).
    split_and!; [done| |done]. apply elem_of_difference. split; [done|].
    rewrite not_elem_of_singleton. intros ->. done. }
  assert (Hdist : ∀ x y c', c' ∈ l → retarget x c ≠ retarget y c').
  { intros x y c' Hc' Heq. destruct (Hl c' ltac:(by apply elem_of_cons; right)) as (? & _).
    destruct (retarget_inj x y c c' t Hlc ltac:(done) Heq) as [_ ->]. done. }
  assert (Hnot : ∀ x, x ≠ t → retarget x c ∉ (list_to_set l : gset clause)).
  { intros x Hx Hin%elem_of_list_to_set.
    destruct (Hl _ ltac:(by apply elem_of_cons; right)) as (? & _). by eapply retarget_not_orig. }
  simpl. rewrite (dict_get_Ok _ _ _ H1). simpl. rewrite (set_last_Ok c t) by done.
  rewrite (set_remove_Ok c cls Hcc), (dict_get_Ok _ _ _ Hname). simpl.
  destruct (decide (size A1 < (n + 1) / 2)) as [Hlt|Hge].
  - div2_facts (n + 1).
    replace (size A1 + (size A1 + 0) <? n) with true by (symmetry; apply Nat.ltb_lt; lia).
    simpl.
    destruct (IH (<[t1 := {[retarget t1 c]} ∪ A1]> m) ({[retarget t1 c]} ∪ cls ∖ {[c]})
        (<[retarget t1 c := name]> names) ({[retarget t1 c]} ∪ A1) A2) as
      (m' & cls' & names' & Hf & Hm1 & Hm2 & Hmu & Hcls & Hdom & Hn1 & Hn2).
    + done.
    + intros c' Hc'. destruct (Hl' c' Hc') as (? & ? & ?).
      split_and!; [done|apply elem_of_union; by right|rewrite dom_insert_L; apply elem_of_union; by right].
    + by simplify_map_eq.
    + by rewrite lookup_insert_ne by done.
    + intros c' Hc'. destruct (HA c' ltac:(by apply elem_of_cons; right)) as [Ha1 Ha2].
      pose proof (Hdist t1 t1 c' Hc') as Hd. revert Ha1 Ha2 Hd. sets.
    + rewrite size_insert_fresh in Hm1, Hm2, Hcls, Hdom, Hn1, Hn2 by done.
      assert (k = S ((n + 1) / 2 - S (size A1))) as Hk by (unfold k; lia).
      exists m', cls', names'. unfold N1, N2. rewrite Hk. simpl.
      split_and!; [exact Hf|rewrite Hm1; f_equal; sets|done| | | | |].
      * intros u Hu1 Hu2. rewrite Hmu by done. by rewrite lookup_insert_ne by done.
      * rewrite Hcls. generalize (Hnot t1 Ht1). sets.
      * rewrite Hdom, dom_insert_L. sets.
      * intros d Hd. rewrite Hn1 by (revert Hd; sets).
        rewrite lookup_insert_ne by (revert Hd; sets). done.
      * intros c0 x Hc0 Hin. apply elem_of_cons in Hc0 as [->|Hc0].
        -- pose proof (retarget_not_in l ((n + 1) / 2 - S (size A1)) c x t1 t2
             (λ c' Hc', proj1 (Hl' c' Hc')) Hlc Hc) as Hnin.
           rewrite Hn1 by exact Hnin.
           assert (retarget x c = retarget t1 c) as -> by (revert Hin Hnin; sets).
           rewrite Hname. by simplify_map_eq.
        -- rewrite Hn2; [|done|].
           ++ rewrite lookup_insert_ne; [done|].
              apply retarget_not_orig; [done|by apply Hl'].
           ++ pose proof (Hdist t1 x c0 Hc0) as Hd0. revert Hin Hd0. sets.
  - assert (Hk : (n + 1) / 2 - size A1 = 0) by lia.
    div2_facts (n + 1).
    replace (size A1 + (size A1 + 0) <? n) with false by (symmetry; apply Nat.ltb_ge; lia).
    rewrite (dict_get_Ok _ _ _ H2), (set_last_Ok c t) by done. simpl.
    destruct (IH (<[t2 := {[retarget t2 c]} ∪ A2]> m) ({[retarget t2 c]} ∪ cls ∖ {[c]})
        (<[retarget t2 c := name]> names) A1 ({[retarget t2 c]} ∪ A2)) as
      (m' & cls' & names' & Hf & Hm1 & Hm2 & Hmu & Hcls & Hdom & Hn1 & Hn2).
    + done.
    + intros c' Hc'. destruct (Hl' c' Hc') as (? & ? & ?).
      split_and!; [done|apply elem_of_union; by right|rewrite dom_insert_L; apply elem_of_union; by right].
    + by rewrite lookup_insert_ne by done.
    + by simplify_map_eq.
    + intros c' Hc'. destruct (HA c' ltac:(by apply elem_of_cons; right)) as [Ha1 Ha2].
      pose proof (Hdist t2 t2 c' Hc') as Hd. revert Ha1 Ha2 Hd. sets.
    + cbv zeta in *. rewrite Hk in Hm1, Hm2, Hcls, Hdom, Hn1, Hn2.
      exists m', cls', names'. unfold N1, N2, k. rewrite Hk. simpl.
      cbn [take drop] in Hm1, Hm2, Hcls, Hdom, Hn1, Hn2.
      split_and!; [exact Hf|done|rewrite Hm2; f_equal; sets| | | | |].
      * intros u Hu1 Hu2. rewrite Hmu by done. by rewrite lookup_insert_ne by done.
      * rewrite Hcls. generalize (Hnot t2 Ht2). sets.
      * rewrite Hdom, dom_insert_L. sets.
      * intros d Hd. rewrite Hn1 by (revert Hd; sets).
        rewrite lookup_insert_ne by (revert Hd; sets). done.
      * intros c0 x Hc0 Hin. apply elem_of_cons in Hc0 as [->|Hc0].
        -- assert (retarget x c ∉ (list_to_set (retarget t2 <$> l) : gset clause)) as Hnin.
           { pose proof (retarget_not_in l 0 c x t1 t2) as Hr. simpl in Hr.
             rewrite union_empty_l_L in Hr. apply Hr; [|done..]. intros c' Hc'. by apply Hl'. }
           rewrite Hn1 by (revert Hnin; sets).
           assert (retarget x c = retarget t2 c) as -> by (revert Hin Hnin; sets).
           rewrite Hname. by simplify_map_eq.
        -- rewrite Hn2; [|done|].
           ++ rewrite lookup_insert_ne; [done|].
              apply retarget_not_orig; [done|by apply Hl'].
           ++ pose proof (Hdist t2 x c0 Hc0) as Hd0. revert Hin Hd0. sets.
Qed.

End or_fold.

(** ** The consequent index (lines 131-134) *)

Lemma ref_index_lookup cls T u :
  ref_index cls T !! u = if decide (u ∈ T) then Some (consequent_clauses cls u) else None.
Proof.
  unfold ref_index. rewrite map_lookup_imap, lookup_gset_to_gmap.
  by case_decide; simplify_option_eq.
Qed.

Lemma ref_index_Some cls T u : u ∈ T → ref_index cls T !! u = Some (consequent_clauses cls u).
Proof. intros Hu. rewrite ref_index_lookup. by case_decide. Qed.

Lemma ref_index_None cls T u : u ∉ T → ref_index cls T !! u = None.
Proof. intros Hu. rewrite ref_index_lookup. by case_decide. Qed.

Lemma ref_index_total cls T u : u ∈ T → ref_index cls T !!! u = consequent_clauses cls u.
Proof. intros Hu. by rewrite lookup_total_alt, ref_index_Some. Qed.

Lemma elem_of_consequent_clauses cls u c :
  c ∈ consequent_clauses cls u ↔ c ∈ cls ∧ last c = Some u.
Proof. unfold consequent_clauses. rewrite elem_of_filter. tauto. Qed.

Lemma ref_index_ext cls cls' T :
  (∀ u, u ∈ T → consequent_clauses cls u = consequent_clauses cls' u) →
  ref_index cls T = ref_index cls' T.
Proof.
  intros H. apply map_eq. intros u. rewrite !ref_index_lookup.
  case_decide; [by rewrite H|done].
Qed.

Lemma ref_index_add cls T c u :
  last c = Some u → u ∈ T →
  <[u := {[c]} ∪ consequent_clauses cls u]> (ref_index cls T) = ref_index ({[c]} ∪ cls) T.
Proof.
  intros Hl Hu. apply map_eq. intros v. rewrite ref_index_lookup.
  destruct (decide (v = u)) as [->|Hne].
  - rewrite lookup_insert_eq. case_decide; [|done]. f_equal.
    apply set_eq. intros d. rewrite !elem_of_union, !elem_of_consequent_clauses, elem_of_union.
    set_solver.
  - rewrite lookup_insert_ne, ref_index_lookup by done. case_decide; [|done].
    f_equal. apply set_eq. intros d. rewrite !elem_of_consequent_clauses, elem_of_union.
    set_solver.
Qed.

Lemma add_to_index_fold l : ∀ cls T,
  (∀ c, c ∈ l → ∃ u, last c = Some u ∧ is_neg u = false ∧ u ∈ T) →
  res_fold add_to_index (ref_index cls T) l = Ok (ref_index (list_to_set l ∪ cls) T).
Proof.
  induction l as [|c l IH]; intros cls T Hl; simpl.
  - by rewrite union_empty_l_L.
  - destruct (Hl c ltac:(by apply elem_of_cons; left)) as (u & Hu & Hn & HT).
    unfold add_to_index. rewrite (clause2Consequent_Ok c u Hu Hn). simpl.
    rewrite (dict_get_Ok _ _ _ (ref_index_Some cls T u HT)). simpl.
    rewrite ref_index_add by done. rewrite IH.
    + f_equal. f_equal. set_solver.
    + intros c' Hc'. apply Hl. by apply elem_of_cons; right.
Qed.

Lemma build_index_ok enc s :
  wf_shape s → build_index enc s = Ok (ref_index (allClauses s) (allTuples s)).
Proof.
  intros Hs. unfold build_index.
  assert (gset_to_gmap ∅ (allTuples s) = ref_index ∅ (allTuples s)) as ->.
  { apply map_eq. intros u. rewrite ref_index_lookup, lookup_gset_to_gmap.
    unfold consequent_clauses. rewrite filter_empty_L by apply _.
    by case_decide; simplify_option_eq. }
  rewrite add_to_index_fold.
  - do 2 f_equal. apply set_eq. intros c. rewrite elem_of_union, elem_of_list_to_set, elem_of_enum.
    set_solver.
  - intros c Hc%elem_of_enum. destruct (wf_last _ Hs c Hc) as (u & ? & ? & ?).
    exists u. split_and!; [done|done|]. by apply (wf_cons _ Hs).
Qed.

(** A tuple derived by some clause is a consequent. *)
Lemma cc_cons s u : wf_shape s → 0 < size (consequent_clauses (allClauses s) u) →
  u ∈ allConsequents s.
Proof.
  intros Hs Hpos. destruct (size_pos_elem_of _ Hpos) as [c [Hc Hl]%elem_of_consequent_clauses].
  destruct (wf_last _ Hs c Hc) as (u' & Hu & _ & ?). congruence.
Qed.

(** A tuple that is not known is derived by no clause. *)
Lemma cc_unknown s u : wf_state s → u ∉ allTuples s → consequent_clauses (allClauses s) u = ∅.
Proof.
  intros Hwf Hu. apply set_eq. intros c. rewrite elem_of_consequent_clauses.
  split; [intros [Hc Hl]; pose proof (wf_last_tuple s Hwf c u Hc Hl); done|set_solver].
Qed.

Lemma ref_index_cc s u : wf_state s →
  ref_index (allClauses s) (allTuples s) !!! u = consequent_clauses (allClauses s) u.
Proof.
  intros Hwf. destruct (decide (u ∈ allTuples s)) as [Hu|Hu]; [by apply ref_index_total|].
  rewrite cc_unknown by done. by rewrite lookup_total_alt, ref_index_None.
Qed.

(** ** One split (lines 146-211) *)

Section or_split.
Context (enc : Enum clause) (s : CState) (Hwf : wf_state s) (t : string).
Context (Ht : t ∈ allTuples s).

Let O := consequent_clauses (allClauses s) t.
Let n := size O.
Let l := enum_of enc O.
Let k := (n + 1) / 2.
Let t1 := aux_name "D" (size (allClauses s)).
Let t2 := aux_name "D" (S (size (allClauses s))).
Let c1 := ["NOT " +:+ t1; t].
Let c2 := ["NOT " +:+ t2; t].
Let N1 : gset clause := list_to_set (retarget t1 <$> take k l).
Let N2 : gset clause := list_to_set (retarget t2 <$> drop k l).
Let cls' := N1 ∪ N2 ∪ ({[c2]} ∪ ({[c1]} ∪ allClauses s)) ∖ list_to_set l.
Let T' := {[t2]} ∪ ({[t1]} ∪ allTuples s).

Lemma or_fresh : t1 ∉ allTuples s ∧ t2 ∉ allTuples s ∧ t1 ≠ t2 ∧ t1 ≠ t ∧ t2 ≠ t.
Proof.
  assert (t1 ∉ allTuples s ∧ t2 ∉ allTuples s) as [] by (split; apply wf_fresh_tuple; auto; set_solver).
  split_and!; [done|done| |intros ->; done..].
  intros Heq. apply aux_name_inj in Heq. lia.
Qed.

Lemma elem_of_l c : c ∈ l ↔ c ∈ allClauses s ∧ last c = Some t.
Proof. unfold l, O. by rewrite elem_of_enum, elem_of_consequent_clauses. Qed.

Lemma l_last c : c ∈ l → last c = Some t.
Proof. intros Hc. by apply elem_of_l. Qed.

Lemma bridge_ants x : clause2Antecedents ["NOT " +:+ x; t] = [x].
Proof. done. Qed.

Lemma bridge_new : c1 ∉ allClauses s ∧ c2 ∉ allClauses s ∧ c1 ≠ c2.
Proof.
  destruct or_fresh as (Ht1 & Ht2 & Ht12 & _).
  split_and!.
  - intros Hc. apply Ht1. apply (wf_ants _ Hwf c1); [done|unfold c1; rewrite bridge_ants; set_solver].
  - intros Hc. apply Ht2. apply (wf_ants _ Hwf c2); [done|unfold c2; rewrite bridge_ants; set_solver].
  - intros Heq. apply Ht12. unfold c1, c2 in Heq. by simplify_eq.
Qed.

Lemma elem_of_N1 d : d ∈ N1 → last d = Some t1 ∧ ∃ c, c ∈ l ∧ d = retarget t1 c.
Proof.
  intros (c & -> & Hc)%elem_of_list_to_set%list_elem_of_fmap.
  split; [apply last_retarget|]. exists c. split; [|done].
  rewrite <-(take_drop k l). apply elem_of_app. auto.
Qed.

Lemma elem_of_N2 d : d ∈ N2 → last d = Some t2 ∧ ∃ c, c ∈ l ∧ d = retarget t2 c.
Proof.
  intros (c & -> & Hc)%elem_of_list_to_set%list_elem_of_fmap.
  split; [apply last_retarget|]. exists c. split; [|done].
  rewrite <-(take_drop k l). apply elem_of_app. auto.
Qed.

Lemma N_cover c : c ∈ l → retarget t1 c ∈ N1 ∨ retarget t2 c ∈ N2.
Proof.
  rewrite <-(take_drop k l), elem_of_app. intros [Hc|Hc]; [left|right];
    apply elem_of_list_to_set, list_elem_of_fmap; eauto.
Qed.

Lemma elem_of_cls' d :
  d ∈ cls' ↔ d = c1 ∨ d = c2 ∨ d ∈ N1 ∨ d ∈ N2 ∨ (d ∈ allClauses s ∧ last d ≠ Some t).
Proof.
  destruct bridge_new as (H1 & H2 & _).
  assert (Hl : ∀ d, d ∈ (list_to_set l : gset clause) ↔ d ∈ allClauses s ∧ last d = Some t).
  { intros d'. by rewrite elem_of_list_to_set, elem_of_l. }
  unfold cls'. rewrite !elem_of_union, elem_of_difference, !elem_of_union, !elem_of_singleton, Hl.
  split.
  - intros [[Hd|Hd]|[[->|[->|Hd]] Hn]]; [tauto|tauto|tauto|tauto|].
    right; right; right; right. split; [done|]. intros Hl'. by apply Hn.
  - intros [->|[->|[Hd|[Hd|[Hd Hn]]]]];
      [right; split; [tauto|intros [? _]; done]..|tauto|tauto|].
    right; split; [tauto|intros [_ ?]; done].
Qed.

Context (Hn : MAX_DISJUNCTS ≤ n).

Lemma k_bounds : 0 < k ∧ k < n ∧ 0 < n - k ∧ n - k < n ∧ 2 * k - 1 + (2 * (n - k) - 1) < 2 * n - 1.
Proof. unfold k, MAX_DISJUNCTS in *. div2_facts (n + 1). lia. Qed.

Lemma retarget_inj_l x c c' : c ∈ l → c' ∈ l → retarget x c = retarget x c' → c = c'.
Proof. intros Hc Hc' Heq. by destruct (retarget_inj x x c c' t (l_last c Hc) (l_last c' Hc') Heq). Qed.

Lemma size_N1 : size N1 = k.
Proof.
  unfold N1. rewrite size_list_to_set, length_fmap, length_take.
  - unfold l. rewrite length_enum. pose proof k_bounds. lia.
  - apply NoDup_fmap_2_strong; [|eapply sublist_NoDup; [apply NoDup_enum|apply sublist_take]].
    intros c c' Hc Hc'. apply retarget_inj_l; by eapply subseteq_take.
Qed.

Lemma size_N2 : size N2 = n - k.
Proof.
  unfold N2. rewrite size_list_to_set, length_fmap, length_drop.
  - unfold l. by rewrite length_enum.
  - apply NoDup_fmap_2_strong; [|eapply sublist_NoDup; [apply NoDup_enum|apply sublist_drop]].
    intros c c' Hc Hc'. apply retarget_inj_l; by eapply subseteq_drop.
Qed.

Lemma old_last_tuple d u : d ∈ allClauses s → last d = Some u → u ≠ t1 ∧ u ≠ t2.
Proof.
  intros Hd Hl. pose proof (wf_last_tuple s Hwf d u Hd Hl).
  destruct or_fresh as (? & ? & _). split; intros ->; done.
Qed.

Lemma cls'_eq : cls' = N1 ∪ (N2 ∪ ({[c2]} ∪ ({[c1]} ∪ allClauses s ∖ O))).
Proof.
  apply set_eq. intros d. rewrite elem_of_cls'. unfold O.
  rewrite !elem_of_union, !elem_of_singleton, elem_of_difference, elem_of_consequent_clauses.
  tauto.
Qed.

Lemma size_cls' : size cls' = S (S (size (allClauses s))).
Proof.
  destruct or_fresh as (_ & _ & H12 & H1 & H2). destruct bridge_new as (Hc1 & Hc2 & Hc12).
  assert (∀ d, d ∈ allClauses s ∖ O → ∃ u, last d = Some u ∧ u ≠ t1 ∧ u ≠ t2 ∧ u ≠ t) as Hold.
  { intros d [Hd Hn']%elem_of_difference. destruct (wf_last _ Hwf d Hd) as (u & Hu & _).
    destruct (old_last_tuple d u Hd Hu). exists u. split_and!; [done..|].
    intros ->. apply Hn', elem_of_consequent_clauses. done. }
  assert (Hsub : O ⊆ allClauses s) by (intros d Hd%elem_of_consequent_clauses; tauto).
  pose proof (subseteq_size _ _ Hsub).
  assert (Hc1l : last c1 = Some t) by done. assert (Hc2l : last c2 = Some t) by done.
  assert (Hrest : ∀ d, d ∈ {[c2]} ∪ ({[c1]} ∪ allClauses s ∖ O) → last d ≠ Some t1 ∧ last d ≠ Some t2).
  { intros d Hd. rewrite !elem_of_union, !elem_of_singleton in Hd.
    destruct Hd as [->|[->|(u & Hu & ? & ? & _)%Hold]]; split; congruence. }
  assert (D4 : {[c1]} ## allClauses s ∖ O) by set_solver.
  assert (D3 : {[c2]} ## {[c1]} ∪ allClauses s ∖ O) by set_solver.
  assert (D2 : N2 ## {[c2]} ∪ ({[c1]} ∪ allClauses s ∖ O)).
  { apply (disjoint_by last (Some t2)); [intros d Hd; by apply elem_of_N2|].
    intros d Hd. by apply Hrest. }
  assert (D1 : N1 ## N2 ∪ ({[c2]} ∪ ({[c1]} ∪ allClauses s ∖ O))).
  { apply (disjoint_by last (Some t1)); [intros d Hd; by apply elem_of_N1|].
    intros d Hd. rewrite elem_of_union in Hd. destruct Hd as [Hd|Hd]; [|by apply Hrest].
    apply elem_of_N2 in Hd as [-> _]. congruence. }
  rewrite cls'_eq, (size_union N1), (size_union N2), (size_union {[c2]}), (size_union {[c1]})
    by assumption.
  rewrite size_N1, size_N2, !size_singleton, size_difference by done.
  fold n. pose proof k_bounds. lia.
Qed.
Lemma cls'_cases d : d ∈ cls' →
  ((d = c1 ∨ d = c2) ∧ last d = Some t) ∨ (d ∈ N1 ∧ last d = Some t1) ∨
  (d ∈ N2 ∧ last d = Some t2) ∨
  (d ∈ allClauses s ∧ ∃ u, last d = Some u ∧ u ≠ t ∧ u ≠ t1 ∧ u ≠ t2).
Proof.
  intros [->|[->|[Hd|[Hd|[Hd Hl]]]]]%elem_of_cls'.
  - left. split; [by left|done].
  - left. split; [by right|done].
  - right; left. split; [done|]. by apply elem_of_N1.
  - right; right; left. split; [done|]. by apply elem_of_N2.
  - right; right; right. split; [done|].
    destruct (wf_last _ Hwf d Hd) as (u & Hu & _). destruct (old_last_tuple d u Hd Hu).
    exists u. split_and!; [done|congruence|done|done].
Qed.

Ltac cc_solve :=
  apply set_eq; intros d; rewrite !elem_of_consequent_clauses; split;
  [intros [Hd%cls'_cases Hd'];
   destruct Hd as [[Hd Hl']|[[Hd Hl']|[[Hd Hl']|[Hd (u' & Hl' & ? & ? & ?)]]]];
   rewrite Hl' in Hd'; simplify_eq; set_solver
  |].

Lemma cc_t : consequent_clauses cls' t = {[c1; c2]}.
Proof.
  destruct or_fresh as (_ & _ & _ & ? & ?). cc_solve.
  intros Hd. rewrite elem_of_union, !elem_of_singleton in Hd. rewrite elem_of_cls'.
  destruct Hd as [-> | ->]; split; [tauto|done|tauto|done].
Qed.

Lemma cc_t1 : consequent_clauses cls' t1 = N1.
Proof.
  destruct or_fresh as (_ & _ & ? & ? & ?). cc_solve.
  intros Hd. rewrite elem_of_cls'. split; [tauto|]. by apply elem_of_N1.
Qed.

Lemma cc_t2 : consequent_clauses cls' t2 = N2.
Proof.
  destruct or_fresh as (_ & _ & ? & ? & ?). cc_solve.
  intros Hd. rewrite elem_of_cls'. split; [tauto|]. by apply elem_of_N2.
Qed.

Lemma cc_other u : u ≠ t → u ≠ t1 → u ≠ t2 →
  consequent_clauses cls' u = consequent_clauses (allClauses s) u.
Proof.
  intros. cc_solve.
  intros [Hd Hl]. rewrite elem_of_cls'. split; [|done]. right; right; right; right.
  split; [done|]. congruence.
Qed.

Lemma or_index (m1 : index) :
  m1 !! t1 = Some (N1 ∪ ∅) → m1 !! t2 = Some (N2 ∪ ∅) →
  (∀ u, u ≠ t1 → u ≠ t2 →
     m1 !! u = <[t := {[c1; c2]}]> (ref_index (allClauses s) (allTuples s)) !! u) →
  m1 = ref_index cls' T'.
Proof.
  intros H1 H2 Hu. destruct or_fresh as (_ & _ & H12 & Ht1 & Ht2).
  assert (HT : ∀ u, u ≠ t1 → u ≠ t2 → u ∈ T' ↔ u ∈ allTuples s) by (unfold T'; set_solver).
  apply map_eq. intros u. rewrite (ref_index_lookup cls' T' u).
  destruct (decide (u = t1)) as [->|Hu1].
  { rewrite H1, cc_t1, union_empty_r_L. case_decide; [done|unfold T' in *; set_solver]. }
  destruct (decide (u = t2)) as [->|Hu2].
  { rewrite H2, cc_t2, union_empty_r_L. case_decide; [done|unfold T' in *; set_solver]. }
  rewrite Hu by done. destruct (decide (u = t)) as [->|Hut].
  - rewrite lookup_insert_eq, cc_t. case_decide as Hin; [done|]. by apply HT in Ht.
  - rewrite lookup_insert_ne, ref_index_lookup, cc_other by congruence.
    specialize (HT u Hu1 Hu2). do 2 case_decide; tauto.
Qed.

Lemma t_cons : t ∈ allConsequents s.
Proof. pose proof k_bounds as (_ & Hkn & _). apply cc_cons; [apply Hwf|fold O n; lia]. Qed.

Lemma or_split_wf names' :
  dom names' = N1 ∪ N2 ∪ dom (<[c2 := "Rnarrow"]> (<[c1 := "Rnarrow"]> (allRuleNames s))) →
  wf_state (mkCState cls' names' T' ({[t2]} ∪ ({[t1]} ∪ allConsequents s))).
Proof.
  intros Hdom. destruct or_fresh as (Hf1 & Hf2 & H12 & Ht1 & Ht2). pose proof t_cons as Htc.
  constructor; [constructor|..]; simpl.
  - intros d [[_ Hl]|[[_ Hl]|[[_ Hl]|[Hd _]]]]%cls'_cases.
    + exists t. split_and!; [done|by apply (wf_pos _ Hwf)|revert Htc; sets].
    + exists t1. split_and!; [done..|sets].
    + exists t2. split_and!; [done..|sets].
    + destruct (wf_last _ Hwf d Hd) as (u & ? & ? & Hu). exists u. split_and!; [done..|revert Hu; sets].
  - intros d a [[Hd _]|[[Hd _]|[[Hd _]|[Hd _]]]]%cls'_cases Ha.
    + unfold T'. destruct Hd as [->| ->]; [unfold c1 in Ha|unfold c2 in Ha];
        rewrite bridge_ants in Ha; apply list_elem_of_singleton in Ha as ->; sets.
    + apply elem_of_N1 in Hd as (_ & c & Hc & ->). rewrite retarget_ants in Ha.
      apply elem_of_l in Hc as [Hc _]. pose proof (wf_ants _ Hwf c a Hc Ha) as Hin.
      unfold T'. revert Hin. sets.
    + apply elem_of_N2 in Hd as (_ & c & Hc & ->). rewrite retarget_ants in Ha.
      apply elem_of_l in Hc as [Hc _]. pose proof (wf_ants _ Hwf c a Hc Ha) as Hin.
      unfold T'. revert Hin. sets.
    + pose proof (wf_ants _ Hwf d a Hd Ha) as Hin. unfold T'. revert Hin. sets.
  - pose proof (wf_cons _ Hwf) as Hc. unfold T'. revert Hc. sets.
  - rewrite Hdom, !dom_insert_L. intros d Hd. pose proof (wf_names _ Hwf) as Hn'.
    apply elem_of_cls' in Hd. revert Hd Hn'. sets.
  - intros u Hu. unfold T' in Hu. rewrite !elem_of_union, !elem_of_singleton in Hu.
    destruct Hu as [->|[->|Hu]]; [done..|by apply (wf_pos _ Hwf)].
  - rewrite size_cls'. intros p j Hp Hj. unfold T'. apply (wf_fresh_two s Hwf); [set_solver|done..].
Qed.

(** Every derivation by the old clauses is one by the new clauses: a
    clause that derived [t] now derives its fresh tuple, which derives [t]. *)
Lemma or_derivable_fwd E u : derivable (allClauses s) E u → derivable cls' E u.
Proof.
  induction 1 as [u Hu|c u Hc Hlc _ IH]; [by apply der_edb|].
  destruct (decide (u = t)) as [->|Hne].
  - assert (c ∈ l) as Hcl by (by apply elem_of_l).
    destruct (N_cover c Hcl) as [HN|HN].
    + apply (der_rule _ _ c1); [apply elem_of_cls'; by left|done|].
      unfold c1. rewrite bridge_ants. intros a ->%list_elem_of_singleton.
      apply (der_rule _ _ (retarget t1 c)); [apply elem_of_cls'; tauto|apply last_retarget|].
      by rewrite retarget_ants.
    + apply (der_rule _ _ c2); [apply elem_of_cls'; tauto|done|].
      unfold c2. rewrite bridge_ants. intros a ->%list_elem_of_singleton.
      apply (der_rule _ _ (retarget t2 c)); [apply elem_of_cls'; tauto|apply last_retarget|].
      by rewrite retarget_ants.
  - apply (der_rule _ _ c); [|done|done]. apply elem_of_cls'.
    right; right; right; right. split; [done|congruence].
Qed.

(** A derivation by the new clauses of a fresh tuple derives [t] by the
    old clauses; of any other tuple, that tuple. *)
Lemma or_derivable_bwd E u : E ⊆ allTuples s → derivable cls' E u →
  ((u = t1 ∨ u = t2) → derivable (allClauses s) E t) ∧
  (u ≠ t1 → u ≠ t2 → derivable (allClauses s) E u).
Proof.
  intros HE. destruct or_fresh as (Hf1 & Hf2 & H12 & Ht1 & Ht2).
  induction 1 as [u Hu|d u Hd Hld _ IH].
  { assert (u ≠ t1 ∧ u ≠ t2) as [] by (split; intros ->; set_solver).
    split; [intros [-> | ->]; done|intros; by apply der_edb]. }
  assert (Hants : ∀ c, c ∈ allClauses s → last c = Some t →
      (∀ a, a ∈ clause2Antecedents c → a ≠ t1 → a ≠ t2 → derivable (allClauses s) E a) →
      derivable (allClauses s) E t).
  { intros c Hc Hlc Ha. apply (der_rule _ _ c); [done|done|]. intros a Ha'.
    pose proof (wf_ants _ Hwf c a Hc Ha'). apply Ha; [done|intros ->; done..]. }
  apply cls'_cases in Hd as [[Hc Hl]|[[HN Hl]|[[HN Hl]|[Hold (w & Hl & Hw & Hw1 & Hw2)]]]];
    rewrite Hl in Hld; injection Hld as <-.
  - split; [intros [? | ?]; congruence|intros _ _].
    destruct Hc as [-> | ->].
    + apply (proj1 (IH t1 ltac:(unfold c1; rewrite bridge_ants; set_solver))). by left.
    + apply (proj1 (IH t2 ltac:(unfold c2; rewrite bridge_ants; set_solver))). by right.
  - split; [intros _|intros Hne; by destruct Hne].
    apply elem_of_N1 in HN as (_ & c & Hc & ->). apply elem_of_l in Hc as [Hc Hlc].
    apply (Hants c Hc Hlc). intros a Ha Ha1 Ha2.
    apply (proj2 (IH a ltac:(by rewrite retarget_ants))); done.
  - split; [intros _|intros _ Hne; by destruct Hne].
    apply elem_of_N2 in HN as (_ & c & Hc & ->). apply elem_of_l in Hc as [Hc Hlc].
    apply (Hants c Hc Hlc). intros a Ha Ha1 Ha2.
    apply (proj2 (IH a ltac:(by rewrite retarget_ants))); done.
  - split; [intros [-> | ->]; done|intros _ _].
    apply (der_rule _ _ d); [done|done|]. intros a Ha.
    pose proof (wf_ants _ Hwf d a Hold Ha).
    apply IH; [done|intros ->; done..].
Qed.

Let m := ref_index (allClauses s) (allTuples s).
Let m' := ref_index cls' T'.

Definition wide_inv (cls : gset clause) (T W : gset string) : Prop :=
  W ⊆ T ∧ ∀ u, u ∈ T → MAX_DISJUNCTS ≤ size (consequent_clauses cls u) → u ∈ W.

Context (wide : gset string) (Hwide : wide_inv (allClauses s) (allTuples s) wide) (Htw : t ∈ wide).

Let W1 := if MAX_DISJUNCTS <=? size N1 then {[t1]} ∪ wide ∖ {[t]} else wide ∖ {[t]}.
Let W2 := if MAX_DISJUNCTS <=? size N2 then {[t2]} ∪ W1 else W1.

Lemma or_wide : wide_inv cls' T' W2.
Proof.
  destruct Hwide as [Hsub Hall]. destruct or_fresh as (Hf1 & Hf2 & H12 & Ht1 & Ht2).
  split.
  - unfold W2, W1, T'. revert Hsub. destruct (_ <=? size N2), (_ <=? size N1); sets.
  - intros u Hu Hmax. unfold T' in Hu.
    destruct (decide (u = t1)) as [->|Hu1].
    { rewrite cc_t1 in Hmax. apply Nat.leb_le in Hmax. unfold W2, W1. rewrite Hmax.
      destruct (_ <=? size N2); sets. }
    destruct (decide (u = t2)) as [->|Hu2].
    { rewrite cc_t2 in Hmax. apply Nat.leb_le in Hmax. unfold W2. rewrite Hmax. sets. }
    destruct (decide (u = t)) as [->|Hut].
    { rewrite cc_t in Hmax. pose proof (size_pair c1 c2). unfold MAX_DISJUNCTS in Hmax. lia. }
    rewrite cc_other in Hmax by done.
    assert (u ∈ wide) as Huw by (apply Hall; [revert Hu Hu1 Hu2; sets|done]).
    unfold W2, W1. revert Huw Hut. destruct (_ <=? size N2), (_ <=? size N1); sets.
Qed.

Lemma or_measure_lt : or_measure m' W2 < or_measure m wide.
Proof.
  destruct Hwide as [Hsub _]. destruct or_fresh as (Hf1 & Hf2 & H12 & Ht1 & Ht2).
  pose proof k_bounds as (Hk0 & Hkn & Hnk0 & Hnkn & Hsum).
  assert (Hrest : wsum (λ u, 2 * size (m' !!! u) - 1) (wide ∖ {[t]}) =
                  wsum (λ u, 2 * size (m !!! u) - 1) (wide ∖ {[t]})).
  { apply wsum_ext. intros u [Hu Hne]%elem_of_difference.
    assert (HuT : u ∈ allTuples s) by (revert Hu Hsub; sets).
    assert (u ≠ t1 ∧ u ≠ t2) as [] by (split; intros ->; done).
    assert (HuT' : u ∈ T') by (unfold T'; revert HuT; sets).
    unfold m, m'. rewrite (ref_index_total _ _ u HuT), (ref_index_total _ _ u HuT'), cc_other;
      [done|revert Hne; sets|done..]. }
  assert (W1t1 : t1 ∉ wide ∖ {[t]}) by (revert Hf1 Hsub; sets).
  assert (W2t2 : t2 ∉ W1) by (unfold W1; revert Hf2 Hsub H12; destruct (_ <=? size N1); sets).
  assert (Hm1 : m' !!! t1 = N1).
  { unfold m'. rewrite ref_index_total, cc_t1; [done|unfold T'; sets]. }
  assert (Hm2 : m' !!! t2 = N2).
  { unfold m'. rewrite ref_index_total, cc_t2; [done|unfold T'; sets]. }
  assert (Hmt : m !!! t = O) by (unfold m; by rewrite ref_index_total).
  unfold or_measure. rewrite (wsum_delete _ t wide Htw), Hmt.
  unfold W2, W1. destruct (_ <=? size N2), (_ <=? size N1);
    rewrite ?wsum_insert by (done || (revert W1t1 H12; sets)); rewrite ?Hm1, ?Hm2, ?size_N1, ?size_N2, Hrest;
    fold n; lia.
Qed.

Lemma bridge_not_N : c1 ∉ N1 ∪ N2 ∧ c2 ∉ N1 ∪ N2.
Proof.
  destruct or_fresh as (_ & _ & _ & Ht1 & Ht2).
  split; intros [[Hl _]%elem_of_N1|[Hl _]%elem_of_N2]%elem_of_union;
    unfold c1, c2 in Hl; cbn [last] in Hl; congruence.
Qed.

Let names0 := <[c2 := "Rnarrow"]> (<[c1 := "Rnarrow"]> (allRuleNames s)).

Lemma narrow_or_split_run : ∃ names',
  narrow_or_split enc s m wide t =
    Ok (mkCState cls' names' T' ({[t2]} ∪ ({[t1]} ∪ allConsequents s)), m', W2) ∧
  dom names' = N1 ∪ N2 ∪ dom names0 ∧
  names' !! c1 = Some "Rnarrow" ∧ names' !! c2 = Some "Rnarrow" ∧
  (∀ c x, c ∈ l → retarget x c ∈ N1 ∪ N2 → names' !! retarget x c = allRuleNames s !! c).
Proof.
  destruct or_fresh as (Hf1 & Hf2 & H12 & Ht1 & Ht2). destruct bridge_new as (Hc1 & Hc2 & Hc12).
  pose proof k_bounds as (Hk0 & Hkn & Hnk0 & Hnkn & _).
  unfold narrow_or_split, m. rewrite (dict_get_Ok _ t _ (ref_index_Some _ _ t Ht)). simpl.
  fold t1 t2 c1 c2 O n l.
  set (m0 := <[t2 := ∅]> (<[t1 := ∅]> (<[t := {[c1; c2]}]> (ref_index (allClauses s) (allTuples s))))).
  fold names0.
  destruct (or_rewrite_fold t t1 t2 n Ht1 Ht2 H12 l m0 ({[c2]} ∪ ({[c1]} ∪ allClauses s)) names0 ∅ ∅)
    as (m1 & cls1 & names1 & Hf & Hm1 & Hm2 & Hmu & Hcls & Hdom & Hn1 & Hn2).
  - apply NoDup_enum.
  - intros c Hc. apply elem_of_l in Hc as [Hc Hlc].
    split_and!; [done|apply elem_of_union; right; apply elem_of_union; by right|].
    unfold names0. rewrite !dom_insert_L. apply elem_of_union; right. apply elem_of_union; right.
    by apply (wf_names _ Hwf).
  - unfold m0. rewrite lookup_insert_ne, lookup_insert_eq by done. done.
  - unfold m0. by rewrite lookup_insert_eq.
  - intros c _. split; apply not_elem_of_empty.
  - rewrite size_empty, Nat.sub_0_r in Hm1, Hm2, Hcls, Hdom, Hn1, Hn2. fold k N1 N2 in Hm1, Hm2, Hcls, Hdom, Hn1, Hn2.
    rewrite Hf, Ok_bind. cbv beta iota.
    rewrite (dict_get_Ok _ _ _ Hm1), Ok_bind, (dict_get_Ok _ _ _ Hm2), Ok_bind. cbv beta.
    rewrite !union_empty_r_L.
    rewrite (proj2 (Nat.ltb_lt (size N1) n)), (proj2 (Nat.ltb_lt (size N2) n)),
      (proj2 (Nat.eqb_eq (size N1 + size N2) n)) by (rewrite ?size_N1, ?size_N2; lia).
    cbn [py_assert]. rewrite !Ok_bind, (set_remove_Ok t wide Htw), Ok_bind.
    exists names1. split_and!.
    + assert (m1 = m') as ->.
      { apply or_index; [done|done|]. intros u Hu1 Hu2. rewrite Hmu by done.
        unfold m0. by rewrite !lookup_insert_ne by done. }
      by rewrite Hcls.
    + done.
    + rewrite Hn1; [|apply (proj1 bridge_not_N)].
      unfold names0. rewrite lookup_insert_ne, lookup_insert_eq; [done|congruence].
    + rewrite Hn1; [|apply (proj2 bridge_not_N)].
      unfold names0. by rewrite lookup_insert_eq.
    + intros c x Hc Hx. rewrite Hn2 by done. apply elem_of_l in Hc as [Hc _].
      unfold names0. rewrite !lookup_insert_ne; [done|intros ->; done..].
Qed.

Lemma or_ants d : d ∈ cls' →
  length (clause2Antecedents d) = 1 ∨
  ∃ c, c ∈ allClauses s ∧ clause2Antecedents d = clause2Antecedents c.
Proof.
  intros [[[-> | ->] _]|[[Hd _]|[[Hd _]|[Hd _]]]]%cls'_cases.
  - left. unfold c1. by rewrite bridge_ants.
  - left. unfold c2. by rewrite bridge_ants.
  - apply elem_of_N1 in Hd as (_ & c & Hc & ->). apply elem_of_l in Hc as [Hc _].
    right. exists c. split; [done|apply retarget_ants].
  - apply elem_of_N2 in Hd as (_ & c & Hc & ->). apply elem_of_l in Hc as [Hc _].
    right. exists c. split; [done|apply retarget_ants].
  - right. by exists d.
Qed.

(** What one split leaves behind, counted. *)
Lemma or_split_counts : ∃ s' w',
  narrow_or_split enc s m wide t = Ok (s', ref_index (allClauses s') (allTuples s'), w') ∧
  consequent_clauses (allClauses s') t = {[c1; c2]} ∧
  size (consequent_clauses (allClauses s') t1) = (n + 1) / 2 ∧
  size (consequent_clauses (allClauses s') t2) = n / 2 ∧
  size (allClauses s') = S (S (size (allClauses s))) ∧
  allRuleNames s' !! c1 = Some "Rnarrow" ∧ allRuleNames s' !! c2 = Some "Rnarrow" ∧
  (∀ c, c ∈ consequent_clauses (allClauses s) t → ∃ x, x ∈ [t1; t2] ∧
     retarget x c ∈ allClauses s' ∧ allRuleNames s' !! retarget x c = allRuleNames s !! c) ∧
  (n < 19 → w' = wide ∖ {[t]}).
Proof.
  destruct narrow_or_split_run as (names' & Hrun & _ & Hc1 & Hc2 & Hnames).
  pose proof k_bounds. div2_facts (n + 1). div2_facts n.
  eexists _, _. split; [exact Hrun|]. cbn [allClauses allRuleNames].
  split_and!; [apply cc_t|rewrite cc_t1, size_N1; done|rewrite cc_t2, size_N2; unfold k; lia
    |apply size_cls'|done|done| |].
  - intros c Hc. assert (c ∈ l) as Hcl by (unfold l; by apply elem_of_enum).
    destruct (N_cover c Hcl) as [HN|HN]; [exists t1|exists t2];
      (split; [repeat constructor|]); (split; [apply elem_of_cls'; tauto|]);
      apply Hnames; [done|apply elem_of_union; tauto|done|apply elem_of_union; tauto].
  - intros Hlt. unfold W2, W1. rewrite size_N1, size_N2.
    rewrite (proj2 (Nat.leb_gt MAX_DISJUNCTS (n - k))), (proj2 (Nat.leb_gt MAX_DISJUNCTS k));
      [done|unfold k, MAX_DISJUNCTS; lia..].
Qed.

End or_split.

(** The loop invariant of [narrowor], between two iterations: the index is
    the reference index of the state, and [wideConsequents] holds every
    tuple with [MAX_DISJUNCTS] deriving clauses or more. *)
Lemma narrow_or_split_step enc s wide t :
  wf_state s → wide_inv (allClauses s) (allTuples s) wide → t ∈ wide →
  MAX_DISJUNCTS ≤ size (consequent_clauses (allClauses s) t) →
  ∃ s' wide',
    narrow_or_split enc s (ref_index (allClauses s) (allTuples s)) wide t =
      Ok (s', ref_index (allClauses s') (allTuples s'), wide') ∧
    wf_state s' ∧ wide_inv (allClauses s') (allTuples s') wide' ∧
    or_measure (ref_index (allClauses s') (allTuples s')) wide' <
      or_measure (ref_index (allClauses s) (allTuples s)) wide ∧
    allTuples s ⊆ allTuples s' ∧
    (∀ E u, E ⊆ allTuples s → u ∈ allTuples s →
       derivable (allClauses s) E u ↔ derivable (allClauses s') E u) ∧
    (∀ d, d ∈ allClauses s' → length (clause2Antecedents d) = 1 ∨
       ∃ c, c ∈ allClauses s ∧ clause2Antecedents d = clause2Antecedents c).
Proof.
  intros Hwf Hwide Htw Hn.
  assert (Ht : t ∈ allTuples s) by (destruct Hwide as [Hsub _]; by apply Hsub).
  destruct (narrow_or_split_run enc s Hwf t Ht Hn wide Htw) as (names' & Hrun & Hdom & _).
  eexists _, _. split; [exact Hrun|]. split_and!.
  - by apply or_split_wf.
  - by apply or_wide.
  - by apply or_measure_lt.
  - cbn [allTuples]. sets.
  - intros E u HE Hu. cbn [allClauses]. split; [intros Hd; by eapply or_derivable_fwd|].
    intros Hd. destruct (or_fresh enc s Hwf t Ht) as (Hf1 & Hf2 & _).
    destruct (or_derivable_bwd enc s Hwf t Ht Hn E u HE Hd) as [_ Hb].
    apply Hb; intros ->; done.
  - intros d Hd. by eapply or_ants.
Qed.

Lemma first_wide_spec (m : index) ts : (∀ u, u ∈ ts → u ∈ dom m) →
  ∃ o, first_wide m ts = Ok o ∧
    match o with
    | None => ∀ u, u ∈ ts → size (m !!! u) < MAX_DISJUNCTS
    | Some u => u ∈ ts ∧ MAX_DISJUNCTS ≤ size (m !!! u)
    end.
Proof.
  induction ts as [|u ts IH]; intros Hdom; cbn [first_wide].
  { exists None. split; [done|]. intros u Hu. by apply elem_of_nil in Hu. }
  destruct (proj1 (elem_of_dom m u) (Hdom u ltac:(by apply elem_of_cons; left))) as [cs Hcs].
  rewrite (dict_get_Ok _ _ _ Hcs), Ok_bind. cbv beta.
  assert (m !!! u = cs) as Hu by (by rewrite lookup_total_alt, Hcs).
  destruct (MAX_DISJUNCTS <=? size cs) eqn:E.
  - exists (Some u). split; [done|]. split; [by apply elem_of_cons; left|].
    rewrite Hu. by apply Nat.leb_le.
  - destruct IH as (o & Ho & Hspec); [intros v Hv; apply Hdom; by apply elem_of_cons; right|].
    exists o. split; [done|]. destruct o as [v|].
    + destruct Hspec as [Hv Hm]. split; [apply elem_of_cons; by right|done].
    + intros v [->|Hv]%elem_of_cons; [rewrite Hu; by apply Nat.leb_gt|by apply Hspec].
Qed.

(** ** The loop (lines 142-212) *)

Section or_loop.
Context (enc : Enum clause) (ent : Enum string).

Lemma narrow_or_loop_spec fuel s wide :
  wf_state s → wide_inv (allClauses s) (allTuples s) wide →
  or_measure (ref_index (allClauses s) (allTuples s)) wide < fuel →
  ∃ s', narrow_or_loop enc ent fuel s (ref_index (allClauses s) (allTuples s)) wide =
      Ok (s', ref_index (allClauses s') (allTuples s')) ∧
    wf_state s' ∧
    (∀ u, size (consequent_clauses (allClauses s') u) < MAX_DISJUNCTS) ∧
    allTuples s ⊆ allTuples s' ∧
    (∀ E u, E ⊆ allTuples s → u ∈ allTuples s →
       derivable (allClauses s) E u ↔ derivable (allClauses s') E u) ∧
    (∀ B, 1 < B → (∀ c, c ∈ allClauses s → length (clause2Antecedents c) < B) →
       ∀ d, d ∈ allClauses s' → length (clause2Antecedents d) < B).
Proof.
  revert s wide. induction fuel as [|fuel IH]; intros s wide Hwf Hwide Hm; [lia|].
  cbn [narrow_or_loop].
  destruct (first_wide_spec (ref_index (allClauses s) (allTuples s)) (enum_of ent wide))
    as (o & Ho & Hspec).
  { intros u Hu%elem_of_enum. apply elem_of_dom. exists (consequent_clauses (allClauses s) u).
    apply ref_index_Some. by apply (proj1 Hwide). }
  rewrite Ho, Ok_bind. destruct o as [t|].
  - destruct Hspec as [Ht%elem_of_enum Hmax].
    assert (t ∈ allTuples s) as HtT by (by apply (proj1 Hwide)).
    rewrite ref_index_total in Hmax by done.
    destruct (narrow_or_split_step enc s wide t Hwf Hwide Ht Hmax)
      as (s1 & w1 & Hrun & Hwf1 & Hw1 & Hm1 & Hsub1 & Hd1 & Ha1).
    rewrite Hrun, Ok_bind.
    destruct (IH s1 w1 Hwf1 Hw1 ltac:(lia)) as (s2 & Hl & Hwf2 & Hb2 & Hsub2 & Hd2 & Ha2).
    exists s2. split_and!; [done|done|done|set_solver| |].
    + intros E u HE Hu. rewrite (Hd1 E u HE Hu). apply Hd2; set_solver.
    + intros B HB Hc. apply Ha2; [done|]. intros d Hd.
      destruct (Ha1 d Hd) as [->|(c & Hc' & ->)]; [done|by apply Hc].
  - exists s. split_and!; [done|done| |done|done|done].
    intros u. destruct (decide (u ∈ allTuples s)) as [Hu|Hu].
    + destruct (decide (MAX_DISJUNCTS ≤ size (consequent_clauses (allClauses s) u))) as [Hge|]; [|lia].
      pose proof (proj2 Hwide u Hu Hge) as Huw.
      specialize (Hspec u (proj2 (elem_of_enum _ _ _) Huw)).
      rewrite ref_index_total in Hspec by done. lia.
    + rewrite cc_unknown by done. rewrite size_empty. unfold MAX_DISJUNCTS. lia.
Qed.

(** On the reference index of a well-formed state every consequent is a
    key: [wideConsequents] raises no [KeyError]. *)
Lemma wide_consequents_ref s : wf_state s →
  wide_consequents s (ref_index (allClauses s) (allTuples s)) =
    Ok (wide_filter s (ref_index (allClauses s) (allTuples s))).
Proof.
  intros Hwf. unfold wide_consequents. rewrite bool_decide_true; [done|].
  intros u Hu. apply elem_of_dom. rewrite ref_index_Some; [done|]. by apply (wf_cons _ Hwf).
Qed.

Lemma wide_consequents_inv s : wf_state s →
  wide_inv (allClauses s) (allTuples s) (wide_filter s (ref_index (allClauses s) (allTuples s))).
Proof.
  intros Hwf. split.
  - intros u [_ Hu]%elem_of_filter. by apply (wf_cons _ Hwf).
  - intros u Hu Hge. apply elem_of_filter. rewrite ref_index_total by done. split; [done|].
    apply cc_cons; [apply Hwf|unfold MAX_DISJUNCTS in Hge; lia].
Qed.

Lemma narrow_or_spec s : wf_state s →
  ∃ s', narrow_or enc ent s (ref_index (allClauses s) (allTuples s)) =
      Ok (s', ref_index (allClauses s') (allTuples s')) ∧
    wf_state s' ∧
    (∀ u, size (consequent_clauses (allClauses s') u) < MAX_DISJUNCTS) ∧
    allTuples s ⊆ allTuples s' ∧
    (∀ E u, E ⊆ allTuples s → u ∈ allTuples s →
       derivable (allClauses s) E u ↔ derivable (allClauses s') E u) ∧
    (∀ B, 1 < B → (∀ c, c ∈ allClauses s → length (clause2Antecedents c) < B) →
       ∀ d, d ∈ allClauses s' → length (clause2Antecedents d) < B).
Proof.
  intros Hwf. unfold narrow_or. rewrite wide_consequents_ref, Ok_bind by done.
  apply narrow_or_loop_spec; [done|by apply wide_consequents_inv|lia].
Qed.

End or_loop.

(** ** Properties of disjunction narrowing *)

Section narrow_or_props.
Context (enc : Enum clause) (ent : Enum string).

(** C8: narrowor terminates: on every well-formed state and for every
    iteration order, building the consequent index and running the loop
    with the fuel of [narrow_or] end without an exception, in a
    well-formed state whose index is still the reference index. *)
Theorem narrow_or_terminates s :
  wf_state s →
  ∃ m s' m', build_index enc s = Ok m ∧ narrow_or enc ent s m = Ok (s', m') ∧
    wf_state s' ∧ m' = ref_index (allClauses s') (allTuples s').
Proof.
  intros Hwf. destruct (narrow_or_spec enc ent s Hwf) as (s' & Hr & Hwf' & _).
  eexists _, s', _. split_and!; [apply build_index_ok, Hwf|exact Hr|done|done].
Qed.

(** C5: after narrowor every tuple is derived by fewer than
    [MAX_DISJUNCTS] (10) clauses. *)
Theorem narrow_or_fanin_bound s :
  wf_state s →
  ∃ m s' m', build_index enc s = Ok m ∧ narrow_or enc ent s m = Ok (s', m') ∧
    ∀ u, size (filter (λ c, last c = Some u) (allClauses s')) < MAX_DISJUNCTS.
Proof.
  intros Hwf. destruct (narrow_or_spec enc ent s Hwf) as (s' & Hr & _ & Hb & _).
  eexists _, s', _. split_and!; [apply build_index_ok, Hwf|exact Hr|exact Hb].
Qed.

(** C2: narrowor preserves provability: for every set [E] of EDB facts
    among the known tuples, a tuple of the input is derivable from [E] by
    the input clauses iff it is derivable by the narrowed clauses. *)
Theorem narrow_or_preserves_derivable s E :
  wf_state s → E ⊆ allTuples s →
  ∃ m s' m', build_index enc s = Ok m ∧ narrow_or enc ent s m = Ok (s', m') ∧
    ∀ u, u ∈ allTuples s → derivable (allClauses s) E u ↔ derivable (allClauses s') E u.
Proof.
  intros Hwf HE. destruct (narrow_or_spec enc ent s Hwf) as (s' & Hr & _ & _ & _ & Hd & _).
  eexists _, s', _. split_and!; [apply build_index_ok, Hwf|exact Hr|]. intros u Hu. by apply Hd.
Qed.

(** [tuple2ConsequentClauses] is the index it is meant to be: every
    known tuple mapped to exactly the clauses whose consequent it is, and
    no other key. *)
Theorem build_index_matches_ref s :
  wf_shape s →
  ∃ m, build_index enc s = Ok m ∧
    ∀ u, m !! u = if decide (u ∈ allTuples s)
                  then Some (filter (λ c, last c = Some u) (allClauses s)) else None.
Proof.
  intros Hs. exists (ref_index (allClauses s) (allTuples s)).
  split; [by apply build_index_ok|]. intros u. apply ref_index_lookup.
Qed.

(** narrowor is idempotent: run again on its own output (state and
    index), it splits nothing and returns them unchanged. *)
Theorem narrow_or_idempotent s :
  wf_state s →
  ∃ m s' m', build_index enc s = Ok m ∧ narrow_or enc ent s m = Ok (s', m') ∧
    narrow_or enc ent s' m' = Ok (s', m').
Proof.
  intros Hwf. destruct (narrow_or_spec enc ent s Hwf) as (s' & Hr & Hwf' & Hb & _).
  eexists _, s', _. split_and!; [apply build_index_ok, Hwf|exact Hr|].
  assert (wide_filter s' (ref_index (allClauses s') (allTuples s')) = ∅) as Hw.
  { apply set_eq. intros u. unfold wide_filter. rewrite elem_of_filter. split; [|set_solver].
    intros [Hge Hu]. rewrite ref_index_total in Hge by (by apply (wf_cons _ Hwf')).
    specialize (Hb u). lia. }
  unfold narrow_or, or_measure. rewrite wide_consequents_ref, Ok_bind, Hw, wsum_empty by done. cbn [narrow_or_loop].
  by rewrite enum_empty.
Qed.

(** one split of a tuple [t] derived by [n ≥ 10] clauses, with [N]
    clauses in all: [t] is left with the two bridging clauses
    [NOT D{N}, t] and [NOT D{N+1}, t] named ["Rnarrow"]; [D{N}] is derived
    by [(n + 1) / 2] clauses and [D{N+1}] by [n / 2]; every clause that
    derived [t] now derives one of them under its own rule name; the
    clause count grows by two; and a tuple with fewer than 19 clauses
    leaves the worklist. *)
Theorem narrow_or_split_shape s wide t :
  wf_state s → wide_inv (allClauses s) (allTuples s) wide → t ∈ wide →
  MAX_DISJUNCTS ≤ size (consequent_clauses (allClauses s) t) →
  let N := size (allClauses s) in
  let n := size (consequent_clauses (allClauses s) t) in
  ∃ s' w',
    narrow_or_split enc s (ref_index (allClauses s) (allTuples s)) wide t =
      Ok (s', ref_index (allClauses s') (allTuples s'), w') ∧
    consequent_clauses (allClauses s') t =
      {[["NOT " +:+ aux_name "D" N; t]; ["NOT " +:+ aux_name "D" (S N); t]]} ∧
    size (consequent_clauses (allClauses s') (aux_name "D" N)) = (n + 1) / 2 ∧
    size (consequent_clauses (allClauses s') (aux_name "D" (S N))) = n / 2 ∧
    size (allClauses s') = S (S N) ∧
    allRuleNames s' !! ["NOT " +:+ aux_name "D" N; t] = Some "Rnarrow" ∧
    allRuleNames s' !! ["NOT " +:+ aux_name "D" (S N); t] = Some "Rnarrow" ∧
    (∀ c, c ∈ consequent_clauses (allClauses s) t → ∃ x, x ∈ [aux_name "D" N; aux_name "D" (S N)] ∧
       retarget x c ∈ allClauses s' ∧ allRuleNames s' !! retarget x c = allRuleNames s !! c) ∧
    (n < 19 → w' = wide ∖ {[t]}).
Proof.
  intros Hwf Hwide Htw Hn N n.
  assert (Ht : t ∈ allTuples s) by (destruct Hwide as [Hsub _]; by apply Hsub).
  exact (or_split_counts enc s Hwf t Ht Hn wide Htw).
Qed.

End narrow_or_props.

(** ** The specification's scenario: eleven clauses derive one tuple *)

Definition eleven_lines : list string :=
  map (λ i, render_clause ("R" +:+ pretty i) ["NOT A(" +:+ pretty i +:+ ")"; "T(0)"]) (seq 0 11).

Definition S11 : CState :=
  match load eleven_lines with Ok s => s | Err _ => empty_cstate end.

Lemma S11_wf : wf_state S11.
Proof.
  apply (load_wf_state eleven_lines); [vm_eq|].
  unfold input_ok. apply (bool_decide_unpack _). vm_compute. reflexivity.
Qed.

Lemma S11_facts :
  size (allClauses S11) = 11 ∧ "T(0)" ∈ allTuples S11 ∧
  size (consequent_clauses (allClauses S11) "T(0)") = 11 ∧
  wide_filter S11 (ref_index (allClauses S11) (allTuples S11)) = {[ "T(0)" ]} ∧
  or_measure (ref_index (allClauses S11) (allTuples S11)) {[ "T(0)" ]} = 21.
Proof. split_and!; [vm_eq|apply (bool_decide_unpack _); vm_compute; reflexivity|vm_eq..]. Qed.

(** The specification's scenario.  Whatever the iteration orders, a
    tuple derived by eleven clauses is split once: it keeps the two
    bridging clauses from [D11] and [D12], which are derived by 6 and 5 of
    the original clauses, and the state has 13 clauses. *)
Theorem narrow_or_eleven (enc : Enum clause) (ent : Enum string) :
  ∃ m s' m', build_index enc S11 = Ok m ∧ narrow_or enc ent S11 m = Ok (s', m') ∧
    m' !!! "T(0)" = {[["NOT D11"; "T(0)"]; ["NOT D12"; "T(0)"]]} ∧
    size (m' !!! "D11") = 6 ∧ size (m' !!! "D12") = 5 ∧ size (allClauses s') = 13.
Proof.
  destruct S11_facts as (HN & Ht & Hn & Hw & Hm). pose proof S11_wf as Hwf.
  pose proof (wide_consequents_inv S11 Hwf) as Hwide. rewrite Hw in Hwide.
  set (S := S11) in *. clearbody S.
  assert (Hn' : MAX_DISJUNCTS ≤ size (consequent_clauses (allClauses S) "T(0)"))
    by (rewrite Hn; unfold MAX_DISJUNCTS; lia).
  assert (Htw : "T(0)" ∈ ({[ "T(0)" ]} : gset string)) by set_solver.
  destruct (or_split_counts enc S Hwf "T(0)" Ht Hn' {[ "T(0)" ]} Htw)
    as (s1 & w1 & Hrun & Hct & Hc1 & Hc2 & Hsize & _ & _ & _ & Hw1).
  destruct (narrow_or_split_step enc S {[ "T(0)" ]} "T(0)" Hwf Hwide Htw Hn')
    as (s1' & w1' & Hrun' & Hwf1 & _).
  rewrite Hrun in Hrun'. injection Hrun' as Hs _ Hw'. subst s1' w1'.
  rewrite Hn in Hw1. specialize (Hw1 ltac:(lia)). rewrite difference_diag_L in Hw1. subst w1.
  eexists _, s1, _. split; [apply build_index_ok, Hwf|]. split.
  - unfold narrow_or. rewrite wide_consequents_ref, Ok_bind, Hw, Hm by done. cbn [narrow_or_loop]. rewrite enum_singleton.
    cbn [first_wide]. rewrite (dict_get_Ok _ _ _ (ref_index_Some _ _ _ Ht)), Ok_bind. cbv beta.
    rewrite Hn. change (MAX_DISJUNCTS <=? 11) with true. cbv iota.
    rewrite !Ok_bind. cbv iota. rewrite Hrun, Ok_bind. cbv beta iota.
    cbn [narrow_or_loop]. by rewrite enum_empty.
  - rewrite !ref_index_cc by done. rewrite HN in Hct, Hc1, Hc2, Hsize. rewrite Hn in Hc1, Hc2.
    split_and!; [rewrite Hct; vm_eq|exact Hc1|exact Hc2|exact Hsize].
Qed.

(** ** Witnesses *)

Definition E11 : gset string := {[ "A(3)"; "A(7)" ]}.

Lemma narrow_or_terminates_witness :
  wf_state S11 ∧
  ∃ m s' m', build_index elements_enum S11 = Ok m ∧
    narrow_or elements_enum elements_enum S11 m = Ok (s', m') ∧
    wf_state s' ∧ m' = ref_index (allClauses s') (allTuples s').
Proof. split; [apply S11_wf|]. apply narrow_or_terminates, S11_wf. Defined.

Lemma narrow_or_fanin_bound_witness :
  wf_state S11 ∧
  ∃ m s' m', build_index elements_enum S11 = Ok m ∧
    narrow_or elements_enum elements_enum S11 m = Ok (s', m') ∧
    ∀ u, size (filter (λ c, last c = Some u) (allClauses s')) < MAX_DISJUNCTS.
Proof. split; [apply S11_wf|]. apply narrow_or_fanin_bound, S11_wf. Defined.

Lemma narrow_or_preserves_derivable_witness :
  (wf_state S11 ∧ E11 ⊆ allTuples S11) ∧
  ∃ m s' m', build_index elements_enum S11 = Ok m ∧
    narrow_or elements_enum elements_enum S11 m = Ok (s', m') ∧
    ∀ u, u ∈ allTuples S11 → derivable (allClauses S11) E11 u ↔ derivable (allClauses s') E11 u.
Proof.
  assert (E11 ⊆ allTuples S11) as HE by (apply (bool_decide_unpack _); vm_compute; reflexivity).
  split; [split; [apply S11_wf|exact HE]|].
  apply narrow_or_preserves_derivable; [apply S11_wf|exact HE].
Defined.

Lemma build_index_matches_ref_witness :
  wf_shape S11 ∧
  ∃ m, build_index elements_enum S11 = Ok m ∧
    ∀ u, m !! u = if decide (u ∈ allTuples S11)
                  then Some (filter (λ c, last c = Some u) (allClauses S11)) else None.
Proof. split; [apply S11_wf|]. apply build_index_matches_ref, S11_wf. Defined.

Lemma narrow_or_idempotent_witness :
  wf_state S11 ∧
  ∃ m s' m', build_index elements_enum S11 = Ok m ∧
    narrow_or elements_enum elements_enum S11 m = Ok (s', m') ∧
    narrow_or elements_enum elements_enum s' m' = Ok (s', m').
Proof. split; [apply S11_wf|]. apply narrow_or_idempotent, S11_wf. Defined.

Lemma narrow_or_split_shape_witness :
  (wf_state S11 ∧ wide_inv (allClauses S11) (allTuples S11) {[ "T(0)" ]} ∧
   "T(0)" ∈ ({[ "T(0)" ]} : gset string) ∧
   MAX_DISJUNCTS ≤ size (consequent_clauses (allClauses S11) "T(0)")) ∧
  let N := size (allClauses S11) in
  let n := size (consequent_clauses (allClauses S11) "T(0)") in
  ∃ s' w',
    narrow_or_split elements_enum S11 (ref_index (allClauses S11) (allTuples S11))
      {[ "T(0)" ]} "T(0)" = Ok (s', ref_index (allClauses s') (allTuples s'), w') ∧
    consequent_clauses (allClauses s') "T(0)" =
      {[["NOT " +:+ aux_name "D" N; "T(0)"]; ["NOT " +:+ aux_name "D" (S N); "T(0)"]]} ∧
    size (consequent_clauses (allClauses s') (aux_name "D" N)) = (n + 1) / 2 ∧
    size (consequent_clauses (allClauses s') (aux_name "D" (S N))) = n / 2 ∧
    size (allClauses s') = S (S N) ∧
    allRuleNames s' !! ["NOT " +:+ aux_name "D" N; "T(0)"] = Some "Rnarrow" ∧
    allRuleNames s' !! ["NOT " +:+ aux_name "D" (S N); "T(0)"] = Some "Rnarrow" ∧
    (∀ c, c ∈ consequent_clauses (allClauses S11) "T(0)" →
       ∃ x, x ∈ [aux_name "D" N; aux_name "D" (S N)] ∧
       retarget x c ∈ allClauses s' ∧ allRuleNames s' !! retarget x c = allRuleNames S11 !! c) ∧
    (n < 19 → w' = {[ "T(0)" ]} ∖ {[ "T(0)" ]}).
Proof.
  destruct S11_facts as (_ & _ & Hn & Hw & _).
  assert (Hwide : wide_inv (allClauses S11) (allTuples S11) {[ "T(0)" ]})
    by (rewrite <-Hw; apply wide_consequents_inv, S11_wf).
  assert (Hn' : MAX_DISJUNCTS ≤ size (consequent_clauses (allClauses S11) "T(0)"))
    by (rewrite Hn; unfold MAX_DISJUNCTS; lia).
  split; [split_and!; [apply S11_wf|exact Hwide|set_solver|exact Hn']|].
  apply narrow_or_split_shape; [apply S11_wf|exact Hwide|set_solver|exact Hn'].
Defined.
