(* ===== verification/Network.v ===== *)
(** * The Bayesian network ([cons_all2bnet.py] lines 214-252)

    After narrowing, the script numbers the nodes [allClauses | allConsequents]
    in set order ([nodeIndex]), writes the dictionary file ([index: node])
    and prints the network: the node count, then for a clause node
    [* ruleName k parents] (its antecedents that have a node) and for a
    tuple node [+ k parents] (the clauses deriving it).  The iteration
    orders of the node set and of the parent sets are the parameters [enn],
    [ens] and [enc].  [cons_all2bnet] composes the whole script. *)

From S2P Require Import Prelude Clauses NarrowAnd NarrowOr.

(** A node of the network: Python puts clauses (tuples of strings) and
    tuples (strings) in one set; they never compare equal. *)
Inductive node :=
  | NClause (c : clause)
  | NTuple (t : string).

#[export] Instance node_eq_dec : EqDecision node.
Proof. solve_decision. Defined.

#[export] Instance node_countable : Countable node.
Proof.
  apply (inj_countable' (λ nd, match nd with NClause c => inl c | NTuple t => inr t end)
                        (λ x, match x with inl c => NClause c | inr t => NTuple t end)).
  by intros [].
Defined.

(** Line 218: [allClauses | allConsequents]. *)
Definition node_set (s : CState) : gset node :=
  set_map NClause (allClauses s) ∪ set_map NTuple (allConsequents s).

(** [', '.join(x)]; on a string it joins the characters. *)
Definition join_comma (xs : list string) : string := String.concat ", " xs.

Definition chars (t : string) : list string := map (λ ch, String ch EmptyString) (String.list_ascii_of_string t).

(** Line 227: [node if node in allTuples else ', '.join(node)]. *)
Definition node_str (s : CState) (nd : node) : string :=
  match nd with
  | NTuple t => if bool_decide (t ∈ allTuples s) then t else join_comma (chars t)
  | NClause c => join_comma c
  end.

(** Lines 224-228: one node numbered and its dictionary line. *)
Definition dict_step (s : CState) (acc : gmap node nat * list string) (nd : node)
    : gmap node nat * list string :=
  let '(nodeIndex, out) := acc in
  let index := size nodeIndex in
  (<[nd := index]> nodeIndex, out ++ [pretty index +:+ ": " +:+ node_str s nd]).

(** Lines 222-229: [nodeIndex] and the dictionary file. *)
Definition write_dict (s : CState) (allNodes : list node) : gmap node nat * list string :=
  foldl (dict_step s) (∅, []) allNodes.

Section lines.
Context (enp : Enum string) (enc : Enum clause).

(** Lines 237-241: the parents of a clause node, a set of index strings. *)
Definition clause_parents (nodeIndex : gmap node nat) (c : clause) : gset string :=
  list_to_set (omap (λ lit, pretty <$> nodeIndex !! NTuple (lit2Tuple lit)) (removelast c)).

(** Line 248: the parents of a tuple node, in the order of its clause set. *)
Definition tuple_parents (t2cc : index) (nodeIndex : gmap node nat) (t : string)
    : res (list string) :=
  cs ← dict_get t2cc t;
  res_map (λ c, i ← dict_get nodeIndex (NClause c); Ok (pretty i)) (enum_of enc cs).

(** Lines 234-251: the line of one node. *)
Definition node_line (s : CState) (t2cc : index) (nodeIndex : gmap node nat) (nd : node)
    : res string :=
  match nd with
  | NClause c =>
      if bool_decide (c ∈ allClauses s) then
        (* line 235 holds: a clause is never a consequent *)
        let parents := clause_parents nodeIndex c in
        ruleName ← dict_get (allRuleNames s) c;
        Ok ("* " +:+ ruleName +:+ " " +:+ pretty (size parents) +:+ " " +:+
            String.concat " " (enum_of enp parents))
      else Err AssertionError
  | NTuple t =>
      assert! bool_decide (t ∈ allConsequents s) ;;
      parents ← tuple_parents t2cc nodeIndex t;
      Ok ("+ " +:+ pretty (length parents) +:+ " " +:+ String.concat " " parents)
  end.

(** Lines 218-252: the dictionary file and the network printed on stdout. *)
Definition network (s : CState) (t2cc : index) (allNodes : list node)
    : res (list string * list string) :=
  let '(nodeIndex, dictLines) := write_dict s allNodes in
  lines ← res_map (node_line s t2cc nodeIndex) allNodes;
  Ok (dictLines, pretty (size nodeIndex) :: lines).

End lines.

(** Lines 68-212: the optional narrowing passes and the consequent index. *)
Definition compile (enc : Enum clause) (ent : Enum string) (narrowand narrowor : bool)
    (s : CState) : res (CState * index) :=
  s1 ← (if narrowand then narrow_and enc s else Ok s);
  m ← build_index enc s1;
  if narrowor then narrow_or enc ent s1 m else Ok (s1, m).

(** The whole script, [cons_all2bnet.py bnet-dict.out [narrowand] [narrowor]]:
    the dictionary lines and the network lines, with the node set
    enumerated by [enn] and the parent sets by [ent] and [enc]. *)
Definition cons_all2bnet (enc : Enum clause) (ent : Enum string) (enn : Enum node)
    (narrowand narrowor : bool) (input : list string) : res (list string * list string) :=
  s ← load input;
  '(s2, m2) ← compile enc ent narrowand narrowor s;
  network ent enc s2 m2 (enum_of enn (node_set s2)).

(** ** Numbering the nodes (lines 222-228) *)

(** The index of a node is its position in [allNodes]; the dictionary
    line [i] is [i: node_str]. *)
Lemma write_dict_fold s (l P : list node) idx out :
  NoDup (P ++ l) →
  (∀ nd i, idx !! nd = Some i ↔ P !! i = Some nd) → size idx = length P →
  out = imap (λ i nd, pretty i +:+ ": " +:+ node_str s nd) P →
  let '(idx', out') := foldl (dict_step s) (idx, out) l in
  (∀ nd i, idx' !! nd = Some i ↔ (P ++ l) !! i = Some nd) ∧ size idx' = length (P ++ l) ∧
  out' = imap (λ i nd, pretty i +:+ ": " +:+ node_str s nd) (P ++ l).
Proof.
  revert P idx out. induction l as [|nd l IH]; intros P idx out Hnd Hidx Hsize Hout; simpl.
  { rewrite app_nil_r. auto. }
  assert (Hnot : nd ∉ P) by (intros Hin; apply NoDup_app in Hnd as (_ & Hd & _); apply (Hd nd Hin); by apply elem_of_cons; left).
  assert (Hfresh : idx !! nd = None).
  { destruct (idx !! nd) as [i|] eqn:E; [|done]. apply Hidx, list_elem_of_lookup_2 in E. done. }
  replace (P ++ nd :: l) with ((P ++ [nd]) ++ l) in * by (by rewrite <-app_assoc). apply IH.
  - done.
  - intros x i. rewrite lookup_insert_Some, Hidx, Hsize. split.
    + intros [[<- <-]|[Hne HP]].
      * rewrite lookup_app_r, Nat.sub_diag by lia. done.
      * by apply lookup_app_l_Some.
    + intros [HP|[Hi HP]]%lookup_app_Some.
      * right. split; [|done]. intros <-. apply Hnot. by eapply list_elem_of_lookup_2.
      * apply list_lookup_singleton_Some in HP as [Hi' <-]. left. split; [done|lia].
  - rewrite map_size_insert_None, length_app by done. simpl. lia.
  - rewrite Hout, imap_app. simpl. by rewrite Nat.add_0_r, Hsize.
Qed.

Lemma write_dict_spec s (nodes : list node) :
  NoDup nodes →
  let '(idx, out) := write_dict s nodes in
  (∀ nd i, idx !! nd = Some i ↔ nodes !! i = Some nd) ∧ size idx = length nodes ∧
  out = imap (λ i nd, pretty i +:+ ": " +:+ node_str s nd) nodes.
Proof.
  intros Hnd. unfold write_dict. apply (write_dict_fold s nodes []); [done| |done|done].
  intros nd i. rewrite lookup_empty. split; [done|by rewrite lookup_nil].
Qed.

Lemma elem_of_node_set_clause s c : NClause c ∈ node_set s ↔ c ∈ allClauses s.
Proof. unfold node_set. rewrite elem_of_union, !elem_of_map. naive_solver. Qed.

Lemma elem_of_node_set_tuple s t : NTuple t ∈ node_set s ↔ t ∈ allConsequents s.
Proof. unfold node_set. rewrite elem_of_union, !elem_of_map. naive_solver. Qed.

(** ** The network lines (lines 231-251) *)

Section net_facts.
Context (enp : Enum string) (enc : Enum clause).
Context (s : CState) (Hwf : wf_state s).
Context (nodes : list node) (Hnd : NoDup nodes) (Hnodes : ∀ nd, nd ∈ nodes ↔ nd ∈ node_set s).
Context (idx : gmap node nat) (Hidx : ∀ nd i, idx !! nd = Some i ↔ nodes !! i = Some nd).

Lemma idx_of_node nd : nd ∈ node_set s → ∃ j, idx !! nd = Some j ∧ nodes !! j = Some nd.
Proof.
  intros Hin. apply Hnodes, list_elem_of_lookup in Hin as [j Hj].
  exists j. split; [by apply Hidx|done].
Qed.

Lemma clause_parents_spec c p :
  p ∈ clause_parents idx c ↔
  ∃ a j, a ∈ clause2Antecedents c ∧ nodes !! j = Some (NTuple a) ∧ p = pretty j.
Proof.
  unfold clause_parents, clause2Antecedents. rewrite elem_of_list_to_set, list_elem_of_omap.
  split.
  - intros (lit & Hlit & Hp). destruct (idx !! NTuple (lit2Tuple lit)) as [j|] eqn:E; [|done].
    simplify_eq/=. exists (lit2Tuple lit), j. split_and!; [|by apply Hidx|done].
    apply list_elem_of_fmap. eauto.
  - intros (a & j & Ha & Hj & ->). apply list_elem_of_fmap in Ha as (lit & -> & Hlit).
    exists lit. split; [done|]. apply Hidx in Hj. by rewrite Hj.
Qed.

Lemma clause_line c : c ∈ allClauses s →
  ∃ r, allRuleNames s !! c = Some r ∧
    node_line enp enc s (ref_index (allClauses s) (allTuples s)) idx (NClause c) =
      Ok ("* " +:+ r +:+ " " +:+ pretty (size (clause_parents idx c)) +:+ " " +:+
          String.concat " " (enum_of enp (clause_parents idx c))).
Proof.
  intros Hc. destruct (proj1 (elem_of_dom (allRuleNames s) c) (wf_names _ Hwf c Hc)) as [r Hr].
  exists r. split; [done|]. simpl. rewrite bool_decide_true by done.
  by rewrite (dict_get_Ok _ _ _ Hr).
Qed.

Lemma tuple_line t : t ∈ allConsequents s →
  ∃ ps, node_line enp enc s (ref_index (allClauses s) (allTuples s)) idx (NTuple t) =
      Ok ("+ " +:+ pretty (length ps) +:+ " " +:+ String.concat " " ps) ∧
    Forall2 (λ c p, ∃ j, nodes !! j = Some (NClause c) ∧ p = pretty j)
      (enum_of enc (consequent_clauses (allClauses s) t)) ps.
Proof.
  intros Ht. assert (HtT : t ∈ allTuples s) by (by apply (wf_cons _ Hwf)).
  destruct (res_map_Ok (λ c, i ← dict_get idx (NClause c); Ok (pretty i))
      (λ c p, ∃ j, nodes !! j = Some (NClause c) ∧ p = pretty j)
      (enum_of enc (consequent_clauses (allClauses s) t))) as (ps & Hps & HF).
  { intros c [Hc _]%elem_of_enum%elem_of_consequent_clauses.
    destruct (idx_of_node (NClause c)) as (j & Hj & Hjn); [by apply elem_of_node_set_clause|].
    exists (pretty j). rewrite (dict_get_Ok _ _ _ Hj). eauto. }
  exists ps. split; [|done]. simpl. rewrite bool_decide_true by done. simpl.
  unfold tuple_parents. rewrite (dict_get_Ok _ _ _ (ref_index_Some _ _ _ HtT)), Ok_bind, Hps.
  done.
Qed.

Lemma clause_parents_size c : size (clause_parents idx c) ≤ length (clause2Antecedents c).
Proof.
  unfold clause_parents, clause2Antecedents. rewrite length_map.
  etrans; [apply size_list_to_set_le|apply length_omap_le].
Qed.

End net_facts.

(** What a line of the network says of its node: the rule name and the
    indices of the antecedents that have a node, or the indices of the
    clauses deriving the tuple (spec 4.3). *)
Definition line_spec (enp : Enum string) (enc : Enum clause) (s : CState) (nodes : list node)
    (nd : node) (line : string) : Prop :=
  match nd with
  | NClause c => ∃ r P, allRuleNames s !! c = Some r ∧
      line = "* " +:+ r +:+ " " +:+ pretty (size P) +:+ " " +:+ String.concat " " (enum_of enp P) ∧
      size P ≤ length (clause2Antecedents c) ∧
      ∀ p, p ∈ P ↔ ∃ a j, a ∈ clause2Antecedents c ∧ nodes !! j = Some (NTuple a) ∧ p = pretty j
  | NTuple t => ∃ ps, line = "+ " +:+ pretty (length ps) +:+ " " +:+ String.concat " " ps ∧
      Forall2 (λ c p, ∃ j, nodes !! j = Some (NClause c) ∧ p = pretty j)
        (enum_of enc (consequent_clauses (allClauses s) t)) ps
  end.

Lemma network_spec enp enc s (nodes : list node) :
  wf_state s → NoDup nodes → (∀ nd, nd ∈ nodes ↔ nd ∈ node_set s) →
  ∃ lines, network enp enc s (ref_index (allClauses s) (allTuples s)) nodes =
      Ok (imap (λ i nd, pretty i +:+ ": " +:+ node_str s nd) nodes,
          pretty (length nodes) :: lines) ∧
    Forall2 (line_spec enp enc s nodes) nodes lines.
Proof.
  intros Hwf Hnd Hnodes. pose proof (write_dict_spec s nodes Hnd) as Hw.
  unfold network. destruct (write_dict s nodes) as [idx dict]. destruct Hw as (Hidx & Hsize & ->).
  destruct (res_map_Ok (node_line enp enc s (ref_index (allClauses s) (allTuples s)) idx)
      (line_spec enp enc s nodes) nodes) as (lines & Hl & HF).
  { intros [c|t] Hin%Hnodes.
    - apply elem_of_node_set_clause in Hin.
      destruct (clause_line enp enc s Hwf idx c Hin) as (r & Hr & Hline).
      eexists. split; [exact Hline|]. exists r, (clause_parents idx c). split_and!; [done|done| |].
      + apply clause_parents_size.
      + intros p. by apply (clause_parents_spec nodes idx Hidx).
    - apply elem_of_node_set_tuple in Hin.
      destruct (tuple_line enp enc s Hwf nodes Hnodes idx Hidx t Hin) as (ps & Hline & HF).
      eexists. split; [exact Hline|]. by exists ps. }
  exists lines. rewrite Hl, Hsize. done.
Qed.

(** ** The composition of the passes *)

Lemma compile_spec enc ent na no s : wf_state s →
  ∃ s2, compile enc ent na no s = Ok (s2, ref_index (allClauses s2) (allTuples s2)) ∧
    wf_state s2 ∧ allTuples s ⊆ allTuples s2 ∧
    (∀ E u, E ⊆ allTuples s → u ∈ allTuples s →
       derivable (allClauses s) E u ↔ derivable (allClauses s2) E u) ∧
    (na = true → ∀ c, c ∈ allClauses s2 → length (clause2Antecedents c) < MAX_ANTECEDENTS) ∧
    (no = true → ∀ u, size (consequent_clauses (allClauses s2) u) < MAX_DISJUNCTS).
Proof.
  intros Hwf.
  assert (∃ s1, (if na then narrow_and enc s else Ok s) = Ok s1 ∧ wf_state s1 ∧
      allTuples s ⊆ allTuples s1 ∧
      (∀ E u, E ⊆ allTuples s → u ∈ allTuples s →
         derivable (allClauses s) E u ↔ derivable (allClauses s1) E u) ∧
      (na = true → ∀ c, c ∈ allClauses s1 → length (clause2Antecedents c) < MAX_ANTECEDENTS))
    as (s1 & H1 & Hwf1 & Ht1 & Hd1 & Hb1).
  { destruct na.
    - destruct (narrow_and_loop_spec enc (S (and_measure s)) s Hwf ltac:(lia))
        as (s1 & Hl & Hwf1 & Hw & Ht & Hd).
      exists s1. split_and!; [exact Hl|done|done|done|]. intros _. by apply wide_empty_bound.
    - exists s. split_and!; [done..|done]. }
  unfold compile. rewrite H1, Ok_bind, (build_index_ok enc s1 Hwf1), Ok_bind.
  destruct no.
  - destruct (narrow_or_spec enc ent s1 Hwf1) as (s2 & Hr & Hwf2 & Hb & Ht2 & Hd2 & Ha2).
    exists s2. split_and!; [exact Hr|done|set_solver| | |by intros].
    + intros E u HE Hu. rewrite (Hd1 E u HE Hu). apply Hd2; set_solver.
    + intros Hna. apply Ha2; [unfold MAX_ANTECEDENTS; lia|by apply Hb1].
  - exists s1. split_and!; [done..|done|done|by intros].
Qed.

(** ** Properties of the network compiler *)

Section network_props.
Context (enn : Enum node) (enp : Enum string) (enc : Enum clause).

Lemma network_nodes s : wf_state s →
  ∃ lines, network enp enc s (ref_index (allClauses s) (allTuples s)) (enum_of enn (node_set s)) =
      Ok (imap (λ i nd, pretty i +:+ ": " +:+ node_str s nd) (enum_of enn (node_set s)),
          pretty (size (node_set s)) :: lines) ∧
    Forall2 (line_spec enp enc s (enum_of enn (node_set s))) (enum_of enn (node_set s)) lines.
Proof.
  intros Hwf. destruct (network_spec enp enc s (enum_of enn (node_set s)) Hwf) as (lines & Hn & HF).
  - apply NoDup_enum.
  - intros nd. apply elem_of_enum.
  - exists lines. rewrite length_enum in Hn. by split.
Qed.

(** C10: index completeness (spec 4.3, 9): the dictionary has one line
    [i: node] for every index [i < N], [N] is the number of nodes and the
    first network line, and every node of [allClauses | allConsequents] has
    its line. *)
Theorem network_dictionary s : wf_state s →
  let N := size (node_set s) in
  ∃ dict net, network enp enc s (ref_index (allClauses s) (allTuples s))
      (enum_of enn (node_set s)) = Ok (dict, net) ∧
    length dict = N ∧ net !! 0 = Some (pretty N) ∧ length net = S N ∧
    (∀ i, i < N → ∃ nd, nd ∈ node_set s ∧ dict !! i = Some (pretty i +:+ ": " +:+ node_str s nd)) ∧
    (∀ nd, nd ∈ node_set s → ∃ i, i < N ∧ dict !! i = Some (pretty i +:+ ": " +:+ node_str s nd)).
Proof.
  intros Hwf. cbv zeta. destruct (network_nodes s Hwf) as (lines & Hn & HF).
  eexists _, _. split; [exact Hn|].
  pose proof (Forall2_length _ _ _ HF) as Hlen. rewrite length_enum in Hlen.
  split_and!; [by rewrite length_imap, length_enum|done|simpl; by rewrite <-Hlen| |].
  - intros i Hi. rewrite <-(length_enum enn (node_set s)) in Hi.
    destruct (lookup_lt_is_Some_2 _ _ Hi) as [nd Hnd]. exists nd. split.
    + apply (elem_of_enum enn). by eapply list_elem_of_lookup_2.
    + by rewrite list_lookup_imap, Hnd.
  - intros nd Hin. apply (elem_of_enum enn), list_elem_of_lookup in Hin as [i Hi].
    exists i. split; [rewrite <-(length_enum enn (node_set s)); by eapply lookup_lt_Some|].
    by rewrite list_lookup_imap, Hi.
Qed.

(** C11: the network refines the node description of the spec: after the
    count, line [i + 1] describes node [i]: a clause node prints its rule
    name, the number of its parents and their indices, the parents being
    exactly the indices of its antecedents that have a node; a tuple node
    prints the indices of the clauses deriving it, one per clause. *)
Theorem network_lines s : wf_state s →
  ∃ dict lines, network enp enc s (ref_index (allClauses s) (allTuples s))
      (enum_of enn (node_set s)) = Ok (dict, pretty (size (node_set s)) :: lines) ∧
    ∀ i nd, enum_of enn (node_set s) !! i = Some nd →
      ∃ line, lines !! i = Some line ∧ line_spec enp enc s (enum_of enn (node_set s)) nd line.
Proof.
  intros Hwf. destruct (network_nodes s Hwf) as (lines & Hn & HF).
  eexists _, lines. split; [exact Hn|]. intros i nd Hi.
  destruct (Forall2_lookup_l _ _ _ _ _ HF Hi) as (line & Hl & Hs). eauto.
Qed.

(** every parent index the network prints is below the node count:
    each line is a header followed by the indices [js], all [< N]. *)
Theorem network_parents_bounded s : wf_state s →
  let N := size (node_set s) in
  ∃ dict lines, network enp enc s (ref_index (allClauses s) (allTuples s))
      (enum_of enn (node_set s)) = Ok (dict, pretty N :: lines) ∧
    ∀ line, line ∈ lines → ∃ hd js,
      line = hd +:+ String.concat " " (pretty <$> js) ∧ Forall (λ j, j < N) js.
Proof.
  intros Hwf N. destruct (network_nodes s Hwf) as (lines & Hn & HF).
  set (nodes := enum_of enn (node_set s)) in *.
  assert (Hlt : ∀ j nd, nodes !! j = Some nd → j < N)
    by (intros j nd Hj; unfold N, nodes; rewrite <-(length_enum enn (node_set s)); by eapply lookup_lt_Some).
  eexists _, lines. split; [exact Hn|]. intros line Hline.
  destruct (Forall2_elem_r _ _ _ _ HF Hline) as ([c|t] & _ & Hs).
  - destruct Hs as (r & P & _ & -> & _ & HP).
    destruct (fmap_inv pretty (λ j, j < N) (enum_of enp P)) as (js & Hjs & Hb).
    { intros p Hp%elem_of_enum. apply HP in Hp as (a & j & _ & Hj & ->). eauto. }
    exists ("* " +:+ r +:+ " " +:+ pretty (size P) +:+ " "), js.
    rewrite <-Hjs, !string_app_assoc. by split.
  - destruct Hs as (ps & -> & HF').
    destruct (fmap_inv pretty (λ j, j < N) ps) as (js & Hjs & Hb).
    { intros p Hp. destruct (Forall2_elem_r _ _ _ _ HF' Hp) as (c & _ & j & Hj & ->). eauto. }
    exists ("+ " +:+ pretty (length ps) +:+ " "), js.
    rewrite <-Hjs, !string_app_assoc. by split.
Qed.

End network_props.

(** ** The specification's scenario R1 *)

Definition R1_line : string := "R1: NOT A(1,2), B(1,2)".
Definition R1_clause : clause := ["NOT A(1,2)"; "B(1,2)"].

Definition S1 : CState := match load [R1_line] with Ok s => s | Err _ => empty_cstate end.

Lemma S1_facts :
  load [R1_line] = Ok S1 ∧ wf_state S1 ∧
  node_set S1 = {[NClause R1_clause; NTuple "B(1,2)"]} ∧
  R1_clause ∈ allClauses S1 ∧ allRuleNames S1 !! R1_clause = Some "R1" ∧
  "B(1,2)" ∈ allConsequents S1 ∧
  ref_index (allClauses S1) (allTuples S1) !! "B(1,2)" = Some {[R1_clause]}.
Proof.
  assert (load [R1_line] = Ok S1) as HS by vm_eq.
  split_and!; [exact HS| |vm_eq|apply (bool_decide_unpack _); vm_compute; reflexivity|vm_eq
    |apply (bool_decide_unpack _); vm_compute; reflexivity|vm_eq].
  apply (load_wf_state [R1_line]); [exact HS|].
  unfold input_ok. apply (bool_decide_unpack _). vm_compute. reflexivity.
Qed.

Definition idx_cb : gmap node nat := <[NTuple "B(1,2)" := 1]> (<[NClause R1_clause := 0]> ∅).
Definition idx_bc : gmap node nat := <[NClause R1_clause := 1]> (<[NTuple "B(1,2)" := 0]> ∅).

(** The specification's scenario: the clause [R1: NOT A(1,2), B(1,2)]
    with [A] an EDB relation gives the nodes of the clause and of [B(1,2)];
    whatever the iteration orders, the output is the spec's dictionary and
    network up to the numbering of the two nodes, with a trailing space
    after the empty parent list of [* R1 0]. *)
Theorem network_R1 (enc : Enum clause) (ent : Enum string) (enn : Enum node) :
  cons_all2bnet enc ent enn false false [R1_line] =
    Ok (["0: NOT A(1,2), B(1,2)"; "1: B(1,2)"], ["2"; "* R1 0 "; "+ 1 0"]) ∨
  cons_all2bnet enc ent enn false false [R1_line] =
    Ok (["0: B(1,2)"; "1: NOT A(1,2), B(1,2)"], ["2"; "+ 1 1"; "* R1 0 "]).
Proof.
  destruct S1_facts as (HS & Hwf & Hns & Hc & Hr & Hb & Hi).
  assert (Hd1 : write_dict S1 [NClause R1_clause; NTuple "B(1,2)"] =
     (idx_cb, ["0: NOT A(1,2), B(1,2)"; "1: B(1,2)"])) by vm_eq.
  assert (Hd2 : write_dict S1 [NTuple "B(1,2)"; NClause R1_clause] =
     (idx_bc, ["0: B(1,2)"; "1: NOT A(1,2), B(1,2)"])) by vm_eq.
  assert (Hp1 : clause_parents idx_cb R1_clause = ∅) by vm_eq.
  assert (Hp2 : clause_parents idx_bc R1_clause = ∅) by vm_eq.
  unfold cons_all2bnet. rewrite HS, Ok_bind. unfold compile. cbv iota. rewrite Ok_bind. cbv beta.
  rewrite (build_index_ok enc S1 Hwf), Ok_bind. cbv beta iota. rewrite Ok_bind. cbv beta iota.
  rewrite Hns.
  set (S := S1) in *. clearbody S.
  destruct (enum_pair enn (NClause R1_clause) (NTuple "B(1,2)") ltac:(done)) as [-> | ->];
    [left; unfold network; rewrite Hd1|right; unfold network; rewrite Hd2].
  all: cbn [res_map node_line]; unfold tuple_parents.
  all: rewrite (bool_decide_true (R1_clause ∈ allClauses S)) by exact Hc.
  all: rewrite (bool_decide_true ("B(1,2)" ∈ allConsequents S)) by exact Hb.
  all: rewrite ?Hp1, ?Hp2, (dict_get_Ok _ _ _ Hr), (dict_get_Ok _ _ _ Hi).
  all: cbn [py_assert]; repeat (rewrite Ok_bind; cbv beta).
  all: rewrite enum_empty, enum_singleton.
  all: vm_eq.
Qed.

(** the output depends on the iteration order of the node set: two
    admissible orders number the nodes of the scenario R1 differently. *)
Theorem network_order_dependent :
  ∃ enn1 enn2 : Enum node,
    cons_all2bnet elements_enum elements_enum enn1 false false [R1_line] ≠
    cons_all2bnet elements_enum elements_enum enn2 false false [R1_line].
Proof. exists elements_enum, rev_enum. intros H. vm_compute in H. discriminate. Qed.

(** ** The whole script *)

Section script.
Context (enc : Enum clause) (ent : Enum string) (enn : Enum node).

(** C9: the whole script runs without an exception on every input that
    loads into a state whose tuples look neither negated nor auxiliary,
    with or without the narrowing passes and for every iteration order; it
    prints one network line per dictionary line after the node count. *)
Theorem cons_all2bnet_total input s na no :
  load input = Ok s → input_ok s →
  ∃ dict net, cons_all2bnet enc ent enn na no input = Ok (dict, net) ∧
    length net = S (length dict).
Proof.
  intros Hl Hok. pose proof (load_wf_state input s Hl Hok) as Hwf.
  destruct (compile_spec enc ent na no s Hwf) as (s2 & Hc & Hwf2 & _).
  destruct (network_nodes enn ent enc s2 Hwf2) as (lines & Hn & HF).
  unfold cons_all2bnet. rewrite Hl, Ok_bind, Hc, Ok_bind. cbv beta iota.
  eexists _, _. split; [exact Hn|].
  simpl. rewrite length_imap, <-(Forall2_length _ _ _ HF). done.
Qed.

(** C6: with [narrowand] and [narrowor] every printed node has few
    parents: a clause line [* r k ...] has [k < MAX_ANTECEDENTS] (15) and a
    tuple line [+ k ...] has [k < MAX_DISJUNCTS] (10), which bounds the
    size of the conditional probability tables downstream. *)
Theorem cons_all2bnet_degree input s :
  load input = Ok s → input_ok s →
  ∃ dict net, cons_all2bnet enc ent enn true true input = Ok (dict, net) ∧
    ∀ line, line ∈ tail net →
      (∃ r k rest, line = "* " +:+ r +:+ " " +:+ pretty k +:+ " " +:+ rest ∧ k < MAX_ANTECEDENTS) ∨
      (∃ k rest, line = "+ " +:+ pretty k +:+ " " +:+ rest ∧ k < MAX_DISJUNCTS).
Proof.
  intros Hl Hok. pose proof (load_wf_state input s Hl Hok) as Hwf.
  destruct (compile_spec enc ent true true s Hwf) as (s2 & Hc & Hwf2 & _ & _ & Ha & Ho).
  destruct (network_nodes enn ent enc s2 Hwf2) as (lines & Hn & HF).
  unfold cons_all2bnet. rewrite Hl, Ok_bind, Hc, Ok_bind. cbv beta iota.
  eexists _, _. split; [exact Hn|]. intros line Hline. simpl in Hline.
  destruct (Forall2_elem_r _ _ _ _ HF Hline) as ([c|t] & Hin & Hs).
  - destruct Hs as (r & P & _ & -> & Hle & _). left. eexists r, (size P), _. split; [done|].
    apply elem_of_enum, elem_of_node_set_clause in Hin. specialize (Ha eq_refl c Hin). lia.
  - destruct Hs as (ps & -> & HF'). right. eexists (length ps), _. split; [done|].
    rewrite <-(Forall2_length _ _ _ HF'), length_enum. apply Ho. done.
Qed.

End script.

(** C3: the narrowing passes compose: for every choice of passes and
    iteration orders, the clauses the network is built from derive, from
    any EDB facts among the known tuples, exactly the input tuples the
    loaded clauses derive. *)
Theorem compile_preserves_derivable enc ent na no s E :
  wf_state s → E ⊆ allTuples s →
  ∃ s2 m2, compile enc ent na no s = Ok (s2, m2) ∧
    ∀ u, u ∈ allTuples s → derivable (allClauses s) E u ↔ derivable (allClauses s2) E u.
Proof.
  intros Hwf HE. destruct (compile_spec enc ent na no s Hwf) as (s2 & Hc & _ & _ & Hd & _).
  eexists s2, _. split; [exact Hc|]. intros u Hu. by apply Hd.
Qed.

(** ** Witnesses *)

Lemma S1_wf : wf_state S1.
Proof. apply S1_facts. Qed.

Lemma S1_input_ok : load [R1_line] = Ok S1 ∧ input_ok S1.
Proof.
  split; [apply S1_facts|]. unfold input_ok. apply (bool_decide_unpack _). vm_compute. reflexivity.
Qed.

Lemma network_dictionary_witness :
  wf_state S1 ∧
  let N := size (node_set S1) in
  ∃ dict net, network elements_enum elements_enum S1 (ref_index (allClauses S1) (allTuples S1))
      (enum_of elements_enum (node_set S1)) = Ok (dict, net) ∧
    length dict = N ∧ net !! 0 = Some (pretty N) ∧ length net = S N ∧
    (∀ i, i < N → ∃ nd, nd ∈ node_set S1 ∧ dict !! i = Some (pretty i +:+ ": " +:+ node_str S1 nd)) ∧
    (∀ nd, nd ∈ node_set S1 → ∃ i, i < N ∧ dict !! i = Some (pretty i +:+ ": " +:+ node_str S1 nd)).
Proof. split; [apply S1_wf|]. apply network_dictionary, S1_wf. Defined.

Lemma network_lines_witness :
  wf_state S1 ∧
  ∃ dict lines, network elements_enum elements_enum S1 (ref_index (allClauses S1) (allTuples S1))
      (enum_of elements_enum (node_set S1)) = Ok (dict, pretty (size (node_set S1)) :: lines) ∧
    ∀ i nd, enum_of elements_enum (node_set S1) !! i = Some nd →
      ∃ line, lines !! i = Some line ∧
        line_spec elements_enum elements_enum S1 (enum_of elements_enum (node_set S1)) nd line.
Proof. split; [apply S1_wf|]. apply network_lines, S1_wf. Defined.

Lemma network_parents_bounded_witness :
  wf_state S1 ∧
  let N := size (node_set S1) in
  ∃ dict lines, network elements_enum elements_enum S1 (ref_index (allClauses S1) (allTuples S1))
      (enum_of elements_enum (node_set S1)) = Ok (dict, pretty N :: lines) ∧
    ∀ line, line ∈ lines → ∃ hd js,
      line = hd +:+ String.concat " " (pretty <$> js) ∧ Forall (λ j, j < N) js.
Proof. split; [apply S1_wf|]. apply network_parents_bounded, S1_wf. Defined.

Lemma cons_all2bnet_total_witness :
  (load [R1_line] = Ok S1 ∧ input_ok S1) ∧
  ∃ dict net, cons_all2bnet elements_enum elements_enum elements_enum true true [R1_line] =
      Ok (dict, net) ∧ length net = S (length dict).
Proof.
  split; [apply S1_input_ok|].
  apply (cons_all2bnet_total _ _ _ [R1_line] S1); apply S1_input_ok.
Defined.

Lemma cons_all2bnet_degree_witness :
  (load [R1_line] = Ok S1 ∧ input_ok S1) ∧
  ∃ dict net, cons_all2bnet elements_enum elements_enum elements_enum true true [R1_line] =
      Ok (dict, net) ∧
    ∀ line, line ∈ tail net →
      (∃ r k rest, line = "* " +:+ r +:+ " " +:+ pretty k +:+ " " +:+ rest ∧ k < MAX_ANTECEDENTS) ∨
      (∃ k rest, line = "+ " +:+ pretty k +:+ " " +:+ rest ∧ k < MAX_DISJUNCTS).
Proof.
  split; [apply S1_input_ok|].
  apply (cons_all2bnet_degree _ _ _ [R1_line] S1); apply S1_input_ok.
Defined.

Definition E1 : gset string := {[ "A(1,2)" ]}.

Lemma compile_preserves_derivable_witness :
  (wf_state S1 ∧ E1 ⊆ allTuples S1) ∧
  ∃ s2 m2, compile elements_enum elements_enum true true S1 = Ok (s2, m2) ∧
    ∀ u, u ∈ allTuples S1 → derivable (allClauses S1) E1 u ↔ derivable (allClauses s2) E1 u.
Proof.
  assert (E1 ⊆ allTuples S1) as HE by (apply (bool_decide_unpack _); vm_compute; reflexivity).
  split; [split; [apply S1_wf|exact HE]|].
  apply compile_preserves_derivable; [apply S1_wf|exact HE].
Defined.
