(* ===== verification/Ranking.v ===== *)
(** * Ranking alarms ([driver.py] lines 98-113)

    [getRankedAlarms] sorts the base queries with their beliefs by the key
    [(-label, -belief, name)]: labelled-positive first, then unlabelled,
    then labelled-negative, each tier by descending belief and ascending
    name.  [getInversionCount] counts (false, true) pairs out of order.
    Beliefs are rationals: Python floats are not modelled bit for bit, and
    NaN, which breaks the order of [sorted], is not modelled. *)

From Stdlib Require Import QArith Lqa.
From stdpp Require Import sorting.
From S2P Require Import Prelude.

(** An alarm with its belief, [(t, response)] at line 103. *)
#[warnings="-notation-for-abbreviation"]
Notation alarm := (string * Q)%type.

(** Line 104: [getLabelInt]. *)
Definition label_int (labelled : gmap string bool) (t : string) : Z :=
  match labelled !! t with None => 0 | Some true => 1 | Some false => -1 end.

(** Python's [<=] on the key tuples [(-label, -belief, name)] of line 105;
    strings compare by code point, stdpp's [String.le]. *)
Definition key_le (labelled : gmap string bool) (a b : alarm) : Prop :=
  (- label_int labelled a.1 < - label_int labelled b.1)%Z ∨
  ((- label_int labelled a.1 = - label_int labelled b.1)%Z ∧
   ((- a.2 < - b.2)%Q ∨ ((- a.2 == - b.2)%Q ∧ String.le a.1 b.1))).

#[export] Instance Qlt_rel_dec : RelDecision Qlt :=
  λ a b, match Qlt_le_dec a b with left h => left h | right h => right (Qle_not_lt _ _ h) end.
#[export] Instance Qeq_rel_dec : RelDecision Qeq := Qeq_dec.
#[export] Instance key_le_dec labelled : RelDecision (key_le labelled).
Proof. intros a b. unfold key_le. apply _. Defined.

(** Line 105: [sorted(alarmList, key=...)]; the keys are distinct (the
    names are), so any stable sort gives Python's result. *)
Definition rank (labelled : gmap string bool) (alarmList : list alarm) : list alarm :=
  merge_sort (key_le labelled) alarmList.

(** Lines 107-113: [getInversionCount]. *)
Definition inversion_step (oracle : gset string) (acc : nat * nat) (a : alarm) : nat * nat :=
  let '(numInversions, numFalse) := acc in
  if bool_decide (a.1 ∈ oracle) then (numInversions + numFalse, numFalse)
  else (numInversions, S numFalse).

Definition inversion_count (oracle : gset string) (alarmList : list alarm) : nat :=
  (foldl (inversion_step oracle) (0, 0) alarmList).1.

(** Line 185: [unlabelledAlarms]. *)
Definition unlabelled_alarms (labelled : gmap string bool) (l : list alarm) : list alarm :=
  filter (λ a, labelled !! a.1 = None) l.

(** The specification of [getInversionCount]: the number of pairs
    [i < j] with [alarmList[i]] false and [alarmList[j]] true. *)
Fixpoint inv_ref (oracle : gset string) (l : list alarm) : nat :=
  match l with
  | [] => 0
  | a :: l' =>
      (if bool_decide (a.1 ∈ oracle) then 0
       else length (filter (λ b : alarm, b.1 ∈ oracle) l')) + inv_ref oracle l'
  end.

Definition names (l : list alarm) : list string := map fst l.

(** Three base queries, [b] labelled negative. *)
Definition L3 : gmap string bool := {["b" := false]}.
Definition A3 : list alarm := [("a", 1 # 2); ("b", 3 # 4); ("c", 1 # 4)]%Q.
Definition O3 : gset string := {["c"]}.

(** ** The key order *)

Section key.
Context (labelled : gmap string bool).

#[export] Instance key_le_total : Total (key_le labelled).
Proof.
  intros a b. unfold key_le.
  destruct (Z.lt_trichotomy (- label_int labelled a.1) (- label_int labelled b.1)) as [|[|]]; [auto| |auto].
  destruct (Q_dec (- a.2) (- b.2)) as [[|]|]; [auto|right; right; split; auto|].
  destruct (total String.le a.1 b.1); [left|right]; right; split; auto; right; split; auto.
  by symmetry.
Qed.

#[export] Instance key_le_trans : Transitive (key_le labelled).
Proof.
  intros a b c. unfold key_le.
  intros [Hab|(Hab & Hq1)] [Hbc|(Hbc & Hq2)]; try (left; lia).
  right. split; [lia|].
  destruct Hq1 as [|[? Hs1]], Hq2 as [|[? Hs2]]; [left; lra..|].
  right. split; [lra|by trans b.1].
Qed.

(** Two alarms related both ways have the same name. *)
Lemma key_le_antisym a b : key_le labelled a b → key_le labelled b a → a.1 = b.1.
Proof.
  unfold key_le. intros [|(? & Hq1)] [|(? & Hq2)]; try lia.
  destruct Hq1 as [|[? Hs1]], Hq2 as [|[? Hs2]]; try lra.
  by apply (anti_symm String.le).
Qed.

Lemma rank_perm l : rank labelled l ≡ₚ l.
Proof. apply merge_sort_Permutation. Qed.

Lemma rank_sorted l : StronglySorted (key_le labelled) (rank labelled l).
Proof. apply StronglySorted_merge_sort; apply _. Qed.

Lemma key_le_unlabelled a b :
  labelled !! a.1 = None → labelled !! b.1 = None → key_le labelled a b → (b.2 <= a.2)%Q.
Proof.
  unfold key_le, label_int. intros -> ->. intros [|(_ & [|[? _]])]; [lia|lra..].
Qed.

Lemma key_le_label a b : key_le labelled a b → (label_int labelled b.1 <= label_int labelled a.1)%Z.
Proof. unfold key_le. intros [|(? & _)]; lia. Qed.

End key.

(** ** Inversion count *)

Lemma inversion_fold (oracle : gset string) l n f :
  foldl (inversion_step oracle) (n, f) l =
  (n + f * length (filter (λ b : alarm, b.1 ∈ oracle) l) + inv_ref oracle l,
   f + length (filter (λ b : alarm, b.1 ∉ oracle) l)).
Proof.
  revert n f. induction l as [|a l IH]; intros n f; simpl; [f_equal; lia|].
  rewrite !filter_cons. unfold inversion_step at 1.
  case_bool_decide; simpl; rewrite IH; repeat case_decide; try done; simpl; f_equal; lia.
Qed.

Lemma inv_ref_le (oracle : gset string) l :
  inv_ref oracle l <= length (filter (λ b : alarm, b.1 ∉ oracle) l) *
                      length (filter (λ b : alarm, b.1 ∈ oracle) l).
Proof.
  induction l as [|a l IH]; simpl; [lia|]. rewrite !filter_cons.
  case_bool_decide; repeat case_decide; try done; simpl; nia.
Qed.

Lemma names_inj (l : list alarm) a b :
  NoDup (names l) → a ∈ l → b ∈ l → a.1 = b.1 → a = b.
Proof.
  induction l as [|c l IH]; intros Hnd Ha Hb Hab; [by apply elem_of_nil in Ha|].
  apply NoDup_cons in Hnd as [Hc Hnd].
  apply elem_of_cons in Ha as [->|Ha], Hb as [->|Hb]; [done| | |by apply IH].
  all: exfalso; apply Hc; apply list_elem_of_fmap; eauto.
Qed.

(** ** Properties of the ranking *)

(** [sorted] by the key of line 105 is determined by
    its specification.  For alarms with distinct names, every
    permutation of the alarm list that is sorted by the key is the list
    [rank] computes: the merge sort of the model and Python's Timsort
    return the same list. *)
Theorem rank_refines_sorted labelled l l' :
  NoDup (names l) → l' ≡ₚ l → Sorted (key_le labelled) l' → l' = rank labelled l.
Proof.
  intros Hnd Hp Hs. apply (Sorted_unique_strong (key_le labelled)); [|done| |].
  - intros x y Hx Hy Hxy Hyx. apply (names_inj l); [done|by rewrite <-Hp|
      by rewrite <-(rank_perm labelled l)|by apply (key_le_antisym labelled)].
  - apply Sorted_merge_sort, _.
  - by rewrite rank_perm.
Qed.

(** the tiers of line 105.  Along the ranked list the
    label never increases (positive, then unlabelled, then negative), and
    within a tier the belief never increases. *)
Theorem rank_tiers labelled l i j a b :
  i < j → rank labelled l !! i = Some a → rank labelled l !! j = Some b →
  (label_int labelled b.1 <= label_int labelled a.1)%Z ∧
  (label_int labelled b.1 = label_int labelled a.1 → (b.2 <= a.2)%Q).
Proof.
  intros Hij Ha Hb.
  destruct (StronglySorted_lookup _ _ i j a b (rank_sorted labelled l) Hij Ha Hb)
    as [|(? & [|[? _]])]; split; intros; (lia || lra).
Qed.

Lemma rank_tiers_witness :
  0 < 2 ∧ (label_int L3 "b" <= label_int L3 "a")%Z ∧
  (label_int L3 "b" = label_int L3 "a" → (3 # 4 <= 1 # 2)%Q).
Proof.
  split; [lia|]. apply (rank_tiers L3 A3 0 2 ("a", 1 # 2)%Q ("b", 3 # 4)%Q); [lia|vm_eq..].
Defined.

(** the alarm the carousel reveals (line 186, the head
    of the unlabelled part of the ranking) is an unlabelled base query of
    maximal belief among the unlabelled ones. *)
Theorem carousel_pick_max labelled l t0 rest :
  unlabelled_alarms labelled (rank labelled l) = t0 :: rest →
  t0 ∈ l ∧ labelled !! t0.1 = None ∧
  ∀ b, b ∈ l → labelled !! b.1 = None → (b.2 <= t0.2)%Q.
Proof.
  intros Hu. pose proof (StronglySorted_filter _ (λ a : alarm, labelled !! a.1 = None) _
    (rank_sorted labelled l)) as Hs. fold (unlabelled_alarms labelled (rank labelled l)) in Hs.
  rewrite Hu in Hs. apply StronglySorted_inv in Hs as [_ Hall].
  assert (Ht0 : t0 ∈ filter (λ a : alarm, labelled !! a.1 = None) (rank labelled l)).
  { fold (unlabelled_alarms labelled (rank labelled l)). rewrite Hu. by apply elem_of_cons; left. }
  apply list_elem_of_filter in Ht0 as [Hn Ht0]. rewrite rank_perm in Ht0.
  split_and!; [done|done|]. intros b Hb Hbn.
  assert (Hb' : b ∈ t0 :: rest).
  { rewrite <-Hu. apply list_elem_of_filter. by rewrite rank_perm. }
  apply elem_of_cons in Hb' as [->|Hb']; [apply Qle_refl|].
  apply (key_le_unlabelled labelled); [done|done|]. by eapply Forall_forall.
Qed.

Lemma carousel_pick_max_witness :
  unlabelled_alarms L3 (rank L3 A3) = [("a", 1 # 2); ("c", 1 # 4)]%Q ∧
  ∀ b, b ∈ A3 → L3 !! b.1 = None → (b.2 <= 1 # 2)%Q.
Proof.
  split; [vm_eq|]. apply (carousel_pick_max L3 A3 ("a", 1 # 2)%Q [("c", 1 # 4)%Q]). vm_eq.
Defined.

(** C15 (equivalence): [getInversionCount] (lines 107-113), one pass with
    a running count of false alarms, counts the pairs [i < j] with
    [alarmList[i]] not an oracle query and [alarmList[j]] one. *)
Theorem inversion_count_spec oracle l : inversion_count oracle l = inv_ref oracle l.
Proof. unfold inversion_count. rewrite inversion_fold. simpl. lia. Qed.

(** The inversion count is at most the number of false
    alarms times the number of true alarms of the list. *)
Theorem inversion_count_bound oracle l :
  inversion_count oracle l <= length (filter (λ b : alarm, b.1 ∉ oracle) l) *
                              length (filter (λ b : alarm, b.1 ∈ oracle) l).
Proof. unfold inversion_count. rewrite inversion_fold. simpl. pose proof (inv_ref_le oracle l). lia. Qed.
