(* ===== verification/PyStr.v ===== *)
(** * Python string operations of the driver

    [str.split(sep)], [re.split(' |\t', s)], the comprehension
    [[c.strip() for c in parts if len(c.strip()) > 0]] that
    [driver.py] applies to every line it reads, and the facts about
    [str.strip] and stdpp's [pretty] that the dictionary roundtrip needs.
    [strip] itself is [Clauses.strip]. *)

From S2P Require Import Prelude Clauses.

Fixpoint str_forall (p : ascii → bool) (s : string) : bool :=
  match s with
  | EmptyString => true
  | String c s' => p c && str_forall p s'
  end.

Definition not_colon (c : ascii) : bool := negb (Ascii.eqb c ":").

(** [s.split(sep)] for a nonempty [sep]: the characters read so far are
    kept reversed in [cur]; as soon as they end with [sep] (the leftmost
    occurrence ends first), the piece before it is cut off. *)
Fixpoint split_go (rsep cur : list ascii) (s : string) : list string :=
  match s with
  | EmptyString => [String.string_of_list_ascii (rev cur)]
  | String c s' =>
      if bool_decide (rsep `prefix_of` c :: cur)
      then String.string_of_list_ascii (rev (drop (length rsep) (c :: cur))) :: split_go rsep [] s'
      else split_go rsep (c :: cur) s'
  end.

Definition str_split (sep s : string) : list string :=
  split_go (rev (String.list_ascii_of_string sep)) [] s.

(** [re.split(pattern, s)] for a pattern that matches one character
    of a class [p]: every such character cuts, consecutive ones give
    empty pieces. *)
Fixpoint split_by (p : ascii → bool) (s : string) : list string :=
  match s with
  | EmptyString => [""]
  | String c rest =>
      if p c then "" :: split_by p rest
      else match split_by p rest with
           | q :: qs => String c q :: qs
           | [] => [String c ""]
           end
  end.

(** [re.split(' |\t', s)] *)
Definition split_ws (s : string) : list string :=
  split_by (λ c, Ascii.eqb c " " || Ascii.eqb c "009") s.

(** The string ["\t"] of Python (Rocq strings have no escapes). *)
Definition TAB : string := String "009"%char EmptyString.

(** [re.split("\t", s)] *)
Definition split_tab (s : string) : list string := split_by (λ c, Ascii.eqb c "009") s.

(** [template.format(a0, a1, ...)] for a template whose replacement fields
    are all [{}]: the fields take the arguments in order, and a field
    with no argument left raises [IndexError]. *)
Fixpoint py_format (template : string) (args : list string) : res string :=
  match template with
  | EmptyString => Ok EmptyString
  | String "{"%char (String "}"%char rest) =>
      match args with
      | a :: args' => s ← py_format rest args'; Ok (a +:+ s)
      | [] => Err IndexError
      end
  | String c rest => s ← py_format rest args; Ok (String c s)
  end.

(** [[c.strip() for c in parts if len(c.strip()) > 0]] *)
Definition nonempty_stripped (parts : list string) : list string :=
  filter (λ c, c ≠ "") (map strip parts).

(** A string the [index: representation] lines carry unchanged: not
    empty, no surrounding white space, no colon. *)
Definition dict_ok (v : string) : Prop := v ≠ "" ∧ strip v = v ∧ str_forall not_colon v = true.

#[export] Instance dict_ok_dec v : Decision (dict_ok v).
Proof. unfold dict_ok. apply _. Defined.

(** [[line.strip() for line in open(f) if len(line.strip()) > 0]] *)
Definition stripped_lines (lines : list string) : list string :=
  filter (λ c, c ≠ "") (map strip lines).

(** ** Lemmas *)

Lemma string_app_nil_r (s : string) : s +:+ "" = s.
Proof. induction s as [|c s IH]; [done|]. change (String c (s +:+ "") = String c s). by rewrite IH. Qed.

Lemma string_of_list_snoc (l : list ascii) c s :
  String.string_of_list_ascii (l ++ [c]) +:+ s = String.string_of_list_ascii l +:+ String c s.
Proof.
  induction l as [|d l IH]; [done|].
  change (String d (String.string_of_list_ascii (l ++ [c]) +:+ s) =
          String d (String.string_of_list_ascii l +:+ String c s)). by rewrite IH.
Qed.

Lemma str_forall_impl (p q : ascii → bool) s :
  (∀ c, p c = true → q c = true) → str_forall p s = true → str_forall q s = true.
Proof.
  intros Hpq. induction s as [|c s IH]; [done|]. simpl.
  rewrite !andb_true_iff. intros [??]. auto.
Qed.

Lemma digit_not_colon c : is_digit c = true → not_colon c = true.
Proof.
  unfold not_colon. destruct (Ascii.eqb_spec c ":") as [->|]; [done|done].
Qed.

Lemma digit_not_space c : is_digit c = true → negb (is_space c) = true.
Proof.
  unfold is_digit, is_space. rewrite andb_true_iff, !Nat.leb_le. intros.
  apply negb_true_iff, not_true_iff_false. rewrite orb_true_iff, !andb_true_iff, !Nat.leb_le. lia.
Qed.

(** *** [str.strip] *)

Lemma lstrip_app a b : lstrip a ≠ "" → lstrip (a +:+ b) = lstrip a +:+ b.
Proof. induction a as [|c a IH]; simpl; [done|]. destruct (is_space c); auto. Qed.

Lemma rstrip_app a b : rstrip b ≠ "" → rstrip (a +:+ b) = a +:+ rstrip b.
Proof.
  intros Hb. induction a as [|c a IH]; [done|]. simpl. rewrite IH.
  destruct (String.eqb_spec (a +:+ rstrip b) "") as [E|_]; [|done].
  exfalso. destruct a; simpl in E; [by apply Hb|discriminate].
Qed.

Lemma no_space_strip s :
  str_forall (λ c, negb (is_space c)) s = true → lstrip s = s ∧ rstrip s = s.
Proof.
  induction s as [|c s IH]; [done|]. simpl. intros [Hc Hs]%andb_true_iff.
  apply negb_true_iff in Hc. rewrite Hc. destruct (IH Hs) as [_ ->].
  split; [done|]. by rewrite andb_false_r.
Qed.

Lemma length_lstrip s : String.length (lstrip s) ≤ String.length s.
Proof. induction s as [|c s IH]; simpl; [lia|]. destruct (is_space c); simpl; lia. Qed.

Lemma length_rstrip s : String.length (rstrip s) ≤ String.length s.
Proof. induction s as [|c s IH]; simpl; [lia|]. destruct (_ && _); simpl; lia. Qed.

Lemma strip_fixed s : strip s = s → lstrip s = s ∧ rstrip s = s.
Proof.
  unfold strip. intros H.
  assert (Hl : lstrip s = s).
  { pose proof (length_rstrip (lstrip s)) as L. rewrite H in L.
    clear H. induction s as [|c s IH]; simpl in *; [done|].
    destruct (is_space c); [|done]. pose proof (length_lstrip s). simpl in L. lia. }
  rewrite Hl in H. by split.
Qed.

Lemma strip_dict_line a b :
  strip a = a → strip b = b → a ≠ "" → b ≠ "" → strip (a +:+ ": " +:+ b) = a +:+ ": " +:+ b.
Proof.
  intros Ha Hb Ha0 Hb0. apply strip_fixed in Ha as [Hla _], Hb as [_ Hrb].
  unfold strip. rewrite lstrip_app, Hla by congruence.
  assert (Hr : rstrip (": " +:+ b) = ": " +:+ b) by (rewrite rstrip_app, Hrb; congruence).
  rewrite rstrip_app, Hr; [done|]. rewrite Hr. done.
Qed.

(** *** [str.split(': ')] *)

Lemma prefix_colon_space (c : ascii) cur :
  [" "; ":"]%char `prefix_of` c :: cur → ":"%char ∈ cur.
Proof. intros [k Hk]. simplify_eq/=. by apply elem_of_cons; left. Qed.

Lemma split_go_no_colon cur a s :
  ":"%char ∉ cur → str_forall not_colon a = true →
  split_go [" "; ":"]%char cur (a +:+ s) =
  split_go [" "; ":"]%char (rev (String.list_ascii_of_string a) ++ cur) s.
Proof.
  revert cur. induction a as [|c a IH]; intros cur Hcur Ha; [done|].
  simpl in Ha |- *. apply andb_true_iff in Ha as [Hc Ha].
  rewrite bool_decide_false by (intros ?%prefix_colon_space; done).
  rewrite IH, <-app_assoc; [done| |done].
  intros [Heq|?]%elem_of_cons; [subst c; discriminate Hc|done].
Qed.

Lemma str_split_dict_line a b :
  str_forall not_colon a = true → str_forall not_colon b = true →
  str_split ": " (a +:+ ": " +:+ b) = [a; b].
Proof.
  intros Ha Hb. unfold str_split. cbn [String.list_ascii_of_string rev app].
  rewrite split_go_no_colon by (done || set_solver). rewrite app_nil_r.
  change (": " +:+ b) with (String ":" (String " " b)). cbn [split_go].
  rewrite bool_decide_false by (intros [k Hk]; simplify_eq/=).
  rewrite bool_decide_true by (by exists (rev (String.list_ascii_of_string a))).
  cbn [length drop]. rewrite drop_0, rev_involutive, String.string_of_list_ascii_of_string.
  rewrite <-(string_app_nil_r b) at 1. rewrite split_go_no_colon by (done || set_solver).
  cbn [split_go]. by rewrite app_nil_r, rev_involutive, String.string_of_list_ascii_of_string.
Qed.

(** *** [str(n)] of a natural number: digits only, never empty *)

Lemma pretty_N_char_digit x : is_digit (pretty_N_char x) = true.
Proof. unfold pretty_N_char. repeat case_match; reflexivity. Qed.

Lemma pretty_N_go_spec x s :
  str_forall is_digit s = true →
  str_forall is_digit (pretty_N_go x s) = true ∧ (s ≠ "" → pretty_N_go x s ≠ "").
Proof.
  revert s. induction (N.lt_wf_0 x) as [x _ IH]; intros s Hs.
  destruct (decide (0 < x)%N) as [Hx|Hx].
  - rewrite pretty_N_go_step by done.
    destruct (IH (x `div` 10)%N ltac:(by apply N.div_lt) (String (pretty_N_char (x `mod` 10)) s))
      as [H1 H2]; [simpl; by rewrite pretty_N_char_digit|].
    split; [done|intros _; by apply H2].
  - assert (x = 0%N) as -> by lia. by rewrite pretty_N_go_0.
Qed.

Lemma pretty_nat_digits (n : nat) : str_forall is_digit (pretty n) = true ∧ pretty n ≠ "".
Proof.
  unfold pretty, pretty_nat, pretty, pretty_N. case_decide; [done|].
  rewrite pretty_N_go_step by lia.
  destruct (pretty_N_go_spec (N.of_nat n `div` 10)%N (String (pretty_N_char (N.of_nat n `mod` 10)) ""))
    as [H1 H2]; [simpl; by rewrite pretty_N_char_digit|].
  split; [done|by apply H2].
Qed.

Lemma pretty_nat_stripped (n : nat) :
  strip (pretty n) = pretty n ∧ str_forall not_colon (pretty n) = true ∧ pretty n ≠ "".
Proof.
  destruct (pretty_nat_digits n) as [Hd Hne].
  destruct (no_space_strip (pretty n)) as [Hl Hr];
    [by eapply str_forall_impl; [apply digit_not_space|]|].
  unfold strip. rewrite Hl, Hr. split_and!; [done| |done].
  by eapply str_forall_impl; [apply digit_not_colon|].
Qed.

(** *** The clause-line parser on a rendered clause

    [no_sep p]: [p] has no [':'], no [", "] and does not end with [','],
    so [re.split(':|, ', ...)] does not cut inside it. *)
Fixpoint no_sep (s : string) : bool :=
  match s with
  | EmptyString => true
  | String c s' =>
      negb (Ascii.eqb c ":") &&
      (if Ascii.eqb c "," then
         match s' with EmptyString => false | String d _ => negb (Ascii.eqb d " ") end
       else true) &&
      no_sep s'
  end.

(** A literal or rule name the line format carries unchanged. *)
Definition piece_ok (p : string) : Prop := p ≠ "" ∧ strip p = p ∧ no_sep p = true.

#[export] Instance piece_ok_dec p : Decision (piece_ok p).
Proof. unfold piece_ok. apply _. Defined.

Definition cons_first (a : string) (l : list string) : list string :=
  match l with p :: ps => (a +:+ p) :: ps | [] => [a] end.

Lemma split_cons_char c x :
  c ≠ ":"%char → (c = ","%char → match x with String " "%char _ => False | _ => True end) →
  split_cons (String c x) = cons_first (String c "") (split_cons x).
Proof.
  intros H1 H2. destruct c as [[] [] [] [] [] [] [] []]; try reflexivity; [done|].
  destruct x as [|d x]; [reflexivity|].
  destruct d as [[] [] [] [] [] [] [] []]; try reflexivity. by destruct (H2 eq_refl).
Qed.

Lemma split_cons_ne s : split_cons s ≠ [].
Proof. induction s as [|c s IH]; simpl; [done|]. repeat case_match; congruence. Qed.

Lemma split_cons_colon x : split_cons (String ":"%char x) = "" :: split_cons x.
Proof. reflexivity. Qed.

Lemma split_cons_no_sep a s : no_sep a = true → split_cons (a +:+ s) = cons_first a (split_cons s).
Proof.
  induction a as [|c a IH]; intros Ha.
  { change ("" +:+ s) with s. pose proof (split_cons_ne s). by destruct (split_cons s). }
  simpl in Ha. apply andb_true_iff in Ha as [[Hc Hcomma]%andb_true_iff Ha].
  change (String c a +:+ s) with (String c (a +:+ s)). rewrite split_cons_char.
  - rewrite IH by done. by destruct (split_cons s).
  - intros ->. done.
  - intros ->. destruct a as [|d a]; [done|]. simpl in Hcomma.
    destruct (Ascii.eqb_spec d " ") as [->|Hd]; [done|].
    destruct d as [[] [] [] [] [] [] [] []]; try exact I; by destruct Hd.
Qed.

Lemma no_sep_app a b : no_sep a = true → no_sep b = true → no_sep (a +:+ b) = true.
Proof.
  induction a as [|c a IH]; intros Ha Hb; [done|]. simpl in Ha |- *.
  rewrite IH; [|by apply andb_true_iff in Ha as [_ ?]|done].
  destruct a as [|d a']; simpl in *; destruct (c =? ":")%char, (c =? ",")%char;
    try destruct (d =? " ")%char; done.
Qed.

Lemma split_cons_join (lits : list string) :
  lits ≠ [] → Forall (λ l, no_sep l = true) lits → split_cons (String.concat ", " lits) = lits.
Proof.
  induction lits as [|l [|l' ls] IH]; intros Hne Hok; [done| |].
  - apply Forall_cons in Hok as [Hl _]. simpl.
    rewrite <-(string_app_nil_r l) at 1. rewrite split_cons_no_sep by done.
    simpl. by rewrite string_app_nil_r.
  - apply Forall_cons in Hok as [Hl Hok].
    change (String.concat ", " (l :: l' :: ls)) with (l +:+ String ","%char (String " "%char (String.concat ", " (l' :: ls)))).
    rewrite split_cons_no_sep by done. cbn [split_cons]. rewrite IH by done.
    simpl. by rewrite string_app_nil_r.
Qed.

Lemma rstrip_concat (lits : list string) :
  lits ≠ [] → Forall (λ l, l ≠ "" ∧ rstrip l = l) lits →
  rstrip (String.concat ", " lits) = String.concat ", " lits.
Proof.
  induction lits as [|l [|l' ls] IH]; intros Hne Hok; [done|by apply Forall_cons in Hok as [[_ ?] _]|].
  apply Forall_cons in Hok as [[Hl0 Hl] Hok].
  change (String.concat ", " (l :: l' :: ls)) with (l +:+ ", " +:+ String.concat ", " (l' :: ls)).
  set (C := String.concat ", " (l' :: ls)).
  assert (HC : rstrip C = C) by (apply IH; [done|done]).
  assert (HC0 : C ≠ "").
  { apply Forall_cons in Hok as [[Hl'0 _] _]. unfold C. destruct ls; [done|].
    change (l' +:+ ", " +:+ String.concat ", " (s :: ls) ≠ ""). by destruct l'. }
  assert (Hr : rstrip (", " +:+ C) = ", " +:+ C) by (rewrite rstrip_app, HC; congruence).
  rewrite rstrip_app, Hr; [done|]. by rewrite Hr.
Qed.

Lemma concat_ne (lits : list string) :
  lits ≠ [] → Forall (λ l, l ≠ "") lits → String.concat ", " lits ≠ "".
Proof.
  intros Hne Hok. destruct lits as [|l [|l' ls]]; [done|by apply Forall_cons in Hok as [? _]|].
  apply Forall_cons in Hok as [Hl _].
  change (l +:+ ", " +:+ String.concat ", " (l' :: ls) ≠ ""). by destruct l.
Qed.

Lemma strip_space_piece l : piece_ok l → strip (" " +:+ l) = l.
Proof.
  intros (Hl0 & Hl & _). apply strip_fixed in Hl as [Hll Hlr].
  unfold strip. change (" " +:+ l) with (String " "%char l). simpl. by rewrite Hll.
Qed.

(** [parse_line] reads back what [render_clause] prints. *)
Lemma parse_render r lits :
  piece_ok r → lits ≠ [] → Forall piece_ok lits → parse_line (render_clause r lits) = Some (r, lits).
Proof.
  intros Hr Hne Hok. destruct Hr as (Hr0 & Hr & Hrs). pose proof (strip_fixed r Hr) as [Hrl Hrr].
  unfold parse_line, render_clause.
  assert (HC : rstrip (String.concat ", " lits) = String.concat ", " lits).
  { apply rstrip_concat; [done|]. eapply Forall_impl; [exact Hok|].
    intros l (? & Hl & _). split; [done|]. by apply strip_fixed in Hl as [_ ?]. }
  assert (Hstrip : strip (r +:+ ": " +:+ String.concat ", " lits) = r +:+ ": " +:+ String.concat ", " lits).
  { unfold strip. rewrite lstrip_app, Hrl by congruence.
    assert (H2 : rstrip (": " +:+ String.concat ", " lits) = ": " +:+ String.concat ", " lits)
      by (rewrite rstrip_app, HC; [done|]; rewrite HC; apply concat_ne; [done|];
          eapply Forall_impl; [exact Hok|]; by intros ? [? _]).
    rewrite rstrip_app, H2; [done|]. by rewrite H2. }
  rewrite Hstrip, split_cons_no_sep by done.
  change (": " +:+ String.concat ", " lits) with (String ":"%char (String " "%char (String.concat ", " lits))).
  rewrite split_cons_colon, split_cons_char by done.
  rewrite split_cons_join by (done || (eapply Forall_impl; [exact Hok|]; by intros ? (_ & _ & ?))).
  destruct lits as [|l ls]; [done|]. apply Forall_cons in Hok as [Hl Hok].
  simpl. rewrite string_app_nil_r, Hr, strip_space_piece by done.
  f_equal. f_equal. f_equal. clear -Hok. induction Hok as [|x ls (_ & Hx & _) _ IH]; [done|]. simpl. by rewrite Hx, IH.
Qed.

(** A line of pieces joined by [", "] has no white space to strip. *)
Lemma strip_concat (lits : list string) :
  lits ≠ [] → Forall piece_ok lits → strip (String.concat ", " lits) = String.concat ", " lits.
Proof.
  intros Hne Hok. unfold strip.
  assert (Hl : lstrip (String.concat ", " lits) = String.concat ", " lits).
  { destruct lits as [|l ls]; [done|]. apply Forall_cons in Hok as [(Hl0 & Hl & _) _].
    apply strip_fixed in Hl as [Hll _].
    destruct ls as [|l' ls]; [done|].
    change (String.concat ", " (l :: l' :: ls)) with (l +:+ ", " +:+ String.concat ", " (l' :: ls)).
    by rewrite lstrip_app, Hll by (by rewrite Hll). }
  rewrite Hl. apply rstrip_concat; [done|]. eapply Forall_impl; [exact Hok|].
  intros l (? & Hs & _). split; [done|]. by apply strip_fixed in Hs as [_ ?].
Qed.

(** [parse_line] takes the first of the comma-separated pieces of a line
    without colon as the rule name. *)
Lemma parse_concat r lits :
  piece_ok r → Forall piece_ok lits → parse_line (String.concat ", " (r :: lits)) = Some (r, lits).
Proof.
  intros Hr Hok. assert (Hall : Forall piece_ok (r :: lits)) by by constructor.
  unfold parse_line. rewrite strip_concat, split_cons_join by
    (done || (eapply Forall_impl; [exact Hall|]; by intros ? (_ & _ & ?))).
  assert (Hm : map strip (r :: lits) = r :: lits).
  { clear -Hall. induction Hall as [|x ls (_ & Hx & _) _ IH]; [done|]. simpl. by rewrite Hx, IH. }
  by rewrite Hm.
Qed.

(** C35: the loader of [cons_all2bnet.py] does not check the
    [ruleName: lit, ..., lit] shape the specification requires: a line
    [r, l1, ..., ln] with no colon is loaded as the clause [(l1, ..., ln)]
    with the rule name [r], because [re.split(':|, ', line)] splits at the
    commas as well. *)
Theorem load_line_no_colon s r lits :
  piece_ok r → lits ≠ [] → Forall piece_ok lits → (∀ t, last lits = Some t → is_neg t = false) →
  ∃ s', load_line s (String.concat ", " (r :: lits)) = Ok s' ∧
    lits ∈ allClauses s' ∧ allRuleNames s' !! lits = Some r.
Proof.
  intros Hr Hne Hok Hneg. destruct (last lits) as [t|] eqn:Ht; [|by apply last_None in Ht].
  unfold load_line. rewrite parse_concat by done.
  rewrite (clause2Consequent_Ok _ t Ht (Hneg t eq_refl)), Ok_bind.
  eexists. split; [reflexivity|]. cbn. split; [set_solver|]. apply lookup_insert_eq.
Qed.

Lemma load_line_no_colon_witness :
  ∃ s', load_line empty_cstate "A(1), B(2)" = Ok s' ∧
    ["B(2)"] ∈ allClauses s' ∧ allRuleNames s' !! ["B(2)"] = Some "A(1)".
Proof.
  apply (load_line_no_colon empty_cstate "A(1)" ["B(2)"]).
  - split_and!; [discriminate|reflexivity|reflexivity].
  - discriminate.
  - constructor; [split_and!; [discriminate|reflexivity|reflexivity]|constructor].
  - intros t [= <-]. reflexivity.
Defined.
