(* ===== verification/Driver.v ===== *)
(** * The active-learning driver ([src/bingo/driver.py])

    Setup (lines 44-61) reads the dictionary written by the network
    compiler and the query files into a [DEnv].  The session state
    [DState] holds [labelledTuples], the state of the inference engine,
    the lines printed on stdout and the files written.  The engine
    ([LibDAI/wrapper.cpp], not under src/) is the interface [Wrapper]:
    one request line in, one response line out.  Python's [float()],
    [int()] and [str()] of a float are the interface [PyNum].  The
    handlers [observe], [getRankedAlarms], [printRankedAlarms],
    [runAlarmCarousel] and the command loop are definitions of their
    own, each returning [Err] where the Python code raises. *)

From Stdlib Require Import QArith Qround.
From S2P Require Import Prelude Clauses Ranking PyStr.

(** ** Interfaces *)

(** The inference engine process: [execWrapperCmd] writes one line and
    reads one line back (lines 81-87). *)
Class Wrapper (W : Type) := wrapper_exec : W → string → W * string.

(** Python's [float(s)] and [int(s)] ([None] where they raise
    [ValueError]) and [str(x)] of a float. *)
Class PyNum := {
  parse_float : string → option Q;
  parse_int : string → option Z;
  float_str : Q → string;
}.

Section num.
Context `{PyNum}.

Definition py_float (s : string) : res Q :=
  match parse_float s with Some q => Ok q | None => Err ValueError end.

Definition py_int (s : string) : res Z :=
  match parse_int s with Some z => Ok z | None => Err ValueError end.

End num.

(** ** Output helpers *)


(** ['\t'.join(...)], the tab-separated rows of lines 147, 155, 179 and 195. *)
Definition tab_join (xs : list string) : string := String.concat TAB xs.

Definition bool_str (b : bool) : string := if b then "true" else "false".

(** ** Setup (lines 44-61) *)

(** Lines 45-50: one line of the dictionary file. *)
Definition dict_line (bnetDict : gmap string string) (line : string) : res (gmap string string) :=
  let line := strip line in
  if bool_decide (line = "") then Ok bnetDict else
  match nonempty_stripped (str_split ": " line) with
  | [c0; c1] => Ok (<[c1 := c0]> bnetDict)
  | _ => Err AssertionError
  end.

Definition load_dict (lines : list string) : res (gmap string string) :=
  res_fold dict_line ∅ lines.

Record DEnv := mkDEnv {
  bnetDict : gmap string string;
  oracleQueries : gset string;
  baseQueries : gset string;
  oldLabels : gset string;
}.

(** Lines 44-61, from the lines of the four input files. *)
Definition setup (dictLines oracleLines baseLines : list string)
    (oldLabelLines : option (list string)) : res DEnv :=
  bnetDict ← load_dict dictLines;
  let oracle : gset string := list_to_set (stripped_lines oracleLines) in
  let base : gset string := list_to_set (stripped_lines baseLines) in
  let old : gset string :=
    match oldLabelLines with Some l => list_to_set (stripped_lines l) | None => ∅ end in
  assert! bool_decide (oracle ⊆ base) ;;
  assert! bool_decide (base ⊆ dom bnetDict) ;;
  Ok (mkDEnv bnetDict oracle base old).

(** ** The session state *)

Record DState (W : Type) := mkDState {
  labelledTuples : gmap string bool;
  wrapper : W;
  stdout : list string;
  files : gmap string (list string);
}.
Arguments mkDState {W}.
Arguments labelledTuples {W}.
Arguments wrapper {W}.
Arguments stdout {W}.
Arguments files {W}.

Definition set_wrapper {W} (w : W) (st : DState W) : DState W :=
  mkDState (labelledTuples st) w (stdout st) (files st).
Definition set_labelled {W} (l : gmap string bool) (st : DState W) : DState W :=
  mkDState l (wrapper st) (stdout st) (files st).
(** [print(line)] *)
Definition print_line {W} (line : string) (st : DState W) : DState W :=
  mkDState (labelledTuples st) (wrapper st) (stdout st ++ [line]) (files st).
(** [open(name, 'w')] and its writes. *)
Definition write_file {W} (name : string) (lines : list string) (st : DState W) : DState W :=
  mkDState (labelledTuples st) (wrapper st) (stdout st) (<[name := lines]> (files st)).
(** [print(line, file=f)] on a file [f] already open for writing. *)
Definition append_file {W} (name : string) (lines : list string) (st : DState W) : DState W :=
  mkDState (labelledTuples st) (wrapper st) (stdout st)
    (<[name := default [] (files st !! name) ++ lines]> (files st)).
(** [open(name)] for reading. *)
Definition read_file {W} (st : DState W) (name : string) : res (list string) :=
  match files st !! name with Some l => Ok l | None => Err OSError end.

Section driver.
Context {W : Type} `{Wrapper W} `{PyNum} (en : Enum string) (env : DEnv).

(** Lines 81-87: [execWrapperCmd]. *)
Definition exec_cmd (st : DState W) (fwdCmd : string) : DState W * string :=
  let '(w, response) := wrapper_exec (wrapper st) fwdCmd in
  (set_wrapper w st, strip response).

(** Lines 89-96: [observe]; the warning of line 92 is a log line only. *)
Definition observe (st : DState W) (t : string) (value : bool) : res (DState W) :=
  assert! bool_decide (labelledTuples st !! t = None) ;;
  index ← dict_get (bnetDict env) t;
  let '(st, _) := exec_cmd st ("O " +:+ index +:+ " " +:+ bool_str value) in
  Ok (set_labelled (<[t := value]> (labelledTuples st)) st).

(** Lines 100-103: one base query's belief. *)
Definition query_step (acc : DState W * list alarm) (t : string) : res (DState W * list alarm) :=
  let '(st, alarmList) := acc in
  index ← dict_get (bnetDict env) t;
  let '(st, r) := exec_cmd st ("Q " +:+ index) in
  response ← py_float r;
  Ok (st, alarmList ++ [(t, response)]).

(** Lines 98-105: [getRankedAlarms]. *)
Definition get_ranked (st : DState W) : res (DState W * list alarm) :=
  '(st, alarmList) ← res_fold query_step (st, []) (enum_of en (baseQueries env));
  Ok (st, rank (labelledTuples st) alarmList).

Definition ground (t : string) : string :=
  if bool_decide (t ∈ oracleQueries env) then "TrueGround" else "FalseGround".

Definition label_str (labelled : gmap string bool) (t : string) : string :=
  match labelled !! t with
  | None => "Unlabelled" | Some true => "PosLabel" | Some false => "NegLabel"
  end.

Definition ranked_header : string :=
  tab_join ["Rank"; "Confidence"; "Ground"; "Label"; "Comments"; "Tuple"].

(** Lines 151-155: the row of the [i]-th alarm (from 0). *)
Definition ranked_row (labelled : gmap string bool) (i : nat) (a : alarm) : string :=
  tab_join [pretty (S i); float_str a.2; ground a.1; label_str labelled a.1; "SPOkGoodGood"; a.1].

(** Lines 145-155: [printRankedAlarms], the lines written to [outFile]. *)
Definition print_ranked (st : DState W) : res (DState W * list string) :=
  '(st, alarmList) ← get_ranked st;
  Ok (st, ranked_header :: imap (ranked_row (labelledTuples st)) alarmList).

(** The arguments of [runAlarmCarousel] (line 157). *)
Record CArgs := mkCArgs {
  dfile : gmap string (gset string);
  tolerance : Q;
  minIters : Z;
  maxIters : Z;
  histLength : Z;
  statsFile : string;
  combinedPrefix : string;
  combinedSuffix : string;
}.

Definition bp_cmd (tol : Q) (minI maxI hist : Z) : string :=
  "BP " +:+ float_str tol +:+ " " +:+ pretty minI +:+ " " +:+ pretty maxI +:+ " " +:+ pretty hist.

(** Lines 158-159, 251-252 and 316-317: the preconditions of [BP]. *)
Definition bp_ok (tol : Q) (minI maxI hist : Z) : bool :=
  bool_decide (0 < tol)%Q && bool_decide (tol < 1)%Q &&
  bool_decide (0 < hist ∧ hist < minI ∧ minI < maxI)%Z.

Definition stats_header : string :=
  tab_join ["Tuple"; "Confidence"; "Ground"; "NumTrue"; "NumFalse"; "Fraction";
            "InversionCount"; "YetToConvergeFraction"; "Time(s)"].

(** [observe(t, False)] for every [t] of a set, in iteration order
    (lines 173-176 and 211). *)
Definition mask_all (st : DState W) (ts : gset string) : res (DState W) :=
  res_fold (λ st t, observe st t false) st (enum_of en ts).

(** Lines 183-212: one round of the carousel.  [elapsed n] is the
    [int(time.time() - lastTime)] of round [n]. *)
Definition carousel_round (elapsed : nat → Z) (a : CArgs) (st : DState W) (numTrue numFalse : nat)
    : res (DState W * nat * nat) :=
  let '(st, r) := exec_cmd st (bp_cmd (tolerance a) (minIters a) (maxIters a) (histLength a)) in
  yetToConvergeFraction ← py_float r;
  '(st, rankedAlarmList) ← get_ranked st;
  match unlabelled_alarms (labelledTuples st) rankedAlarmList with
  | [] => Err IndexError
  | (t0, conf0) :: _ =>
      let truth := bool_decide (t0 ∈ oracleQueries env) in
      let numTrue := if truth then S numTrue else numTrue in
      let numFalse := if truth then numFalse else S numFalse in
      let fraction := (inject_Z (Z.of_nat numTrue) / inject_Z (Z.of_nat (numTrue + numFalse)))%Q in
      let inversionCount := inversion_count (oracleQueries env) rankedAlarmList in
      let row := tab_join [t0; float_str conf0; ground t0; pretty numTrue; pretty numFalse;
                           float_str fraction; pretty inversionCount;
                           float_str yetToConvergeFraction; pretty (elapsed (numTrue + numFalse))] in
      let st := append_file (statsFile a) [row] st in
      '(st, lines) ← print_ranked st;
      let st := write_file (combinedPrefix a +:+ pretty (numTrue + numFalse - 1) +:+ "."
                            +:+ combinedSuffix a) lines st in
      st ← observe st t0 truth;
      st ← (if truth then Ok st else
            match dfile a !! t0 with Some ds => mask_all st ds | None => Ok st end);
      Ok (st, numTrue, numFalse)
  end.

(** Lines 182-213: the [while] loop, with [fuel] rounds at most. *)
Fixpoint carousel_loop (fuel : nat) (elapsed : nat → Z) (a : CArgs) (st : DState W)
    (numTrue numFalse : nat) : res (DState W * nat * nat) :=
  match fuel with
  | O => Err OutOfFuel
  | S fuel =>
      if bool_decide (baseQueries env ∖ dom (labelledTuples st) = ∅) then Ok (st, numTrue, numFalse)
      else
        '(st, numTrue, numFalse) ← carousel_round elapsed a st numTrue numFalse;
        if bool_decide (numTrue = size (oracleQueries env)) then Ok (st, numTrue, numFalse)
        else carousel_loop fuel elapsed a st numTrue numFalse
  end.

(** Lines 157-213: [runAlarmCarousel]; the graph of lines 167-170 and
    204-206 is not drawn ([printGraph] false).  Each round labels one
    more base query, so [|baseQueries| + 1] rounds of fuel are enough. *)
Definition run_carousel (elapsed : nat → Z) (a : CArgs) (st : DState W) : res (DState W) :=
  assert! bp_ok (tolerance a) (minIters a) (maxIters a) (histLength a) ;;
  let '(st, _) := exec_cmd st (bp_cmd (tolerance a) (minIters a) (maxIters a) (histLength a)) in
  '(st, lines) ← print_ranked st;
  let st := write_file (combinedPrefix a +:+ "init" +:+ "." +:+ combinedSuffix a) lines st in
  st ← mask_all st (oldLabels env);
  let st := append_file (statsFile a) [stats_header] st in
  '(st, _, _) ← carousel_loop (S (size (baseQueries env))) elapsed a st 0 0;
  Ok st.

(** Lines 302-305: one line [key: v1 v2 ...] of the mask-dependency file. *)
Definition dfile_line (d : gmap string (gset string)) (line : string)
    : res (gmap string (gset string)) :=
  match str_split ": " line with
  | [key; val] => Ok (<[key := list_to_set (nonempty_stripped (str_split " " val))]> d)
  | _ => Err ValueError
  end.

Definition load_dfile (lines : list string) : res (gmap string (gset string)) :=
  res_fold dfile_line ∅ lines.

(** Lines 226-232: [Q t]. *)
Definition cmd_query (st : DState W) (components : list string) : res (DState W) :=
  t ← py_index components 0;
  index ← dict_get (bnetDict env) t;
  let '(st, r) := exec_cmd st ("Q " +:+ index) in
  belief ← py_float r;
  Ok (print_line (t +:+ " " +:+ float_str belief) st).

(** Lines 234-240: [FQ f i], forwarded as it is. *)
Definition cmd_factor_query (st : DState W) (command : string) : res (DState W) :=
  let '(st, r) := exec_cmd st command in
  belief ← py_float r;
  Ok (print_line (float_str belief) st).

(** Lines 242-254: [BP tolerance minIters maxIters histLength]. *)
Definition cmd_bp (st : DState W) (components : list string) : res (DState W) :=
  c0 ← py_index components 0; tol ← py_float c0;
  c1 ← py_index components 1; minI ← py_int c1;
  c2 ← py_index components 2; maxI ← py_int c2;
  c3 ← py_index components 3; hist ← py_int c3;
  assert! bp_ok tol minI maxI hist ;;
  let '(st, r) := exec_cmd st (bp_cmd tol minI maxI hist) in
  Ok (print_line r st).

(** Lines 256-263: [OO t]. *)
Definition cmd_observe_oracle (st : DState W) (components : list string) : res (DState W) :=
  t ← py_index components 0;
  let value := bool_decide (t ∈ oracleQueries env) in
  st ← observe st t value;
  Ok (print_line ("O " +:+ t +:+ " " +:+ bool_str value) st).

(** Lines 265-273: [O t true|false]. *)
Definition cmd_observe (st : DState W) (components : list string) : res (DState W) :=
  t ← py_index components 0;
  c1 ← py_index components 1;
  assert! bool_decide (c1 = "true" ∨ c1 = "false") ;;
  let value := bool_decide (c1 = "true") in
  st ← observe st t value;
  Ok (print_line ("O " +:+ t +:+ " " +:+ bool_str value) st).

(** Lines 275-282: [P filename]. *)
Definition cmd_print (st : DState W) (components : list string) : res (DState W) :=
  outFileName ← py_index components 0;
  '(st, lines) ← print_ranked st;
  Ok (print_line ("P " +:+ outFileName) (write_file outFileName lines st)).

(** Lines 284-291: [HA]. *)
Definition cmd_highest (st : DState W) : res (DState W) :=
  '(st, alarmList) ← get_ranked st;
  match alarmList with
  | [] => Err IndexError
  | (topAlarm, confidence) :: _ =>
      Ok (print_line (topAlarm +:+ " " +:+ float_str confidence +:+ " " +:+ ground topAlarm) st)
  end.

(** Lines 293-321: [AC dfile tolerance minIters maxIters histLength
    statsFile combinedPrefix combinedSuffix]. *)
Definition cmd_carousel (elapsed : nat → Z) (st : DState W) (components : list string)
    : res (DState W) :=
  dfilename ← py_index components 0;
  dlines ← read_file st dfilename;
  df ← load_dfile dlines;
  c1 ← py_index components 1; tol ← py_float c1;
  c2 ← py_index components 2; minI ← py_int c2;
  c3 ← py_index components 3; maxI ← py_int c3;
  c4 ← py_index components 4; hist ← py_int c4;
  sf ← py_index components 5;
  prefix ← py_index components 6;
  suffix ← py_index components 7;
  assert! bp_ok tol minI maxI hist ;;
  run_carousel elapsed (mkCArgs df tol minI maxI hist sf prefix suffix) (write_file sf [] st).

(** Lines 217-325: one command read from stdin, dispatched on its first
    word; an unknown word fails the assertion of line 324. *)
Definition exec_command (elapsed : nat → Z) (st : DState W) (command : string) : res (DState W) :=
  let command := strip command in
  match nonempty_stripped (split_ws command) with
  | [] => Ok st
  | cmdType :: components =>
    if bool_decide (cmdType = "Q") then cmd_query st components
    else if bool_decide (cmdType = "FQ") then cmd_factor_query st command
    else if bool_decide (cmdType = "BP") then cmd_bp st components
    else if bool_decide (cmdType = "OO") then cmd_observe_oracle st components
    else if bool_decide (cmdType = "O") then cmd_observe st components
    else if bool_decide (cmdType = "P") then cmd_print st components
    else if bool_decide (cmdType = "HA") then cmd_highest st
    else if bool_decide (cmdType = "AC") then cmd_carousel elapsed st components
    else
      assert! bool_decide (cmdType = "NL") ;;
      Ok (print_line "" st)
  end.

(** Line 216: [for command in sys.stdin]. *)
Definition run_commands (elapsed : nat → Z) (st : DState W) (commands : list string) : res (DState W) :=
  res_fold (exec_command elapsed) st commands.

End driver.

(** Lines 115-123: [getAlpha], ['{:02X}'.format(int(255 * k))]. *)
Definition hex_digit (d : nat) : ascii :=
  match String.get d "0123456789ABCDEF" with Some c => c | None => "?"%char end.

Definition hex2 (n : nat) : string :=
  String (hex_digit (n / 16)) (String (hex_digit (n mod 16)) EmptyString).

Definition py_int_of (q : Q) : nat := Z.to_nat (Qfloor q).

Definition get_alpha (confidence : Q) : string :=
  if Qlt_le_dec (3 # 4) confidence then hex2 (py_int_of (255 * 1))
  else if Qlt_le_dec (1 # 2) confidence then hex2 (py_int_of (255 * (3 # 4)))
  else if Qlt_le_dec (1 # 4) confidence then hex2 (py_int_of (255 * (1 # 2)))
  else hex2 (py_int_of (255 * (1 # 4))).

(** ** A concrete engine and number syntax, for the examples

    The engine answers from a table of request lines (["0"] otherwise);
    numbers are decimal literals, and [str] of a float prints a fraction. *)
#[local] Instance table_engine : Wrapper (gmap string string) :=
  λ w cmd, (w, default "0" (w !! cmd)).

Fixpoint parse_digits (s : string) (acc : Z) (n : nat) : Z * nat * string :=
  match s with
  | String c s' =>
      if is_digit c then parse_digits s' (10 * acc + (Z.of_nat (Ascii.nat_of_ascii c) - 48)) (S n)
      else (acc, n, s)
  | EmptyString => (acc, n, s)
  end.

Definition dec_float (s : string) : option Q :=
  match parse_digits s 0 0 with
  | (ip, S _, EmptyString) => Some (inject_Z ip)
  | (ip, S _, String "."%char r) =>
      match parse_digits r 0 0 with
      | (fp, S m, EmptyString) => Some (inject_Z ip + inject_Z fp / inject_Z (10 ^ Z.of_nat (S m)))%Q
      | _ => None
      end
  | _ => None
  end.

Definition dec_int (s : string) : option Z :=
  match parse_digits s 0 0 with (z, S _, EmptyString) => Some z | _ => None end.

#[local] Instance dec_num : PyNum :=
  {| parse_float := dec_float; parse_int := dec_int;
     float_str := λ q, pretty (Qnum q) +:+ "/" +:+ pretty (Zpos (Qden q)) |}.

(** Three base queries [a], [b], [c] with nodes 0, 1, 2; [a] is the
    true alarm and has the highest belief. *)
Definition T_dict_lines : list string := ["0: a"; "1: b"; "2: c"].
Definition T_dict : gmap string string := {["a" := "0"; "b" := "1"; "c" := "2"]}.
Definition T_env : DEnv := mkDEnv T_dict {["a"]} {["a"; "b"; "c"]} ∅.
Definition T_engine : gmap string string := {["Q 0" := "0.9"; "Q 1" := "0.5"; "Q 2" := "0.1"]}.
Definition T_st : DState (gmap string string) := mkDState ∅ T_engine [] ∅.
Definition T_args : CArgs := mkCArgs ∅ (1 # 100) 50 500 5 "stats" "combined" "out".
Definition T_elapsed : nat → Z := λ _, 0%Z.
(** The same queries with no oracle query. *)
Definition T_env0 : DEnv := mkDEnv T_dict ∅ {["a"; "b"; "c"]} ∅.
(** [c] is an old label, [b] ranks first and masks [c]. *)
Definition T_env_mask : DEnv := mkDEnv T_dict {["a"]} {["a"; "b"; "c"]} {["c"]}.
Definition T_engine_mask : gmap string string :=
  {["Q 0" := "0.5"; "Q 1" := "0.9"; "Q 2" := "0.1"]}.
Definition T_args_mask : CArgs := mkCArgs {["b" := {["c"]}]} (1 # 100) 50 500 5 "stats" "combined" "out".

(** ** Lemmas *)

Section facts.
Context {W : Type} `{Wrapper W} `{PyNum} (en : Enum string) (env : DEnv).

(** Labels only grow, and only tuples of the dictionary get one. *)
Definition grows (st st' : DState W) : Prop :=
  labelledTuples st ⊆ labelledTuples st' ∧
  dom (labelledTuples st') ⊆ dom (labelledTuples st) ∪ dom (bnetDict env).

#[export] Instance grows_preorder : PreOrder grows.
Proof.
  split; [intros st; split; [done|set_solver]|].
  intros s1 s2 s3 [H12 D12] [H23 D23]. split; [by trans (labelledTuples s2)|].
  pose proof (subseteq_dom _ _ H12). set_solver.
Qed.

Lemma grows_same st st' : labelledTuples st' = labelledTuples st → grows st st'.
Proof. intros E. split; rewrite E; [done|set_solver]. Qed.

Lemma exec_cmd_labelled st c st1 r :
  exec_cmd st c = (st1, r) → labelledTuples st1 = labelledTuples st.
Proof. unfold exec_cmd. destruct (wrapper_exec _ _). by intros [= <- _]. Qed.

Lemma observe_Ok st t v st' :
  observe env st t v = Ok st' →
  labelledTuples st !! t = None ∧ t ∈ dom (bnetDict env) ∧
  labelledTuples st' = <[t := v]> (labelledTuples st).
Proof.
  unfold observe, py_assert. case_bool_decide; [|done]. rewrite Ok_bind.
  destruct (bnetDict env !! t) as [index|] eqn:E; unfold dict_get; rewrite E; [|done].
  rewrite Ok_bind. destruct (exec_cmd st _) as [st1 r] eqn:Ex. intros [= <-].
  split_and!; [done|by apply elem_of_dom|]. simpl.
  by rewrite (exec_cmd_labelled _ _ _ _ Ex).
Qed.

Lemma observe_grows st t v st' : observe env st t v = Ok st' → grows st st'.
Proof.
  intros (Hn & Hd & Hl)%observe_Ok. split; rewrite Hl; [by apply insert_subseteq|].
  rewrite dom_insert_L. set_solver.
Qed.

Lemma observe_Err st t v e :
  observe env st t v = Err e → e = AssertionError ∨ e = KeyError.
Proof.
  unfold observe, py_assert. case_bool_decide; [|intros [= <-]; auto]. rewrite Ok_bind.
  unfold dict_get. destruct (bnetDict env !! t); [|intros [= <-]; auto].
  rewrite Ok_bind. by destruct (exec_cmd st _).
Qed.

Lemma mask_all_grows st ts st' : mask_all en env st ts = Ok st' → grows st st'.
Proof.
  apply (res_fold_inv (grows st)); [reflexivity|].
  intros s1 x s2 _ H1 H2. etrans; [exact H1|]. by eapply observe_grows.
Qed.

Lemma mask_all_Err st ts e :
  mask_all en env st ts = Err e → e = AssertionError ∨ e = KeyError.
Proof.
  apply (res_fold_Err (λ e, e = AssertionError ∨ e = KeyError)). intros ???? He. by eapply observe_Err.
Qed.

Lemma query_fold st l ts st' l' :
  res_fold (query_step env) (st, l) ts = Ok (st', l') →
  labelledTuples st' = labelledTuples st ∧ names l' = names l ++ ts.
Proof.
  revert st l. induction ts as [|t ts IH]; intros st l; simpl.
  { intros [= <- <-]. by rewrite app_nil_r. }
  unfold dict_get. destruct (bnetDict env !! t) as [index|]; [|done]. rewrite Ok_bind.
  destruct (exec_cmd st ("Q " +:+ index)) as [st1 r] eqn:Ex. unfold py_float.
  destruct (parse_float r) as [q|]; [|done]. rewrite !Ok_bind.
  intros (Hl & Hn)%IH. rewrite Hn. unfold names. rewrite map_app, <-app_assoc. split; [|done].
  rewrite Hl. by apply (exec_cmd_labelled _ _ _ _ Ex).
Qed.

Lemma query_fold_Err st l ts e :
  res_fold (query_step env) (st, l) ts = Err e → e = KeyError ∨ e = ValueError.
Proof.
  apply (res_fold_Err (λ e, e = KeyError ∨ e = ValueError)). intros [s1 l1] x e1 _. unfold query_step, dict_get.
  destruct (bnetDict env !! x); [|intros [= <-]; auto]. rewrite Ok_bind.
  destruct (exec_cmd s1 _). unfold py_float. destruct (parse_float _); [done|intros [= <-]; auto].
Qed.

(** The ranked list holds every base query once. *)
Lemma get_ranked_Ok st st' l :
  get_ranked en env st = Ok (st', l) →
  labelledTuples st' = labelledTuples st ∧ names l ≡ₚ elements (baseQueries env).
Proof.
  unfold get_ranked. destruct (res_fold _ _ _) as [[st1 l1]|e] eqn:E; [|done].
  rewrite Ok_bind. intros [= <- <-]. apply query_fold in E as [Hl Hn].
  split; [done|]. unfold names. rewrite (Permutation_map fst (rank_perm _ l1)).
  fold (names l1). rewrite Hn. simpl. apply enum_perm.
Qed.

Lemma get_ranked_Err st e : get_ranked en env st = Err e → e = KeyError ∨ e = ValueError.
Proof.
  unfold get_ranked. destruct (res_fold _ _ _) as [[st1 l1]|e1] eqn:E; [done|].
  intros [= <-]. by eapply query_fold_Err.
Qed.

Lemma print_ranked_Ok st st' lines :
  print_ranked en env st = Ok (st', lines) → labelledTuples st' = labelledTuples st.
Proof.
  unfold print_ranked. destruct (get_ranked en env st) as [[st1 l1]|e] eqn:E; [|done].
  rewrite Ok_bind. intros [= <- _]. by apply get_ranked_Ok in E as [? _].
Qed.

Lemma print_ranked_Err st e : print_ranked en env st = Err e → e = KeyError ∨ e = ValueError.
Proof.
  unfold print_ranked. destruct (get_ranked en env st) as [[st1 l1]|e1] eqn:E; [done|].
  intros [= <-]. by eapply get_ranked_Err.
Qed.

(** The exceptions the carousel can raise: a relabelled tuple, a tuple
    missing from the dictionary, an unparsable engine response. *)
Definition benign (e : exc) : Prop := e = AssertionError ∨ e = KeyError ∨ e = ValueError.

Lemma unlabelled_nonempty (labelled : gmap string bool) l :
  names l ≡ₚ elements (baseQueries env) → baseQueries env ∖ dom labelled ≠ ∅ →
  unlabelled_alarms labelled l ≠ [].
Proof.
  intros Hn Hne. destruct (set_choose_L _ Hne) as [t Ht].
  assert (Htl : t ∈ names l) by (rewrite Hn, elem_of_elements; set_solver).
  apply list_elem_of_fmap in Htl as ([t' q] & -> & Hin).
  intros Hu. assert (Hf : (t', q) ∈ unlabelled_alarms labelled l).
  { apply list_elem_of_filter. split; [|done]. apply not_elem_of_dom. set_solver. }
  rewrite Hu in Hf. by apply elem_of_nil in Hf.
Qed.

Lemma size_unlabelled_lt st st' t0 :
  grows st st' → t0 ∈ baseQueries env → labelledTuples st !! t0 = None →
  t0 ∈ dom (labelledTuples st') →
  size (baseQueries env ∖ dom (labelledTuples st')) < size (baseQueries env ∖ dom (labelledTuples st)).
Proof.
  intros [Hsub _] Hb Hn Hd. apply subset_size. apply subseteq_dom in Hsub.
  apply not_elem_of_dom in Hn. set_solver.
Qed.

Lemma carousel_round_spec elapsed a st nT nF :
  baseQueries env ∖ dom (labelledTuples st) ≠ ∅ →
  match carousel_round en env elapsed a st nT nF with
  | Ok (st', nT', nF') =>
      ∃ t0, t0 ∈ baseQueries env ∧ labelledTuples st !! t0 = None ∧
        t0 ∈ dom (labelledTuples st') ∧ grows st st' ∧
        nT' = nT + (if bool_decide (t0 ∈ oracleQueries env) then 1 else 0) ∧
        nF' = nF + (if bool_decide (t0 ∈ oracleQueries env) then 0 else 1)
  | Err e => benign e
  end.
Proof.
  intros Hne. unfold carousel_round.
  destruct (exec_cmd st _) as [st1 r] eqn:Ex. apply exec_cmd_labelled in Ex.
  unfold py_float at 1. destruct (parse_float r); [|by right; right]. rewrite Ok_bind.
  destruct (get_ranked en env st1) as [[st2 l]|e] eqn:Eg;
    [|apply get_ranked_Err in Eg; unfold benign; simpl; tauto].
  apply get_ranked_Ok in Eg as [Hl2 Hn2]. rewrite Ok_bind.
  destruct (unlabelled_alarms _ l) as [|[t0 conf0] rest] eqn:Eu.
  { exfalso. revert Eu. apply (unlabelled_nonempty _ l Hn2). by rewrite Hl2, Ex. }
  assert (Ht0 : (t0, conf0) ∈ unlabelled_alarms (labelledTuples st2) l)
    by (rewrite Eu; by apply elem_of_cons; left).
  apply list_elem_of_filter in Ht0 as [Hnone Hin]. simpl in Hnone.
  assert (Hbase : t0 ∈ baseQueries env).
  { rewrite <-elem_of_elements, <-Hn2. apply list_elem_of_fmap. by exists (t0, conf0). }
  cbv zeta.
  destruct (print_ranked en env _) as [[st3 lines]|e] eqn:Ep;
    [|apply print_ranked_Err in Ep; unfold benign; simpl; tauto].
  apply print_ranked_Ok in Ep. cbn [labelledTuples append_file] in Ep. rewrite Ok_bind.
  destruct (observe env _ t0 _) as [st4|e] eqn:Eo;
    [|apply observe_Err in Eo; unfold benign; simpl; tauto].
  rewrite Ok_bind. pose proof (observe_grows _ _ _ _ Eo) as G4.
  apply observe_Ok in Eo as (_ & _ & Hl4).
  assert (G : grows st (write_file (combinedPrefix a +:+ pretty ((if bool_decide (t0 ∈ oracleQueries env) then S nT else nT) + (if bool_decide (t0 ∈ oracleQueries env) then nF else S nF) - 1) +:+ "." +:+ combinedSuffix a) lines st3)).
  { apply grows_same. simpl. by rewrite Ep, Hl2, Ex. }
  assert (Hfin : ∀ st5, grows st4 st5 →
    ∃ t1, t1 ∈ baseQueries env ∧ labelledTuples st !! t1 = None ∧ t1 ∈ dom (labelledTuples st5) ∧
      grows st st5 ∧
      (if bool_decide (t0 ∈ oracleQueries env) then S nT else nT) =
        nT + (if bool_decide (t1 ∈ oracleQueries env) then 1 else 0) ∧
      (if bool_decide (t0 ∈ oracleQueries env) then nF else S nF) =
        nF + (if bool_decide (t1 ∈ oracleQueries env) then 0 else 1)).
  { intros st5 G5'. pose proof G5' as [G5 _]. exists t0. split_and!; [done| |..].
    - rewrite <-Ex, <-Hl2. done.
    - apply elem_of_dom. exists (bool_decide (t0 ∈ oracleQueries env)).
      eapply lookup_weaken; [|exact G5]. rewrite Hl4. apply lookup_insert_eq.
    - transitivity (write_file (combinedPrefix a +:+ pretty ((if bool_decide (t0 ∈ oracleQueries env) then S nT else nT) + (if bool_decide (t0 ∈ oracleQueries env) then nF else S nF) - 1) +:+ "." +:+ combinedSuffix a) lines st3); [exact G|].
      transitivity st4; [exact G4|exact G5'].
    - case_bool_decide; lia.
    - case_bool_decide; lia. }
  destruct (bool_decide (t0 ∈ oracleQueries env)) eqn:Et.
  - rewrite Ok_bind. apply Hfin. reflexivity.
  - destruct (dfile a !! t0) as [ds|].
    + destruct (mask_all en env st4 ds) as [st5|e] eqn:Em;
        [|apply mask_all_Err in Em; unfold benign; simpl; tauto].
      rewrite Ok_bind. apply mask_all_grows in Em. by apply Hfin.
    + rewrite Ok_bind. apply Hfin. reflexivity.
Qed.

Lemma carousel_loop_spec fuel elapsed a st nT nF :
  size (baseQueries env ∖ dom (labelledTuples st)) < fuel →
  match carousel_loop en env fuel elapsed a st nT nF with
  | Ok (st', nT', nF') =>
      grows st st' ∧
      (baseQueries env ∖ dom (labelledTuples st') = ∅ ∨ nT' = size (oracleQueries env)) ∧
      nT ≤ nT' ∧ nT' + nF' ≤ nT + nF + size (baseQueries env ∖ dom (labelledTuples st))
  | Err e => benign e
  end.
Proof.
  revert st nT nF. induction fuel as [|fuel IH]; intros st nT nF Hfuel; [lia|]. simpl.
  case_bool_decide as Hemp.
  { cbv beta iota. split_and!; [reflexivity|by left|lia|lia]. }
  pose proof (carousel_round_spec elapsed a st nT nF Hemp) as Hr.
  destruct (carousel_round en env elapsed a st nT nF) as [[[st1 nT1] nF1]|e]; [|done].
  rewrite Ok_bind. destruct Hr as (t0 & Hb & Hn & Hd & G1 & HT & HF).
  pose proof (size_unlabelled_lt _ _ _ G1 Hb Hn Hd) as Hlt.
  assert (Hpos : 0 < size (baseQueries env ∖ dom (labelledTuples st))) by lia.
  destruct (decide (nT1 = size (oracleQueries env))) as [Hstop|Hstop];
    [rewrite bool_decide_true by done|rewrite bool_decide_false by done].
  { cbv beta iota. split_and!; [done|by right|case_bool_decide; lia|case_bool_decide; lia]. }
  specialize (IH st1 nT1 nF1 ltac:(lia)).
  destruct (carousel_loop en env fuel elapsed a st1 nT1 nF1) as [[[st2 nT2] nF2]|e]; [|done].
  destruct IH as (G2 & Hend & H2T & H2F). split_and!; [by trans st1|done|case_bool_decide; lia|].
  case_bool_decide; lia.
Qed.

Lemma grows_eq_r st s s' : grows st s → labelledTuples s' = labelledTuples s → grows st s'.
Proof. intros G E. etrans; [exact G|]. by apply grows_same. Qed.

(** Turn the equations left by [res_inv] into facts about the labels. *)
Ltac driver_facts :=
  repeat match goal with
  | E : exec_cmd _ _ = (_, _) |- _ => apply exec_cmd_labelled in E
  | E : print_ranked _ _ _ = Ok _ |- _ => apply print_ranked_Ok in E
  | E : get_ranked _ _ _ = Ok _ |- _ => apply get_ranked_Ok in E as [E _]
  | E : mask_all _ _ _ _ = Ok _ |- _ => apply mask_all_grows in E
  | E : observe _ _ _ _ = Ok _ |- _ => apply observe_grows in E
  end.

(** Chain [grows] facts and label equations up to the goal. *)
Ltac grows_solve :=
  repeat match goal with
  | G : grows ?a ?b |- grows ?x ?y =>
      apply (grows_eq_r x b y); [apply (transitivity (y:=a)); [|exact G]; clear G|simpl; congruence]
  end;
  apply grows_same; simpl; congruence.

Lemma run_carousel_grows elapsed a st st' : run_carousel en env elapsed a st = Ok st' → grows st st'.
Proof.
  unfold run_carousel. intros Hr. res_inv Hr. injection Hr as <-. driver_facts.
  match goal with E : carousel_loop _ _ _ _ _ ?s _ _ = _ |- _ =>
    pose proof (carousel_loop_spec (S (size (baseQueries env))) elapsed a s 0 0) as Hl;
    rewrite E in Hl; destruct Hl as [G _] end.
  { apply Nat.lt_succ_r, subseteq_size. set_solver. }
  grows_solve.
Qed.

Ltac handler_grows :=
  let Hr := fresh "Hr" in
  intros Hr; res_inv Hr; first [injection Hr as <- | apply run_carousel_grows in Hr];
  driver_facts; grows_solve.

Lemma cmd_query_grows st comps st' : cmd_query env st comps = Ok st' → grows st st'.
Proof. unfold cmd_query. handler_grows. Qed.

Lemma cmd_factor_query_grows st c st' : cmd_factor_query st c = Ok st' → grows st st'.
Proof. unfold cmd_factor_query. handler_grows. Qed.

Lemma cmd_bp_grows st comps st' : cmd_bp st comps = Ok st' → grows st st'.
Proof. unfold cmd_bp. handler_grows. Qed.

Lemma cmd_observe_oracle_grows st comps st' : cmd_observe_oracle env st comps = Ok st' → grows st st'.
Proof. unfold cmd_observe_oracle. handler_grows. Qed.

Lemma cmd_observe_grows st comps st' : cmd_observe env st comps = Ok st' → grows st st'.
Proof. unfold cmd_observe. handler_grows. Qed.

Lemma cmd_print_grows st comps st' : cmd_print en env st comps = Ok st' → grows st st'.
Proof. unfold cmd_print. handler_grows. Qed.

Lemma cmd_highest_grows st st' : cmd_highest en env st = Ok st' → grows st st'.
Proof.
  unfold cmd_highest. intros Hr. res_inv Hr.
  match type of Hr with (match ?l with _ => _ end) = _ => destruct l as [|[t c] l] end;
    [done|]. injection Hr as <-. driver_facts. grows_solve.
Qed.

Lemma cmd_carousel_grows elapsed st comps st' :
  cmd_carousel en env elapsed st comps = Ok st' → grows st st'.
Proof. unfold cmd_carousel. handler_grows. Qed.

Lemma exec_command_grows elapsed st c st' :
  exec_command en env elapsed st c = Ok st' → grows st st'.
Proof.
  unfold exec_command. destruct (nonempty_stripped _) as [|cmdType comps]; [by intros [= <-]|].
  repeat (case_bool_decide; cbn iota).
  all: first [ apply cmd_query_grows | apply cmd_factor_query_grows | apply cmd_bp_grows
             | apply cmd_observe_oracle_grows | apply cmd_observe_grows | apply cmd_print_grows
             | apply cmd_highest_grows | apply cmd_carousel_grows
             | let Hr := fresh in intros Hr; res_inv Hr; injection Hr as <-; grows_solve ].
Qed.

Lemma mask_fold_relabel (st : DState W) l td b st' :
  td ∈ l → labelledTuples st !! td = Some b →
  res_fold (λ st t, observe env st t false) st l ≠ Ok st'.
Proof.
  revert st. induction l as [|x l IH]; intros st Hin Hl; [by apply elem_of_nil in Hin|]. simpl.
  destruct (observe env st x false) as [st1|e] eqn:E; [|done]. rewrite Ok_bind.
  apply elem_of_cons in Hin as [->|Hin].
  - apply observe_Ok in E as (Hn & _). congruence.
  - apply IH; [done|]. apply observe_grows in E as [Hsub _]. by eapply lookup_weaken.
Qed.

End facts.

(** ** The dictionary roundtrip *)

Lemma dict_line_ok m k v :
  dict_ok k → dict_ok v → dict_line m (k +:+ ": " +:+ v) = Ok (<[v := k]> m).
Proof.
  intros (Hk0 & Hk & Hkc) (Hv0 & Hv & Hvc). unfold dict_line.
  rewrite strip_dict_line by done.
  rewrite bool_decide_false by (destruct k; [done|discriminate]).
  rewrite str_split_dict_line by done. unfold nonempty_stripped. simpl. rewrite Hk, Hv.
  rewrite !filter_cons, !decide_True by done. done.
Qed.

Lemma fst_imap_pair (g : nat → string) (l : list string) : (imap (λ i s, (s, g i)) l).*1 = l.
Proof. revert g. induction l as [|x l IH]; intros g; [done|]. simpl. f_equal. apply (IH (g ∘ S)). Qed.

Lemma load_dict_imap (f : nat → string) (l : list string) m :
  (∀ i, dict_ok (f i)) → NoDup l → Forall dict_ok l →
  res_fold dict_line m (imap (λ i s, f i +:+ ": " +:+ s) l) =
  Ok (list_to_map (imap (λ i s, (s, f i)) l) ∪ m).
Proof.
  revert f m. induction l as [|x l IH]; intros f m Hf Hnd Hok; simpl.
  { by rewrite map_empty_union. }
  apply NoDup_cons in Hnd as [Hx Hnd]. apply Forall_cons in Hok as [Hxo Hok].
  rewrite dict_line_ok by done. rewrite Ok_bind.
  rewrite (IH (f ∘ S)) by (done || intros; apply Hf). f_equal.
  rewrite <-insert_union_r, insert_union_l; [done|].
  apply not_elem_of_list_to_map_1. by rewrite (fst_imap_pair (f ∘ S)).
Qed.

(** ** Properties of the driver *)

(** C12 (termination): the carousel loop (lines 182-213) ends within
    [|baseQueries - labelled| + 1] rounds of fuel: each round labels one
    more base query.  It never runs out of fuel, and the
    [unlabelledAlarms[0]] of line 186 never raises [IndexError]. *)
Theorem carousel_terminates {W} `{Wrapper W} `{PyNum} en env fuel elapsed a (st : DState W) nT nF :
  size (baseQueries env ∖ dom (labelledTuples st)) < fuel →
  carousel_loop en env fuel elapsed a st nT nF ≠ Err OutOfFuel ∧
  carousel_loop en env fuel elapsed a st nT nF ≠ Err IndexError.
Proof.
  intros Hf. pose proof (carousel_loop_spec en env fuel elapsed a st nT nF Hf) as Hs.
  destruct (carousel_loop en env fuel elapsed a st nT nF) as [[[??]?]|e]; [done|].
  unfold benign in Hs. split; intros [= ->]; naive_solver.
Qed.

Lemma carousel_terminates_witness :
  carousel_loop elements_enum T_env 4 T_elapsed T_args T_st 0 0 ≠ Err OutOfFuel ∧
  carousel_loop elements_enum T_env 4 T_elapsed T_args T_st 0 0 ≠ Err IndexError.
Proof. apply carousel_terminates. vm_compute. lia. Defined.

(** C13 (liveness): when the carousel returns, every base query is
    labelled or [numTrue == len(oracleQueries)] (the terminal condition
    of the specification). *)
Theorem carousel_exit {W} `{Wrapper W} `{PyNum} en env fuel elapsed a (st st' : DState W) nT nF nT' nF' :
  size (baseQueries env ∖ dom (labelledTuples st)) < fuel →
  carousel_loop en env fuel elapsed a st nT nF = Ok (st', nT', nF') →
  baseQueries env ∖ dom (labelledTuples st') = ∅ ∨ nT' = size (oracleQueries env).
Proof.
  intros Hf E. pose proof (carousel_loop_spec en env fuel elapsed a st nT nF Hf) as Hs.
  rewrite E in Hs. naive_solver.
Qed.

Lemma carousel_exit_witness :
  match carousel_loop elements_enum T_env 4 T_elapsed T_args T_st 0 0 with
  | Ok (st', nT', nF') => baseQueries T_env ∖ dom (labelledTuples st') = ∅ ∨ nT' = size (oracleQueries T_env)
  | Err _ => False
  end.
Proof.
  destruct (carousel_loop elements_enum T_env 4 T_elapsed T_args T_st 0 0) as [[[st' nT'] nF']|e] eqn:E;
    [|vm_compute in E; discriminate].
  apply (carousel_exit elements_enum T_env 4 T_elapsed T_args T_st st' 0 0 nT' nF'); [vm_compute; lia|exact E].
Defined.

(** The carousel performs at most one round per unlabelled
    base query: [numTrue + numFalse] grows by at most
    [|baseQueries - labelled|], and [numTrue] never decreases. *)
Theorem carousel_rounds_bound {W} `{Wrapper W} `{PyNum} en env fuel elapsed a (st st' : DState W) nT nF nT' nF' :
  size (baseQueries env ∖ dom (labelledTuples st)) < fuel →
  carousel_loop en env fuel elapsed a st nT nF = Ok (st', nT', nF') →
  nT ≤ nT' ∧ nT' + nF' ≤ nT + nF + size (baseQueries env ∖ dom (labelledTuples st)).
Proof.
  intros Hf E. pose proof (carousel_loop_spec en env fuel elapsed a st nT nF Hf) as Hs.
  rewrite E in Hs. naive_solver.
Qed.

Lemma carousel_rounds_bound_witness :
  match carousel_loop elements_enum T_env0 4 T_elapsed T_args T_st 0 0 with
  | Ok (st', nT', nF') => 0 ≤ nT' ∧ nT' + nF' ≤ 0 + 0 + size (baseQueries T_env0 ∖ dom (labelledTuples T_st))
  | Err _ => False
  end.
Proof.
  destruct (carousel_loop elements_enum T_env0 4 T_elapsed T_args T_st 0 0) as [[[st' nT'] nF']|e] eqn:E;
    [|vm_compute in E; discriminate].
  apply (carousel_rounds_bound elements_enum T_env0 4 T_elapsed T_args T_st st' 0 0 nT' nF'); [vm_compute; lia|exact E].
Defined.

(** C32 (error): [runAlarmCarousel] raises only [AssertionError] (a
    relabelled tuple, or a precondition of line 158-159), [KeyError] (a
    tuple missing from the dictionary) or [ValueError] (an engine
    response that is not a float); never [IndexError], never out of
    rounds. *)
Theorem run_carousel_errors {W} `{Wrapper W} `{PyNum} en env elapsed a (st : DState W) e :
  run_carousel en env elapsed a st = Err e → e = AssertionError ∨ e = KeyError ∨ e = ValueError.
Proof.
  unfold run_carousel, py_assert. destruct (bp_ok _ _ _ _); [|intros [= <-]; auto].
  rewrite Ok_bind. destruct (exec_cmd st _) as [st1 r].
  destruct (print_ranked en env st1) as [[st2 lines]|e1] eqn:Ep;
    [|intros [= <-]; apply print_ranked_Err in Ep; tauto].
  rewrite Ok_bind. destruct (mask_all en env _ _) as [st3|e1] eqn:Em;
    [|intros [= <-]; apply mask_all_Err in Em; tauto].
  rewrite Ok_bind.
  match goal with |- context [carousel_loop _ _ _ _ _ ?s _ _] =>
    pose proof (carousel_loop_spec en env (S (size (baseQueries env))) elapsed a s 0 0) as Hs;
    destruct (carousel_loop _ _ _ _ _ s _ _) as [[[??]?]|e1] end.
  - by rewrite Ok_bind.
  - intros [= <-]. apply Hs, Nat.lt_succ_r, subseteq_size. set_solver.
Qed.

Lemma run_carousel_errors_witness :
  run_carousel elements_enum T_env_mask T_elapsed T_args_mask
    (mkDState ∅ T_engine_mask [] ∅) = Err AssertionError ∧
  (AssertionError = AssertionError ∨ AssertionError = KeyError ∨ AssertionError = ValueError).
Proof.
  split; [vm_eq|]. apply (run_carousel_errors elements_enum T_env_mask T_elapsed T_args_mask
    (mkDState ∅ T_engine_mask [] ∅)). vm_eq.
Defined.

(** the relabel guard of line 90.  Once [observe] has
    labelled a tuple, observing it again fails, whatever the two values. *)
Theorem observe_relabel_guard {W} `{Wrapper W} env (st st' : DState W) t v1 v2 :
  observe env st t v1 = Ok st' → observe env st' t v2 = Err AssertionError.
Proof.
  intros (_ & _ & Hl)%observe_Ok. unfold observe, py_assert.
  rewrite bool_decide_false; [done|]. by rewrite Hl, lookup_insert_eq.
Qed.

Lemma observe_relabel_guard_witness :
  observe T_env T_st "a" true = Ok (set_labelled {["a" := true]} T_st) ∧
  observe T_env (set_labelled {["a" := true]} T_st) "a" false = Err AssertionError.
Proof.
  split; [vm_eq|]. apply (observe_relabel_guard T_env T_st _ "a" true false). vm_eq.
Defined.

(** C14 (invariant): over a whole session of commands (line 216), a
    label once given is never changed or removed, and only tuples of the
    dictionary are ever labelled. *)
Theorem session_labels_grow {W} `{Wrapper W} `{PyNum} en env elapsed (st st' : DState W) commands :
  run_commands en env elapsed st commands = Ok st' →
  labelledTuples st ⊆ labelledTuples st' ∧
  dom (labelledTuples st') ⊆ dom (labelledTuples st) ∪ dom (bnetDict env).
Proof.
  apply (res_fold_inv (grows env st)); [reflexivity|].
  intros s1 c s2 _ G E. etrans; [exact G|]. by eapply exec_command_grows.
Qed.

Lemma session_labels_grow_witness :
  match run_commands elements_enum T_env T_elapsed T_st ["OO a"; "O b false"; "HA"; "Q c"; "NL"] with
  | Ok st' => labelledTuples T_st ⊆ labelledTuples st' ∧
              dom (labelledTuples st') ⊆ dom (labelledTuples T_st) ∪ dom (bnetDict T_env)
  | Err _ => False
  end.
Proof.
  destruct (run_commands elements_enum T_env T_elapsed T_st _) as [st'|e] eqn:E;
    [|vm_compute in E; discriminate].
  exact (session_labels_grow elements_enum T_env T_elapsed T_st st' _ E).
Defined.

(** C16 (roundtrip): the dictionary lines [index: representation] that
    the network compiler writes ([cons_all2bnet.py] line 228, indices
    [0, 1, ...] in order) are read back by the driver's setup (lines
    44-50) as the map from each representation to its index, provided
    the representations are distinct and carry no colon and no
    surrounding white space. *)
Theorem load_dict_roundtrip (strs : list string) :
  NoDup strs → Forall dict_ok strs →
  load_dict (imap (λ i s, pretty i +:+ ": " +:+ s) strs) =
  Ok (list_to_map (imap (λ i s, (s, pretty i)) strs)).
Proof.
  intros Hnd Hok. unfold load_dict. rewrite load_dict_imap; [by rewrite map_union_empty|..|done|done].
  intros i. destruct (pretty_nat_stripped i) as (? & ? & ?). done.
Qed.

Lemma load_dict_roundtrip_witness :
  imap (λ i s, pretty i +:+ ": " +:+ s) ["NOT A(1,2), B(1,2)"; "B(1,2)"] =
    ["0: NOT A(1,2), B(1,2)"; "1: B(1,2)"] ∧
  load_dict (imap (λ i s, pretty i +:+ ": " +:+ s) ["NOT A(1,2), B(1,2)"; "B(1,2)"]) =
    Ok {["NOT A(1,2), B(1,2)" := "0"; "B(1,2)" := "1"]}.
Proof.
  split; [vm_eq|].
  rewrite (load_dict_roundtrip ["NOT A(1,2), B(1,2)"; "B(1,2)"]); [vm_eq|vm_decide|vm_decide].
Defined.

(** The scenario of the specification.  Three base
    queries, one oracle query ranked first: the carousel reveals it in
    round one, [numTrue] reaches [len(oracleQueries)], and the loop ends
    after exactly one round, with one statistics row and the snapshots
    [combinedinit.out] and [combined0.out]. *)
Theorem carousel_scenario_one_round :
  carousel_loop elements_enum T_env 4 T_elapsed T_args
    (append_file "stats" [stats_header] (write_file "combinedinit.out"
      [ranked_header;
       tab_join ["1"; "9/10"; "TrueGround"; "Unlabelled"; "SPOkGoodGood"; "a"];
       tab_join ["2"; "5/10"; "FalseGround"; "Unlabelled"; "SPOkGoodGood"; "b"];
       tab_join ["3"; "1/10"; "FalseGround"; "Unlabelled"; "SPOkGoodGood"; "c"]] T_st)) 0 0
  = Ok (mkDState {["a" := true]} T_engine []
          {["stats" := [stats_header; tab_join ["a"; "9/10"; "TrueGround"; "1"; "0"; "1/1"; "0"; "0/1"; "0"]];
            "combinedinit.out" :=
              [ranked_header;
               tab_join ["1"; "9/10"; "TrueGround"; "Unlabelled"; "SPOkGoodGood"; "a"];
               tab_join ["2"; "5/10"; "FalseGround"; "Unlabelled"; "SPOkGoodGood"; "b"];
               tab_join ["3"; "1/10"; "FalseGround"; "Unlabelled"; "SPOkGoodGood"; "c"]];
            "combined0.out" :=
              [ranked_header;
               tab_join ["1"; "9/10"; "TrueGround"; "Unlabelled"; "SPOkGoodGood"; "a"];
               tab_join ["2"; "5/10"; "FalseGround"; "Unlabelled"; "SPOkGoodGood"; "b"];
               tab_join ["3"; "1/10"; "FalseGround"; "Unlabelled"; "SPOkGoodGood"; "c"]]]}, 1, 0).
Proof. vm_eq. Qed.

(** C33 (functional): with no oracle query and an unlabelled base query,
    the carousel still runs one round ([numTrue == len(oracleQueries)]
    is tested only at the end of a round, line 213), where the
    specification's loop condition runs none. *)
Theorem carousel_empty_oracle_one_round {W} `{Wrapper W} `{PyNum} en env fuel elapsed a
    (st st' : DState W) nT' nF' :
  oracleQueries env = ∅ → baseQueries env ∖ dom (labelledTuples st) ≠ ∅ →
  carousel_loop en env (S fuel) elapsed a st 0 0 = Ok (st', nT', nF') → nT' = 0 ∧ nF' = 1.
Proof.
  intros Ho Hne. simpl. rewrite bool_decide_false by done.
  pose proof (carousel_round_spec en env elapsed a st 0 0 Hne) as Hr.
  destruct (carousel_round en env elapsed a st 0 0) as [[[st1 nT1] nF1]|e]; [|done].
  rewrite Ok_bind. destruct Hr as (t0 & _ & _ & _ & _ & -> & ->).
  rewrite Ho, (bool_decide_false (t0 ∈ (∅ : gset string))), size_empty by set_solver.
  rewrite bool_decide_true by done. by intros [= _ <- <-].
Qed.

Lemma carousel_empty_oracle_one_round_witness :
  match carousel_loop elements_enum T_env0 4 T_elapsed T_args T_st 0 0 with
  | Ok (st', nT', nF') => nT' = 0 ∧ nF' = 1
  | Err _ => False
  end.
Proof.
  destruct (carousel_loop elements_enum T_env0 4 T_elapsed T_args T_st 0 0) as [[[st' nT'] nF']|e] eqn:E;
    [|vm_compute in E; discriminate].
  apply (carousel_empty_oracle_one_round elements_enum T_env0 3 T_elapsed T_args T_st st');
    [done|vm_decide|exact E].
Defined.

(** The command vocabulary is closed (line 324): a command
    whose first word is none of [Q FQ BP OO O P HA AC NL] fails its
    assertion, whatever the state. *)
Theorem unknown_command_fails {W} `{Wrapper W} `{PyNum} en env elapsed (st : DState W) command w comps :
  nonempty_stripped (split_ws (strip command)) = w :: comps →
  w ∉ ["Q"; "FQ"; "BP"; "OO"; "O"; "P"; "HA"; "AC"; "NL"] →
  exec_command en env elapsed st command = Err AssertionError.
Proof.
  intros Hc Hw. unfold exec_command. rewrite Hc.
  repeat (rewrite bool_decide_false by (intros ->; apply Hw; set_solver); cbn iota).
  done.
Qed.

Lemma unknown_command_fails_witness :
  exec_command elements_enum T_env T_elapsed T_st "  XYZ 1" = Err AssertionError.
Proof. apply (unknown_command_fails _ _ _ _ _ "XYZ" ["1"]); [vm_eq|vm_decide]. Defined.

(** C34 (error): masking (lines 173-176 and 211) observes every tuple of
    the set, so it fails as soon as one of them is already labelled: a
    dependent of [dfile] that an earlier round, an earlier cluster or an
    old label has labelled makes the whole carousel raise. *)
Theorem mask_all_relabel_fails {W} `{Wrapper W} en env (st st' : DState W) ds td b :
  td ∈ ds → labelledTuples st !! td = Some b → mask_all en env st ds ≠ Ok st'.
Proof.
  intros Hin Hl. unfold mask_all. apply (mask_fold_relabel env st _ td b); [|done].
  rewrite enum_perm. by apply elem_of_elements.
Qed.

Lemma mask_all_relabel_fails_witness :
  mask_all elements_enum T_env_mask (set_labelled {["c" := false]} T_st) {["b"; "c"]} ≠ Ok T_st.
Proof. apply (mask_all_relabel_fails _ _ _ _ _ "c" false); [set_solver|done]. Defined.
