(* ===== verification/Generator.v ===== *)
(** * Clause generation ([src/bingo/generate-named-cons.py])

    The script turns the derivation rows of the Datalog analysis
    ([Deriv_DUPath0.csv] ... [Deriv_DUPath5.csv], [Alarm.facts]: one
    tab-separated row of fields per line) into the clause lines
    [ruleName: NOT ante, ..., consequent] that [cons_all2bnet.py] reads.
    Each generator is the source's chain of [if name == ...] with its
    format template and its argument indices; a missing field raises
    [IndexError].  The written file is the list of the [cons] strings,
    one line each (every template ends with its newline). *)

From S2P Require Import Prelude Clauses PyStr.

Definition NL : string := String "010"%char EmptyString.

(** Lines 10-11: [nodes = [literal.strip() for literal in re.split("\t", line.strip())]]. *)
Definition row_nodes (line : string) : list string := map strip (split_tab (strip line)).

(** [template.format(nodes[i0], nodes[i1], ...)] of one rule. *)
Definition gen_rule (template : string) (nodes : list string) (idx : list nat) : res string :=
  args ← res_map (py_index nodes) idx;
  py_format (template +:+ NL) args.

(** Lines 9-36: [generate_buffer_overflow]; a name outside the chain
    leaves [cons] unbound ([UnboundLocalError], a [NameError]). *)
Definition generate_buffer_overflow (name line : string) : res string :=
  let nodes := row_nodes line in
  if bool_decide (name = "DUPath0") then
    gen_rule "DUPath0: NOT DUEdge({},{}), DUPath({},{})" nodes [0; 1; 0; 1]
  else if bool_decide (name = "DUPath1") then
    gen_rule "DUPath1: NOT TrueBranch({},{}), DUPath({},{})" nodes [0; 1; 0; 1]
  else if bool_decide (name = "DUPath2") then
    gen_rule "DUPath2: NOT FalseBranch({},{}), DUPath({},{})" nodes [0; 1; 0; 1]
  else if bool_decide (name = "DUPath3") then
    gen_rule "DUPath3: NOT DUPath({},{}), NOT DUEdge({},{}), DUPath({},{})" nodes [0; 1; 1; 2; 0; 2]
  else if bool_decide (name = "DUPath4") then
    gen_rule "DUPath4: NOT DUPath({},{}), NOT TrueCond({}), NOT TrueBranch({},{}), DUPath({},{})"
      nodes [0; 1; 1; 1; 2; 0; 2]
  else if bool_decide (name = "DUPath5") then
    gen_rule "DUPath5: NOT DUPath({},{}), NOT FalseCond({}), NOT FalseBranch({},{}), DUPath({},{})"
      nodes [0; 1; 1; 1; 2; 0; 2]
  else Err NameError.

(** Lines 38-65: [generate_integer_overflow]. *)
Definition generate_integer_overflow (name line : string) : res string :=
  let nodes := row_nodes line in
  if bool_decide (name = "DUPath0") then
    gen_rule "DUPath0: NOT DUEdge({},{}), DUPath({},{})" nodes [0; 1; 0; 1]
  else if bool_decide (name = "DUPath1") then
    gen_rule "DUPath1: NOT TrueBranch({},{}), DUPath({},{})" nodes [0; 1; 0; 1]
  else if bool_decide (name = "DUPath2") then
    gen_rule "DUPath2: NOT FalseBranch({},{}), DUPath({},{})" nodes [0; 1; 0; 1]
  else if bool_decide (name = "DUPath3") then
    gen_rule "DUPath3: NOT DUEdge({},{}), NOT DUPath({},{}), DUPath({},{})" nodes [0; 1; 1; 2; 0; 2]
  else if bool_decide (name = "DUPath4") then
    gen_rule "DUPath4: NOT TrueCond({}), NOT TrueBranch({},{}), NOT DUPath({},{}), DUPath({},{})"
      nodes [0; 0; 1; 1; 2; 0; 2]
  else if bool_decide (name = "DUPath5") then
    gen_rule "DUPath5: NOT FalseCond({}), NOT FalseBranch({},{}), NOT DUPath({},{}), DUPath({},{})"
      nodes [0; 0; 1; 1; 2; 0; 2]
  else Err NameError.

(** Lines 67-178: [generate_old].  Every [DUSuperEdge] branch first tests
    [if elide:], and [elide] is defined nowhere in the script, so these
    branches raise [NameError] before any formatting. *)
Definition generate_old (name line : string) : res string :=
  let nodes := row_nodes line in
  if bool_decide (name ∈ ["DUSuperEdge0"; "DUSuperEdge1"; "DUSuperEdge2"; "DUSuperEdge3"; "DUSuperEdge4"])
  then Err NameError
  else if bool_decide (name = "DUPath0") then
    gen_rule "DUPath0: NOT DUSuperEdge({},{}), DUPath({},{})" nodes [0; 1; 0; 1]
  else if bool_decide (name = "DUPath1") then
    gen_rule "DUPath1: NOT DUPath({},{}), NOT DUSuperEdge({},{}), DUPath({},{})" nodes [0; 1; 1; 2; 0; 2]
  else Err AssertionError.

(** Lines 180-185: [generate_alarm]. *)
Definition generate_alarm (line : string) : res string :=
  gen_rule "Alarm: NOT DUPath({},{}), Alarm({},{})" (row_nodes line) [0; 1; 0; 1].

Definition deriv_rules : list string := ["DUPath0"; "DUPath1"; "DUPath2"; "DUPath3"; "DUPath4"; "DUPath5"].

(** Lines 188-209 (and 211-232): the rows of the six derivation files,
    then of [Alarm.facts], each through its generator.  [files] gives
    the lines of a file of the [datalog] directory by its name. *)
Definition generate_file (gen : string → string → res string) (files : string → option (list string))
    : res (list string) :=
  outs ← res_map (λ name,
            match files ("Deriv_" +:+ name +:+ ".csv") with
            | Some lines => res_map (gen name) lines
            | None => Err OSError
            end) deriv_rules;
  alarms ← (match files "Alarm.facts" with
            | Some lines => res_map generate_alarm lines
            | None => Err OSError
            end);
  Ok (concat outs ++ alarms).

(** Lines 187-234: the analysis selects the generator. *)
Definition generate_named_cons (analysis : string) (files : string → option (list string))
    : res (list string) :=
  if bool_decide (analysis = "interval") then generate_file generate_buffer_overflow files
  else if bool_decide (analysis = "taint") then generate_file generate_integer_overflow files
  else Err AssertionError.

(** A field of a derivation row that the clause format carries: not
    empty, no white space, no colon, no comma. *)
Definition field_char (c : ascii) : bool :=
  negb (is_space c) && negb (Ascii.eqb c ":") && negb (Ascii.eqb c ",").

Definition field_ok (x : string) : Prop := x ≠ "" ∧ str_forall field_char x = true.

#[export] Instance field_ok_dec x : Decision (field_ok x).
Proof. unfold field_ok. apply _. Defined.

(** The atom [p(a0,a1,...)] of the templates. *)
Definition atom (p : string) (args : list string) : string := (p +:+ "(" +:+ String.concat "," args) +:+ ")".

(** A line the compiler reads as a Horn clause: a rule name, negated
    antecedents, a positive consequent. *)
Definition horn_line (line : string) : Prop :=
  ∃ name ants t, parse_line line = Some (name, ants ++ [t]) ∧
    Forall (λ l, is_neg l = true) ants ∧ is_neg t = false.

(** Every row of every input file has well-formed fields. *)
Definition rows_ok (files : string → option (list string)) : Prop :=
  ∀ f lines, files f = Some lines → Forall (λ line, Forall field_ok (row_nodes line)) lines.

(** One derivation row for [DUPath0] and one alarm, over nodes [1] and [2]. *)
Definition T_row : string := "1" +:+ String "009"%char "2".
Definition T_files (f : string) : option (list string) :=
  if bool_decide (f = "Deriv_DUPath0.csv") then Some [T_row]
  else if bool_decide (f = "Alarm.facts") then Some [T_row]
  else if bool_decide (f ∈ ["Deriv_DUPath1.csv"; "Deriv_DUPath2.csv"; "Deriv_DUPath3.csv";
                            "Deriv_DUPath4.csv"; "Deriv_DUPath5.csv"]) then Some []
  else None.

(** ** Lemmas *)

Lemma no_sep_field x : str_forall field_char x = true → no_sep x = true.
Proof.
  induction x as [|c x IH]; [done|]. simpl. unfold field_char.
  rewrite !andb_true_iff. intros [[[_ Hc1] Hc2] Hx]. rewrite Hc1, IH by done.
  apply negb_true_iff in Hc2. by rewrite Hc2.
Qed.

Lemma no_sep_args (args : list string) :
  args ≠ [] → Forall field_ok args → no_sep (String.concat "," args) = true.
Proof.
  induction args as [|x [|y ys] IH]; intros Hne Hok; [done|by apply Forall_cons in Hok as [[_ ?%no_sep_field] _]|].
  apply Forall_cons in Hok as [[_ Hx] Hok]. pose proof Hok as Hok'. apply Forall_cons in Hok' as [[Hy0 Hy] _].
  change (no_sep (x +:+ "," +:+ String.concat "," (y :: ys)) = true).
  apply no_sep_app; [by apply no_sep_field|]. specialize (IH ltac:(done) Hok).
  assert (Hhd : ∃ d r, String.concat "," (y :: ys) = String d r ∧ is_space d = false).
  { destruct y as [|d y]; [done|]. simpl in Hy. unfold field_char in Hy.
    apply andb_true_iff in Hy as [[[Hd%negb_true_iff _]%andb_true_iff _]%andb_true_iff _].
    exists d. destruct ys; eexists; split; [reflexivity|done|reflexivity|done]. }
  destruct Hhd as (d & r & Heq & Hd). rewrite Heq in IH |- *.
  change (negb (Ascii.eqb d " ") && no_sep (String d r) = true). rewrite IH, andb_true_r.
  destruct (Ascii.eqb_spec d " ") as [->|]; [done|]. done.
Qed.

Lemma atom_piece p args :
  field_ok p → args ≠ [] → Forall field_ok args →
  piece_ok (atom p args) ∧ piece_ok ("NOT " +:+ atom p args).
Proof.
  intros [Hp0 Hp] Hne Hok. destruct p as [|c p]; [done|].
  assert (Hc : is_space c = false).
  { simpl in Hp. unfold field_char in Hp. apply andb_true_iff in Hp as [[[?%negb_true_iff _]%andb_true_iff _]%andb_true_iff _]. done. }
  assert (Hns : no_sep (atom (String c p) args) = true).
  { unfold atom. apply no_sep_app; [|done]. apply no_sep_app; [by apply no_sep_field|].
    apply no_sep_app; [done|]. by apply no_sep_args. }
  assert (Hr : ∀ x, rstrip (x +:+ ")") = x +:+ ")") by (intros x; by rewrite rstrip_app).
  unfold piece_ok, strip. split; split_and!.
  - unfold atom. by destruct (String c p +:+ _).
  - unfold atom. rewrite lstrip_app; [|by simpl; rewrite Hc]. simpl. rewrite Hc. apply Hr.
  - done.
  - done.
  - assert (Hl : ∀ x, lstrip ("NOT " +:+ x) = "NOT " +:+ x) by reflexivity.
    unfold atom. rewrite <-string_app_assoc, lstrip_app, Hl by (rewrite Hl; done). apply Hr.
  - by apply no_sep_app.
Qed.

Lemma atom_piece_pos p args : field_ok p → args ≠ [] → Forall field_ok args → piece_ok (atom p args).
Proof. intros. by apply atom_piece. Qed.

Lemma atom_piece_neg p args :
  field_ok p → args ≠ [] → Forall field_ok args → piece_ok ("NOT " +:+ atom p args).
Proof. intros. by apply atom_piece. Qed.

Lemma lstrip_app_blank a b : lstrip a = "" → lstrip (a +:+ b) = lstrip b.
Proof. induction a as [|c a IH]; [done|]. simpl. destruct (is_space c); [done|discriminate]. Qed.

Lemma rstrip_app_blank a b : rstrip b = "" → rstrip (a +:+ b) = rstrip a.
Proof. intros Hb. induction a as [|c a IH]; [done|]. simpl. by rewrite IH. Qed.

(** The newline that ends every template is stripped by the reader. *)
Lemma parse_line_NL x : parse_line (x +:+ NL) = parse_line x.
Proof.
  unfold parse_line. f_equal. f_equal. f_equal. unfold strip.
  destruct (decide (lstrip x = "")) as [E|E].
  - rewrite lstrip_app_blank, E by done. done.
  - rewrite lstrip_app by done. by rewrite rstrip_app_blank.
Qed.

Lemma horn_of_render x name ants t :
  x = render_clause name (ants ++ [t]) +:+ NL →
  piece_ok name → Forall piece_ok (ants ++ [t]) →
  Forall (λ l, is_neg l = true) ants → is_neg t = false → horn_line x.
Proof.
  intros -> Hn Hok Hants Ht. exists name, ants, t. split_and!; [|done|done].
  rewrite parse_line_NL, parse_render; [done|done|by destruct ants|done].
Qed.

(** Normalise two concatenations of literals and fields. *)
Ltac norm_eq :=
  unfold render_clause, atom; cbn;
  repeat (rewrite ?string_app_assoc; cbn); reflexivity.

(** A generated line is [render_clause name (ants ++ [t])] with the given
    antecedents and consequent; the rest follows from the fields. *)
Ltac horn name ants t :=
  apply (horn_of_render _ name ants t);
  [ norm_eq
  | vm_decide
  | cbn [app]; repeat (apply Forall_cons_2); [..|apply Forall_nil_2];
    (apply atom_piece_neg || apply atom_piece_pos);
    solve [ done | repeat (apply Forall_cons_2); [..|apply Forall_nil_2]; assumption | vm_decide ]
  | repeat (apply Forall_cons_2); [..|apply Forall_nil_2]; apply is_neg_NOT
  | reflexivity ].

Lemma generate_buffer_overflow_horn name line cons :
  Forall field_ok (row_nodes line) → generate_buffer_overflow name line = Ok cons → horn_line cons.
Proof.
  unfold generate_buffer_overflow. cbv zeta. intros Hf.
  destruct (row_nodes line) as [|n0 [|n1 [|n2 ns]]]; repeat (apply Forall_cons in Hf as [? Hf]);
    repeat (case_bool_decide; cbn iota); cbn; intros E; try discriminate; injection E as <-.
  all: match goal with
  | _ : _ = "DUPath0" |- _ => horn "DUPath0" ["NOT " +:+ atom "DUEdge" [n0; n1]] (atom "DUPath" [n0; n1])
  | _ : _ = "DUPath1" |- _ => horn "DUPath1" ["NOT " +:+ atom "TrueBranch" [n0; n1]] (atom "DUPath" [n0; n1])
  | _ : _ = "DUPath2" |- _ => horn "DUPath2" ["NOT " +:+ atom "FalseBranch" [n0; n1]] (atom "DUPath" [n0; n1])
  | _ : _ = "DUPath3" |- _ =>
      horn "DUPath3" ["NOT " +:+ atom "DUPath" [n0; n1]; "NOT " +:+ atom "DUEdge" [n1; n2]] (atom "DUPath" [n0; n2])
  | _ : _ = "DUPath4" |- _ =>
      horn "DUPath4" ["NOT " +:+ atom "DUPath" [n0; n1]; "NOT " +:+ atom "TrueCond" [n1];
                      "NOT " +:+ atom "TrueBranch" [n1; n2]] (atom "DUPath" [n0; n2])
  | _ : _ = "DUPath5" |- _ =>
      horn "DUPath5" ["NOT " +:+ atom "DUPath" [n0; n1]; "NOT " +:+ atom "FalseCond" [n1];
                      "NOT " +:+ atom "FalseBranch" [n1; n2]] (atom "DUPath" [n0; n2])
  end.
Qed.

Lemma generate_integer_overflow_horn name line cons :
  Forall field_ok (row_nodes line) → generate_integer_overflow name line = Ok cons → horn_line cons.
Proof.
  unfold generate_integer_overflow. cbv zeta. intros Hf.
  destruct (row_nodes line) as [|n0 [|n1 [|n2 ns]]]; repeat (apply Forall_cons in Hf as [? Hf]);
    repeat (case_bool_decide; cbn iota); cbn; intros E; try discriminate; injection E as <-.
  all: match goal with
  | _ : _ = "DUPath0" |- _ => horn "DUPath0" ["NOT " +:+ atom "DUEdge" [n0; n1]] (atom "DUPath" [n0; n1])
  | _ : _ = "DUPath1" |- _ => horn "DUPath1" ["NOT " +:+ atom "TrueBranch" [n0; n1]] (atom "DUPath" [n0; n1])
  | _ : _ = "DUPath2" |- _ => horn "DUPath2" ["NOT " +:+ atom "FalseBranch" [n0; n1]] (atom "DUPath" [n0; n1])
  | _ : _ = "DUPath3" |- _ =>
      horn "DUPath3" ["NOT " +:+ atom "DUEdge" [n0; n1]; "NOT " +:+ atom "DUPath" [n1; n2]] (atom "DUPath" [n0; n2])
  | _ : _ = "DUPath4" |- _ =>
      horn "DUPath4" ["NOT " +:+ atom "TrueCond" [n0]; "NOT " +:+ atom "TrueBranch" [n0; n1];
                      "NOT " +:+ atom "DUPath" [n1; n2]] (atom "DUPath" [n0; n2])
  | _ : _ = "DUPath5" |- _ =>
      horn "DUPath5" ["NOT " +:+ atom "FalseCond" [n0]; "NOT " +:+ atom "FalseBranch" [n0; n1];
                      "NOT " +:+ atom "DUPath" [n1; n2]] (atom "DUPath" [n0; n2])
  end.
Qed.

Lemma generate_alarm_horn line cons :
  Forall field_ok (row_nodes line) → generate_alarm line = Ok cons → horn_line cons.
Proof.
  unfold generate_alarm. intros Hf.
  destruct (row_nodes line) as [|n0 [|n1 ns]]; repeat (apply Forall_cons in Hf as [? Hf]);
    cbn; intros E; try discriminate; injection E as <-.
  horn "Alarm" ["NOT " +:+ atom "DUPath" [n0; n1]] (atom "Alarm" [n0; n1]).
Qed.

(** A Horn line is accepted by the compiler's loader. *)
Lemma horn_line_load s line : horn_line line → ∃ s', load_line s line = Ok s'.
Proof.
  intros (name & ants & t & Hp & _ & Ht). unfold load_line. rewrite Hp.
  rewrite (clause2Consequent_Ok (ants ++ [t]) t); [by eexists|by rewrite last_app|done].
Qed.

Lemma load_lines_horn s lines : Forall horn_line lines → ∃ s', load_lines s lines = Ok s'.
Proof.
  revert s. induction lines as [|l ls IH]; intros s Hh; [by exists s|].
  apply Forall_cons in Hh as [Hl Hls]. destruct (horn_line_load s l Hl) as [s1 E].
  simpl. rewrite E. simpl. by apply IH.
Qed.

Lemma generate_file_horn gen files out :
  (∀ name line cons, Forall field_ok (row_nodes line) → gen name line = Ok cons → horn_line cons) →
  rows_ok files → generate_file gen files = Ok out → Forall horn_line out.
Proof.
  intros Hgen Hrows. unfold generate_file.
  destruct (res_map _ deriv_rules) as [outs|e] eqn:Eo; [|done]. rewrite Ok_bind.
  destruct (files "Alarm.facts") as [alines|] eqn:Ea; [|done].
  destruct (res_map generate_alarm alines) as [alarms|e] eqn:Eal; [|done]. rewrite Ok_bind.
  intros [= <-]. apply Forall_app. split.
  - apply Forall_concat. revert Eo. apply res_map_Forall. intros name ys _.
    destruct (files ("Deriv_" +:+ name +:+ ".csv")) as [lines|] eqn:Ef; [|done]. apply res_map_Forall.
    intros line cons Hin E. apply (Hgen name line cons); [|exact E].
    pose proof (Hrows _ _ Ef) as HF. rewrite Forall_forall in HF. by apply HF.
  - revert Eal. apply res_map_Forall. intros line cons Hin E. apply (generate_alarm_horn line); [|exact E].
    pose proof (Hrows _ _ Ea) as HF. rewrite Forall_forall in HF. by apply HF.
Qed.

(** ** Properties of the generator *)

(** C17 (refinement): the generator and the compiler agree on the clause
    format.  When every field of every row is a non-empty token without
    white space, colon or comma, each line that [generate-named-cons.py]
    writes (for the [interval] and the [taint] analyses) is read by the
    parser of [cons_all2bnet.py] as a Horn clause (rule name, negated
    antecedents, positive consequent), and the whole file is loaded
    without exception. *)
Theorem generated_file_loads analysis files out :
  rows_ok files → generate_named_cons analysis files = Ok out →
  Forall horn_line out ∧ ∃ s, load out = Ok s.
Proof.
  intros Hrows Hgen.
  assert (Hh : Forall horn_line out).
  { unfold generate_named_cons in Hgen. repeat case_bool_decide; [..|done].
    - revert Hgen. apply generate_file_horn; [apply generate_buffer_overflow_horn|done].
    - revert Hgen. apply generate_file_horn; [apply generate_integer_overflow_horn|done]. }
  split; [done|]. by apply load_lines_horn.
Qed.

Lemma generated_file_loads_witness :
  rows_ok T_files ∧
  generate_named_cons "interval" T_files =
    Ok ["DUPath0: NOT DUEdge(1,2), DUPath(1,2)" +:+ NL; "Alarm: NOT DUPath(1,2), Alarm(1,2)" +:+ NL] ∧
  Forall horn_line ["DUPath0: NOT DUEdge(1,2), DUPath(1,2)" +:+ NL; "Alarm: NOT DUPath(1,2), Alarm(1,2)" +:+ NL].
Proof.
  assert (Hr : rows_ok T_files).
  { intros f lines. unfold T_files. repeat case_bool_decide; intros [= <-]; vm_decide. }
  assert (Hg : generate_named_cons "interval" T_files =
    Ok ["DUPath0: NOT DUEdge(1,2), DUPath(1,2)" +:+ NL; "Alarm: NOT DUPath(1,2), Alarm(1,2)" +:+ NL]) by vm_eq.
  split_and!; [done|done|]. apply (generated_file_loads "interval" T_files _ Hr Hg).
Defined.
