(* ===== verification/AddFx.v ===== *)
(** * The FX hypothesis ([src/bingo/add-fx.py])

    The script reads clause lines into a set of triples (rule name,
    frozenset of antecedent tuples, consequent), adds to every clause
    [DUPath(f) => Alarm(f)] the antecedent [FX(f)], and prints every
    clause again as [ruleName: NOT a1, ..., consequent].  Python sets
    are iterated in an arbitrary order: every set the script iterates
    has its own enumeration parameter. *)

From S2P Require Import Prelude Clauses PyStr.

(** A clause of the script: rule name, antecedent tuples, consequent. *)
#[warnings="-notation-for-abbreviation"]
Notation fx_clause := (string * gset string * string)%type.

(** Lines 22-23: [clause2Antecedents], a frozenset. *)
Definition fx_antecedents (c : clause) : gset string := list_to_set (map lit2Tuple (removelast c)).

(** Lines 30-34: [splitTuple]; [t.split('(')] must have two parts. *)
Definition split_tuple (t : string) : res (string * string) :=
  match str_split "(" t with
  | [relName; fields] =>
      assert! bool_decide (String.get (String.length fields - 1) fields = Some ")"%char) ;;
      Ok (relName, String.substring 0 (String.length fields - 1) fields)
  | _ => Err ValueError
  end.

(** Line 40: the stripped non-empty parts of [line.split(':')]. *)
Definition rline (line : string) : list string := nonempty_stripped (str_split ":" line).

(** Line 41: [for ruleName, clauseStr in rlines: assert ruleName.count(' ') == 0]. *)
Definition check_rline (rl : list string) : res (string * string) :=
  match rl with
  | [ruleName; clauseStr] =>
      assert! str_forall (λ c, negb (Ascii.eqb c " ")) ruleName ;;
      Ok (ruleName, clauseStr)
  | _ => Err ValueError
  end.

(** Lines 42-43: the literals of [clauseStr.split(', ')]. *)
Definition rcl (p : string * string) : string * clause :=
  (p.1, map strip (str_split ", " p.2)).

(** Lines 44-45: one clause triple. *)
Definition to_fx_clause (rc : string * clause) : res fx_clause :=
  consequent ← clause2Consequent rc.2;
  Ok (rc.1, fx_antecedents rc.2, consequent).

Section fx.
Context (ens : Enum string) (enl : Enum (list string)) (enr : Enum (string * clause))
  (enf : Enum fx_clause).

(** Lines 54-67: one clause of [clauses] into [ans]. *)
Definition fx_step (ans : gset fx_clause) (c : fx_clause) : res (gset fx_clause) :=
  let '(ruleName, ants, consequent) := c in
  if negb (String.prefix "Alarm(" consequent) then Ok ({[c]} ∪ ans) else
  '(_, alarmFields) ← split_tuple consequent;
  assert! bool_decide (size ants = 1) ;;
  antecedent ← (match enum_of ens ants with a :: _ => Ok a | [] => Err KeyError end);
  '(antRelName, antFields) ← split_tuple antecedent;
  assert! bool_decide (antRelName = "DUPath") ;;
  assert! bool_decide (antFields = alarmFields) ;;
  let newAnts : gset string := {[antecedent; "FX(" +:+ antFields +:+ ")"]} in
  Ok ({[(ruleName, newAnts, consequent)]} ∪ ans).

(** Lines 72-75: one printed clause. *)
Definition print_fx (c : fx_clause) : string :=
  let '(ruleName, antecedents, consequent) := c in
  ruleName +:+ ": " +:+ String.concat ", " (map (λ a, "NOT " +:+ a) (enum_of ens antecedents))
    +:+ ", " +:+ consequent.

(** Lines 39-75: the whole script, from the lines of stdin to the lines
    printed. *)
Definition add_fx (input : list string) : res (list string) :=
  let lines : gset string := list_to_set (stripped_lines input) in
  let rlines : gset (list string) := set_map rline lines in
  pairs ← res_map check_rline (enum_of enl rlines);
  let rcls : gset (string * clause) := list_to_set (map rcl pairs) in
  cls ← res_map to_fx_clause (enum_of enr rcls);
  let clauses : gset fx_clause := list_to_set cls in
  ans ← res_fold fx_step ∅ (enum_of enf clauses);
  Ok (map print_fx (enum_of enf ans)).

End fx.

(** ** Lemmas *)

Definition not_char (c : ascii) (x : ascii) : bool := negb (Ascii.eqb x c).

Lemma split_go_char_free c cur a s :
  str_forall (not_char c) a = true →
  split_go [c] cur (a +:+ s) = split_go [c] (rev (String.list_ascii_of_string a) ++ cur) s.
Proof.
  revert cur. induction a as [|x a IH]; intros cur Ha; [done|].
  simpl in Ha |- *. apply andb_true_iff in Ha as [Hx Ha].
  rewrite bool_decide_false.
  - rewrite IH, <-app_assoc; done.
  - intros [k Hk]. simplify_eq/=. unfold not_char in Hx. by rewrite Ascii.eqb_refl in Hx.
Qed.

(** [(a + c + b).split(c)] is [[a, b]] when neither part contains [c]. *)
Lemma str_split_char c a b :
  str_forall (not_char c) a = true → str_forall (not_char c) b = true →
  str_split (String c "") (a +:+ String c b) = [a; b].
Proof.
  intros Ha Hb. unfold str_split. simpl.
  rewrite split_go_char_free by done. rewrite app_nil_r. simpl.
  rewrite bool_decide_true by (by exists (rev (String.list_ascii_of_string a))).
  simpl. rewrite drop_0, rev_involutive, String.string_of_list_ascii_of_string.
  rewrite <-(string_app_nil_r b) at 1. rewrite split_go_char_free by done. simpl.
  by rewrite app_nil_r, rev_involutive, String.string_of_list_ascii_of_string.
Qed.

Lemma substring_app_l (s1 s2 : string) : String.substring 0 (String.length s1) (s1 +:+ s2) = s1.
Proof. induction s1 as [|c s1 IH]; [by destruct s2|]. simpl. by rewrite IH. Qed.

Lemma length_app (s1 s2 : string) : String.length (s1 +:+ s2) = String.length s1 + String.length s2.
Proof. induction s1 as [|c s1 IH]; [done|]. simpl. by rewrite IH. Qed.

(** [splitTuple(rel + '(' + f + ')')] for [rel] and [f] without ['(']. *)
Lemma split_tuple_ok rel f :
  str_forall (not_char "(") rel = true → str_forall (not_char "(") f = true →
  split_tuple (rel +:+ "(" +:+ f +:+ ")") = Ok (rel, f).
Proof.
  intros Hr Hf. unfold split_tuple.
  change ("(" +:+ f +:+ ")") with (String "("%char (f +:+ ")")).
  rewrite (str_split_char "(" rel (f +:+ ")")); [|done|].
  2: { clear Hr. induction f as [|x f IH]; [done|]. simpl in Hf |- *.
       apply andb_true_iff in Hf as [-> ?]. by apply IH. }
  rewrite length_app. simpl. rewrite Nat.add_sub.
  rewrite <-(Nat.add_0_l (String.length f)), <-String.append_correct2.
  rewrite bool_decide_true by done. simpl. by rewrite substring_app_l.
Qed.

Lemma prefix_app (s t : string) : String.prefix s (s +:+ t) = true.
Proof.
  induction s as [|c s IH]; [by destruct t|]. simpl.
  destruct (Ascii.ascii_dec c c); [done|congruence].
Qed.

(** [parse_line] on the line of a fact clause. *)
Lemma fact_line_parse r t :
  piece_ok r → piece_ok t → parse_line (r +:+ ": , " +:+ t) = Some (r, [""; t]).
Proof.
  intros (Hr0 & Hr & Hrs) (Ht0 & Ht & Hts).
  pose proof (strip_fixed r Hr) as [Hrl Hrr]. pose proof (strip_fixed t Ht) as [Htl Htr].
  unfold parse_line.
  assert (Hs : strip (r +:+ ": , " +:+ t) = r +:+ ": , " +:+ t).
  { unfold strip. rewrite lstrip_app, Hrl by congruence.
    assert (H2 : rstrip (": , " +:+ t) = ": , " +:+ t) by (rewrite rstrip_app, Htr; congruence).
    rewrite rstrip_app, H2; [done|]. by rewrite H2. }
  rewrite Hs, split_cons_no_sep by done.
  change (": , " +:+ t) with (String ":"%char (String " "%char (String ","%char (String " "%char t)))).
  rewrite split_cons_colon, split_cons_char by done. cbn [split_cons].
  rewrite <-(string_app_nil_r t) at 1. rewrite split_cons_no_sep by done.
  cbn [split_cons cons_first map]. rewrite !string_app_nil_r, Hr, Ht. reflexivity.
Qed.

(** ** Properties of add-fx *)

(** C20 (functional): the transformation of [add-fx.py] (lines 55-67).
    A clause [DUPath(f) => Alarm(f)] (with [f] free of ['(']) becomes
    [DUPath(f), FX(f) => Alarm(f)] under the same rule name, whatever
    the iteration orders. *)
Theorem fx_step_alarm ens ans r f :
  str_forall (not_char "(") f = true →
  fx_step ens ans (r, {["DUPath(" +:+ f +:+ ")"]}, "Alarm(" +:+ f +:+ ")") =
  Ok ({[(r, {["DUPath(" +:+ f +:+ ")"; "FX(" +:+ f +:+ ")"]}, "Alarm(" +:+ f +:+ ")")]} ∪ ans).
Proof.
  intros Hf. unfold fx_step. rewrite prefix_app. cbn [negb].
  change ("Alarm(" +:+ f +:+ ")") with ("Alarm" +:+ "(" +:+ f +:+ ")").
  rewrite split_tuple_ok by done. rewrite Ok_bind. cbv beta iota.
  rewrite size_singleton, bool_decide_true by done. change (py_assert true) with (Ok ()).
  rewrite Ok_bind, enum_singleton, Ok_bind.
  change ("DUPath(" +:+ f +:+ ")") with ("DUPath" +:+ "(" +:+ f +:+ ")").
  rewrite split_tuple_ok by done. rewrite Ok_bind. cbv beta iota.
  rewrite !bool_decide_true by done. reflexivity.
Qed.

Lemma fx_step_alarm_witness :
  fx_step elements_enum ∅ ("Alarm", {["DUPath(1,2)"]}, "Alarm(1,2)") =
  Ok {[("Alarm", {["DUPath(1,2)"; "FX(1,2)"]}, "Alarm(1,2)")]}.
Proof.
  rewrite (fx_step_alarm elements_enum ∅ "Alarm" "1,2"); [|done]. by rewrite union_empty_r_L.
Defined.

(** C36: a fact clause [r: t] (no antecedent, [t] not an alarm) is
    kept by [add-fx.py] and printed (line 75, ['{}: {}, {}'] with an
    empty join) as [r: , t], which the parser of [cons_all2bnet.py] reads
    as the clause [("", t)]: a clause with the empty string as an
    antecedent tuple. *)
Theorem add_fx_fact_clause ens ans r t :
  piece_ok r → piece_ok t → String.prefix "Alarm(" t = false →
  fx_step ens ans (r, ∅, t) = Ok ({[(r, ∅, t)]} ∪ ans) ∧
  print_fx ens (r, ∅, t) = r +:+ ": , " +:+ t ∧
  parse_line (print_fx ens (r, ∅, t)) = Some (r, [""; t]).
Proof.
  intros Hr Ht Ha. split; [unfold fx_step; by rewrite Ha|].
  assert (Hp : print_fx ens (r, ∅, t) = r +:+ ": , " +:+ t) by (unfold print_fx; by rewrite enum_empty).
  split; [done|]. rewrite Hp. apply fact_line_parse; done.
Qed.

Lemma add_fx_fact_clause_witness :
  add_fx elements_enum elements_enum elements_enum elements_enum ["R1: B(1)"] = Ok ["R1: , B(1)"] ∧
  parse_line "R1: , B(1)" = Some ("R1", [""; "B(1)"]).
Proof.
  destruct (add_fx_fact_clause elements_enum ∅ "R1" "B(1)") as (_ & Hp & Hparse);
    [split_and!; [discriminate|reflexivity|reflexivity]..|reflexivity|].
  split; [vm_eq|]. rewrite Hp in Hparse. exact Hparse.
Defined.
