(* ===== verification/Merge.v ===== *)
(** * Merging the old and the new derivation graphs ([src/bingo/mb.py], [src/bingo/mb-eps.py])

    Both scripts read the clauses of the old and of the new version of
    the analysed program into sets of triples (rule name, frozenset of
    antecedent tuples, consequent), mark every tuple as its old copy
    [R_OLD(...)] or its new copy [R_NEW(...)], and split every new clause
    into the copies whose antecedents are old or new, at least one new
    (and, for a clause of both versions, the all-old copy).  [mb-eps.py]
    adds, for every EDB tuple of both versions, the facts [Repsilon: tNEW]
    and [Rneps: tOLD], prints no silencing file, and checks its output
    with assertions.  Python sets are iterated in an arbitrary order: each
    set the scripts iterate has its own enumeration parameter. *)

From S2P Require Import Prelude Clauses PyStr AddFx.

#[local] Set Warnings "-clear-no-such-hyp".

(** ** Marking (line 133) *)

(** [t.replace('(', mark + '(')]: every opening parenthesis. *)
Fixpoint replace_paren (mark t : string) : string :=
  match t with
  | EmptyString => EmptyString
  | String c rest =>
      if Ascii.eqb c "(" then mark +:+ String "(" (replace_paren mark rest)
      else String c (replace_paren mark rest)
  end.

Definition markTuple (t mark : string) : string := replace_paren mark t.

(** The tuples [R(...)] of the analyses have a parenthesis; marking does
    nothing to a string without one. *)
Definition has_paren (t : string) : bool := negb (str_forall (not_char "(") t).
Definition markTupleOld (t : string) : string := markTuple t "OLD".
Definition markTupleNew (t : string) : string := markTuple t "NEW".

(** ** Reading the clauses (lines 52-60) *)

(** [readClauses]: unlike [add-fx.py] no line is dropped, so a blank
    line gives the empty tuple [()] and the unpacking of line 55 raises
    [ValueError]. *)
Definition readClauses (enl : Enum (list string)) (enr : Enum (string * clause))
    (file : list string) : res (gset fx_clause) :=
  let lines : gset string := list_to_set (map strip file) in
  let rlines : gset (list string) := set_map rline lines in
  pairs ← res_map check_rline (enum_of enl rlines);
  let rcls : gset (string * clause) := list_to_set (map rcl pairs) in
  rcs ← res_map to_fx_clause (enum_of enr rcls);
  Ok (list_to_set rcs).

(** Lines 72-73: the stripped non-empty lines of an alarm file. *)
Definition readAlarms (file : list string) : gset string :=
  list_to_set (stripped_lines file).

(** Line 83: [allTuples(clause)]. *)
Definition clause_tuples (c : fx_clause) : gset string := c.1.2 ∪ {[c.2]}.

(** Lines 85-87 and 92-94: the tuples, consequents and EDB tuples of a
    clause set. *)
Definition tuples_of (cls : gset fx_clause) : gset string := ⋃ (map clause_tuples (elements cls)).
Definition idbs_of (cls : gset fx_clause) : gset string := set_map (λ c : fx_clause, c.2) cls.
Definition edbs_of (cls : gset fx_clause) : gset string := tuples_of cls ∖ idbs_of cls.

(** ** Splitting (lines 137-170) *)

Section split.
Context (en : Enum string) (allOldTuples : gset string).

(** Lines 137-150: [makeCombinations]; each call pops one tuple of its
    argument.  The fuel is the recursion depth, [size antecedents + 1]
    in [split_step]. *)
Fixpoint makeCombinations (fuel : nat) (antecedents : gset string) : res (gset (gset string)) :=
  match fuel with
  | O => Err OutOfFuel
  | S fuel =>
      match set_pop en antecedents with
      | None => Ok {[∅]}
      | Some firstTuple =>
          combinationsRest ← makeCombinations fuel (antecedents ∖ {[firstTuple]});
          let ans : gset (gset string) :=
            if decide (firstTuple ∈ allOldTuples) then
              set_map (λ crest : gset string, crest ∪ {[markTupleOld firstTuple]}) combinationsRest
            else ∅ in
          Ok (ans ∪ set_map (λ crest : gset string, crest ∪ {[markTupleNew firstTuple]}) combinationsRest)
      end
  end.

(** Lines 156-170: one new clause into [splitClauses] and
    [emittedConsequents]. *)
Definition split_step (oldClauses : gset fx_clause) (st : gset fx_clause * gset string)
    (c : fx_clause) : res (gset fx_clause * gset string) :=
  let '(ruleName, antecedents, consequent) := c in
  let '(splitClauses, emitted) := st in
  let antCombinationAllOld : gset string := set_map markTupleOld antecedents in
  antecedentCombinations ← makeCombinations (S (size antecedents)) antecedents;
  let antCombinationsOneNew := antecedentCombinations ∖ {[antCombinationAllOld]} in
  let consequentOld := markTupleOld consequent in
  let consequentNew := markTupleNew consequent in
  let '(splitClauses, emitted) :=
    if decide (c ∈ oldClauses) then
      ({[(ruleName, antCombinationAllOld, consequentOld)]} ∪ splitClauses, {[consequentOld]} ∪ emitted)
    else (splitClauses, emitted) in
  Ok (set_map (λ X, (ruleName, X, consequentNew)) antCombinationsOneNew ∪ splitClauses,
      if decide (antCombinationsOneNew = ∅) then emitted else {[consequentNew]} ∪ emitted).

End split.

(** ** Printing (lines 174-212) *)

(** Lines 175-179: one clause line; a clause without antecedent is
    printed as [ruleName: consequent]. *)
Definition print_split (ens : Enum string) (c : fx_clause) : string :=
  let '(ruleName, antecedents, consequent) := c in
  let antStrsJoin := String.concat ", " (map (λ a, "NOT " +:+ a) (enum_of ens antecedents)) in
  if bool_decide (antStrsJoin = "") then ruleName +:+ ": " +:+ consequent
  else ruleName +:+ ": " +:+ antStrsJoin +:+ ", " +:+ consequent.

(** The files the scripts write, as lists of lines. *)
Record MbOut := mkMbOut {
  mergedCons : list string;
  allEDBFile : list string;
  fb0EDBFile : option (list string);   (* [mb-eps.py] writes none *)
  fb0AlarmFile : list string;
  combinedAlarmsFile : list string
}.

(** The iteration orders of the sets of the scripts. *)
Record MbEnums := mkMbEnums {
  en_lines : Enum (list string);
  en_rcls : Enum (string * clause);
  en_str : Enum string;
  en_cls : Enum fx_clause
}.

Section main.
Context (E : MbEnums).

(** Lines 207-212: an alarm in its marked copies that some clause emits. *)
Definition combined_lines (emitted : gset string) (t : string) : list string :=
  (if decide (markTupleOld t ∈ emitted) then [markTupleOld t] else []) ++
  (if decide (markTupleNew t ∈ emitted) then [markTupleNew t] else []).

(** The whole of [mb.py] (lines 64-212), from the four input files. *)
Definition mb_main (oldCons oldAlarm newCons newAlarm : list string) : res MbOut :=
  oldClauses ← readClauses (en_lines E) (en_rcls E) oldCons;
  newClauses ← readClauses (en_lines E) (en_rcls E) newCons;
  let oldAlarms := readAlarms oldAlarm in
  let newAlarms := readAlarms newAlarm in
  let allOldTuples := tuples_of oldClauses in
  let allOldEDBs := edbs_of oldClauses in
  let allNewEDBs := edbs_of newClauses in
  '(splitClauses, emitted) ←
    res_fold (split_step (en_str E) allOldTuples oldClauses) (∅, ∅) (enum_of (en_cls E) newClauses);
  Ok (mkMbOut
        (map (print_split (en_str E)) (enum_of (en_cls E) splitClauses))
        (t ← enum_of (en_str E) allNewEDBs;
         markTupleNew t :: (if decide (t ∈ allOldEDBs) then [markTupleOld t] else []))
        (Some (map (λ t, if decide (t ∈ allOldEDBs) then markTupleNew t else markTupleOld t)
                 (enum_of (en_str E) allNewEDBs)))
        (map markTupleOld (enum_of (en_str E) (oldAlarms ∩ newAlarms)))
        (t ← enum_of (en_str E) (oldAlarms ∪ newAlarms); combined_lines emitted t)).

(** [mb-eps.py] lines 183-189: the facts [Repsilon: tNEW] and
    [Rneps: tOLD] of every EDB tuple of both versions. *)
Definition eps_step (st : gset fx_clause * gset string) (t : string) : gset fx_clause * gset string :=
  let '(splitClauses, emitted) := st in
  let tNew := markTupleNew t in
  let tOld := markTupleOld t in
  ({[("Rneps", ∅, tOld)]} ∪ ({[("Repsilon", ∅, tNew)]} ∪ splitClauses), {[tOld]} ∪ ({[tNew]} ∪ emitted)).

(** [mb-eps.py] lines 217-230: the sanity checks, one EDB tuple of the
    new version. *)
Definition eps_check (allOldEDBs combinedTuples : gset string) (splitClauses : gset fx_clause)
    (emitted : gset string) (t : string) : res unit :=
  if decide (t ∉ allOldEDBs) then
    assert! bool_decide (markTupleOld t ∉ combinedTuples) ;; Ok ()
  else
    assert! bool_decide (("Repsilon", ∅, markTupleNew t) ∈ splitClauses) ;;
    assert! bool_decide (markTupleNew t ∈ emitted) ;;
    assert! bool_decide (("Rneps", ∅, markTupleOld t) ∈ splitClauses) ;;
    assert! bool_decide (markTupleOld t ∈ emitted) ;;
    Ok ().

(** The whole of [mb-eps.py] (lines 72-245 there). *)
Definition mb_eps_main (oldCons oldAlarm newCons newAlarm : list string) : res MbOut :=
  oldClauses ← readClauses (en_lines E) (en_rcls E) oldCons;
  newClauses ← readClauses (en_lines E) (en_rcls E) newCons;
  let oldAlarms := readAlarms oldAlarm in
  let newAlarms := readAlarms newAlarm in
  let allOldTuples := tuples_of oldClauses in
  let allOldEDBs := edbs_of oldClauses in
  let allNewEDBs := edbs_of newClauses in
  '(splitClauses0, emitted0) ←
    res_fold (split_step (en_str E) allOldTuples oldClauses) (∅, ∅) (enum_of (en_cls E) newClauses);
  let '(splitClauses, emitted) :=
    foldl eps_step (splitClauses0, emitted0) (enum_of (en_str E) (allNewEDBs ∩ allOldEDBs)) in
  let combinedTuples : gset string :=
    ⋃ (map (λ c : fx_clause, c.1.2) (elements splitClauses)) ∪ set_map (λ c : fx_clause, c.2) splitClauses in
  _ ← res_map (eps_check allOldEDBs combinedTuples splitClauses emitted) (enum_of (en_str E) allNewEDBs);
  Ok (mkMbOut
        (map (print_split (en_str E)) (enum_of (en_cls E) splitClauses))
        (t ← enum_of (en_str E) allNewEDBs;
         if decide (t ∈ allOldEDBs) then [] else [markTupleNew t])
        None
        (map markTupleOld (enum_of (en_str E) (oldAlarms ∩ newAlarms)))
        (t ← enum_of (en_str E) (oldAlarms ∪ newAlarms); combined_lines emitted t)).

End main.

(** ** The meaning of [makeCombinations]

    A combination of the antecedents [A] marks every tuple of [A] as its
    old copy (only a tuple of the old version) or as its new copy. *)
Definition mark_by (f : string → bool) (t : string) : string :=
  if f t then markTupleOld t else markTupleNew t.

Definition comb_of (oldT A X : gset string) : Prop :=
  ∃ f : string → bool, (∀ t, t ∈ A → f t = true → t ∈ oldT) ∧ X = set_map (mark_by f) A.

(** The clauses [split_step] makes of a new clause [c]: its copies
    with a combination that is not all old and the new consequent, and,
    for a clause of both versions, its all-old copy. *)
Definition split_of (oldT : gset string) (oldClauses : gset fx_clause) (c d : fx_clause) : Prop :=
  let '(r, A, t) := c in
  (d.1.1 = r ∧ comb_of oldT A d.1.2 ∧ d.1.2 ≠ set_map markTupleOld A ∧ d.2 = markTupleNew t) ∨
  (c ∈ oldClauses ∧ d = (r, set_map markTupleOld A, markTupleOld t)).

(** A marked tuple: the old copy of an old tuple, or a new copy. *)
Definition marked (oldT : gset string) (x : string) : Prop :=
  (∃ u, u ∈ oldT ∧ x = markTupleOld u) ∨ (∃ u, x = markTupleNew u).

(** Example inputs: a clause of both versions, and a new clause whose
    antecedent [B(1)] is derived in the old version only. *)
Definition T_enums : MbEnums := mkMbEnums elements_enum elements_enum elements_enum elements_enum.
Definition T_old : list string := ["R1: NOT A(1), B(1)"].
Definition T_new : list string := ["R1: NOT A(1), B(1)"; "R2: NOT A(1), NOT C(1), D(1)"].
Definition T_new_idb : list string := ["R2: NOT B(1), NOT C(1), D(1)"].

(** ** Marking *)

Lemma replace_paren_cons m h m' t c r :
  m = String h m' → replace_paren m t = String c r → c ≠ h →
  c ≠ "("%char ∧ ∃ t', t = String c t' ∧ replace_paren m t' = r.
Proof.
  intros -> Ht Hc. destruct t as [|a t]; [done|]. simpl in Ht.
  destruct (Ascii.eqb_spec a "("); [cbn in Ht; injection Ht as -> _; done|]. injection Ht as -> <-. eauto.
Qed.

(** Peel the characters of a marked string off one by one. *)
Ltac mark_peel :=
  repeat match goal with
  | H : String _ _ = replace_paren _ _ |- _ => symmetry in H
  | H : replace_paren ?m ?u = String ?c ?r |- _ =>
      let Hc := fresh in let u' := fresh "u" in let E := fresh "E" in
      destruct (replace_paren_cons m _ _ u c r eq_refl H) as (Hc & u' & -> & E);
        [discriminate|]
  | H : replace_paren ?m ?u = String "("%char ?r |- _ =>
      destruct (replace_paren_cons m _ _ u "(" r eq_refl H) as [[] _]; discriminate
  end.

Lemma mark_eq m1 m2 t u :
  m1 = "OLD" ∨ m1 = "NEW" → m2 = "OLD" ∨ m2 = "NEW" → replace_paren m1 t = replace_paren m2 u →
  t = u ∧ (m1 = m2 ∨ str_forall (not_char "(") t = true).
Proof.
  intros H1 H2. revert u. induction t as [|a t IH]; intros [|b u] Heq; simpl in Heq.
  - auto.
  - destruct (Ascii.eqb b "("); [destruct H2 as [->| ->]|]; done.
  - destruct (Ascii.eqb a "("); [destruct H1 as [->| ->]|]; done.
  - destruct (Ascii.eqb_spec a "(") as [->|Ha], (Ascii.eqb_spec b "(") as [->|Hb].
    + destruct H1 as [->| ->], H2 as [->| ->]; unfold String.append in Heq; cbn in Heq; simplify_eq;
        destruct (IH _ Heq) as [-> ?]; auto.
    + destruct H1 as [->| ->], H2 as [->| ->]; unfold String.append in Heq; cbn in Heq; simplify_eq; mark_peel; done.
    + destruct H1 as [->| ->], H2 as [->| ->]; unfold String.append in Heq; cbn in Heq; simplify_eq; mark_peel; done.
    + injection Heq as -> Heq. destruct (IH _ Heq) as [-> [?|Hf]]; split; auto.
      right. simpl. unfold not_char at 1. destruct (Ascii.eqb_spec b "("); done.
Qed.

Lemma markTupleOld_inj t u : markTupleOld t = markTupleOld u → t = u.
Proof. intros H. apply (mark_eq "OLD" "OLD"); [auto|auto|done]. Qed.

Lemma markTupleNew_inj t u : markTupleNew t = markTupleNew u → t = u.
Proof. intros H. apply (mark_eq "NEW" "NEW"); [auto|auto|done]. Qed.

Lemma markTuple_old_new t u : has_paren t = true → markTupleOld t ≠ markTupleNew u.
Proof.
  intros Hp H. destruct (mark_eq "OLD" "NEW" t u) as [_ [?|Hf]]; [auto|auto|done|done|].
  unfold has_paren in Hp. rewrite Hf in Hp. done.
Qed.

(** ** Combinations *)

Lemma set_map_ext_in (f g : string → string) (X : gset string) :
  (∀ x, x ∈ X → f x = g x) → set_map (C:=gset string) f X = set_map (D:=gset string) g X.
Proof. intros Hfg. apply set_eq. intros y. rewrite !elem_of_map. naive_solver. Qed.

Lemma comb_of_empty oldT X : comb_of oldT ∅ X ↔ X = ∅.
Proof.
  split; [intros (f & _ & ->); set_solver|intros ->].
  exists (λ _, false). split; [set_solver|]. by rewrite set_map_empty.
Qed.

Lemma comb_of_insert oldT A t X :
  t ∉ A →
  comb_of oldT ({[t]} ∪ A) X ↔
  ∃ Y (b : bool), comb_of oldT A Y ∧ (b = true → t ∈ oldT) ∧
    X = Y ∪ {[if b then markTupleOld t else markTupleNew t]}.
Proof.
  intros Ht. split.
  - intros (f & Hf & ->). exists (set_map (mark_by f) A), (f t). split_and!.
    + exists f. split; [set_solver|done].
    + intros. apply Hf; set_solver.
    + rewrite set_map_union_L, set_map_singleton_L. unfold mark_by. set_solver.
  - intros (Y & b & (f & Hf & ->) & Hb & ->).
    exists (λ u, if decide (u = t) then b else f u). split.
    + intros u Hu. case_decide; [subst; auto|]. intros. apply Hf; set_solver.
    + rewrite set_map_union_L, set_map_singleton_L,
        (set_map_ext_in (mark_by (λ u, if decide (u = t) then b else f u)) (mark_by f)).
      * unfold mark_by. cbv beta. rewrite decide_True by done. set_solver.
      * intros u Hu. unfold mark_by. cbv beta. rewrite decide_False by set_solver. done.
Qed.

(** [makeCombinations] computes, with enough fuel and in every iteration
    order, exactly the combinations of its argument. *)
Lemma makeCombinations_ok en oldT fuel A :
  size A < fuel →
  ∃ C, makeCombinations en oldT fuel A = Ok C ∧ ∀ X, X ∈ C ↔ comb_of oldT A X.
Proof.
  revert A. induction fuel as [|fuel IH]; intros A Hs; [lia|]. cbn [makeCombinations].
  destruct (set_pop en A) as [t|] eqn:Hp.
  - apply set_pop_Some in Hp.
    assert (size (A ∖ {[t]}) < fuel).
    { rewrite size_difference, size_singleton by set_solver.
      assert (size A ≠ 0) by (rewrite size_non_empty_iff; set_solver). lia. }
    destruct (IH (A ∖ {[t]})) as (C & -> & HC); [done|]. rewrite Ok_bind.
    eexists; split; [done|]. intros X.
    rewrite (union_difference_singleton_L t A Hp), comb_of_insert by set_solver.
    case_decide as Ho; rewrite elem_of_union, !elem_of_map; setoid_rewrite <-HC; split.
    + intros [(Y & -> & HY)|(Y & -> & HY)]; [exists Y, true|exists Y, false]; naive_solver.
    + intros (Y & [] & HY & Hb & ->); [left|right]; eauto.
    + intros [HX|(Y & -> & HY)]; [set_solver|]. exists Y, false. naive_solver.
    + intros (Y & [] & HY & Hb & ->); [by specialize (Hb eq_refl)|]. right. eauto.
  - apply set_pop_None in Hp as ->. eexists; split; [done|]. intros X.
    by rewrite comb_of_empty, elem_of_singleton.
Qed.

(** ** Splitting *)

Lemma split_step_ok en oldT oldClauses Sp Em c :
  ∃ S' Em', split_step en oldT oldClauses (Sp, Em) c = Ok (S', Em') ∧
    (∀ d, d ∈ S' ↔ d ∈ Sp ∨ split_of oldT oldClauses c d) ∧
    (∀ x, x ∈ Em' ↔ x ∈ Em ∨ ∃ d, split_of oldT oldClauses c d ∧ d.2 = x).
Proof.
  destruct c as [[r A] t]. unfold split_step.
  destruct (makeCombinations_ok en oldT (S (size A)) A) as (C & -> & HC); [lia|]. rewrite Ok_bind.
  assert (∀ X, X ∈ C ∖ {[set_map markTupleOld A]} ↔
            comb_of oldT A X ∧ X ≠ set_map markTupleOld A) as HD.
  { intros X. by rewrite elem_of_difference, HC, elem_of_singleton. }
  cbn [split_of]. destruct (decide ((r, A, t) ∈ oldClauses)) as [Ho|Ho];
    (eexists _, _; split; [done|]); split.
  - intros [[r' X] t']. rewrite !elem_of_union, elem_of_map. setoid_rewrite HD. set_solver.
  - intros x. case_decide as He; rewrite ?elem_of_union, ?elem_of_singleton.
    + split; [intros [->|?]; [right; eexists (_, _, _); split; [right|]; done|auto]|].
      intros [?|([[r' X] t'] & [(? & HX & HX' & Ht)|(_ & ->)] & <-)]; [auto| |auto].
      exfalso. assert (X ∈ C ∖ {[set_map markTupleOld A]}) as HXC by (apply HD; auto).
      rewrite He in HXC. set_solver.
    + apply set_choose_L in He as [X HX%HD].
      split; [intros [->|[->|?]]; [|right; eexists (_, _, _); split; [right|]; done|auto]|].
      { right. exists (r, X, markTupleNew t). naive_solver. }
      intros [?|([[r' X'] t'] & [(? & HX' & ? & ->)|(_ & ->)] & <-)]; auto.
  - intros [[r' X] t']. rewrite !elem_of_union, elem_of_map. setoid_rewrite HD. set_solver.
  - intros x. case_decide as He; rewrite ?elem_of_union, ?elem_of_singleton.
    + split; [auto|]. intros [?|([[r' X] t'] & [(? & HX & HX' & Ht)|(? & _)] & <-)]; [auto| |done].
      exfalso. assert (X ∈ C ∖ {[set_map markTupleOld A]}) as HXC by (apply HD; auto).
      rewrite He in HXC. set_solver.
    + apply set_choose_L in He as [X HX%HD].
      split; [intros [->|?]; [|auto]|].
      { right. exists (r, X, markTupleNew t). naive_solver. }
      intros [?|([[r' X'] t'] & [(? & HX' & ? & ->)|(? & _)] & <-)]; [auto|auto|done].
Qed.

Lemma split_fold_ok en oldT oldClauses l Sp Em :
  ∃ S' Em', res_fold (split_step en oldT oldClauses) (Sp, Em) l = Ok (S', Em') ∧
    (∀ d, d ∈ S' ↔ d ∈ Sp ∨ ∃ c, c ∈ l ∧ split_of oldT oldClauses c d) ∧
    (∀ x, x ∈ Em' ↔ x ∈ Em ∨ ∃ c d, c ∈ l ∧ split_of oldT oldClauses c d ∧ d.2 = x).
Proof.
  revert Sp Em. induction l as [|c l IH]; intros Sp Em; cbn [res_fold].
  - eexists _, _. split; [done|]. set_solver.
  - destruct (split_step_ok en oldT oldClauses Sp Em c) as (S1 & Em1 & -> & H1 & H2). rewrite Ok_bind.
    destruct (IH S1 Em1) as (S2 & Em2 & -> & H3 & H4). eexists _, _. split; [done|].
    split; [intros d; rewrite H3, H1|intros x; rewrite H4, H2]; set_solver.
Qed.

(** C21: after reading both clause files, [mb.py] always finishes (the
    recursion of [makeCombinations] is deep enough, in every iteration
    order) and the merged constraint file prints exactly the split
    clauses of the new clauses: for each, its copies with antecedents
    marked old (old tuples only) or new, not all old, deriving the new
    consequent, and, for a clause of both versions, its all-old copy
    deriving the old consequent.  The combined alarm list gives each
    alarm's marked copies that are consequents of the printed clauses. *)
Theorem mb_main_split E oldCons oldAlarm newCons newAlarm oldC newC :
  readClauses (en_lines E) (en_rcls E) oldCons = Ok oldC →
  readClauses (en_lines E) (en_rcls E) newCons = Ok newC →
  ∃ Sp out, mb_main E oldCons oldAlarm newCons newAlarm = Ok out ∧
    mergedCons out = map (print_split (en_str E)) (enum_of (en_cls E) Sp) ∧
    (∀ d, d ∈ Sp ↔ ∃ c, c ∈ newC ∧ split_of (tuples_of oldC) oldC c d) ∧
    combinedAlarmsFile out =
      (t ← enum_of (en_str E) (readAlarms oldAlarm ∪ readAlarms newAlarm);
       combined_lines (set_map (λ d : fx_clause, d.2) Sp) t).
Proof.
  intros Ho Hn. unfold mb_main. rewrite Ho, Ok_bind, Hn, Ok_bind.
  destruct (split_fold_ok (en_str E) (tuples_of oldC) oldC (enum_of (en_cls E) newC) ∅ ∅)
    as (Sp & Em & -> & H1 & H2).
  rewrite Ok_bind. exists Sp. eexists. split; [done|]. cbn [mergedCons combinedAlarmsFile].
  assert (Em = set_map (λ d : fx_clause, d.2) Sp) as ->.
  { apply set_eq. intros x. rewrite H2, elem_of_map. setoid_rewrite H1.
    setoid_rewrite elem_of_enum. set_solver. }
  split_and!; [done| |done]. intros d. rewrite H1. setoid_rewrite elem_of_enum. set_solver.
Qed.

(** ** The checks of [mb-eps.py] *)

Lemma elem_of_union_map {A} `{Countable A} (f : A → gset string) (Sp : gset A) x :
  x ∈ ⋃ (map f (elements Sp)) ↔ ∃ d, d ∈ Sp ∧ x ∈ f d.
Proof.
  rewrite elem_of_union_list. setoid_rewrite list_elem_of_In. setoid_rewrite in_map_iff.
  setoid_rewrite <-list_elem_of_In. setoid_rewrite elem_of_elements. naive_solver.
Qed.

Lemma clause_tuples_sub cls c : c ∈ cls → clause_tuples c ⊆ tuples_of cls.
Proof. intros Hc x Hx. apply elem_of_union_map. eauto. Qed.

Lemma split_of_marked oldC c d :
  split_of (tuples_of oldC) oldC c d →
  (∀ x, x ∈ d.1.2 → marked (tuples_of oldC) x) ∧ marked (tuples_of oldC) d.2.
Proof.
  destruct c as [[r A] t]. cbn. unfold marked.
  intros [(_ & (f & Hf & ->) & _ & ->)|(Hc & ->)]; cbn; split; eauto.
  - intros x (u & -> & Hu)%elem_of_map. unfold mark_by. destruct (f u) eqn:E; eauto.
  - pose proof (clause_tuples_sub _ _ Hc) as Hs. unfold clause_tuples in Hs. cbn in Hs.
    intros x (u & -> & Hu)%elem_of_map. left. exists u. set_solver.
  - pose proof (clause_tuples_sub _ _ Hc) as Hs. unfold clause_tuples in Hs. cbn in Hs.
    left. exists t. set_solver.
Qed.

Lemma eps_fold l S0 Em0 :
  let p := foldl eps_step (S0, Em0) l in
  (∀ d, d ∈ p.1 ↔ d ∈ S0 ∨ ∃ u, u ∈ l ∧
          (d = ("Repsilon", ∅, markTupleNew u) ∨ d = ("Rneps", ∅, markTupleOld u))) ∧
  (∀ x, x ∈ p.2 ↔ x ∈ Em0 ∨ ∃ u, u ∈ l ∧ (x = markTupleNew u ∨ x = markTupleOld u)).
Proof.
  revert S0 Em0. induction l as [|u l IH]; intros S0 Em0; cbn [foldl]; [set_solver|].
  destruct (IH ({[("Rneps", ∅, markTupleOld u)]} ∪ ({[("Repsilon", ∅, markTupleNew u)]} ∪ S0))
              ({[markTupleOld u]} ∪ ({[markTupleNew u]} ∪ Em0))) as [H1 H2].
  split; [intros d; rewrite H1|intros x; rewrite H2]; set_solver.
Qed.

(** A marked old copy of a tuple outside the old version is neither. *)
Lemma marked_old_fresh oldT t x :
  has_paren t = true → t ∉ oldT → marked oldT x → x ≠ markTupleOld t.
Proof.
  intros Hp Ht [(u & Hu & ->)|(u & ->)] E.
  - apply markTupleOld_inj in E. set_solver.
  - symmetry in E. by apply (markTuple_old_new t u).
Qed.

(** C22: the sanity checks of [mb-eps.py] (lines 217-230) pass whenever
    every EDB tuple of the new version is a tuple [R(...)] and is an EDB
    tuple of the old version when it occurs there at all: the script
    then finishes, in every iteration order. *)
Theorem mb_eps_checks_pass E oldCons oldAlarm newCons newAlarm oldC newC :
  readClauses (en_lines E) (en_rcls E) oldCons = Ok oldC →
  readClauses (en_lines E) (en_rcls E) newCons = Ok newC →
  (∀ t, t ∈ edbs_of newC → has_paren t = true ∧ (t ∈ tuples_of oldC → t ∈ edbs_of oldC)) →
  ∃ out, mb_eps_main E oldCons oldAlarm newCons newAlarm = Ok out.
Proof.
  intros Ho Hn Hedb. unfold mb_eps_main. rewrite Ho, Ok_bind, Hn, Ok_bind.
  destruct (split_fold_ok (en_str E) (tuples_of oldC) oldC (enum_of (en_cls E) newC) ∅ ∅)
    as (S0 & Em0 & -> & H1 & _). rewrite Ok_bind.
  pose proof (eps_fold (enum_of (en_str E) (edbs_of newC ∩ edbs_of oldC)) S0 Em0) as [F1 F2].
  destruct (foldl eps_step _ _) as [Sp Em]. cbn in F1, F2.
  destruct (res_map_Ok (eps_check (edbs_of oldC)
      (⋃ (map (λ c : fx_clause, c.1.2) (elements Sp)) ∪ set_map (λ c : fx_clause, c.2) Sp) Sp Em)
      (λ _ _, True) (enum_of (en_str E) (edbs_of newC))) as (ys & -> & _); [|rewrite Ok_bind; eauto].
  intros t Ht%elem_of_enum. exists (). split; [|done].
  destruct (Hedb t Ht) as [Hp Hold]. unfold eps_check. case_decide as Hnot.
  - assert (t ∉ tuples_of oldC) as Ht' by naive_solver.
    rewrite bool_decide_true; [done|]. rewrite elem_of_union, elem_of_union_map, elem_of_map.
    intros [(d & Hd & Hx)|(d & Hx & Hd)]; apply F1 in Hd as [Hd|(u & Hu%elem_of_enum & [-> | ->])];
      try (apply H1 in Hd as [[]%elem_of_empty|(c & _ & Hs%split_of_marked)]).
    + by apply (marked_old_fresh _ t _ Hp Ht' (proj1 Hs _ Hx)).
    + set_solver.
    + set_solver.
    + by apply (marked_old_fresh _ t _ Hp Ht' (proj2 Hs)).
    + by apply (markTuple_old_new t u).
    + apply markTupleOld_inj in Hx as <-. set_solver.
  - assert (t ∈ enum_of (en_str E) (edbs_of newC ∩ edbs_of oldC)) by (apply elem_of_enum; set_solver).
    rewrite !bool_decide_true; [done| |naive_solver..]. naive_solver.
Qed.

Lemma eps_check_cases oldEDBs comb Sp Em t :
  (∃ y, eps_check oldEDBs comb Sp Em t = Ok y) ∨ eps_check oldEDBs comb Sp Em t = Err AssertionError.
Proof. unfold eps_check, py_assert. repeat case_match; eauto. Qed.

(** C23: the sanity check of line 223 of [mb-eps.py] aborts the script
    when a tuple derived in the old version (an old IDB tuple) is an EDB
    tuple of the new version and an antecedent of a new clause that is
    also an old clause or has another antecedent: the split then has a
    clause with the antecedent [tOLD], which the check forbids.  This
    happens in every iteration order. *)
Theorem mb_eps_old_idb_fails E oldCons oldAlarm newCons newAlarm oldC newC r A c0 t :
  readClauses (en_lines E) (en_rcls E) oldCons = Ok oldC →
  readClauses (en_lines E) (en_rcls E) newCons = Ok newC →
  (r, A, c0) ∈ newC → t ∈ A → t ∈ edbs_of newC → t ∈ tuples_of oldC → t ∉ edbs_of oldC →
  (∀ v, v ∈ A → has_paren v = true) → ((r, A, c0) ∈ oldC ∨ ∃ u, u ∈ A ∧ u ≠ t) →
  mb_eps_main E oldCons oldAlarm newCons newAlarm = Err AssertionError.
Proof.
  intros Ho Hn Hc HtA HtN HtO HtnO Hpar Hor. unfold mb_eps_main. rewrite Ho, Ok_bind, Hn, Ok_bind.
  destruct (split_fold_ok (en_str E) (tuples_of oldC) oldC (enum_of (en_cls E) newC) ∅ ∅)
    as (S0 & Em0 & -> & H1 & _). rewrite Ok_bind.
  pose proof (eps_fold (enum_of (en_str E) (edbs_of newC ∩ edbs_of oldC)) S0 Em0) as [F1 _].
  destruct (foldl eps_step _ _) as [Sp Em]. cbn in F1.
  rewrite (res_map_Err _ _ AssertionError); [done|intros; apply eps_check_cases|].
  exists t. rewrite elem_of_enum. split; [done|]. unfold eps_check.
  rewrite decide_True by done. rewrite bool_decide_false; [done|]. intros Hnot. apply Hnot.
  apply elem_of_union_l, elem_of_union_map.
  assert (Hc' : (r, A, c0) ∈ enum_of (en_cls E) newC) by by apply elem_of_enum.
  destruct Hor as [Hco|(u & Hu & Hut)].
  - exists (r, set_map markTupleOld A, markTupleOld c0). split; [|cbn; set_solver].
    apply F1. left. apply H1. right. exists (r, A, c0). split; [done|]. cbn. by right.
  - set (f := λ v, bool_decide (v = t)).
    exists (r, set_map (mark_by f) A, markTupleNew c0). split.
    + apply F1. left. apply H1. right. exists (r, A, c0). split; [done|]. cbn. left. split_and!; [done| | |done].
      * exists f. split; [|done]. intros v _ Hv. unfold f in Hv. case_bool_decide; [by subst|done].
      * intros Heq. assert (markTupleNew u ∈ (set_map markTupleOld A : gset string)) as Hm.
        { rewrite <-Heq. apply elem_of_map. exists u. unfold mark_by, f. by rewrite bool_decide_false. }
        apply elem_of_map in Hm as (v & Hv & HvA). by apply (markTuple_old_new v u (Hpar v HvA)).
    + apply elem_of_map. exists t. unfold mark_by, f. by rewrite bool_decide_true.
Qed.

Lemma mb_main_split_witness :
  ∃ out, mb_main T_enums T_old [] T_new [] = Ok out ∧ length (mergedCons out) = 4.
Proof.
  ok_destruct (readClauses elements_enum elements_enum T_old) oldC E1.
  ok_destruct (readClauses elements_enum elements_enum T_new) newC E2.
  destruct (mb_main_split T_enums T_old [] T_new [] oldC newC E1 E2) as (Sp & out & Hm & _).
  exists out. split; [done|].
  assert (match mb_main T_enums T_old [] T_new [] with Ok o => length (mergedCons o) | Err _ => 0 end = 4)
    as H5 by (vm_compute; reflexivity).
  by rewrite Hm in H5.
Defined.

Lemma mb_eps_checks_pass_witness : ∃ out, mb_eps_main T_enums T_old [] T_new [] = Ok out.
Proof.
  ok_destruct (readClauses elements_enum elements_enum T_old) oldC E1.
  ok_destruct (readClauses elements_enum elements_enum T_new) newC E2.
  apply (mb_eps_checks_pass T_enums T_old [] T_new [] oldC newC E1 E2).
  assert (match readClauses elements_enum elements_enum T_old, readClauses elements_enum elements_enum T_new with
          | Ok o, Ok n =>
              bool_decide (set_Forall (λ t, has_paren t = true ∧ (t ∈ tuples_of o → t ∈ edbs_of o)) (edbs_of n))
          | _, _ => false end = true) as H by (vm_compute; reflexivity).
  rewrite E1, E2 in H. by apply bool_decide_eq_true in H.
Defined.

Lemma mb_eps_old_idb_fails_witness :
  mb_eps_main T_enums T_old [] T_new_idb [] = Err AssertionError.
Proof.
  ok_destruct (readClauses elements_enum elements_enum T_old) oldC E1.
  ok_destruct (readClauses elements_enum elements_enum T_new_idb) newC E2.
  assert (match readClauses elements_enum elements_enum T_old, readClauses elements_enum elements_enum T_new_idb with
          | Ok o, Ok n =>
              bool_decide (("R2", {["B(1)"; "C(1)"]}, "D(1)") ∈ n ∧ "B(1)" ∈ edbs_of n ∧
                "B(1)" ∈ tuples_of o ∧ "B(1)" ∉ edbs_of o)
          | _, _ => false end = true) as H by (vm_compute; reflexivity).
  rewrite E1, E2 in H. apply bool_decide_eq_true in H as (H1 & H2 & H3 & H4).
  apply (mb_eps_old_idb_fails T_enums T_old [] T_new_idb [] oldC newC "R2" {["B(1)"; "C(1)"]} "D(1)" "B(1)");
    [done|done|done|set_solver|done|done|done| |].
  - intros v Hv. apply elem_of_union in Hv as [->%elem_of_singleton| ->%elem_of_singleton]; reflexivity.
  - right. exists "C(1)". split; [set_solver|done].
Defined.
