(* ===== verification/Graph.v ===== *)
(** * The derivation graph of a constraint file ([src/bingo/graph.py], [src/bingo/util.py])

    [build_graph] reads a constraint file into a graph_tool graph with a
    vertex per tuple and per clause: a clause vertex has an edge from
    each of its antecedent tuples and an edge to its consequent.  A
    vertex is found by its name in [name2idx] or created with the next
    index ([get_vertex]); tuples and clauses share the name space.  The
    graph_tool [Graph] is modelled by its list of vertex properties
    (index = position) and its edge list.

    [graph.py] imports only [re] and [util]: the name [Graph] it calls
    on line 21 is bound only in the scripts that import graph_tool, not in
    the module [graph].  [build_graph] takes that binding as the flag
    [graph_bound]; the code as written runs with [graph_py_binds_Graph],
    which is [false], and raises [NameError]. *)

From S2P Require Import Prelude Clauses PyStr.

(** ** Vertices and graphs *)

(** The ['type'] field of a vertex. *)
Inductive vtype := VTuple | VClause.

#[export] Instance vtype_eq_dec : EqDecision vtype.
Proof. solve_decision. Defined.

(** The ['info'] property of a vertex (lines 12-13). *)
Record vinfo := mkV {
  label : string;
  vtyp : vtype;
  rulename : option string;
  valarm : bool
}.

(** A graph_tool graph: vertex [i] has property [vprops !! i]. *)
Record Graph := mkGraph {
  vprops : list vinfo;
  gedges : list (nat * nat)
}.

(** The locals of [build_graph]: the graph, [name2idx] and [edges]. *)
Record GState := mkGState {
  gs_graph : Graph;
  name2idx : gmap string nat;
  gs_edges : gset (nat * nat)
}.

Definition empty_gstate : GState := mkGState (mkGraph [] []) ∅ ∅.

(** Whether the module [graph] binds the name [Graph]: it does not. *)
Definition graph_py_binds_Graph : bool := false.

(** ** Building (graph.py lines 6-49) *)

(** Lines 6-16: [get_vertex]. *)
Definition get_vertex (st : GState) (typ : vtype) (name : string) (rn : option string) (alarm : bool)
    : GState * nat :=
  match name2idx st !! name with
  | Some idx => (st, idx)
  | None =>
      let idx := length (vprops (gs_graph st)) in
      (mkGState (mkGraph (vprops (gs_graph st) ++ [mkV name typ rn alarm]) (gedges (gs_graph st)))
         (<[name := idx]> (name2idx st)) (gs_edges st), idx)
  end.

(** Lines 36-37: the antecedent vertices, left to right. *)
Fixpoint get_vertices (st : GState) (alarms : gset string) (names : list string) : GState * list nat :=
  match names with
  | [] => (st, [])
  | v :: rest =>
      let '(st, i) := get_vertex st VTuple v None (bool_decide (v ∈ alarms)) in
      let '(st, ids) := get_vertices st alarms rest in
      (st, i :: ids)
  end.

(** [util.is_clause] (util.py lines 14-15). *)
Definition is_clause (line : string) : bool := String.prefix "NOT " line.

(** Lines 43-46: the edges into the clause vertex and out of it; the
    graph has no edge yet, so [g.edge(p, rule) is None] always holds. *)
Definition add_clause_edges (gr : Graph) (edges : gset (nat * nat)) (antecedent_ids : list nat)
    (rule consequent_id : nat) : gset (nat * nat) :=
  let edges := foldl (λ es p, if bool_decide ((p, rule) ∈ gedges gr) then es else {[(p, rule)]} ∪ es)
                 edges antecedent_ids in
  if decide ((rule, consequent_id) ∈ edges) then edges else {[(rule, consequent_id)]} ∪ edges.

(** Lines 26-46: one line of the constraint file. *)
Definition graph_line (compressed : bool) (alarms : gset string) (st : GState) (line : string)
    : res GState :=
  let line := strip line in
  part ← py_index (str_split ": " line) 1;
  if negb (is_clause part) then
    if compressed then Ok (get_vertex st VTuple part None (bool_decide (part ∈ alarms))).1
    else Ok st
  else
    match map strip (split_cons line) with
    | [] => Err IndexError
    | rn :: clause =>
        let '(st, antecedent_ids) := get_vertices st alarms (clause2Antecedents clause) in
        consequent ← clause2Consequent clause;
        let '(st, consequent_id) := get_vertex st VTuple consequent None (bool_decide (consequent ∈ alarms)) in
        rstr ← py_index (str_split ": " line) 1;
        let '(st, rule) := get_vertex st VClause rstr (Some rn) false in
        Ok (mkGState (gs_graph st) (name2idx st)
              (add_clause_edges (gs_graph st) (gs_edges st) antecedent_ids rule consequent_id))
    end.

(** Lines 20-49: [build_graph]; [list(edges)] in the order [enE]. *)
Definition build_graph (graph_bound compressed : bool) (enE : Enum (nat * nat))
    (lines : list string) (alarms : gset string) : res (Graph * gmap string nat) :=
  if negb graph_bound then Err NameError else
  st ← res_fold (graph_line compressed alarms) empty_gstate lines;
  Ok (mkGraph (vprops (gs_graph st)) (gedges (gs_graph st) ++ enum_of enE (gs_edges st)), name2idx st).

(** [util.read_alarm] (util.py lines 17-21): every stripped line. *)
Definition read_alarm (lines : list string) : gset string := list_to_set (map strip lines).
