(* ===== verification/Hnd.v ===== *)
(** * Tuples with new derivations ([src/bingo/hnd.py])

    The script builds the derivation graphs of the old and of the new
    constraint files ([Graph.build_graph]), takes the EDB tuples of the
    new graph that are not EDB tuples of the old one, counts their fields,
    and closes them forward: a clause fed by a tuple with a new derivation
    gives its consequent a new derivation.  It prints the new alarms that
    get none.  The successor maps of lines 70-96 are computed from the
    graph's edges; the closure is the [while waitingClauses] loop of lines
    101-111, with fuel.  Python sets are iterated in arbitrary orders: one
    enumeration parameter per iterated set.  As shipped the script never
    gets past line 26: [graph.build_graph] raises [NameError]
    ([hnd_main_name_error]).  The theorems on [closure] are about the loop
    of lines 101-111 on any successor maps. *)

From S2P Require Import Prelude Clauses PyStr Graph.

(** ** Reading the graph (lines 33-49) *)

(** [graph.vertex_properties['info'][v]]; an index outside the graph
    has no property ([IndexError] stands for the failure). *)
Definition vinfo_of (G : Graph) (v : nat) : res vinfo := py_index (vprops G) v.

(** Lines 33-35: the labels of the tuple vertices. *)
Definition hnd_allTuples (G : Graph) : gset string :=
  list_to_set (map label (filter (λ v, vtyp v = VTuple) (vprops G))).

(** Lines 47-49: the labels of the tuple vertices with an edge into them. *)
Definition hnd_allConsequents (G : Graph) : res (gset string) :=
  vs ← res_map (λ e : nat * nat, vinfo_of G e.2) (gedges G);
  Ok (list_to_set (map label (filter (λ v, vtyp v = VTuple) vs))).

(** ** Field statistics (lines 58-67) *)

(** [t.split('(')[1].split(')')[0].split(',')] *)
Definition edb_fields (t : string) : res (list string) :=
  a ← py_index (str_split "(" t) 1;
  b ← py_index (str_split ")" a) 0;
  Ok (str_split "," b).

(** Lines 62-65: one field into the dict [stat], in insertion order. *)
Fixpoint stat_add (e : string) (stat : list (string * nat)) : list (string * nat) :=
  match stat with
  | [] => [(e, 1)]
  | (k, n) :: rest => if bool_decide (k = e) then (k, S n) :: rest else (k, n) :: stat_add e rest
  end.

(** Lines 59-65: one EDB tuple. *)
Definition stat_step (stat : list (string * nat)) (t : string) : res (list (string * nat)) :=
  fields ← edb_fields t;
  Ok (foldl (λ st e, stat_add e st) stat fields).

(** Line 66: [sorted(..., key=count, reverse=True)], a stable sort:
    an item goes after every item with a count at least its own. *)
Fixpoint insert_desc (x : string * nat) (l : list (string * nat)) : list (string * nat) :=
  match l with
  | [] => [x]
  | y :: rest => if x.2 <=? y.2 then y :: insert_desc x rest else x :: y :: rest
  end.

Definition sorted_desc (l : list (string * nat)) : list (string * nat) :=
  foldl (λ acc x, insert_desc x acc) [] l.

(** ** Successor maps (lines 70-96) *)

(** Lines 70-79: [successorClauses]; an edge out of a tuple must enter
    a clause, from a tuple of [at]. *)
Definition successorClauses (G : Graph) (atup : gset string) : res (gmap string (gset string)) :=
  res_fold (λ ans (e : nat * nat),
      iu ← vinfo_of G e.1;
      if decide (vtyp iu = VTuple) then
        iv ← vinfo_of G e.2;
        assert! bool_decide (vtyp iv = VClause) ;;
        let t := label iu in
        let c := label iv in
        assert! bool_decide (t ∈ dom ans) ;;
        Ok (<[t := {[c]} ∪ ans !!! t]> ans)
      else Ok ans)
    (gset_to_gmap ∅ atup) (gedges G).

(** Lines 84-96: [successorTuples]; a clause has one consequent. *)
Definition successorTuples (G : Graph) : res (gmap string string) :=
  res_fold (λ ans (e : nat * nat),
      iu ← vinfo_of G e.1;
      if decide (vtyp iu = VClause) then
        iv ← vinfo_of G e.2;
        assert! bool_decide (vtyp iv = VTuple) ;;
        let c := label iu in
        let t := label iv in
        match ans !! c with
        | Some t' => assert! bool_decide (t' = t) ;; Ok ans
        | None => Ok (<[c := t]> ans)
        end
      else Ok ans)
    ∅ (gedges G).

(** ** The closure (lines 101-111) *)

Section closure.
Context (en : Enum string) (sC : gmap string (gset string)) (sT : gmap string string).

(** The clauses of the successor map, a bound on the rounds. *)
Definition all_succ_clauses : gset string := ⋃ (map snd (map_to_list sC)).

(** Lines 105-111: [while waitingClauses]; one clause per round. *)
Fixpoint closure_loop (fuel : nat) (has proc waiting : gset string) : res (gset string) :=
  match fuel with
  | O => Err OutOfFuel
  | S fuel =>
      match set_pop en waiting with
      | None => Ok has
      | Some c =>
          let waiting := waiting ∖ {[c]} in
          let proc := {[c]} ∪ proc in
          t ← dict_get sT c;
          let has := {[t]} ∪ has in
          cs ← dict_get sC t;
          closure_loop fuel has proc (waiting ∪ (cs ∖ proc))
      end
  end.

(** Lines 101-104 and the loop, with one round per clause at most. *)
Definition closure (E0 : gset string) : res (gset string) :=
  css ← res_map (dict_get sC) (enum_of en E0);
  closure_loop (S (size all_succ_clauses)) E0 ∅ (⋃ css).

(** The tuples with a new derivation: the tuples of [E0] and the
    consequents of the clauses fed by one of them. *)
Inductive reach (E0 : gset string) : string → Prop :=
  | reach_base t : t ∈ E0 → reach E0 t
  | reach_step t cs c t' : reach E0 t → sC !! t = Some cs → c ∈ cs → sT !! c = Some t' → reach E0 t'.

End closure.

(** ** The script *)

(** The iteration orders: the truly new EDB tuples (line 59), the
    waiting clauses (line 106), the new alarms (line 116) and [list(edges)]
    of [build_graph]. *)
Record HndEnums := mkHndEnums {
  en_edb : Enum string;
  en_pop : Enum string;
  en_alarm : Enum string;
  en_edges : Enum (nat * nat)
}.

(** Lines 23-118, with [graph_bound] for the binding of [Graph] in the
    module [graph]: the printed statistics and the alarms printed at
    line 118. *)
Definition hnd_main (graph_bound : bool) (E : HndEnums) (oldCons oldAlarm newCons newAlarm : list string)
    : res (list (string * nat) * list string) :=
  let old_alarms := read_alarm oldAlarm in
  let new_alarms := read_alarm newAlarm in
  '(og, _) ← build_graph graph_bound false (en_edges E) oldCons old_alarms;
  '(ng, _) ← build_graph graph_bound false (en_edges E) newCons new_alarms;
  let allOldTuples := hnd_allTuples og in
  let allNewTuples := hnd_allTuples ng in
  assert! bool_decide (new_alarms ⊆ allNewTuples) ;;
  allOldConsequents ← hnd_allConsequents og;
  allNewConsequents ← hnd_allConsequents ng;
  let trulyNewEDBs := (allNewTuples ∖ allNewConsequents) ∖ (allOldTuples ∖ allOldConsequents) in
  stat ← res_fold stat_step [] (enum_of (en_edb E) trulyNewEDBs);
  _ ← successorClauses og allOldTuples;
  newSuccessorClauses ← successorClauses ng allNewTuples;
  _ ← successorTuples og;
  newSuccessorTuples ← successorTuples ng;
  hasNewDerivation ← closure (en_pop E) newSuccessorClauses newSuccessorTuples trulyNewEDBs;
  Ok (sorted_desc stat,
      filter (λ t, t ∉ new_alarms ∩ hasNewDerivation) (enum_of (en_alarm E) new_alarms)).

Definition T_sC : gmap string (gset string) := <["A" := {["c1"]}]> (<["B" := ∅]> ∅).
Definition T_sT : gmap string string := <["c1" := "B"]> ∅.

(** ** The closure computes the tuples with a new derivation *)

#[local] Set Warnings "-clear-no-such-hyp".

Section closure_facts.
Context (en : Enum string) (sC : gmap string (gset string)) (sT : gmap string string).

(** The invariant of the [while] loop: the tuples found have a new
    derivation and contain the new EDB tuples; waiting clauses are fed by
    such a tuple; processed clauses have their consequent found; the
    clauses fed by a found tuple are processed or waiting; no clause is
    both; all of them are clauses of the map. *)
Definition cl_inv (E0 has proc waiting : gset string) : Prop :=
  E0 ⊆ has ∧
  (∀ t, t ∈ has → reach sC sT E0 t) ∧
  (∀ c, c ∈ waiting → ∃ t cs, reach sC sT E0 t ∧ sC !! t = Some cs ∧ c ∈ cs) ∧
  (∀ c, c ∈ proc → ∃ t', sT !! c = Some t' ∧ t' ∈ has) ∧
  (∀ t, t ∈ has → ∃ cs, sC !! t = Some cs ∧ cs ⊆ proc ∪ waiting) ∧
  waiting ## proc ∧
  proc ∪ waiting ⊆ all_succ_clauses sC.

Lemma succ_sub_all t cs : sC !! t = Some cs → cs ⊆ all_succ_clauses sC.
Proof.
  intros Ht c Hc. unfold all_succ_clauses. apply elem_of_union_list. exists cs. split; [|done].
  apply list_elem_of_In, in_map_iff. exists (t, cs). split; [done|]. by apply list_elem_of_In, elem_of_map_to_list.
Qed.

Lemma cl_inv_step E0 has proc waiting c t cs :
  cl_inv E0 has proc waiting → c ∈ waiting → sT !! c = Some t → sC !! t = Some cs →
  cl_inv E0 ({[t]} ∪ has) ({[c]} ∪ proc) (waiting ∖ {[c]} ∪ cs ∖ ({[c]} ∪ proc)).
Proof.
  intros (H1 & H2 & H3 & H4 & H5 & H6 & H7) Hc Ht Hcs.
  destruct (H3 c Hc) as (t0 & cs0 & Hr0 & Ht0 & Hc0).
  assert (reach sC sT E0 t) by (eapply reach_step; eauto).
  pose proof (succ_sub_all t cs Hcs) as Hall.
  split_and!.
  - clear -H1. set_solver.
  - intros u [->%elem_of_singleton|Hu]%elem_of_union; auto.
  - intros c' [[Hc' _]%elem_of_difference|[Hc' _]%elem_of_difference]%elem_of_union; eauto.
  - intros c' [->%elem_of_singleton|Hc']%elem_of_union.
    + exists t. split; [done|]. apply elem_of_union_l, elem_of_singleton. done.
    + destruct (H4 c' Hc') as (t' & ? & ?). exists t'. split; [done|]. by apply elem_of_union_r.
  - intros u [->%elem_of_singleton|Hu]%elem_of_union.
    + exists cs. split; [done|]. intros x Hx. destruct (decide (x ∈ {[c]} ∪ proc)); set_solver.
    + destruct (H5 u Hu) as (cs' & ? & Hsub). exists cs'. split; [done|]. intros x Hx. apply Hsub in Hx. destruct (decide (x = c)); set_solver.
  - clear -H6. set_solver.
  - clear -H7 Hall Hc. set_solver.
Qed.

(** The rounds of the loop that finishes compute the reachable tuples. *)
Lemma closure_loop_reach E0 fuel has proc waiting H :
  cl_inv E0 has proc waiting → closure_loop en sC sT fuel has proc waiting = Ok H →
  ∀ t, t ∈ H ↔ reach sC sT E0 t.
Proof.
  revert has proc waiting. induction fuel as [|fuel IH]; intros has proc waiting Hinv; [done|].
  cbn [closure_loop]. destruct (set_pop en waiting) as [c|] eqn:Hp.
  - apply set_pop_Some in Hp.
    unfold dict_get. destruct (sT !! c) as [t|] eqn:Ht; [rewrite Ok_bind|done].
    destruct (sC !! t) as [cs|] eqn:Hcs; [rewrite Ok_bind|done].
    apply IH. by apply cl_inv_step.
  - apply set_pop_None in Hp as ->. intros [= <-] t. destruct Hinv as (H1 & H2 & _ & H4 & H5 & _).
    split; [auto|]. induction 1 as [t Ht|t cs c t' _ IHr Hcs Hc Ht'].
    + set_solver.
    + destruct (H5 t IHr) as (cs' & Hcs' & Hsub). rewrite Hcs in Hcs'. injection Hcs' as <-.
      destruct (H4 c) as (t'' & Ht'' & ?); [set_solver|]. congruence.
Qed.

Lemma closure_init E0 css :
  res_map (dict_get sC) (enum_of en E0) = Ok css → cl_inv E0 E0 ∅ (⋃ css).
Proof.
  intros Hm. apply res_map_dict_get in Hm.
  assert (∀ c, c ∈ ⋃ css ↔ ∃ t cs, t ∈ E0 ∧ sC !! t = Some cs ∧ c ∈ cs) as Hw.
  { intros c. rewrite elem_of_union_list. split.
    - intros (cs & Hcs & Hc). destruct (Forall2_elem_r _ _ _ _ Hm Hcs) as (t & Ht & Htc).
      exists t, cs. by rewrite <-elem_of_enum.
    - intros (t & cs & Ht & Htc & Hc). apply (elem_of_enum en) in Ht.
      destruct (Forall2_elem_l _ _ _ _ Hm Ht) as (cs' & Hcs' & Htc'). exists cs'. split; [done|congruence]. }
  split_and!.
  - done.
  - intros t Ht. by constructor.
  - intros c (t & cs & ? & ? & ?)%Hw. exists t, cs. split_and!; [by constructor|done|done].
  - set_solver.
  - intros t Ht. destruct (Forall2_elem_l _ _ _ _ Hm (proj2 (elem_of_enum en t E0) Ht)) as (cs & _ & Hcs).
    exists cs. split; [done|]. intros c Hc. apply elem_of_union_r, Hw. eauto.
  - set_solver.
  - intros c [[]%elem_of_empty|(t & cs & _ & Hcs & Hc)%Hw]%elem_of_union. by apply (succ_sub_all t cs).
Qed.

(** The measure of the loop: the clauses not yet processed. *)
Lemma closure_loop_total E0 fuel has proc waiting :
  (∀ t cs c, sC !! t = Some cs → c ∈ cs → c ∈ dom sT) →
  (∀ c t, sT !! c = Some t → t ∈ dom sC) →
  cl_inv E0 has proc waiting → size (all_succ_clauses sC) - size proc < fuel →
  ∃ H, closure_loop en sC sT fuel has proc waiting = Ok H.
Proof.
  intros K2 K3. revert has proc waiting. induction fuel as [|fuel IH]; intros has proc waiting Hinv Hf; [lia|].
  cbn [closure_loop]. destruct (set_pop en waiting) as [c|] eqn:Hp; [|eauto].
  apply set_pop_Some in Hp.
  pose proof Hinv as (H1 & H2 & H3 & H4 & H5 & H6 & H7).
  destruct (H3 c Hp) as (t0 & cs0 & _ & Ht0 & Hc0).
  destruct (proj1 (elem_of_dom sT c) (K2 t0 cs0 c Ht0 Hc0)) as [t Ht].
  destruct (proj1 (elem_of_dom sC t) (K3 c t Ht)) as [cs Hcs].
  unfold dict_get. rewrite Ht, Ok_bind, Hcs, Ok_bind.
  apply IH; [by apply cl_inv_step|].
  assert (size ({[c]} ∪ proc) = S (size proc)) as Hs.
  { rewrite size_union, size_singleton; [done|]. clear -H6 Hp. set_solver. }
  assert (size ({[c]} ∪ proc) ≤ size (all_succ_clauses sC)).
  { apply subseteq_size. clear -H7 Hp. set_solver. }
  lia.
Qed.

End closure_facts.



(** C24: the [while waitingClauses] loop of [hnd.py] (lines 101-111),
    when it finishes, has found exactly the tuples with a new derivation:
    those reachable from the new EDB tuples through a successor clause
    and its consequent, whatever order the clauses are popped in. *)
Theorem closure_computes_reach en sC sT E0 H :
  closure en sC sT E0 = Ok H → ∀ t, t ∈ H ↔ reach sC sT E0 t.
Proof.
  unfold closure. destruct (res_map (dict_get sC) (enum_of en E0)) as [css|?] eqn:Hm; [|done].
  rewrite Ok_bind. apply (closure_loop_reach en). by apply (closure_init en).
Qed.

(** C25: the loop always finishes, within one round per successor clause,
    without [KeyError]: when the new EDB tuples are keys of the
    successor-clause map, every successor clause has a consequent, and
    every consequent is a key. *)
Theorem closure_terminates en sC sT E0 :
  E0 ⊆ dom sC → map_Forall (λ _ cs, cs ⊆ dom sT) sC → map_Forall (λ _ t, t ∈ dom sC) sT →
  ∃ H, closure en sC sT E0 = Ok H.
Proof.
  intros K1 K2 K3. unfold closure.
  destruct (res_map_Ok (dict_get sC) (λ _ _, True) (enum_of en E0)) as (css & Hm & _).
  { intros t Ht%elem_of_enum. apply K1, elem_of_dom in Ht as [cs Hcs].
    exists cs. unfold dict_get. by rewrite Hcs. }
  rewrite Hm, Ok_bind. apply (closure_loop_total en sC sT E0); [| |by apply (closure_init en)|lia].
  - intros t cs c Ht Hc. by apply (K2 t cs Ht).
  - intros c t Ht. by apply (K3 c t Ht).
Qed.

Lemma closure_computes_reach_witness :
  ∃ H, closure elements_enum T_sC T_sT {["A"]} = Ok H ∧ "B" ∈ H ∧ reach T_sC T_sT {["A"]} "B".
Proof.
  ok_destruct (closure elements_enum T_sC T_sT {["A"]}) H E. exists H. split; [done|].
  assert ("B" ∈ H) as HB.
  { apply (bool_decide_eq_true_1 ("B" ∈ H)), (ok_test _ (λ H, bool_decide ("B" ∈ H)) _ E). vm_eq. }
  split; [done|]. by apply (closure_computes_reach elements_enum T_sC T_sT {["A"]} H E).
Defined.

Lemma closure_terminates_witness : ∃ H, closure elements_enum T_sC T_sT {["A"]} = Ok H.
Proof. apply closure_terminates; vm_decide. Defined.

(** [hnd.py] as shipped prints nothing: whatever the four files and the
    iteration orders, it raises [NameError] at line 26, where
    [graph.build_graph] calls the name [Graph] that the module [graph]
    never binds. *)
Lemma hnd_main_name_error E oldCons oldAlarm newCons newAlarm :
  hnd_main graph_py_binds_Graph E oldCons oldAlarm newCons newAlarm = Err NameError.
Proof. reflexivity. Qed.
