(* ===== verification/Auc.v ===== *)
(** * The AUC score of a ranking ([src/script/auc.py])

    The script reads a ranking in the format of the carousel's statistics
    file (a header line, then one line per alarm, [TrueGround] marking a
    true alarm), pads it with false alarms up to the number of alarms of
    a second file, and sums the area under the curve of true alarms
    found against false alarms inspected.  Python floats are modelled
    as rationals: the area is computed exactly. *)

From Stdlib Require Import QArith Lqa.
From S2P Require Import Prelude Clauses.

Record auc_st := mkAuc {
  numTrue : nat;
  numFalse : nat;
  index : nat;
  xindices : list nat;
  yindices : list nat;
  lastTrue : nat;
}.

(** [line.find('TrueGround') >= 0] *)
Definition true_ground (line : string) : bool :=
  match String.index 0 "TrueGround" line with Some _ => true | None => false end.

(** Lines 22-31: one line of the ranking; the first one is the header. *)
Definition auc_line (st : auc_st) (line : string) : auc_st :=
  if 0 <? index st then
    if true_ground line then
      mkAuc (S (numTrue st)) (numFalse st) (S (index st))
        (xindices st ++ [numFalse st]) (yindices st ++ [S (numTrue st)]) (index st)
    else
      mkAuc (numTrue st) (S (numFalse st)) (S (index st))
        (xindices st ++ [S (numFalse st)]) (yindices st ++ [numTrue st]) (lastTrue st)
  else mkAuc (numTrue st) (numFalse st) (S (index st)) (xindices st) (yindices st) (lastTrue st).

(** Lines 35-39: [while index <= totalAlarm], one more false alarm per
    round; it runs at most [totalAlarm + 1] rounds. *)
Fixpoint auc_pad (fuel totalAlarm : nat) (st : auc_st) : res auc_st :=
  match fuel with
  | O => Err OutOfFuel
  | S fuel =>
      if index st <=? totalAlarm then
        auc_pad fuel totalAlarm
          (mkAuc (numTrue st) (S (numFalse st)) (S (index st))
             (xindices st ++ [S (numFalse st)]) (yindices st ++ [numTrue st]) (lastTrue st))
      else Ok st
  end.

(** [float(n)] of a count. *)
Definition qn (n : nat) : Q := inject_Z (Z.of_nat n).

(** Lines 48-56: the normalised points and the area under them. *)
Definition auc_area (st : auc_st) : Q :=
  let xs := map (λ x : nat, qn x / qn (numFalse st))%Q (xindices st) in
  let ys := map (λ y : nat, qn y / qn (numTrue st))%Q (yindices st) in
  (foldl (λ acc p, (acc.1 + (p.1 - acc.2) * p.2, p.1)%Q) (0%Q, 0%Q) (zip xs ys)).1.

(** Lines 12-58: the counts printed and the area, [None] where the script
    exits at line 46 (no true or no false alarm). *)
Definition auc_main (ranked allAlarms : list string) : res (auc_st * option Q) :=
  let st := foldl auc_line (mkAuc 0 0 0 [0] [0] 0) ranked in
  let totalAlarm := length allAlarms in
  st ← auc_pad (S (S totalAlarm)) totalAlarm st;
  if (numTrue st =? 0) || (numFalse st =? 0) then Ok (st, None)
  else Ok (st, Some (auc_area st)).

(** The ranking as truth values: the ranked alarms, then the alarms the
    ranking does not list, false. *)
Definition auc_flags (ranked allAlarms : list string) : list bool :=
  map true_ground (tail ranked) ++ replicate (S (length allAlarms) - length ranked) false.

(** The (false, true) pairs out of order. *)
Fixpoint inversions (fl : list bool) : nat :=
  match fl with
  | [] => 0
  | b :: fl' => (if b then 0 else length (filter (λ c : bool, c = true) fl')) + inversions fl'
  end.

Definition count_b (b : bool) (fl : list bool) : nat := length (filter (λ c : bool, c = b) fl).

(** The points [(falses, trues)] after each alarm, from counts [(t, f)]. *)
Fixpoint pts (t f : nat) (fl : list bool) : list (nat * nat) :=
  match fl with
  | [] => []
  | true :: fl' => (f, S t) :: pts (S t) f fl'
  | false :: fl' => (S f, t) :: pts t (S f) fl'
  end.

(** The sum, over the false alarms, of the true alarms ranked above. *)
Fixpoint sfalse (t : nat) (fl : list bool) : nat :=
  match fl with
  | [] => 0
  | true :: fl' => sfalse (S t) fl'
  | false :: fl' => t + sfalse t fl'
  end.

(** A point [(falses, trues)] normalised by the totals [F] and [T]. *)
Definition norm_pt (T F : nat) (p : nat * nat) : Q * Q := (qn p.1 / qn F, qn p.2 / qn T)%Q.

(** The step of the area fold (lines 52-56). *)
Definition area_step (acc p : Q * Q) : Q * Q := (acc.1 + (p.1 - acc.2) * p.2, p.1)%Q.

(** A ranking file and the alarm list of an example. *)
Definition T_ranked : list string :=
  ["Index Alarm"; "1 a TrueGround"; "2 b FalseGround"; "3 c TrueGround"].
Definition T_alarms : list string := ["a"; "b"; "c"; "d"].

(** ** Lemmas *)

Lemma pts_app t f fl1 fl2 :
  pts t f (fl1 ++ fl2) = pts t f fl1 ++ pts (t + count_b true fl1) (f + count_b false fl1) fl2.
Proof.
  revert t f. induction fl1 as [|[] fl1 IH]; intros t f; simpl; [by rewrite !Nat.add_0_r|..].
  - rewrite IH. unfold count_b. simpl. do 3 f_equal; lia.
  - rewrite IH. unfold count_b. simpl. do 3 f_equal; lia.
Qed.

Lemma auc_scan st l :
  0 < index st →
  let st' := foldl auc_line st l in
  numTrue st' = numTrue st + count_b true (map true_ground l) ∧
  numFalse st' = numFalse st + count_b false (map true_ground l) ∧
  index st' = index st + length l ∧
  xindices st' = xindices st ++ (pts (numTrue st) (numFalse st) (map true_ground l)).*1 ∧
  yindices st' = yindices st ++ (pts (numTrue st) (numFalse st) (map true_ground l)).*2.
Proof.
  revert st. induction l as [|line l IH]; intros st Hi; simpl.
  { rewrite !Nat.add_0_r, !app_nil_r. done. }
  destruct (IH (auc_line st line)) as (H1 & H2 & H3 & H4 & H5);
    [unfold auc_line; rewrite (proj2 (Nat.ltb_lt _ _) Hi); destruct (true_ground line); simpl; lia|].
  rewrite H1, H2, H3, H4, H5. unfold auc_line. rewrite (proj2 (Nat.ltb_lt _ _) Hi).
  unfold count_b. destruct (true_ground line); simpl; rewrite <-?app_assoc; split_and!; try lia; done.
Qed.

Lemma auc_pad_S fuel total st :
  auc_pad (S fuel) total st =
  if index st <=? total then
    auc_pad fuel total
      (mkAuc (numTrue st) (S (numFalse st)) (S (index st))
         (xindices st ++ [S (numFalse st)]) (yindices st ++ [numTrue st]) (lastTrue st))
  else Ok st.
Proof. reflexivity. Qed.

Lemma auc_pad_spec k total st fuel :
  k = S total - index st → k < fuel →
  auc_pad fuel total st =
  Ok (mkAuc (numTrue st) (numFalse st + k) (index st + k)
        (xindices st ++ (pts (numTrue st) (numFalse st) (replicate k false)).*1)
        (yindices st ++ (pts (numTrue st) (numFalse st) (replicate k false)).*2) (lastTrue st)).
Proof.
  revert st fuel. induction k as [|k IH]; intros st [|fuel] Hk Hf; try lia; rewrite auc_pad_S.
  - rewrite (proj2 (Nat.leb_gt _ _)) by lia. destruct st; simpl. by rewrite !Nat.add_0_r, !app_nil_r.
  - rewrite (proj2 (Nat.leb_le _ _)) by lia. rewrite IH by (simpl; lia). simpl.
    rewrite <-!app_assoc. do 2 f_equal; lia.
Qed.

(** After the ranking file: the counts and points of the ranked alarms. *)
Lemma auc_scan_all ranked :
  let st := foldl auc_line (mkAuc 0 0 0 [0] [0] 0) ranked in
  let fl := map true_ground (tail ranked) in
  numTrue st = count_b true fl ∧ numFalse st = count_b false fl ∧ index st = length ranked ∧
  xindices st = 0 :: (pts 0 0 fl).*1 ∧ yindices st = 0 :: (pts 0 0 fl).*2.
Proof.
  destruct ranked as [|h rest]; [done|]. cbn [foldl tail].
  change (auc_line (mkAuc 0 0 0 [0] [0] 0) h) with (mkAuc 0 0 1 [0] [0] 0).
  destruct (auc_scan (mkAuc 0 0 1 [0] [0] 0) rest) as (H1 & H2 & H3 & H4 & H5); [simpl; lia|].
  rewrite H1, H2, H3, H4, H5. simpl. split_and!; done || lia.
Qed.

Lemma qn_nz n : 0 < n → ¬ (qn n == 0)%Q.
Proof. intros Hn H. unfold qn, Qeq in H. simpl in H. lia. Qed.

Lemma qn_S n : (qn (S n) == qn n + 1)%Q.
Proof. unfold qn. rewrite Nat2Z.inj_succ, <-Z.add_1_r, inject_Z_plus. reflexivity. Qed.

Section area.
Context (T F : nat) (HT : 0 < T) (HF : 0 < F).

Lemma area_fold fl t f a :
  ((foldl area_step (a, qn f / qn F) (map (norm_pt T F) (pts t f fl)))%Q.1 ==
   a + qn (sfalse t fl) / (qn F * qn T))%Q.
Proof.
  pose proof (qn_nz F HF). pose proof (qn_nz T HT).
  revert t f a. induction fl as [|[] fl IH]; intros t f a; cbn [pts map foldl sfalse].
  - cbn [fst]. change (qn 0) with 0%Q. field. split; done.
  - eapply Qeq_trans; [apply IH|]. unfold area_step, norm_pt. cbn [fst snd]. field. split; done.
  - eapply Qeq_trans; [apply IH|]. unfold area_step, norm_pt. cbn [fst snd]. unfold qn in *.
    rewrite Nat2Z.inj_add, inject_Z_plus, Nat2Z.inj_succ, <-Z.add_1_r, inject_Z_plus.
    field. split; done.
Qed.

End area.

Lemma sfalse_inversions t fl :
  sfalse t fl + inversions fl = count_b false fl * (t + count_b true fl).
Proof.
  revert t. induction fl as [|b fl IH]; intros t; [done|].
  unfold count_b in *. rewrite !filter_cons.
  destruct b; simpl; repeat case_decide; try congruence; simpl.
  - specialize (IH (S t)). lia.
  - specialize (IH t). lia.
Qed.

Lemma zip_norm P T F :
  zip (map (λ x : nat, qn x / qn F)%Q P.*1) (map (λ y : nat, qn y / qn T)%Q P.*2) = map (norm_pt T F) P.
Proof. induction P as [|[x y] P IH]; [done|]. cbn. f_equal. exact IH. Qed.

Lemma count_b_app b fl1 fl2 : count_b b (fl1 ++ fl2) = count_b b fl1 + count_b b fl2.
Proof. unfold count_b. by rewrite filter_app, length_app. Qed.

Lemma count_b_replicate b c k : count_b b (replicate k c) = if decide (c = b) then k else 0.
Proof.
  unfold count_b. induction k as [|k IH]; simpl; [by case_decide|].
  rewrite filter_cons. repeat case_decide; simpl; congruence || lia.
Qed.

(** The padded points of [auc_main]: the points of [auc_flags], after [(0, 0)]. *)
Lemma auc_main_points ranked allAlarms :
  let st := foldl auc_line (mkAuc 0 0 0 [0] [0] 0) ranked in
  let fl := auc_flags ranked allAlarms in
  auc_pad (S (S (length allAlarms))) (length allAlarms) st =
  Ok (mkAuc (count_b true fl) (count_b false fl) (S (length allAlarms) `max` length ranked)
        ((0, 0) :: pts 0 0 fl).*1 ((0, 0) :: pts 0 0 fl).*2 (lastTrue st)).
Proof.
  destruct (auc_scan_all ranked) as (H1 & H2 & H3 & H4 & H5). cbn zeta.
  rewrite (auc_pad_spec (S (length allAlarms) - length ranked)) by lia.
  rewrite H1, H2, H3, H4, H5. unfold auc_flags.
  rewrite pts_app, count_b_app, count_b_app, !count_b_replicate. rewrite !fmap_cons, !fmap_app.
  repeat case_decide; try congruence. f_equal. f_equal; simpl; lia.
Qed.

(** The area of a run that prints one, with the counts it prints. *)
Lemma auc_main_area ranked allAlarms st a :
  auc_main ranked allAlarms = Ok (st, Some a) →
  numTrue st = count_b true (auc_flags ranked allAlarms) ∧
  numFalse st = count_b false (auc_flags ranked allAlarms) ∧
  count_b true (auc_flags ranked allAlarms) ≠ 0 ∧ count_b false (auc_flags ranked allAlarms) ≠ 0 ∧
  (a == 1 - qn (inversions (auc_flags ranked allAlarms)) /
          (qn (count_b false (auc_flags ranked allAlarms)) * qn (count_b true (auc_flags ranked allAlarms))))%Q.
Proof.
  unfold auc_main. cbn zeta. rewrite auc_main_points, Ok_bind. cbn [numTrue numFalse].
  set (fl := auc_flags ranked allAlarms).
  destruct (count_b true fl =? 0) eqn:HT; [discriminate|].
  destruct (count_b false fl =? 0) eqn:HF; [discriminate|].
  intros [= <- <-]. apply Nat.eqb_neq in HT, HF. cbn [numTrue numFalse]. split_and!; [done..|].
  unfold auc_area. cbn [numTrue numFalse xindices yindices].
  change (0 :: list_fmap _ _ fst (pts 0 0 fl)) with (((0, 0) :: pts 0 0 fl).*1).
  change (0 :: list_fmap _ _ snd (pts 0 0 fl)) with (((0, 0) :: pts 0 0 fl).*2).
  rewrite zip_norm. cbn [map foldl].
  change (λ acc p : Q * Q, (acc.1 + (p.1 - acc.2) * p.2, p.1)%Q) with area_step.
  eapply Qeq_trans; [apply area_fold with (t := 0); lia|].
  pose proof (sfalse_inversions 0 fl) as Hs.
  pose proof (qn_nz (count_b true fl) ltac:(lia)). pose proof (qn_nz (count_b false fl) ltac:(lia)).
  assert (qn (sfalse 0 fl) + qn (inversions fl) == qn (count_b false fl) * qn (count_b true fl))%Q
    as Hq by (unfold qn; rewrite <-inject_Z_plus, <-inject_Z_mult, <-Nat2Z.inj_add, <-Nat2Z.inj_mul, Hs; done).
  assert (qn (sfalse 0 fl) == qn (count_b false fl) * qn (count_b true fl) - qn (inversions fl))%Q
    as -> by (rewrite <-Hq; ring).
  unfold area_step, norm_pt. cbn [fst snd]. change (qn 0) with 0%Q. field. split; done.
Qed.

Lemma qn_le n m : n ≤ m → (qn n <= qn m)%Q.
Proof. intros H. unfold qn. rewrite <-Zle_Qle. lia. Qed.

Lemma qn_mul n m : (qn (n * m) == qn n * qn m)%Q.
Proof. unfold qn. by rewrite Nat2Z.inj_mul, inject_Z_mult. Qed.

(** C18: auc.py's area is one minus the share of (false, true) pairs ranked
    out of order: with [T] true and [F] false alarms among the ranked alarms
    and the unranked ones counted as false at the end, the script prints
    [T] and [F] and an area [1 - inversions / (F * T)]. *)
Theorem auc_inversions ranked allAlarms st a :
  auc_main ranked allAlarms = Ok (st, Some a) →
  numTrue st = count_b true (auc_flags ranked allAlarms) ∧
  numFalse st = count_b false (auc_flags ranked allAlarms) ∧
  (a == 1 - qn (inversions (auc_flags ranked allAlarms)) / (qn (numFalse st) * qn (numTrue st)))%Q.
Proof.
  intros H. destruct (auc_main_area _ _ _ _ H) as (H1 & H2 & _ & _ & H3).
  split_and!; [done|done|]. by rewrite H1, H2.
Qed.

(** C19 (bounds): the area [auc.py] prints lies between 0 and 1, since
    at most [F * T] (false, true) pairs can be out of order. *)
Theorem auc_bounds ranked allAlarms st a :
  auc_main ranked allAlarms = Ok (st, Some a) → (0 <= a <= 1)%Q.
Proof.
  intros H. destruct (auc_main_area _ _ _ _ H) as (_ & _ & HT & HF & Ha). rewrite Ha.
  set (fl := auc_flags ranked allAlarms) in *.
  pose proof (sfalse_inversions 0 fl) as Hs.
  set (P := (qn (count_b false fl) * qn (count_b true fl))%Q).
  assert (HP : (0 < P)%Q).
  { unfold P. rewrite <-qn_mul. unfold qn. change 0%Q with (inject_Z 0). rewrite <-Zlt_Qlt. nia. }
  assert (Hi : (qn (inversions fl) <= P)%Q) by (unfold P; rewrite <-qn_mul; apply qn_le; lia).
  assert (H0 : (0 <= qn (inversions fl))%Q) by (apply (qn_le 0); lia).
  assert (Hd1 : (qn (inversions fl) / P <= 1)%Q) by (apply Qle_shift_div_r; [done|lra]).
  assert (Hd0 : (0 <= qn (inversions fl) / P)%Q) by (apply Qle_shift_div_l; [done|lra]).
  lra.
Qed.

Lemma auc_bounds_witness :
  ∃ st a, auc_main T_ranked T_alarms = Ok (st, Some a) ∧ (0 <= a <= 1)%Q.
Proof.
  destruct (auc_main T_ranked T_alarms) as [[st [a|]]|] eqn:E; try (vm_compute in E; discriminate).
  exists st, a. split; [done|]. exact (auc_bounds _ _ _ _ E).
Defined.

Lemma auc_inversions_witness :
  ∃ st a, auc_main T_ranked T_alarms = Ok (st, Some a) ∧ (a == 1 - qn 1 / (qn 2 * qn 2))%Q.
Proof.
  destruct (auc_main T_ranked T_alarms) as [[st [a|]]|] eqn:E; try (vm_compute in E; discriminate).
  exists st, a. split; [done|].
  destruct (auc_inversions _ _ _ _ E) as (H1 & H2 & H3). rewrite H3, H1, H2. vm_compute. reflexivity.
Defined.
