(* ===== verification/Json.v ===== *)
(** * JSON values as [json.load] returns them

    The scripts [generate-ground-truth.py] and [translate-cons.py] read
    the analyser's [node.json], [label.json] and [line_matching.json]
    with [json.load] and then index, test and print the values.  A value
    is [None], a bool, an integer, a string, a list or a dict; a dict is
    the association list of its items in insertion order (the order
    [dict.items()] iterates), with distinct keys.  Non-integer numbers are
    not modelled.  The operations are Python's on these values, with the
    exception each raises: [d[k]] ([jget]), [l[i]] ([jidx]), [k in v]
    ([jin]), [for x in v] ([jiter]), [str(v)] ([py_str]), [v + s] on a
    string ([py_add_str]), [v.split(sep)] ([jsplit]) and [==] ([py_eq],
    where [1 == True]). *)

From S2P Require Import Prelude Clauses PyStr.

#[warnings="-register-all"]
Inductive json :=
  | JNull
  | JBool (b : bool)
  | JNum (n : Z)
  | JStr (s : string)
  | JArr (l : list json)
  | JObj (kv : list (string * json)).

(** [d[k]]: [KeyError] on a dict without [k], [TypeError] on a list, a
    string or a scalar indexed by a string. *)
Definition jget (j : json) (k : string) : res json :=
  match j with
  | JObj kv =>
      match list_find (λ p : string * json, p.1 = k) kv with
      | Some (_, (_, v)) => Ok v
      | None => Err KeyError
      end
  | _ => Err TypeError
  end.

(** [v[i]] with an integer index: a list element or a one-character
    string ([IndexError] out of range), [KeyError] on a dict (its keys are
    strings), [TypeError] on a scalar. *)
Definition jidx (j : json) (i : nat) : res json :=
  match j with
  | JArr l => py_index l i
  | JStr s => match String.get i s with Some c => Ok (JStr (String c EmptyString)) | None => Err IndexError end
  | JObj _ => Err KeyError
  | _ => Err TypeError
  end.

(** [k in v] for a string [k]: a key of a dict, an element of a list, a
    substring of a string; [TypeError] on a scalar. *)
Definition jin (k : string) (j : json) : res bool :=
  match j with
  | JObj kv => Ok (bool_decide (k ∈ kv.*1))
  | JArr l => Ok (existsb (λ x, match x with JStr s => bool_decide (s = k) | _ => false end) l)
  | JStr s => Ok (bool_decide (is_Some (String.index 0 k s)))
  | _ => Err TypeError
  end.

(** [for x in v]: the elements of a list, the keys of a dict, the
    characters of a string; [TypeError] on a scalar. *)
Definition jiter (j : json) : res (list json) :=
  match j with
  | JArr l => Ok l
  | JObj kv => Ok (map (λ p, JStr p.1) kv)
  | JStr s => Ok (map (λ c, JStr (String c EmptyString)) (String.list_ascii_of_string s))
  | _ => Err TypeError
  end.

(** [str(v)] of a scalar; a list or a dict prints as its [repr] (with
    strings in single quotes, escapes not modelled). *)
Fixpoint py_repr (j : json) : string :=
  match j with
  | JNull => "None"
  | JBool true => "True"
  | JBool false => "False"
  | JNum n => pretty n
  | JStr s => "'" +:+ s +:+ "'"
  | JArr l => "[" +:+ String.concat ", " (map py_repr l) +:+ "]"
  | JObj kv => "{" +:+ String.concat ", " (map (λ p, "'" +:+ p.1 +:+ "': " +:+ py_repr p.2) kv) +:+ "}"
  end.

Definition py_str (j : json) : string :=
  match j with
  | JStr s => s
  | _ => py_repr j
  end.

(** [v + s] for a string [s]: [TypeError] unless [v] is a string. *)
Definition py_add_str (j : json) (s : string) : res string :=
  match j with
  | JStr t => Ok (t +:+ s)
  | _ => Err TypeError
  end.

(** [v.split(sep)]: only strings have the method. *)
Definition jsplit (sep : string) (j : json) : res (list string) :=
  match j with
  | JStr s => Ok (str_split sep s)
  | _ => Err AttributeError
  end.

(** [v == s] for a Python string [s]. *)
Definition jeq_str (j : json) (s : string) : bool :=
  match j with JStr t => bool_decide (t = s) | _ => false end.

(** Python's [==] on JSON values: [True == 1] and [False == 0]; lists
    elementwise; dicts by their items, whatever the order. *)
Fixpoint py_eq (a b : json) : bool :=
  let fix eq_list (l1 l2 : list json) : bool :=
    match l1, l2 with
    | [], [] => true
    | x :: l1, y :: l2 => py_eq x y && eq_list l1 l2
    | _, _ => false
    end in
  let fix all_in (kv1 kv2 : list (string * json)) : bool :=
    match kv1 with
    | [] => true
    | (k, v) :: kv1 =>
        (* [k in d2 and d2[k] == v] *)
        match list_find (λ p : string * json, p.1 = k) kv2 with
        | Some (_, (_, v')) => py_eq v v'
        | None => false
        end && all_in kv1 kv2
    end in
  match a, b with
  | JNull, JNull => true
  | JBool x, JBool y => Bool.eqb x y
  | JNum n, JNum m => bool_decide (n = m)
  | JBool x, JNum n | JNum n, JBool x => bool_decide (n = if x then 1%Z else 0%Z)
  | JStr s, JStr t => bool_decide (s = t)
  | JArr l1, JArr l2 => eq_list l1 l2
  | JObj kv1, JObj kv2 => bool_decide (length kv1 = length kv2) && all_in kv1 kv2
  | _, _ => false
  end.

(** [v.startswith(p)]: only strings have the method. *)
Definition jstartswith (p : string) (j : json) : res bool :=
  match j with
  | JStr s => Ok (String.prefix p s)
  | _ => Err AttributeError
  end.

(** [hash(v)] succeeds: lists and dicts are unhashable, so a tuple
    holding one cannot be a member of a set ([TypeError]). *)
Definition hashable (j : json) : bool := match j with JArr _ | JObj _ => false | _ => true end.

(** ** [int(s)] on a string *)

(** The digits of [int()]: one digit, then digits each optionally
    preceded by one underscore ([int("1_000")] is [1000]). *)
Fixpoint digits_val (acc : Z) (cs : list ascii) : option Z :=
  match cs with
  | [] => Some acc
  | "_"%char :: c :: cs => if is_digit c then digits_val (10 * acc + Z.of_nat (nat_of_ascii c - 48)) cs else None
  | c :: cs => if is_digit c then digits_val (10 * acc + Z.of_nat (nat_of_ascii c - 48)) cs else None
  end.

(** [int(s)]: surrounding white space, an optional sign, at least one
    digit; [ValueError] otherwise. *)
Definition py_int_str (s : string) : res Z :=
  let cs := String.list_ascii_of_string (strip s) in
  let '(sign, ds) := match cs with
                     | "-"%char :: ds => (-1, ds)
                     | "+"%char :: ds => (1, ds)
                     | ds => (1, ds)
                     end%Z in
  match ds with
  | c :: _ => if is_digit c then
                match digits_val 0 ds with Some v => Ok (sign * v)%Z | None => Err ValueError end
              else Err ValueError
  | [] => Err ValueError
  end.

(** [d.items()]: only dicts have the method. *)
Definition jitems (j : json) : res (list (string * json)) :=
  match j with
  | JObj kv => Ok kv
  | _ => Err AttributeError
  end.

(** [v is None] *)
Definition is_null (j : json) : bool := match j with JNull => true | _ => false end.
