(* ===== verification/Ground.v ===== *)
(** * Ground-truth extraction ([src/bingo/generate-ground-truth.py])

    The script reads the labelled bugs of a benchmark ([label.json]: a
    source and a sink location for the taint analysis, a location for the
    interval analysis), the analyser's node table ([node.json]) and the
    alarms ([Alarm.facts]: tab-separated node names), and writes the
    alarms whose locations are labelled ([GroundTruth.facts]).  A missing
    label file ends the script before anything is read or written.  The
    set [label_set] holds pairs of a location or [None] and a location;
    the written file is the list of its lines, in the iteration order
    [en] of [groundtruth_set].  A location that is a JSON list or dict
    makes the membership test raise [TypeError] ([labelled]). *)

From S2P Require Import Prelude Clauses PyStr Json.

(** A member of [label_set]: [(src, sink)], [src] is [None] for the
    interval analysis. *)
#[warnings="-notation-for-abbreviation"]
Notation label_key := (option string * string)%type.

(** [d['file'] + ':' + str(d['line'])] *)
Definition label_loc (d : json) : res string :=
  f ← jget d "file";
  a ← py_add_str f ":";
  l ← jget d "line";
  Ok (a +:+ py_str l).

(** Lines 24-32: the entry one label adds to [label_set], if any.  The
    [in] tests run only when the analysis matches ([and] short-circuits). *)
Definition label_entry (analysis : string) (label : json) : res (option label_key) :=
  c1 ← py_and (bool_decide (analysis = "taint")) (jin "source" label);
  if (c1 : bool) then
    s ← jget label "source";
    src ← label_loc s;
    k ← jget label "sink";
    sink ← label_loc k;
    Ok (Some (Some src, sink))
  else
   (c2 ← py_and (bool_decide (analysis = "interval")) (jin "file" label);
    if (c2 : bool) then
      sink ← label_loc label;
      Ok (Some (None, sink))
    else Ok None).

(** Lines 21-32: [for label in labels]. *)
Definition read_labels (analysis : string) (labels : json) : res (gset label_key) :=
  ls ← jiter labels;
  res_fold (λ acc l,
      e ← label_entry analysis l;
      Ok (match e with Some p => {[p]} ∪ acc | None => acc end)) ∅ ls.

(** Line 47: the membership of [(src, sink)] in [label_set], for
    hashable JSON values [src] and [sink]; only [None] and strings equal
    a member's components. *)
Definition label_member (label_set : gset label_key) (src sink : json) : bool :=
  match src, sink with
  | JNull, JStr b => bool_decide ((None, b) ∈ label_set)
  | JStr a, JStr b => bool_decide ((Some a, b) ∈ label_set)
  | _, _ => false
  end.

(** Line 47: [(src, sink) in label_set] hashes the tuple first: a list
    or a dict location raises [TypeError], even when the set is empty. *)
Definition labelled (label_set : gset label_key) (src sink : json) : res bool :=
  if hashable src && hashable sink then Ok (label_member label_set src sink) else Err TypeError.

(** Line 40: the fields of a stripped line of [Alarm.facts]. *)
Definition alarm_fields (line : string) : list string :=
  map strip (split_tab (strip line)).

(** [node[n]['loc']] *)
Definition node_loc (node : json) (n : string) : res json :=
  e ← jget node n;
  jget e "loc".

(** Lines 41-46: the source and sink locations of an alarm. *)
Definition alarm_locs (analysis : string) (node : json) (nodes : list string) : res (json * json) :=
  if bool_decide (analysis = "taint") then
    n0 ← py_index nodes 0; src ← node_loc node n0;
    n1 ← py_index nodes 1; sink ← node_loc node n1;
    Ok (src, sink)
  else
    n1 ← py_index nodes 1; sink ← node_loc node n1;
    Ok (JNull, sink).

(** Lines 38-48: one alarm. *)
Definition gt_row (analysis : string) (node : json) (label_set : gset label_key)
    (acc : gset (string * string)) (line : string) : res (gset (string * string)) :=
  let nodes := alarm_fields line in
  '(src, sink) ← alarm_locs analysis node nodes;
  c ← labelled label_set src sink;
  if (c : bool) then
    n0 ← py_index nodes 0;
    n1 ← py_index nodes 1;
    Ok ({[(n0, n1)]} ∪ acc)
  else Ok acc.

(** Lines 51-52: one written line. *)
Definition gt_line (p : string * string) : string := p.1 +:+ TAB +:+ p.2.

(** The script: [None] when the label file does not exist (line 17),
    otherwise the lines written to [GroundTruth.facts]. *)
Definition generate_ground_truth (en : Enum (string * string)) (analysis : string)
    (label_file : option json) (node_file : json) (alarm_lines : list string)
    : res (option (list string)) :=
  match label_file with
  | None => Ok None
  | Some labels =>
      label_set ← read_labels analysis labels;
      node ← jget node_file "nodes";
      gt ← res_fold (gt_row analysis node label_set) ∅ alarm_lines;
      Ok (Some (map gt_line (enum_of en gt)))
  end.

(** Example inputs: one interval label at [a.c:3], two alarms. *)
Definition T_labels : json := JArr [JObj [("file", JStr "a.c"); ("line", JNum 3)]].
Definition T_nodes : json :=
  JObj [("nodes", JObj [("main-1", JObj [("loc", JStr "a.c:3")]); ("main-2", JObj [("loc", JStr "a.c:7")])])].
Definition T_alarms : list string := ["x" +:+ TAB +:+ "main-1"; "y" +:+ TAB +:+ "main-2"].

(** ** The ground truth written *)

(** [label_set] holds exactly the entries of the labels. *)
Lemma read_labels_spec analysis labels label_set :
  read_labels analysis labels = Ok label_set →
  ∃ ls, jiter labels = Ok ls ∧
    ∀ k, k ∈ label_set ↔ ∃ l, l ∈ ls ∧ label_entry analysis l = Ok (Some k).
Proof.
  unfold read_labels. destruct (jiter labels) as [ls|] eqn:Hls; [|done]. rewrite Ok_bind.
  intros Hf. exists ls. split; [done|]. intros k.
  eapply (res_fold_collect (λ l k, label_entry analysis l = Ok (Some k))) in Hf as ->; [set_solver|].
  intros acc l r _ Hs k'. destruct (label_entry analysis l) as [[e|]|] eqn:He; [..|done];
    injection Hs as <-; set_solver.
Qed.

(** Membership of a pair of JSON values is membership of one entry. *)
Lemma label_member_spec label_set src sink :
  label_member label_set src sink = true ↔ ∃ k, k ∈ label_set ∧ label_member {[k]} src sink = true.
Proof.
  destruct src as [|?|?|s1|?|?], sink as [|?|?|s2|?|?]; simpl;
    try (split; [done|]; by intros (? & ? & ?)); setoid_rewrite bool_decide_eq_true; set_solver.
Qed.

(** One alarm adds its two node names when its locations are labelled. *)
Lemma gt_row_step analysis node label_set acc line r :
  gt_row analysis node label_set acc line = Ok r →
  ∀ p, p ∈ r ↔ p ∈ acc ∨ ∃ rest src sink, alarm_fields line = p.1 :: p.2 :: rest ∧
    alarm_locs analysis node (alarm_fields line) = Ok (src, sink) ∧ label_member label_set src sink = true.
Proof.
  unfold gt_row, labelled. destruct (alarm_locs _ _ _) as [[src sink]|] eqn:El; [|done]. rewrite Ok_bind.
  destruct (hashable src && hashable sink); [|done]. rewrite Ok_bind.
  destruct (label_member label_set src sink) eqn:Hl.
  - destruct (alarm_fields line) as [|n0 [|n1 rest]]; [done|done|]. cbn.
    intros [= <-] [a b]. rewrite elem_of_union, elem_of_singleton. simpl. split.
    + intros [[= -> ->]|?]; [right; by exists rest, src, sink|by left].
    + intros [?|(rest' & ? & ? & [= -> -> ->] & _)]; [by right|by left].
  - intros [= <-] p. split; [by left|]. intros [?|(? & ? & ? & _ & Hl' & Hlab)]; [done|].
    simpl in El. congruence.
Qed.

(** C26: what [generate-ground-truth.py] writes, when the label file
    exists and the script finishes: one line [n0\tn1] for each alarm
    whose first two fields are [n0] and [n1] and whose locations (source
    and sink for the taint analysis, sink only for the interval analysis)
    are those of an entry of a label, once each, in set order. *)
Theorem ground_truth_spec en analysis labels node_file alarms out :
  generate_ground_truth en analysis (Some labels) node_file alarms = Ok (Some out) →
  ∃ ls node gt, jiter labels = Ok ls ∧ jget node_file "nodes" = Ok node ∧
    out = map gt_line (enum_of en gt) ∧
    ∀ n0 n1, (n0, n1) ∈ gt ↔
      ∃ line rest src sink l k, line ∈ alarms ∧ alarm_fields line = n0 :: n1 :: rest ∧
        alarm_locs analysis node (n0 :: n1 :: rest) = Ok (src, sink) ∧
        l ∈ ls ∧ label_entry analysis l = Ok (Some k) ∧ label_member {[k]} src sink = true.
Proof.
  unfold generate_ground_truth.
  destruct (read_labels _ _) as [label_set|] eqn:Hl; [|done]. rewrite Ok_bind.
  destruct (jget node_file "nodes") as [node|] eqn:Hn; [|done]. rewrite Ok_bind.
  destruct (res_fold _ _ _) as [gt|] eqn:Hf; [|done]. rewrite Ok_bind. intros [= <-].
  destruct (read_labels_spec _ _ _ Hl) as (ls & Hls & Hk).
  exists ls, node, gt. split_and!; [done..|]. intros n0 n1.
  eapply res_fold_collect in Hf as ->; [|intros acc line r _; apply gt_row_step].
  split.
  - intros [?|(line & Hline & rest & src & sink & Hf & Hloc & Hlab)]; [set_solver|].
    apply label_member_spec in Hlab as (k & (l & ? & ?)%Hk & ?).
    rewrite Hf in Hloc. eauto 20.
  - intros (line & rest & src & sink & l & k & ? & Hf & Hloc & ? & ? & ?). right.
    exists line. split; [done|]. exists rest, src, sink. rewrite Hf.
    split_and!; [done..|]. apply label_member_spec. exists k. split; [|done]. apply Hk. eauto.
Qed.

Lemma ground_truth_spec_witness :
  ∃ out, generate_ground_truth elements_enum "interval" (Some T_labels) T_nodes T_alarms = Ok (Some out) ∧
    out = ["x" +:+ TAB +:+ "main-1"].
Proof.
  ok_destruct (generate_ground_truth elements_enum "interval" (Some T_labels) T_nodes T_alarms) r E.
  destruct r as [out|].
  2:{ pose proof (ok_test _ (λ r, bool_decide (is_Some r)) _ E) as Hs. discriminate (Hs ltac:(vm_eq)). }
  destruct (ground_truth_spec _ _ _ _ _ _ E) as (ls & node & gt & _).
  exists out. split; [done|].
  assert (Some out = Some ["x" +:+ TAB +:+ "main-1"]) as [= ->]; [|done].
  apply (bool_decide_eq_true_1 (Some out = _)), (ok_test _ (λ r, bool_decide (r = Some ["x" +:+ TAB +:+ "main-1"])) _ E).
  vm_eq.
Defined.
