(* ===== verification/TransNode.v ===== *)
(** * Node translation across program versions ([src/bingo/translate-cons.py] lines 30-351)

    [translate-cons.py] rewrites the clauses of the old version of a
    program so that their tuples name the nodes of the new version.  An
    old node's location [file:line] ([node_to_location]) is moved to the
    new version's lines ([trans_location], cached in [location_cache]);
    the new nodes at those lines with a matching command are candidates
    ([find_node], [match_node]); several candidates are filtered by
    stronger and stronger tests ([select_node]), and an old node without
    a unique match becomes [node-OLD].  Translations are cached in
    [node_cache] and a new node is taken at most once ([node_taken]).
    The four globals of the script are the record [TState]; the JSON
    inputs are [Json.json] values.  The three [re.sub] of
    [normalize_exp] are scanners with the leftmost, non-overlapping
    semantics of Python's [re.sub]. *)

From S2P Require Import Prelude Clauses PyStr Json.

(** ** [normalize_exp] (lines 104-108) *)

Definition is_word (c : ascii) : bool :=
  let n := nat_of_ascii c in
  bool_decide (65 ≤ n ≤ 90 ∨ 97 ≤ n ≤ 122 ∨ n = 95).

(** The longest prefix of characters satisfying [p], and the rest. *)
Fixpoint span (p : ascii → bool) (cs : list ascii) : list ascii * list ascii :=
  match cs with
  | c :: cs' => if p c then let '(d, r) := span p cs' in (c :: d, r) else ([], cs)
  | [] => ([], [])
  end.

(** The rest of [cs] after the prefix [lit], if [cs] starts with it. *)
Fixpoint chop_prefix (lit cs : list ascii) : option (list ascii) :=
  match lit, cs with
  | [], _ => Some cs
  | a :: lit, c :: cs => if Ascii.eqb a c then chop_prefix lit cs else None
  | _, [] => None
  end.

(** [re.sub(lit + '[0-9]+', rep, s)], one position at a time. *)
Fixpoint sub_lit_digits (lit rep : list ascii) (fuel : nat) (cs : list ascii) : list ascii :=
  match fuel, cs with
  | O, _ => cs
  | _, [] => []
  | S fuel, c :: cs' =>
      match chop_prefix lit cs with
      | Some rest =>
          let '(d, r) := span is_digit rest in
          if bool_decide (d = []) then c :: sub_lit_digits lit rep fuel cs'
          else rep ++ sub_lit_digits lit rep fuel r
      | None => c :: sub_lit_digits lit rep fuel cs'
      end
  end.

(** [re.sub(r'([a-zA-Z_]+)[0-9]+', r'\1', s)]: at a word character the
    greedy group takes the whole word; the match succeeds exactly when
    digits follow, and they are dropped.  When it fails, no position
    inside the word matches either, so the word is copied. *)
Fixpoint sub_word_digits (fuel : nat) (cs : list ascii) : list ascii :=
  match fuel, cs with
  | O, _ => cs
  | _, [] => []
  | S fuel, c :: cs' =>
      if is_word c then
        let '(w, r) := span is_word cs in
        let '(_, r') := span is_digit r in
        w ++ sub_word_digits fuel r'
      else c :: sub_word_digits fuel cs'
  end.

Definition re_sub (f : nat → list ascii → list ascii) (s : string) : string :=
  let cs := String.list_ascii_of_string s in
  String.string_of_list_ascii (f (length cs) cs).

Definition normalize_str (exp : string) : string :=
  let exp := re_sub (sub_lit_digits (String.list_ascii_of_string "___") []) exp in
  let exp := re_sub (sub_lit_digits (String.list_ascii_of_string "__cil_tmp")
                                    (String.list_ascii_of_string "__cil_tmp")) exp in
  re_sub sub_word_digits exp.

(** [normalize_exp(v)]: [re.sub] raises [TypeError] unless [v] is a string. *)
Definition normalize_exp (j : json) : res string :=
  match j with JStr s => Ok (normalize_str s) | _ => Err TypeError end.

(** ** Strings and dicts *)

(** [s.replace(pat, rep)] for a non-empty [pat], left to right. *)
Fixpoint replace_all (pat rep : list ascii) (fuel : nat) (cs : list ascii) : list ascii :=
  match fuel, cs with
  | O, _ => cs
  | _, [] => []
  | S fuel, c :: cs' =>
      match chop_prefix pat cs with
      | Some r => rep ++ replace_all pat rep fuel r
      | None => c :: replace_all pat rep fuel cs'
      end
  end.

Definition str_replace (pat rep s : string) : string :=
  re_sub (replace_all (String.list_ascii_of_string pat) (String.list_ascii_of_string rep)) s.

(** [s.endswith(suf)] *)
Definition ends_with (suf s : string) : bool :=
  let n := String.length s in
  let m := String.length suf in
  (m <=? n) && String.eqb (String.substring (n - m) m s) suf.

(** A dict that is iterated: its items in insertion order; assigning
    an existing key keeps its position. *)
Fixpoint odict_set {K V} `{EqDecision K} (k : K) (v : V) (d : list (K * V)) : list (K * V) :=
  match d with
  | [] => [(k, v)]
  | (k', v') :: d' => if decide (k' = k) then (k, v) :: d' else (k', v') :: odict_set k v d'
  end.

Fixpoint odict_get {K V} `{EqDecision K} (k : K) (d : list (K * V)) : option V :=
  match d with
  | [] => None
  | (k', v) :: d' => if decide (k' = k) then Some v else odict_get k d'
  end.

(** [[x for x in l if p(x)]] whose test may raise. *)
Fixpoint res_filter {A} (p : A → res bool) (l : list A) : res (list A) :=
  match l with
  | [] => Ok []
  | x :: l' => b ← p x; r ← res_filter p l'; Ok (if (b : bool) then x :: r else r)
  end.

(** A loop over [l] threading the state [S] and collecting results. *)
Fixpoint map_st {S A B} (f : S → A → res (S * B)) (s : S) (l : list A) : res (S * list B) :=
  match l with
  | [] => Ok (s, [])
  | x :: l' => '(s, y) ← f s x; '(s, ys) ← map_st f s l'; Ok (s, y :: ys)
  end.

(** ** The globals of the script (lines 52, 195, 297-298) *)

#[warnings="-notation-for-abbreviation"]
Notation location := (string * Z)%type.

Record TState := mkTState {
  location_cache : gmap location (option (gset location));
  node_cache : list (string * string);
  node_taken : gset string;
  ambiguous : list (list string * gset string)
}.

Definition empty_tstate : TState := mkTState ∅ [] ∅ [].

Definition set_location (st : TState) (loc : location) (v : option (gset location)) : TState :=
  mkTState (<[loc := v]> (location_cache st)) (node_cache st) (node_taken st) (ambiguous st).

Definition set_node (st : TState) (node new : string) : TState :=
  mkTState (location_cache st) (odict_set node new (node_cache st)) (node_taken st) (ambiguous st).

Definition take_node (st : TState) (new : string) : TState :=
  mkTState (location_cache st) (node_cache st) ({[new]} ∪ node_taken st) (ambiguous st).

(** The iteration orders of the sets of nodes and of locations. *)
Record TEnums := mkTEnums { en_node : Enum string; en_loc : Enum location }.

Section translate.
Context (E : TEnums) (old_node_info new_node_info line_matching : json).

(** [node_info['nodes'][node]] *)
Definition node_entry (node_info : json) (node : string) : res json :=
  nodes ← jget node_info "nodes";
  jget nodes node.

(** [node_info['nodes'][node]['cmd']] *)
Definition node_cmd (node_info : json) (node : string) : res json :=
  e ← node_entry node_info node;
  jget e "cmd".

(** Lines 48-50 *)
Definition node_to_location (node : string) (node_info : json) : res location :=
  info ← node_entry node_info node;
  l ← jget info "loc";
  elements ← jsplit ":" l;
  e0 ← py_index elements 0;
  e1 ← py_index elements 1;
  n ← py_int_str e1;
  Ok (e0, n).

(** ** Locations (lines 53-75) *)

(** Lines 62-66: the positions, from [idx], of the lines equal to [line]. *)
Fixpoint matching_lines (filename : string) (line : Z) (idx : nat) (news : list json) : gset location :=
  match news with
  | [] => ∅
  | n :: news =>
      (if py_eq (JNum line) n then {[(filename, Z.of_nat idx)]} else ∅)
      ∪ matching_lines filename line (S idx) news
  end.

(** Lines 70-75: [None] for no line; cached either way. *)
Definition nonempty_set (s : gset location) : option (gset location) :=
  if bool_decide (0 < size s) then Some s else None.

Definition cache_location (st : TState) (loc : location) (s : gset location)
    : TState * option (gset location) :=
  (set_location st loc (nonempty_set s), nonempty_set s).

(** Lines 53-75: a changed file maps to its matching new lines, an added
    file to none, any other file to the same line (not cached). *)
Definition trans_location (st : TState) (loc : location) : res (TState * option (gset location)) :=
  match location_cache st !! loc with
  | Some v => Ok (st, v)
  | None =>
      changed_files ← jget line_matching "changed_files";
      added_files ← jget line_matching "added_files";
      let '(filename, line) := loc in
      c ← jin filename changed_files;
      if (c : bool) then
        news ← jget changed_files filename;
        ns ← jiter news;
        Ok (cache_location st loc (matching_lines filename line 1 ns))
      else
        a ← jin filename added_files;
        if (a : bool) then Ok (cache_location st loc ∅)
        else Ok (st, Some {[(filename, line)]})
  end.

(** ** Matching commands (lines 78-193) *)

(** [cmd[0] == s] *)
Definition cmd_is (cmd : json) (s : string) : res bool :=
  c ← jidx cmd 0; Ok (jeq_str c s).

(** [cmd[0] + '-' + str(cmd[1])] *)
Definition cmd_tag (cmd : json) : res string :=
  c0 ← jidx cmd 0; a ← py_add_str c0 "-"; c1 ← jidx cmd 1; Ok (a +:+ py_str c1).

(** Lines 78-90: the weakest matching, by location and command type. *)
Definition match_node (old_cmd : json) (location : string) (info : json) : res bool :=
  is_assume ← cmd_is old_cmd "assume";
  typ ← (if (is_assume : bool) then t ← cmd_tag old_cmd; Ok (JStr t) else jidx old_cmd 0);
  loc ← jget info "loc";
  if jeq_str loc location then
    cmd ← jget info "cmd";
    c1 ← (jstartswith "assume" typ &&? cmd_is cmd "assume");
    if (c1 : bool) then t ← cmd_tag cmd; Ok (jeq_str typ t)
    else
      c2 ← (Ok (jeq_str typ "call") &&? cmd_is cmd "call");
      if (c2 : bool) then a ← jidx old_cmd 2; b ← jidx cmd 2; Ok (py_eq a b)
      else c0 ← jidx cmd 0; Ok (py_eq typ c0)
  else Ok false.

(** Lines 92-93: [node.split('-')[0]], which always exists. *)
Definition fun_name (node : string) : string :=
  match str_split "-" node with f :: _ => f | [] => "" end.

Definition same_function (old_node new_node : string) : bool :=
  bool_decide (fun_name old_node = fun_name new_node).

(** Lines 96-102 *)
Definition same_tag (old_node new_node : string) : res bool :=
  oc ← node_cmd old_node_info old_node; old_cmd ← jidx oc 0; old_tag ← jidx oc 1;
  nc ← node_cmd new_node_info new_node; new_cmd ← jidx nc 0; new_tag ← jidx nc 1;
  Ok (jeq_str old_cmd "skip" && jeq_str new_cmd "skip" && py_eq old_tag new_tag).

(** [new_cmd[i] = normalize_exp(cmd[i])] on the copy [l]. *)
Definition norm_at (l : list json) (i : nat) : res (list json) :=
  x ← py_index l i; e ← normalize_exp x; Ok (<[i := JStr e]> l).

Definition not_none_at (cmd : json) (i : nat) : res bool :=
  x ← jidx cmd i; Ok (negb (is_null x)).

(** Lines 110-140; a command that passes the tests on [cmd[0]] is a list. *)
Definition normalize_cmd (cmd : json) : res json :=
  let copy (f : list json → res (list json)) :=
    match cmd with JArr l => l' ← f l; Ok (JArr l') | _ => Err AttributeError end in
  c ← cmd_is cmd "skip"; if (c : bool) then Ok cmd else
  c ← (cmd_is cmd "set" ||? cmd_is cmd "alloc");
  if (c : bool) then copy (λ l, l ← norm_at l 1; norm_at l 2) else
  c ← cmd_is cmd "assume"; if (c : bool) then copy (λ l, norm_at l 2) else
  c ← cmd_is cmd "salloc"; if (c : bool) then copy (λ l, norm_at l 1) else
  c ← (cmd_is cmd "call" &&? not_none_at cmd 1);
  if (c : bool) then copy (λ l, l ← norm_at l 1; norm_at l 3) else
  c ← cmd_is cmd "call"; if (c : bool) then copy (λ l, norm_at l 3) else
  c ← (cmd_is cmd "return" &&? not_none_at cmd 1);
  if (c : bool) then copy (λ l, norm_at l 1) else Ok cmd.

(** [node_info['nodes'][k]['cmd']] for a JSON key [k]; a list or a dict
    is not hashable. *)
Definition node_cmd_at (node_info : json) (k : json) : res json :=
  match k with
  | JStr s => node_cmd node_info s
  | JArr _ | JObj _ => Err TypeError
  | _ => nodes ← jget node_info "nodes"; match nodes with JObj _ => Err KeyError | _ => Err TypeError end
  end.


Definition set_tuple (cmd : json) : res (list json) :=
  l ← jiter cmd; if forallb hashable l then Ok l else Err TypeError.

(** Lines 142-163: the commands of the nodes at one end ([pick]) of the
    edges whose other end ([keep]) is [node], as a set of tuples. *)
Definition neighbour_cmds (node : string) (node_info : json) (pick keep : nat) (normalize : bool)
    : res (list (list json)) :=
  edges ← jget node_info "edges";
  es ← jiter edges;
  ids ← res_map (λ e, b ← jidx e keep; if jeq_str b node then a ← jidx e pick; Ok [a] else Ok []) es;
  let ids := concat ids in
  _ ← res_map (node_cmd_at node_info) ids;
  cmds ← res_map (λ k, c ← node_cmd_at node_info k; if normalize then normalize_cmd c else Ok c) ids;
  res_map set_tuple cmds.

Definition get_parents (node : string) (node_info : json) (normalize : bool) : res (list (list json)) :=
  neighbour_cmds node node_info 0 1 normalize.

Definition get_children (node : string) (node_info : json) (normalize : bool) : res (list (list json)) :=
  neighbour_cmds node node_info 1 0 normalize.

(** Python's [==] on two sets of tuples. *)
Definition tuple_eq (a b : list json) : bool :=
  bool_decide (length a = length b) && forallb (λ p, py_eq p.1 p.2) (zip a b).

Definition py_set_eq (A B : list (list json)) : bool :=
  forallb (λ a, existsb (tuple_eq a) B) A && forallb (λ b, existsb (tuple_eq b) A) B.

(** Lines 166-174 *)
Definition same_parents (old_node new_node : string) (normalize : bool) : res bool :=
  o ← get_parents old_node old_node_info normalize;
  n ← get_parents new_node new_node_info normalize;
  Ok (py_set_eq o n).

Definition same_children (old_node new_node : string) (normalize : bool) : res bool :=
  o ← get_children old_node old_node_info normalize;
  n ← get_children new_node new_node_info normalize;
  Ok (py_set_eq o n).

(** Lines 176-183 *)
Definition match_node2 (old_node new_node : string) : res bool :=
  oc ← node_cmd old_node_info old_node; skip ← cmd_is oc "skip";
  if (skip : bool) then same_tag old_node new_node else
  oc ← node_cmd old_node_info old_node; set ← cmd_is oc "set";
  if (set : bool) then
    oc ← node_cmd old_node_info old_node; a ← jidx oc 1; x ← normalize_exp a;
    nc ← node_cmd new_node_info new_node; b ← jidx nc 1; y ← normalize_exp b;
    Ok (bool_decide (x = y))
  else Ok true.

(** Lines 189-193, on [cmd1[i]] and [cmd2[i]] *)
Definition match_exp_at (cmd1 cmd2 : json) (i : nat) : res bool :=
  a ← jidx cmd1 i; b ← jidx cmd2 i;
  x ← normalize_exp a; y ← normalize_exp b;
  Ok (bool_decide (x = y)).

(** Lines 205-213: the stronger matching. *)
Definition strong_match (old_cmd new_cmd : json) : res bool :=
  (cmd_is old_cmd "skip" &&? (a ← jidx old_cmd 1; b ← jidx new_cmd 1; Ok (py_eq a b)))
  ||? (cmd_is old_cmd "set" &&? match_exp_at old_cmd new_cmd 2)
  ||? (cmd_is old_cmd "alloc" &&? match_exp_at old_cmd new_cmd 1)
  ||? (cmd_is old_cmd "salloc" &&? match_exp_at old_cmd new_cmd 1)
  ||? (cmd_is old_cmd "assume" &&? match_exp_at old_cmd new_cmd 2)
  ||? (cmd_is old_cmd "call" &&? match_exp_at old_cmd new_cmd 2)
  ||? (cmd_is old_cmd "return" &&? not_none_at old_cmd 1 &&? not_none_at new_cmd 1
        &&? match_exp_at old_cmd new_cmd 1).

(** ** Choosing the new node (lines 185-284) *)

(** Line 187: [node_not_found] *)
Definition not_found (old_node : string) : string := old_node +:+ "-OLD".

(** [{x for x in S if p(x)}], tested in the iteration order of [S]. *)
Definition filter_set (p : string → res bool) (S : gset string) : res (gset string) :=
  l ← res_filter p (enum_of (en_node E) S); Ok (list_to_set l).

(** [S.pop()] of a one-element set. *)
Definition pop1 (S : gset string) : string :=
  match enum_of (en_node E) S with x :: _ => x | [] => "" end.

(** [if len(S) == 1: return S.pop()] and [if len(S) == 0: return
    node_not_found(old_node)], else continue with [k]. *)
Definition settle (old_node : string) (st : TState) (S : gset string)
    (k : res (TState * string)) : res (TState * string) :=
  if bool_decide (size S = 1) then Ok (st, pop1 S)
  else if bool_decide (size S = 0) then Ok (st, not_found old_node)
  else k.

(** Lines 260-266: [ambiguous[tuple(S)].add(old_node)]. *)
Definition add_ambiguous (st : TState) (S : gset string) (old_node : string) : TState :=
  let key := enum_of (en_node E) S in
  let olds := match odict_get key (ambiguous st) with Some o => {[old_node]} ∪ o | None => {[old_node]} end in
  mkTState (location_cache st) (node_cache st) (node_taken st) (odict_set key olds (ambiguous st)).

(** Lines 196-267: the filters, from the stronger matching to the
    children's exact commands. *)
Definition select_node (st : TState) (old_node : string) (node_set : gset string) : res (TState * string) :=
  old_info ← node_entry old_node_info old_node;
  f0 ← filter_set (λ c, new_info ← node_entry new_node_info c;
                        old_cmd ← jget old_info "cmd"; new_cmd ← jget new_info "cmd";
                        strong_match old_cmd new_cmd) node_set;
  if bool_decide (size f0 = 0) then Ok (st, not_found old_node) else
  f1 ← filter_set (λ n, Ok (same_function old_node n)) f0;
  settle old_node st f1 (
  f2 ← filter_set (match_node2 old_node) f1;
  settle old_node st f2 (
  f3 ← filter_set (λ n, same_parents old_node n true) f2;
  settle old_node st f3 (
  f4 ← filter_set (λ n, same_parents old_node n false) f3;
  settle old_node st f4 (
  f5 ← filter_set (λ n, same_children old_node n true) f4;
  settle old_node st f5 (
  f6 ← filter_set (λ n, same_children old_node n false) f5;
  if bool_decide (size f6 = 1) then Ok (st, pop1 f6)
  else Ok (add_ambiguous st f6 old_node, not_found old_node)))))).

(** ['{}:{}'.format(location[0], location[1])] *)
Definition location_string (l : location) : string := l.1 +:+ ":" +:+ pretty l.2.

(** Lines 269-284 *)
Definition find_node (st : TState) (old_node : string) (locations : gset location) : res (TState * string) :=
  let location_strings := map location_string (enum_of (en_loc E) locations) in
  cmd ← node_cmd old_node_info old_node;
  nodes ← jget new_node_info "nodes";
  items ← jitems nodes;
  node_set ← res_fold (λ S (ti : string * json),
                 res_fold (λ S ls, m ← match_node cmd ls ti.2; Ok (if (m : bool) then {[ti.1]} ∪ S else S))
                   S location_strings) ∅ items;
  if bool_decide (size node_set = 1) then Ok (st, pop1 node_set)
  else if bool_decide (size node_set = 0) then Ok (st, not_found old_node)
  else select_node st old_node node_set.

(** ** Translating nodes, tuples and clauses (lines 299-351) *)

(** Lines 299-325; the value of [line_matching['node_map']] is returned
    as it is, a JSON value. *)
Definition trans_node (second : bool) (st : TState) (node : string) : res (TState * json) :=
  if second then
    let base := str_replace "-OLD" "" node in
    match ends_with "-OLD" node, odict_get base (node_cache st) with
    | true, Some v => Ok (st, JStr v)
    | _, _ => Ok (st, JStr node)
    end
  else if ends_with "-ENTRY" node || ends_with "-EXIT" node then Ok (st, JStr node)
  else match odict_get node (node_cache st) with
  | Some v => Ok (st, JStr v)
  | None =>
      in_map ← (jin "node_map" line_matching &&? (nm ← jget line_matching "node_map"; jin node nm));
      if (in_map : bool) then nm ← jget line_matching "node_map"; v ← jget nm node; Ok (st, v) else
      '(file, line) ← node_to_location node old_node_info;
      if bool_decide (line = (-1)%Z) then Ok (st, JStr (not_found node)) else
      '(st, new_locations) ← trans_location st (file, line);
      match new_locations with
      | None => Ok (set_node st node (not_found node), JStr (not_found node))
      | Some locs =>
          '(st, new_node) ← find_node st node locs;
          let new_node := if bool_decide (new_node ∈ node_taken st) then not_found node else new_node in
          Ok (take_node (set_node st node new_node) new_node, JStr new_node)
      end
  end.

(** [s.split('(', 1)] unpacked into two names ([ValueError] without ['(']). *)
Definition split_paren (s : string) : res (string * string) :=
  match str_split "(" s with
  | [] | [_] => Err ValueError
  | name :: rest => Ok (name, String.concat "(" rest)
  end.

(** [re.split('\(|,|\)', s)] *)
Definition split_tuple_fields (s : string) : list string :=
  split_by (λ c, Ascii.eqb c "(" || Ascii.eqb c "," || Ascii.eqb c ")") s.

(** [",".join(l)]: [TypeError] unless every element is a string. *)
Definition join_json (sep : string) (l : list json) : res string :=
  ss ← res_map (λ j, match j with JStr s => Ok s | _ => Err TypeError end) l;
  Ok (String.concat sep ss).

(** The truth value of a Python string. *)
Definition py_truthy (s : string) : bool := negb (String.eqb s "").

(** Lines 327-338.  The test of line 329 is written
    [... or 'TrueBranch' or 'FalseBranch' or ...]: non-empty strings,
    so it holds for every name. *)
Definition trans_tuple (second : bool) (st : TState) (tup : string) : res (TState * string) :=
  '(name, _) ← split_paren tup;
  if bool_decide (name = "DUEdge") || bool_decide (name = "DUPath") || bool_decide (name = "TrueCond")
     || bool_decide (name = "FalseCond") || py_truthy "TrueBranch" || py_truthy "FalseBranch"
     || bool_decide (name = "Alarm") then
    let elems := drop 1 (map strip (removelast (split_tuple_fields tup))) in
    '(st, trans) ← map_st (trans_node second) st elems;
    s ← join_json "," trans;
    Ok (st, name +:+ "(" +:+ s +:+ ")")
  else Ok (st, tup).

(** Lines 340-345 *)
Definition trans_literal (second : bool) (st : TState) (literal : string) : res (TState * string) :=
  if String.prefix "NOT " literal then
    '(st, t) ← trans_tuple second st (String.substring 4 (String.length literal - 4) literal);
    Ok (st, "NOT " +:+ t)
  else trans_tuple second st literal.

(** Lines 347-351 *)
Definition trans_cons (second : bool) (st : TState) (cons : list string) : res (TState * list string) :=
  name ← py_index cons 0;
  '(st, lits) ← map_st (trans_literal second) st (drop 1 cons);
  Ok (st, name :: lits).

End translate.

(** ** Example inputs *)

(** Old line 3 of [a.c] is new line 4; its [set] node [main-1] is the new [main-5]. *)
Definition T_node (loc : string) (cmd : list json) : json := JObj [("loc", JStr loc); ("cmd", JArr cmd)].
Definition T_old_info : json :=
  JObj [("nodes", JObj [("main-ENTRY", T_node "a.c:1" [JStr "skip"; JStr "entry"]);
                        ("main-1", T_node "a.c:3" [JStr "set"; JStr "x1"; JStr "y___2"])]);
        ("edges", JArr [JArr [JStr "main-ENTRY"; JStr "main-1"]])].
Definition T_new_info : json :=
  JObj [("nodes", JObj [("main-ENTRY", T_node "a.c:1" [JStr "skip"; JStr "entry"]);
                        ("main-5", T_node "a.c:4" [JStr "set"; JStr "x"; JStr "y"])]);
        ("edges", JArr [JArr [JStr "main-ENTRY"; JStr "main-5"]])].
Definition T_lm : json :=
  JObj [("changed_files", JObj [("a.c", JArr [JNum 1; JNum 2; JNull; JNum 3])]);
        ("added_files", JArr []); ("unchanged_files", JArr [])].
Definition T_enums : TEnums := mkTEnums elements_enum elements_enum.

(** ** Facts about strings and dicts *)

Lemma substring_all t : String.substring 0 (String.length t) t = t.
Proof. induction t as [|c t IH]; simpl; [done|]. by rewrite IH. Qed.

Lemma substring_app s t : String.substring (String.length s) (String.length t) (s +:+ t) = t.
Proof. induction s as [|c s IH]; simpl; [apply substring_all|done]. Qed.

Lemma str_length_app s t : String.length (s +:+ t) = String.length s + String.length t.
Proof. induction s as [|c s IH]; simpl; [done|]. by rewrite IH. Qed.

Lemma ends_with_app s t : ends_with t (s +:+ t) = true.
Proof.
  unfold ends_with. rewrite str_length_app, Nat.add_sub, substring_app, String.eqb_refl.
  rewrite andb_true_r. apply Nat.leb_le. lia.
Qed.

(** An old node without a translation is marked as such. *)
Lemma not_found_old n : ends_with "-OLD" (not_found n) = true.
Proof. apply ends_with_app. Qed.

Lemma odict_get_set {K V} `{EqDecision K} (k k' : K) (v : V) d :
  odict_get k' (odict_set k v d) = if decide (k' = k) then Some v else odict_get k' d.
Proof.
  induction d as [|[k1 v1] d IH]; simpl.
  - by repeat case_decide; simplify_eq.
  - repeat (case_decide; simplify_eq/=); by rewrite ?IH.
Qed.

(** Peel the binds, [let]s and [if]s of a hypothesis [H : ... = Ok r]. *)
Ltac trans_inv H :=
  repeat (res_inv H;
          try match type of H with
              | (if ?b then _ else _) = _ => let E := fresh "E" in destruct b eqn:E
              | (match ?b with _ => _ end) = _ => let E := fresh "E" in destruct b eqn:E
              end).

Section translate_facts.
Context (E : TEnums) (old_node_info new_node_info line_matching : json).

(** The translations and the taken nodes are untouched. *)
Definition node_frame (st st' : TState) : Prop :=
  node_cache st' = node_cache st ∧ node_taken st' = node_taken st.

Lemma trans_location_frame st loc st' v :
  trans_location line_matching st loc = Ok (st', v) → node_frame st st'.
Proof.
  unfold trans_location, cache_location. intros H. trans_inv H; simplify_eq/=; done.
Qed.

Lemma select_node_frame st o S st' x :
  select_node E old_node_info new_node_info st o S = Ok (st', x) →
  node_frame st st' ∧ location_cache st' = location_cache st.
Proof.
  unfold select_node, settle. intros H. trans_inv H; simplify_eq/=; done.
Qed.

Lemma find_node_frame st o L st' x :
  find_node E old_node_info new_node_info st o L = Ok (st', x) →
  node_frame st st' ∧ location_cache st' = location_cache st.
Proof.
  unfold find_node. intros H. trans_inv H; simplify_eq/=; [done..|]. by eapply select_node_frame.
Qed.

(** The locations a lookup gives without the cache, and with the
    entries [seed] put in the cache first (line 376-381). *)
Definition location_fresh (loc : location) : res (option (gset location)) :=
  '(_, v) ← trans_location line_matching empty_tstate loc; Ok v.

Definition location_spec (seed : gmap location (option (gset location))) (loc : location)
    : res (option (gset location)) :=
  match seed !! loc with Some v => Ok v | None => location_fresh loc end.

(** The cache keeps the seeded entries and holds only what a lookup gives. *)
Definition loc_inv (seed : gmap location (option (gset location))) (st : TState) : Prop :=
  (∀ loc v, seed !! loc = Some v → location_cache st !! loc = Some v) ∧
  (∀ loc v, location_cache st !! loc = Some v → location_spec seed loc = Ok v).

Lemma loc_inv_set seed st loc v :
  loc_inv seed st → seed !! loc = None → location_fresh loc = Ok v → loc_inv seed (set_location st loc v).
Proof.
  intros [Hs Hc] Hn Hf. split; simpl.
  - intros l w Hl. rewrite lookup_insert_ne; [by apply Hs|congruence].
  - intros l w. rewrite lookup_insert_Some. intros [[<- <-]|[_ ?]]; [|by apply Hc].
    unfold location_spec. by rewrite Hn.
Qed.

(** Take apart the binds and tests of a goal, left to right. *)
Ltac goal_cases :=
  repeat (match goal with
          | |- context [mbind _ (Ok _)] => rewrite Ok_bind
          | |- context [if ?b then _ else _] =>
              lazymatch b with true => fail | false => fail | _ => let E := fresh "E" in destruct b eqn:E end
          | |- context [mbind _ ?m] =>
              lazymatch m with Ok _ => fail | Err _ => fail | _ => let E := fresh "E" in destruct m eqn:E end
          end; simpl).

(** On a cache miss, [trans_location] computes the fresh lookup and
    caches it or not. *)
Lemma trans_location_miss st loc :
  location_cache st !! loc = None →
  match trans_location line_matching st loc with
  | Ok (st', v) => location_fresh loc = Ok v ∧ (st' = st ∨ st' = set_location st loc v)
  | Err e => location_fresh loc = Err e
  end.
Proof.
  intros Hm. unfold location_fresh, trans_location, cache_location. rewrite Hm. simpl.
  destruct loc as [filename line]. rewrite lookup_empty. goal_cases; auto.
Qed.

(** C27: the cache of [trans_location] (lines 53-75) never changes an
    answer: with the cache holding the seeded [location_map] entries and
    only answers of the uncached lookup, [trans_location] returns the
    seeded entry or the uncached answer (and raises what it raises), and
    the cache keeps that property. *)
Theorem trans_location_coherent seed st loc :
  loc_inv seed st →
  match trans_location line_matching st loc with
  | Ok (st', v) => location_spec seed loc = Ok v ∧ loc_inv seed st'
  | Err e => location_spec seed loc = Err e
  end.
Proof.
  intros Hinv. destruct (location_cache st !! loc) as [v|] eqn:Hl.
  - unfold trans_location. rewrite Hl. split; [by apply (proj2 Hinv)|done].
  - assert (seed !! loc = None) as Hn.
    { destruct (seed !! loc) eqn:Hs; [|done]. apply (proj1 Hinv) in Hs. congruence. }
    pose proof (trans_location_miss st loc Hl) as Hm. unfold location_spec. rewrite Hn.
    destruct (trans_location line_matching st loc) as [[st' v]|e]; [|done].
    destruct Hm as [Hf [->| ->]]; split; [done..|]. by apply loc_inv_set.
Qed.

(** The translations are cached: a second translation of a node gives
    the same new node and changes nothing. *)
Lemma trans_node_cases st n st' v :
  trans_node E old_node_info new_node_info line_matching false st n = Ok (st', v) →
  st' = st ∨ ∃ w, v = JStr w ∧ odict_get n (node_cache st') = Some w ∧
                  (ends_with "-ENTRY" n || ends_with "-EXIT" n) = false.
Proof.
  unfold trans_node. destruct (ends_with "-ENTRY" n || ends_with "-EXIT" n) eqn:Hee;
    [intros [= <- <-]; by left|].
  destruct (odict_get n (node_cache st)) eqn:Hg; [intros [= <- <-]; by left|].
  intros H. trans_inv H; simplify_eq/=; try by left.
  all: right; eexists; split_and!; [done| |done]; by rewrite odict_get_set, decide_True.
Qed.

(** C28: [trans_node] (lines 299-325) is memoised: translating the same
    old node again, from the state the first translation left, returns
    the same value and leaves the state as it is. *)
Theorem trans_node_memo st n st' v :
  trans_node E old_node_info new_node_info line_matching false st n = Ok (st', v) →
  trans_node E old_node_info new_node_info line_matching false st' n = Ok (st', v).
Proof.
  intros H. destruct (trans_node_cases _ _ _ _ H) as [->|(w & -> & Hg & Hee)]; [done|].
  unfold trans_node. by rewrite Hee, Hg.
Qed.

(** No two old nodes share a new node, except nodes marked [-OLD]; every
    new node given out is in [node_taken]. *)
Definition taken_inv (st : TState) : Prop :=
  ∀ a w, odict_get a (node_cache st) = Some w → ends_with "-OLD" w = false →
    w ∈ node_taken st ∧ ∀ b, odict_get b (node_cache st) = Some w → b = a.

Lemma taken_inv_frame st st' : node_frame st st' → taken_inv st → taken_inv st'.
Proof. intros [Hc Ht]. unfold taken_inv. by rewrite Hc, Ht. Qed.

Lemma taken_inv_take st x : taken_inv st → taken_inv (take_node st x).
Proof. intros Hi a w Ha Hw. destruct (Hi a w Ha Hw) as [? ?]. simpl. set_solver. Qed.

Lemma taken_inv_set st n w :
  taken_inv st → odict_get n (node_cache st) = None →
  ends_with "-OLD" w = true ∨ w ∉ node_taken st →
  taken_inv (take_node (set_node st n w) w).
Proof.
  intros Hi Hn Hw a w' Ha Hw'. simpl in *. rewrite odict_get_set in Ha.
  case_decide as Han; simplify_eq.
  - destruct Hw as [Hw|Hw]; [congruence|]. split; [set_solver|].
    intros b Hb. rewrite odict_get_set in Hb. case_decide; [done|].
    destruct (Hi b _ Hb Hw') as [? _]. done.
  - destruct (Hi a w' Ha Hw') as [Hin Hu]. split; [set_solver|].
    intros b Hb. rewrite odict_get_set in Hb. case_decide; [|by apply Hu]. simplify_eq.
    destruct Hw as [Hw|Hw]; [congruence|done].
Qed.

Lemma taken_inv_set_old st n w :
  taken_inv st → odict_get n (node_cache st) = None → ends_with "-OLD" w = true →
  taken_inv (set_node st n w).
Proof.
  intros Hi Hn Hw a w' Ha Hw'. simpl in *. rewrite odict_get_set in Ha.
  case_decide; simplify_eq; [congruence|].
  destruct (Hi a w' Ha Hw') as [Hin Hu]. split; [done|].
  intros b Hb. rewrite odict_get_set in Hb. case_decide; [simplify_eq; congruence|by apply Hu].
Qed.

(** C29: [node_taken] keeps the translation one to one: if no two old
    nodes share a new node in [node_cache] and every new node given out
    is taken, [trans_node] keeps it so ([-OLD] nodes apart). *)
Theorem trans_node_injective st n st' v :
  taken_inv st →
  trans_node E old_node_info new_node_info line_matching false st n = Ok (st', v) →
  taken_inv st'.
Proof.
  intros Hi. unfold trans_node. destruct (ends_with "-ENTRY" n || ends_with "-EXIT" n);
    [by intros [= <- <-]|].
  destruct (odict_get n (node_cache st)) eqn:Hg; [by intros [= <- <-]|].
  intros H. trans_inv H; simplify_eq/=; try done.
  all: match goal with Hl : trans_location _ _ _ = Ok _ |- _ =>
         destruct (trans_location_frame _ _ _ _ Hl) as [Hc Ht] end.
  - match goal with Hf : find_node _ _ _ _ _ _ = Ok _ |- _ =>
      destruct (find_node_frame _ _ _ _ _ Hf) as [[Hc' Ht'] _] end.
    apply taken_inv_set.
    + do 2 (eapply taken_inv_frame; [by split|]). done.
    + by rewrite Hc', Hc.
    + match goal with |- context [bool_decide (?x ∈ ?T)] => destruct (bool_decide_reflect (x ∈ T)) end;
        [left; apply not_found_old|by right].
  - apply taken_inv_set_old; [by eapply taken_inv_frame|by rewrite Hc|apply not_found_old].
Qed.

End translate_facts.

Lemma trans_location_coherent_witness :
  ∃ st' v, trans_location T_lm empty_tstate ("a.c", 3%Z) = Ok (st', v) ∧
    location_spec T_lm ∅ ("a.c", 3%Z) = Ok v ∧ loc_inv T_lm ∅ st'.
Proof.
  assert (loc_inv T_lm ∅ empty_tstate) as H0 by (split; intros ??; simpl; by rewrite lookup_empty).
  pose proof (trans_location_coherent T_lm ∅ empty_tstate ("a.c", 3%Z) H0) as H.
  ok_destruct (trans_location T_lm empty_tstate ("a.c", 3%Z)) r E.
  destruct r as [st' v]. exists st', v. by split.
Defined.

Lemma trans_node_memo_witness :
  ∃ st' v, trans_node T_enums T_old_info T_new_info T_lm false empty_tstate "main-1" = Ok (st', v) ∧
    trans_node T_enums T_old_info T_new_info T_lm false st' "main-1" = Ok (st', v) ∧ jeq_str v "main-5" = true.
Proof.
  ok_destruct (trans_node T_enums T_old_info T_new_info T_lm false empty_tstate "main-1") r E.
  destruct r as [st' v]. exists st', v. split_and!; [done|exact (trans_node_memo _ _ _ _ _ _ _ _ E)|].
  apply (ok_test _ (λ r, jeq_str r.2 "main-5") _ E). vm_eq.
Defined.

Lemma trans_node_injective_witness :
  taken_inv empty_tstate ∧
  ∃ st' v, trans_node T_enums T_old_info T_new_info T_lm false empty_tstate "main-1" = Ok (st', v) ∧
    taken_inv st'.
Proof.
  assert (taken_inv empty_tstate) as H0 by (intros ???; done). split; [done|].
  ok_destruct (trans_node T_enums T_old_info T_new_info T_lm false empty_tstate "main-1") r E.
  destruct r as [st' v]. exists st', v. split; [done|]. exact (trans_node_injective _ _ _ _ _ _ _ _ H0 E).
Defined.

(** ** The scanners' fuel

    Each step of a scanner consumes at least one character, so the
    length of the string is enough fuel: more fuel gives the same
    result. *)

Lemma span_app p cs d r : span p cs = (d, r) → cs = d ++ r.
Proof.
  revert d r. induction cs as [|c cs IH]; intros d r; simpl; [by intros [= <- <-]|].
  destruct (p c); [|by intros [= <- <-]].
  destruct (span p cs) as [d' r'] eqn:E. intros [= <- <-]. simpl. by rewrite (IH _ _ eq_refl).
Qed.

Lemma chop_prefix_app lit cs r : chop_prefix lit cs = Some r → cs = lit ++ r.
Proof.
  revert cs. induction lit as [|a lit IH]; intros [|c cs]; simpl; try congruence.
  destruct (Ascii.eqb_spec a c); [subst|done]. intros H. by rewrite (IH _ H).
Qed.

Lemma sub_lit_digits_fuel lit rep n m cs :
  length cs ≤ n → length cs ≤ m → sub_lit_digits lit rep n cs = sub_lit_digits lit rep m cs.
Proof.
  revert m cs. induction n as [|n IH]; intros [|m] [|c cs] Hn Hm; simpl in *; try done; try lia.
  destruct (chop_prefix lit (c :: cs)) as [rest|] eqn:Hc; [|f_equal; apply IH; lia].
  destruct (span is_digit rest) as [d r] eqn:Hs. case_bool_decide; [f_equal; apply IH; lia|].
  apply chop_prefix_app in Hc. apply span_app in Hs. subst rest. f_equal.
  assert (length (c :: cs) = length lit + (length d + length r)) as Hl by (rewrite Hc, !length_app; lia).
  destruct d; [done|]. simpl in Hl. apply IH; lia.
Qed.

Lemma sub_word_digits_fuel n m cs :
  length cs ≤ n → length cs ≤ m → sub_word_digits n cs = sub_word_digits m cs.
Proof.
  revert m cs. induction n as [|n IH]; intros [|m] [|c cs] Hn Hm; simpl in *; try done; try lia.
  destruct (is_word c) eqn:Hw; [|f_equal; apply IH; lia].
  destruct (span is_word cs) as [w0 r0] eqn:Hs0. destruct (span is_digit r0) as [d r] eqn:Hs.
  apply span_app in Hs0. apply span_app in Hs. subst. f_equal.
  rewrite !length_app in Hn, Hm. apply IH; lia.
Qed.

Lemma replace_all_fuel pat rep n m cs :
  pat ≠ [] → length cs ≤ n → length cs ≤ m → replace_all pat rep n cs = replace_all pat rep m cs.
Proof.
  intros Hp. revert m cs. induction n as [|n IH]; intros [|m] [|c cs] Hn Hm; simpl in *; try done; try lia.
  destruct (chop_prefix pat (c :: cs)) as [r|] eqn:Hc; [|f_equal; apply IH; lia].
  apply chop_prefix_app in Hc. f_equal.
  assert (length (c :: cs) = length pat + length r) as Hl by (rewrite Hc, length_app; lia).
  destruct pat; [done|]. simpl in Hl. apply IH; lia.
Qed.
