(* ===== verification/TransMain.v ===== *)
(** * The script [translate-cons.py] (lines 34-46 and 353-488)

    After reading its inputs the script collects the unchanged
    functions, seeds [location_cache] from [line_matching['location_map']],
    maps the nodes of each unchanged function to the new ones in the
    order [compare_node] sorts them, translates every clause
    ([TransNode.trans_cons]), resolves the ambiguous sets whose sizes
    agree, and writes three files: the clauses with the [-OLD] nodes
    translated again, [translation.map] and [OldAlarm.txt].  Python's
    [sorted] with [cmp_to_key] is the interface [PySort]: with a
    comparator that is not a consistent order its result depends on
    TimSort's comparisons, so the model fixes only that it returns a
    permutation. *)

From S2P Require Import Prelude Clauses PyStr Json TransNode.

(** [sorted(l, key=cmp_to_key(cmp))]; it raises what [cmp] raises. *)
Class PySort := {
  py_sorted : (string → string → res Z) → list string → res (list string);
  py_sorted_perm cmp l l' : py_sorted cmp l = Ok l' → l' ≡ₚ l
}.

(** ** Reading the inputs (lines 34-46) *)

(** Lines 34-38: [read_alarm_set] *)
Definition read_alarm_set (lines : list string) : gset string := list_to_set (map strip lines).

(** Lines 40-46: [read_cons], a clause as the list of its stripped fields. *)
Definition read_cons (lines : list string) : list (list string) :=
  map (λ line, map strip (split_cons (strip line))) lines.

(** ** [compare_node] (lines 413-421) *)

(** Python's [s1 > s2] on strings: code point order. *)
Definition str_gt (s1 s2 : string) : bool :=
  match String.compare s1 s2 with Gt => true | _ => false end.

(** Nodes of one function compare by their numeric ids; nodes of two
    functions by [function_name1 > function_name2], a bool, that is 1
    or 0. *)
Definition compare_node (node1 node2 : string) : res Z :=
  let f1 := fun_name node1 in
  let f2 := fun_name node2 in
  if bool_decide (f1 = f2) then
    a ← py_index (str_split "-" node1) 1; id1 ← py_int_str a;
    b ← py_index (str_split "-" node2) 1; id2 ← py_int_str b;
    Ok (id1 - id2)%Z
  else Ok (if str_gt f1 f2 then 1%Z else 0%Z).

(** ** The unchanged functions (lines 363-375) *)

(** Lines 364-370: a function whose [ENTRY] node is in a file listed
    as unchanged and not as changed or added. *)
Definition unchanged_step (lm : json) (U : gset string) (ni : string * json) : res (gset string) :=
  let '(node, info) := ni in
  l ← jget info "loc"; parts ← jsplit ":" l; filename ← py_index parts 0;
  c ← (Ok (ends_with "ENTRY" node)
        &&? (u ← jget lm "unchanged_files"; jin filename u)
        &&? (ch ← jget lm "changed_files"; b ← jin filename ch; Ok (negb b))
        &&? (ad ← jget lm "added_files"; b ← jin filename ad; Ok (negb b)));
  Ok (if (c : bool) then {[fun_name node]} ∪ U else U).

(** Lines 372-373: a listed function name; a list or a dict is not
    hashable.  A number, a bool or [None] joins the set but names no
    node, so it changes nothing: it is left out. *)
Definition add_function (U : gset string) (j : json) : res (gset string) :=
  match j with
  | JStr f => Ok ({[f]} ∪ U)
  | JArr _ | JObj _ => Err TypeError
  | _ => Ok U
  end.

Definition unchanged_functions (old_node_info lm : json) : res (gset string) :=
  nodes ← jget old_node_info "nodes"; items ← jitems nodes;
  U ← res_fold (unchanged_step lm) ∅ items;
  listed ← jin "unchanged_functions" lm;
  if (listed : bool) then fs ← jget lm "unchanged_functions"; l ← jiter fs; res_fold add_function U l
  else Ok U.

(** ** [location_map] (lines 376-381) *)

(** ["file:line"] as a location. *)
Definition parse_location (parts : list string) : res location :=
  f ← py_index parts 0; a ← py_index parts 1; n ← py_int_str a; Ok (f, n).

Definition seed_locations (lm : json) (st : TState) : res TState :=
  has ← jin "location_map" lm;
  if (has : bool) then
    m ← jget lm "location_map"; items ← jitems m;
    res_fold (λ st (p : string * json),
        old_location ← parse_location (str_split ":" p.1);
        parts ← jsplit ":" p.2; new_location ← parse_location parts;
        Ok (set_location st old_location (Some {[new_location]}))) st items
  else Ok st.

(** ** The nodes of the unchanged functions (lines 385-447) *)

(** [d[k].append(x)] on an insertion-ordered dict whose key [k] exists. *)
Definition odict_append (k x : string) (d : list (string * list string)) : list (string * list string) :=
  map (λ p, if bool_decide (p.1 = k) then (p.1, p.2 ++ [x]) else p) d.

(** Lines 387-400: one node; [node.split('-')[1]] raises [IndexError]
    for a name without ['-']. *)
Definition collect_step (U : gset string) (acc : list (string * list string)) (ni : string * json)
    : res (list (string * list string)) :=
  let parts := str_split "-" ni.1 in
  functionname ← py_index parts 0; nodeid ← py_index parts 1;
  if bool_decide (functionname ∈ U) && negb (String.eqb nodeid "ENTRY") && negb (String.eqb nodeid "EXIT")
  then Ok (odict_append functionname ni.1 acc) else Ok acc.

Definition collect_nodes (en_fun : Enum string) (U : gset string) (node_info : json)
    : res (list (string * list string)) :=
  nodes ← jget node_info "nodes"; items ← jitems nodes;
  res_fold (collect_step U) (map (λ f, (f, [])) (enum_of en_fun U)) items.

(** Lines 402-410: a function whose two versions have different node
    counts is dropped from both dicts. *)
Definition drop_unequal (olds news : list (string * list string))
    : list (string * list string) * list (string * list string) :=
  let keep f := bool_decide (length (default [] (odict_get f olds)) = length (default [] (odict_get f news))) in
  (filter (λ p, keep p.1) olds, filter (λ p, keep p.1) news).

(** Lines 446-447 and 465-467: [node_cache[old] = new] along [zip]. *)
Definition cache_pairs (st : TState) (olds news : list string) : TState :=
  foldl (λ st (p : string * string), set_node st p.1 p.2) st (zip olds news).

Section script.
Context `{PySort} (E : TEnums) (en_fun en_alarm en_trans : Enum string).

(** Lines 442-447 *)
Definition pair_unchanged (st : TState) (olds news : list (string * list string)) : res TState :=
  so ← py_sorted compare_node (concat (map snd olds));
  sn ← py_sorted compare_node (concat (map snd news));
  Ok (cache_pairs st so sn).

(** Lines 462-467: an ambiguous set of new nodes with as many old nodes. *)
Definition resolve_ambiguous (st : TState) : res TState :=
  res_fold (λ st (p : list string * gset string),
      if bool_decide (size p.2 = length p.1) then
        so ← py_sorted compare_node (enum_of (en_node E) p.2);
        sn ← py_sorted compare_node p.1;
        Ok (cache_pairs st so sn)
      else Ok st) st (ambiguous st).

(** Lines 469-474: one line of the translated clause file. *)
Definition output_line (oni nni lm : json) (st : TState) (cons : list string) : res (TState * string) :=
  name ← py_index cons 0;
  '(st, rule) ← map_st (λ st l, if bool_decide (is_Some (String.index 0 "-OLD" l))
                                then trans_literal E oni nni lm true st l else Ok (st, l))
                 st (drop 1 cons);
  Ok (st, name +:+ ": " +:+ String.concat ", " rule).

(** The three files the script writes. *)
Record TOut := mkTOut {
  trans_file : list string;
  translation_map : list string;
  old_alarm_file : list string
}.

(** Lines 353-488: the script, from the four input files as lines and
    the three JSON files. *)
Definition translate_cons (old_cons old_alarms : list string) (oni nni lm : json) : res TOut :=
  let old_cons_all := read_cons old_cons in
  let old_alarm_set := read_alarm_set old_alarms in
  U ← unchanged_functions oni lm;
  st ← seed_locations lm empty_tstate;
  olds ← collect_nodes en_fun U oni;
  news ← collect_nodes en_fun U nni;
  let '(olds, news) := drop_unequal olds news in
  st ← pair_unchanged st olds news;
  '(st, trans_cons_all) ← map_st (trans_cons E oni nni lm false) st old_cons_all;
  st ← resolve_ambiguous st;
  '(st, lines) ← map_st (output_line oni nni lm) st trans_cons_all;
  '(st, trans_alarms) ← map_st (trans_tuple E oni nni lm false) st (enum_of en_alarm old_alarm_set);
  Ok (mkTOut lines
             (map (λ p, p.1 +:+ " -> " +:+ p.2) (node_cache st))
             (enum_of en_trans (list_to_set trans_alarms))).

End script.

(** ** An instance of the sort and an example *)

(** Insertion sort with a comparator that may raise. *)
Fixpoint ins_cmp (cmp : string → string → res Z) (x : string) (l : list string) : res (list string) :=
  match l with
  | [] => Ok [x]
  | y :: l' => c ← cmp x y; if (c <=? 0)%Z then Ok (x :: y :: l') else r ← ins_cmp cmp x l'; Ok (y :: r)
  end.

Fixpoint isort_cmp (cmp : string → string → res Z) (l : list string) : res (list string) :=
  match l with
  | [] => Ok []
  | x :: l' => s ← isort_cmp cmp l'; ins_cmp cmp x s
  end.

(** [main] is listed as unchanged, so its node [main-1] is paired with
    [main-5] (line 447) without taking [main-5]; the node [foo-2] at the
    same old line then also finds [main-5]. *)
Definition T2_old_info : json :=
  JObj [("nodes", JObj [("main-1", T_node "a.c:3" [JStr "set"; JStr "x1"; JStr "y"]);
                        ("foo-2", T_node "a.c:3" [JStr "set"; JStr "z"; JStr "y"])]);
        ("edges", JArr [])].
Definition T2_new_info : json :=
  JObj [("nodes", JObj [("main-5", T_node "a.c:4" [JStr "set"; JStr "x"; JStr "y"])]); ("edges", JArr [])].
Definition T2_lm : json :=
  JObj [("changed_files", JObj [("a.c", JArr [JNum 1; JNum 2; JNull; JNum 3])]);
        ("added_files", JArr []); ("unchanged_files", JArr []);
        ("unchanged_functions", JArr [JStr "main"])].
Definition T2_cons : list string := ["R1: NOT DUPath(foo-2,foo-2), Alarm(foo-2,foo-2)"].

(** The clause of the example in [TransNode]. *)
Definition T_cons : list string := ["R1: NOT DUPath(main-1,main-1), Alarm(main-1,main-1)"].

Lemma ins_cmp_perm cmp x l r : ins_cmp cmp x l = Ok r → r ≡ₚ x :: l.
Proof.
  revert r. induction l as [|y l IH]; intros r; simpl; [by intros [= <-]|].
  destruct (cmp x y) as [c|]; simpl; [|done]. case_match; [by intros [= <-]|].
  destruct (ins_cmp cmp x l) eqn:E; simpl; [|done]. intros [= <-].
  rewrite (IH _ eq_refl). by constructor.
Qed.

#[local] Program Instance isort_py : PySort := {| py_sorted := isort_cmp |}.
Next Obligation.
  intros cmp l. induction l as [|x l IH]; intros l'; simpl; [by intros [= <-]|].
  destruct (isort_cmp cmp l) eqn:E; simpl; [|done]. intros Hi.
  rewrite (ins_cmp_perm _ _ _ _ Hi), (IH _ eq_refl). done.
Qed.

(** ** The translated clause file *)

(** A loop that threads the state gives one result per element. *)
Lemma map_st_Forall2 {S A B} (f : S → A → res (S * B)) s l s' ys :
  map_st f s l = Ok (s', ys) → Forall2 (λ x y, ∃ s1 s2, f s1 x = Ok (s2, y)) l ys.
Proof.
  revert s ys. induction l as [|x l IH]; intros s ys; simpl; [by intros [= <- <-]|].
  destruct (f s x) as [[s1 y]|] eqn:Hf; simpl; [|done].
  destruct (map_st f s1 l) as [[s2 ys']|] eqn:Hm; simpl; [|done]. intros [= <- <-].
  constructor; [by exists s, s1|]. by eapply IH.
Qed.

(** [trans_cons] keeps the rule name in front. *)
Lemma trans_cons_name E oni nni lm second st c st' c' :
  trans_cons E oni nni lm second st c = Ok (st', c') → ∃ name, c !! 0 = Some name ∧ c' !! 0 = Some name.
Proof.
  unfold trans_cons, py_index. destruct (c !! 0) as [name|]; simpl; [|done].
  destruct (map_st _ _ _) as [[??]|]; simpl; [|done]. intros [= <- <-]. by exists name.
Qed.

Lemma output_line_name oni nni lm E st c st' line :
  output_line E oni nni lm st c = Ok (st', line) →
  ∃ name rest, c !! 0 = Some name ∧ line = name +:+ ": " +:+ rest.
Proof.
  unfold output_line, py_index. destruct (c !! 0) as [name|]; simpl; [|done].
  destruct (map_st _ _ _) as [[??]|]; simpl; [|done]. intros [= <- <-]. by eexists _, _.
Qed.

Lemma Forall2_chain {A B C} (P : A → B → Prop) (Q : B → C → Prop) (R : A → C → Prop) l1 l2 l3 :
  Forall2 P l1 l2 → Forall2 Q l2 l3 → (∀ x y z, P x y → Q y z → R x z) → Forall2 R l1 l3.
Proof.
  intros H1. revert l3. induction H1; intros l3 H2 HR; inversion H2; subst; constructor; eauto.
Qed.

(** C31: the translated clause file has one line per clause of the old
    constraint file, in the same order, each starting with the clause's
    rule name and [": "] (lines 459 and 469-474). *)
Theorem translate_cons_lines `{PySort} E en_fun en_alarm en_trans old_cons old_alarms oni nni lm out :
  translate_cons E en_fun en_alarm en_trans old_cons old_alarms oni nni lm = Ok out →
  Forall2 (λ c line, ∃ name rest, c !! 0 = Some name ∧ line = name +:+ ": " +:+ rest)
    (read_cons old_cons) (trans_file out).
Proof.
  unfold translate_cons. intros Ht. res_inv Ht. injection Ht as <-. simpl.
  match goal with
  | H1 : map_st (trans_cons _ _ _ _ _) _ _ = Ok _, H2 : map_st (output_line _ _ _ _) _ _ = Ok _ |- _ =>
      apply map_st_Forall2 in H1; apply map_st_Forall2 in H2
  end.
  eapply Forall2_chain; [done..|]. intros c c' line (? & ? & Hc) (? & ? & Hl).
  destruct (trans_cons_name _ _ _ _ _ _ _ _ _ Hc) as (name & H0 & H0').
  destruct (output_line_name _ _ _ _ _ _ _ _ Hl) as (name' & rest & H1 & ->).
  exists name, rest. split; [done|]. congruence.
Qed.

Lemma translate_cons_lines_witness :
  ∃ out, @translate_cons isort_py T_enums elements_enum elements_enum elements_enum T_cons
           ["Alarm(main-1,main-1)"] T_old_info T_new_info T_lm = Ok out ∧
    Forall2 (λ c line, ∃ name rest, c !! 0 = Some name ∧ line = name +:+ ": " +:+ rest)
      (read_cons T_cons) (trans_file out).
Proof.
  ok_destruct (@translate_cons isort_py T_enums elements_enum elements_enum elements_enum T_cons
                 ["Alarm(main-1,main-1)"] T_old_info T_new_info T_lm) out E.
  exists out. split; [done|]. exact (translate_cons_lines _ _ _ _ _ _ _ _ _ _ E).
Defined.

(** ** [compare_node] is not a comparison *)

(** C30: for nodes of two different functions, [compare_node] (lines
    413-421) never answers "less": it calls the pair with the smaller
    function name equal and the other order greater, so the sort of
    lines 444-445 has no consistent order to follow. *)
Theorem compare_node_inconsistent n1 n2 :
  fun_name n1 ≠ fun_name n2 →
  (compare_node n1 n2 = Ok 0%Z ∧ compare_node n2 n1 = Ok 1%Z) ∨
  (compare_node n1 n2 = Ok 1%Z ∧ compare_node n2 n1 = Ok 0%Z).
Proof.
  intros Hne. unfold compare_node, str_gt.
  rewrite !bool_decide_false by congruence.
  rewrite (String.compare_antisym (fun_name n2) (fun_name n1)).
  destruct (String.compare (fun_name n1) (fun_name n2)) eqn:Hc; simpl; [|by left|by right].
  apply String.compare_eq_iff in Hc. congruence.
Qed.

Lemma compare_node_inconsistent_witness :
  compare_node "f-1" "g-7" = Ok 0%Z ∧ compare_node "g-7" "f-1" = Ok 1%Z.
Proof.
  destruct (compare_node_inconsistent "f-1" "g-7" ltac:(vm_compute; congruence)) as [H|[H1 H2]];
    [done|]. vm_compute in H1. discriminate.
Defined.

(** [node_taken] does not protect the new nodes paired with the
    nodes of unchanged functions (line 447): in this run the old nodes
    [main-1] and [foo-2] are both translated to the new node [main-5],
    and the two derivations merge. *)
Example translate_cons_shared_node :
  ∃ out, @translate_cons isort_py T_enums elements_enum elements_enum elements_enum T2_cons []
           T2_old_info T2_new_info T2_lm = Ok out ∧
    translation_map out = ["main-1 -> main-5"; "foo-2 -> main-5"] ∧
    trans_file out = ["R1: NOT DUPath(main-5,main-5), Alarm(main-5,main-5)"].
Proof.
  ok_destruct (@translate_cons isort_py T_enums elements_enum elements_enum elements_enum T2_cons []
                 T2_old_info T2_new_info T2_lm) out E.
  exists out. split_and!; [done| |].
  - apply (bool_decide_eq_true_1 (translation_map out = ["main-1 -> main-5"; "foo-2 -> main-5"])),
      (ok_test _ (λ o, bool_decide (translation_map o = ["main-1 -> main-5"; "foo-2 -> main-5"])) _ E).
    vm_eq.
  - apply (bool_decide_eq_true_1 (trans_file out = ["R1: NOT DUPath(main-5,main-5), Alarm(main-5,main-5)"])),
      (ok_test _ (λ o, bool_decide (trans_file o = ["R1: NOT DUPath(main-5,main-5), Alarm(main-5,main-5)"])) _ E).
    vm_eq.
Qed.
