(* ===== verification/Plot.v ===== *)
(** * The sensitivity figures ([src/script/plot_sensitivity.py])

    The script defines three figures over the statistics files of ten
    benchmarks and never calls any of them: running it draws and writes
    nothing ([plot_sensitivity_main]).  [figure1] and [figure2] begin
    with [ax.set_ylim], but the module binds no [ax] ([figure3] binds it
    locally), so calling them raises [NameError]; like [Graph.build_graph]
    they take that binding as a flag, [module_binds_ax], which is
    [false]; with [ax] bound they would still raise [KeyError] at
    [marker['0.05']].  What the figures compute is modelled: the positions of the
    true alarms in each run (scaled by the alarm count or by the batch
    run's length) and the bars of [figure3], the ratios of iteration
    counts, with the placement of the labels of bars above 2.  Python's
    true division is exact ([Q]); drawing is not modelled, nor the text
    ['{0:.1f}'] of a label.  A file is given as [Some] of its lines,
    a missing one as [None] ([OSError]). *)

From Stdlib Require Import QArith.
From S2P Require Import Prelude Clauses Auc.

(** Whether the module binds the name [ax]: it does not. *)
Definition module_binds_ax : bool := false.

Definition epsilons3 : list string := ["0.001"; "0.005"; "0.01"].



(** The files of one benchmark (lines 66, 72, 90, 120): the alarms, the
    batch run's statistics, and each epsilon run's statistics. *)
Record Bench := mkBench {
  alarm_file : option (list string);
  batch_file : option (list string);
  eps_file : string → option (list string)
}.

Definition open_lines (f : option (list string)) : res (list string) :=
  match f with Some l => Ok l | None => Err OSError end.

(** [a / b] on integers (Python 3 true division). *)
Definition py_div (a b : Z) : res Q :=
  if bool_decide (b = 0%Z) then Err ZeroDivisionError else Ok (inject_Z a / inject_Z b)%Q.







(** Lines 140-146: the x coordinate of the label of a bar above 2. *)
Definition label_x (xidx i : nat) (eps : string) : Q :=
  let k := if bool_decide (xidx = 5) then 17#10
           else if bool_decide (xidx = 8) && bool_decide (eps = "0.005") then 16#10
           else 15#10 in
  (inject_Z (Z.of_nat xidx) + (inject_Z (Z.of_nat i) - k) * (35#100))%Q.

(** A bar of figure 3: its x coordinate, its height and its label's x. *)
Record Bar := mkBar { bar_x : Q; bar_height : Q; bar_label : option Q }.

(** Lines 119-148: the bars of figure 3, the iterations of each run
    over those of the run with epsilon 0.001. *)
Definition figure3 (benches : list Bench) : res (list Bar) :=
  rows ← res_map (λ '(xidx, b),
      base ← open_lines (eps_file b "0.001");
      let base_iters := (Z.of_nat (length base) - 1)%Z in
      res_map (λ '(i, eps),
          lines ← open_lines (eps_file b eps);
          let iters := (Z.of_nat (length lines) - 1)%Z in
          h ← py_div iters base_iters;
          Ok (mkBar (inject_Z (Z.of_nat xidx) + (inject_Z (Z.of_nat i) - 1) * (28#100))%Q h
                    (if Qlt_le_dec 2 h then Some (label_x xidx i eps) else None)))
        (imap pair epsilons3)) (imap pair benches);
  Ok (concat rows).

(** The script: module-level code only, which calls no figure; the
    files it writes. *)
Definition plot_sensitivity_main : list string := [].

(** ** Figures 1 and 2 draw nothing *)





